(** * extlib: growable array, growable string and open-addressing hash table

    A shallow embedding of the C sources of extlib (ext_vector.h,
    ext_string.c, ext_map.c) and the properties of their specification.

    Conventions shared by the three libraries:
    - a [size_t] is a [Z] in [0, 2^64); every C operation that can wrap is
      written with the reduction [size_t] made explicit; a [uint32_t] is a
      [Z] reduced by [uint32];
    - a pointer to an array is the list of the cells it points to; [NULL] is
      the empty list (for the hash table) or [None] (for the vector handle);
    - a read or a write outside the allocated cells, a failed [assert] and a
      loop that never exits have no result: the operation returns [None]. *)

From Stdlib Require Import ZArith Lia List Bool Strings.Byte Ascii String.
From stdpp Require Import base option list.

Local Open Scope Z_scope.

(** ** Machine integers *)

Definition SIZE_MAX : Z := 2 ^ 64 - 1.
Definition size_t (z : Z) : Z := z mod 2 ^ 64.
Definition uint32 (z : Z) : Z := z mod 2 ^ 32.
Definition INT_MAX : Z := 2 ^ 31 - 1.

(** ** Memory cells addressed by a [size_t] index *)

Definition load {A} (l : list A) (i : Z) : option A :=
  if (0 <=? i) && (i <? Z.of_nat (length l)) then l !! Z.to_nat i else None.

Definition store {A} (l : list A) (i : Z) (x : A) : option (list A) :=
  if (0 <=? i) && (i <? Z.of_nat (length l))
  then Some (<[Z.to_nat i := x]> l) else None.

(** ** The hash table (ext_map.c) *)

Module Map.

Definition INITIAL_CAPACITY : Z := 8.
Definition EMPTY_MARK : Z := 0.
Definition TOMB_MARK : Z := 1.

(** A bucket [struct ext_map_bucket { uint32_t hash; }] is its only field. *)
Definition IS_TOMB (bucket : Z) : bool := bucket =? TOMB_MARK.
Definition IS_EMPTY (bucket : Z) : bool := bucket =? EMPTY_MARK.
Definition IS_VALID (bucket : Z) : bool :=
  negb (IS_EMPTY bucket) && negb (IS_TOMB bucket).

Section ext_map.

(** A record of [entry_sz] bytes is a value of [E]: the entry array, which
    [entry_at] addresses with stride [entry_sz], is a list of records and a
    [memcpy] of [entry_sz] bytes assigns one record.  [junk] is what a cell
    returned by [malloc] holds before it is written. *)
Context {E : Type}.
Variable junk : E.

Record ext_map : Type := mk_map {
  hash : E -> Z;
  compare : E -> E -> bool;
  entry_sz : Z;
  capacity_mask : Z;
  num_entries : Z;
  size : Z;
  buckets : list Z;
  entries : list E
}.

Definition entry_at (entries : list E) (idx : Z) : option E := load entries idx.

(** Assignment to the mutable fields of [*map]; the callbacks and
    [entry_sz] are fixed by [ext_map_init]. *)
Definition set_fields (map : ext_map) (capacity_mask' num_entries' size' : Z)
    (buckets' : list Z) (entries' : list E) : ext_map :=
  {| hash := hash map; compare := compare map; entry_sz := entry_sz map;
     capacity_mask := capacity_mask'; num_entries := num_entries';
     size := size'; buckets := buckets'; entries := entries' |}.

(** The body of the [for] loop of [map_grow]: [n] iterations from index [i],
    on the new bucket array, the new entry array and [num_entries]. *)
Fixpoint map_grow_loop (map : ext_map) (new_cap : Z) (n : nat) (i : Z)
    (st : list Z * list E * Z) : option (list Z * list E * Z) :=
  match n with
  | O => Some st
  | S n' =>
    let '(new_buckets, new_entries, num) := st in
    buck ← load (buckets map) i;
    if IS_VALID buck then
      let new_idx := Z.land buck (size_t (new_cap - 1)) in
      new_buckets' ← store new_buckets new_idx buck;
      e ← entry_at (entries map) i;
      new_entries' ← store new_entries new_idx e;
      map_grow_loop map new_cap n' (size_t (i + 1))
        (new_buckets', new_entries', size_t (num + 1))
    else map_grow_loop map new_cap n' (size_t (i + 1)) st
  end.

Definition map_grow (map : ext_map) : option ext_map :=
  let new_cap :=
    if capacity_mask map =? 0 then INITIAL_CAPACITY
    else size_t (size_t (capacity_mask map + 1) * 2) in
  let new_entries := replicate (Z.to_nat new_cap) junk in
  let new_buckets := replicate (Z.to_nat new_cap) EMPTY_MARK in
  '(new_buckets, new_entries, num) ←
    (if 0 <? capacity_mask map
     then map_grow_loop map new_cap (Z.to_nat (capacity_mask map + 1)) 0
            (new_buckets, new_entries, 0)
     else Some (new_buckets, new_entries, num_entries map));
  Some (set_fields map (size_t (new_cap - 1)) num (size map)
          new_buckets new_entries).

Definition hash_entry (map : ext_map) (entry : E) : Z :=
  let hash := uint32 (hash map entry) in
  if hash <? 2 then hash + 2 else hash.

(** [find_index]: the [for(;;)] loop, run for at most [fuel] iterations. *)
Fixpoint find_index_loop (map : ext_map) (entry : E) (hash : Z) (fuel : nat)
    (idx : Z) (tomb_found : bool) (tomb_idx : Z) : option Z :=
  match fuel with
  | O => None
  | S fuel' =>
    buck ← load (buckets map) idx;
    let next := Z.land (size_t (idx + 1)) (capacity_mask map) in
    if negb (IS_VALID buck) then
      if IS_EMPTY buck then Some (if tomb_found then tomb_idx else idx)
      else if negb tomb_found
        then find_index_loop map entry hash fuel' next true idx
        else find_index_loop map entry hash fuel' next tomb_found tomb_idx
    else if buck =? hash then
      e ← entry_at (entries map) idx;
      if compare map e entry then Some idx
      else find_index_loop map entry hash fuel' next tomb_found tomb_idx
    else find_index_loop map entry hash fuel' next tomb_found tomb_idx
  end.

Definition find_index_fuel (fuel : nat) (map : ext_map) (entry : E) (hash : Z)
    : option Z :=
  find_index_loop map entry hash fuel (Z.land hash (capacity_mask map)) false 0.

(** One pass over the bucket array decides the scan: a loop that has not
    returned after [capacity] iterations is back at its first slot. *)
Definition find_index (map : ext_map) (entry : E) (hash : Z) : option Z :=
  find_index_fuel (length (buckets map)) map entry hash.

Definition ext_map_init (entry_sz : Z) (hash : E -> Z) (compare : E -> E -> bool)
    : ext_map :=
  mk_map hash compare entry_sz 0 0 0 [] [].

(** [ext_map_get] returns the record the result pointer points to, [None]
    for [NULL]; the outer option is the outcome of the call itself. *)
Definition ext_map_get (map : ext_map) (entry : E) : option (option E) :=
  let hash := hash_entry map entry in
  idx ← find_index map entry hash;
  buck ← load (buckets map) idx;
  if negb (IS_VALID buck) then Some None
  else e ← entry_at (entries map) idx; Some (Some e).

(** The test [num_entries + 1 > (capacity_mask + 1) * 0.75] is made in
    [double]; both sides are exact below 2^51, where it is this comparison
    of integers. *)
Definition over_load (map : ext_map) : bool :=
  3 * size_t (capacity_mask map + 1) <? 4 * size_t (num_entries map + 1).

Definition put_grow (map : ext_map) : option ext_map :=
  if over_load map then map_grow map else Some map.

Definition put_at (map : ext_map) (entry : E) : option (ext_map * bool) :=
  let hash := hash_entry map entry in
  idx ← find_index map entry hash;
  buck ← load (buckets map) idx;
  let is_new := negb (IS_VALID buck) in
  let size' := if is_new then size_t (size map + 1) else size map in
  let num' := if is_new && IS_EMPTY buck
              then size_t (num_entries map + 1) else num_entries map in
  buckets' ← store (buckets map) idx hash;
  entries' ← store (entries map) idx entry;
  Some (set_fields map (capacity_mask map) num' size' buckets' entries',
        is_new).

Definition ext_map_put (map : ext_map) (entry : E) : option (ext_map * bool) :=
  map1 ← put_grow map; put_at map1 entry.

Definition ext_map_erase (map : ext_map) (entry : E) : option (ext_map * bool) :=
  let hash := hash_entry map entry in
  idx ← find_index map entry hash;
  buck ← load (buckets map) idx;
  if IS_VALID buck then
    buckets' ← store (buckets map) idx TOMB_MARK;
    Some (set_fields map (capacity_mask map) (num_entries map)
            (size_t (size map - 1)) buckets' (entries map), true)
  else Some (map, false).

(** The loop of [ext_map_clear]: [n] iterations from index [i]. *)
Fixpoint clear_loop (n : nat) (i : Z) (buckets : list Z) : option (list Z) :=
  match n with
  | O => Some buckets
  | S n' =>
    buckets' ← store buckets i EMPTY_MARK;
    clear_loop n' (size_t (i + 1)) buckets'
  end.

Definition ext_map_clear (map : ext_map) : option ext_map :=
  if 0 <? capacity_mask map then
    buckets' ← clear_loop (Z.to_nat (capacity_mask map + 1)) 0 (buckets map);
    Some (set_fields map (capacity_mask map) 0 0 buckets' (entries map))
  else Some map.

Definition ext_map_size (map : ext_map) : Z := size map.

Definition ext_map_capacity (map : ext_map) : Z :=
  match entries map with
  | [] => 0
  | _ => size_t (capacity_mask map + 1)
  end.

(** A sequence of [ext_map_put] calls, the results of the calls dropped. *)
Fixpoint put_all (map : ext_map) (l : list E) : option ext_map :=
  match l with
  | [] => Some map
  | e :: l' => '(map', _) ← ext_map_put map e; put_all map' l'
  end.

(** *** The vocabulary of the specification *)

Implicit Types (map : ext_map) (entry : E).

(** The step of the scan, [idx = (idx + 1) & map->capacity_mask], and the
    [k]-th slot of the probe path that starts at [hash & capacity_mask]. *)
Definition probe_next map (idx : Z) : Z :=
  Z.land (size_t (idx + 1)) (capacity_mask map).

Fixpoint probe_from map (idx : Z) (k : nat) : Z :=
  match k with
  | O => idx
  | S k' => probe_from map (probe_next map idx) k'
  end.

Definition probe map (hash : Z) (k : nat) : Z :=
  probe_from map (Z.land hash (capacity_mask map)) k.

(** What the specification says of a slot. *)
Definition slot_empty map (idx : Z) : Prop :=
  load (buckets map) idx = Some EMPTY_MARK.

Definition slot_tomb map (idx : Z) : Prop :=
  load (buckets map) idx = Some TOMB_MARK.

Definition slot_live map (idx : Z) : Prop :=
  exists buck, load (buckets map) idx = Some buck /\ IS_VALID buck = true.

Definition slot_match map entry (hash : Z) (idx : Z) : Prop :=
  load (buckets map) idx = Some hash /\
  exists e, entry_at (entries map) idx = Some e /\ compare map e entry = true.

(** Both arrays have [capacity_mask + 1] cells, a power of two. *)
Definition table_shape map : Prop :=
  exists k, 0 <= k < 64 /\ capacity_mask map = 2 ^ k - 1 /\
    Z.of_nat (length (buckets map)) = 2 ^ k /\
    Z.of_nat (length (entries map)) = 2 ^ k.

(** The outcome of the scan as the specification words it, for a path whose
    first EMPTY slot is its [n]-th. *)
Definition scan_outcome map entry (hash : Z) (n : nat) (r : Z) : Prop :=
  (exists j, (j < n)%nat /\ slot_match map entry hash (probe map hash j) /\
     (forall j', (j' < j)%nat -> ~ slot_match map entry hash (probe map hash j')) /\
     r = probe map hash j) \/
  ((forall j, (j < n)%nat -> ~ slot_match map entry hash (probe map hash j)) /\
   exists t, (t < n)%nat /\ slot_tomb map (probe map hash t) /\
     (forall t', (t' < t)%nat -> ~ slot_tomb map (probe map hash t')) /\
     r = probe map hash t) \/
  ((forall j, (j < n)%nat -> ~ slot_match map entry hash (probe map hash j)) /\
   (forall t, (t < n)%nat -> ~ slot_tomb map (probe map hash t)) /\
   r = probe map hash n).


(** The number of slots of a bucket array that satisfy [p]. *)
Fixpoint count_slots (p : Z -> bool) (l : list Z) : Z :=
  match l with
  | [] => 0
  | buck :: l' => (if p buck then 1 else 0) + count_slots p l'
  end.

Definition live_slots map : Z := count_slots IS_VALID (buckets map).

Definition used_slots map : Z :=
  count_slots (fun buck => negb (IS_EMPTY buck)) (buckets map).

(** The states the table goes through: as [ext_map_init] leaves it, or
    allocated with at least [INITIAL_CAPACITY] slots; [num_entries] bounds
    the slots in use and stays within the load factor, [size] bounds the
    live slots. *)
Definition map_wf map : Prop :=
  0 <= size map <= SIZE_MAX /\ live_slots map <= size map /\
  ((capacity_mask map = 0 /\ buckets map = [] /\ entries map = [] /\
    num_entries map = 0) \/
   (exists k, 3 <= k < 62 /\ capacity_mask map = 2 ^ k - 1 /\
      Z.of_nat (length (buckets map)) = 2 ^ k /\
      Z.of_nat (length (entries map)) = 2 ^ k /\
      0 <= num_entries map /\
      used_slots map <= num_entries map /\
      4 * num_entries map <= 3 * 2 ^ k)).

(** The capacity after a sequence of puts, and "the [k]-th put call of the
    sequence is the one that grows the table from 8 to 16 slots". *)
Definition capacity_after (map0 : ext_map) (l : list E) : option Z :=
  ext_map_capacity <$> put_all map0 l.

Definition grows_at_put (map0 : ext_map) (l : list E) (k : nat) : Prop :=
  capacity_after map0 (take (k - 1) l) = Some INITIAL_CAPACITY /\
  capacity_after map0 (take k l) = Some (2 * INITIAL_CAPACITY).

(** Every record held by a live slot is one of [l], and the bucket caches
    its remapped hash. *)
Definition stored_in map (l : list E) : Prop :=
  forall idx buck e,
    load (buckets map) idx = Some buck -> IS_VALID buck = true ->
    entry_at (entries map) idx = Some e -> e ∈ l /\ buck = hash_entry map e.

(** Some live slot holds the record [e] and its remapped hash. *)
Definition holds map (e : E) : Prop :=
  exists idx, load (buckets map) idx = Some (hash_entry map e) /\
    entry_at (entries map) idx = Some e.

(** The slot a scan for [e] starts at, and "[e] sits in that very slot". *)
Definition home map (e : E) : Z := Z.land (hash_entry map e) (capacity_mask map).

Definition at_home map (e : E) : Prop :=
  load (buckets map) (home map e) = Some (hash_entry map e) /\
  entry_at (entries map) (home map e) = Some e.

(** The records of [l] sit each in its home slot, and no other slot is in
    use. *)
Definition all_home map (l : list E) : Prop :=
  (forall e, e ∈ l -> at_home map e) /\
  (forall idx buck, load (buckets map) idx = Some buck -> buck <> EMPTY_MARK ->
     exists e, e ∈ l /\ idx = home map e).

(** The remapped hashes of the records of [l] are pairwise distinct modulo
    [mask + 1]: in a table of that capacity no two of them share a home
    slot. *)
Definition distinct_homes map (mask : Z) (l : list E) : Prop :=
  forall i j ei ej,
    l !! i = Some ei -> l !! j = Some ej -> i <> j ->
    Z.land (hash_entry map ei) mask <> Z.land (hash_entry map ej) mask.

(** The state of the loop of [map_grow] before it reads the old slot [i]:
    the live old slots below [i] have been copied to [hash & (new_cap - 1)],
    and nothing else has been written. *)
Definition grow_inv map (new_cap i : Z) (nb : list Z) (ne : list E) : Prop :=
  (forall j buck e, 0 <= j < i ->
     load (buckets map) j = Some buck -> IS_VALID buck = true ->
     entry_at (entries map) j = Some e ->
     load nb (Z.land buck (size_t (new_cap - 1))) = Some buck /\
     load ne (Z.land buck (size_t (new_cap - 1))) = Some e) /\
  (forall idx buck, load nb idx = Some buck -> buck <> EMPTY_MARK ->
     exists j buck' e, 0 <= j < i /\
       load (buckets map) j = Some buck' /\ IS_VALID buck' = true /\
       entry_at (entries map) j = Some e /\
       idx = Z.land buck' (size_t (new_cap - 1))).

(** A lookup with a record [q] of the same key as [e] returns [e]. *)
Definition retrievable map (e : E) : Prop :=
  forall q, compare map e q = true -> hash map q = hash map e ->
    ext_map_get map q = Some (Some e).

(** The records of [l] have pairwise distinct keys for [compare]. *)
Definition distinct_keys (compare : E -> E -> bool) (l : list E) : Prop :=
  forall i j ei ej,
    l !! i = Some ei -> l !! j = Some ej -> i <> j -> compare ei ej = false.

Definition not_tomb (buck : Z) : Prop := buck <> TOMB_MARK.

End ext_map.

(** [ext_map_hash_bytes]: FNV-1a over [size] bytes. *)
Fixpoint hash_bytes_loop (data : list byte) (hash : Z) : Z :=
  match data with
  | [] => hash
  | b :: data' =>
    let hash := Z.lxor hash (Z.of_N (Byte.to_N b)) in
    hash_bytes_loop data' (uint32 (hash * 16777619))
  end.

Definition ext_map_hash_bytes (bytes : list byte) : Z :=
  hash_bytes_loop bytes 2166136261.

End Map.

(** ** The records of example.c *)

Module Example.

(** [struct Entry { const char* name; int value; }], keyed by [name]. *)
Record Entry : Type := mk_entry { name : string; value : Z }.

Definition hash (e : Entry) : Z :=
  Map.ext_map_hash_bytes (list_byte_of_string (name e)).

Definition compare (e1 e2 : Entry) : bool := String.eqb (name e1) (name e2).

(** The bytes of a record nobody wrote. *)
Definition junk : Entry := mk_entry EmptyString 0.

Definition empty_map : Map.ext_map := Map.ext_map_init 16 hash compare.

(** The table after [ext_map_put] of each record of [l] in turn, and after
    one more [ext_map_erase]. *)
Definition table_after (l : list Entry) : Map.ext_map :=
  default empty_map (Map.put_all junk empty_map l).

Definition erased (map : Map.ext_map) (e : Entry) : Map.ext_map :=
  match Map.ext_map_erase map e with
  | Some (map', _) => map'
  | None => map
  end.

(** The scenario of the specification: keys "a".."h" with values 1..8. *)
Definition a_to_h : list Entry :=
  [mk_entry "a" 1; mk_entry "b" 2; mk_entry "c" 3; mk_entry "d" 4;
   mk_entry "e" 5; mk_entry "f" 6; mk_entry "g" 7; mk_entry "h" 8].

(** Six records of which "h" and "x" have hashes equal modulo 16. *)
Definition six_colliding : list Entry :=
  [mk_entry "h" 1; mk_entry "x" 2; mk_entry "a" 3; mk_entry "b" 4;
   mk_entry "c" 5; mk_entry "d" 6].

(** Six records put, the last one erased: five live slots and a
    tombstone. *)
Definition five_and_tomb : Map.ext_map :=
  erased (table_after (take 6 a_to_h)) (mk_entry "f" 0).

End Example.


(** ** The growable array (ext_vector.h) *)

Module Vec.

Section ext_vector.

(** The macros are generic in the element type [T]; [junk] is the content of
    a cell that [malloc] or [realloc] returned and nobody wrote. *)
Context {T : Type}.
Variable junk : T.

(** The header that precedes the cells; [data] is the allocated block of
    cells, [capacity] of them as long as the allocation is the one the
    header records. *)
Record ext_vec_header_t_ : Type := mk_header {
  capacity : Z;
  size : Z;
  data : list T
}.

(** A vector [T* vec] points at [header->data] or is [NULL]. *)
Definition ext_vector : Type := option ext_vec_header_t_.

Definition ext_vec_size (vec : ext_vector) : Z :=
  match vec with Some header => size header | None => 0 end.

Definition ext_vec_capacity (vec : ext_vector) : Z :=
  match vec with Some header => capacity header | None => 0 end.

Definition ext_vec_empty (vec : ext_vector) : bool := ext_vec_size vec =? 0.

(** [vec[i]] as an rvalue. *)
Definition ext_vec_at (vec : ext_vector) (i : Z) : option T :=
  header ← vec; load (data header) i.

Definition ext_vec_set_size_ (vec : ext_vector) (sz : Z) : option ext_vector :=
  header ← vec; Some (Some (mk_header (capacity header) sz (data header))).

(** The cells of the block rewritten, the header fields unchanged. *)
Definition set_data (header : ext_vec_header_t_) (data' : list T) : ext_vector :=
  Some (mk_header (capacity header) (size header) data').

(** [(vec)[i] = e] *)
Definition ext_vec_assign (vec : ext_vector) (i : Z) (e : T) : option ext_vector :=
  header ← vec;
  data' ← store (data header) i e;
  Some (set_data header data').

(** [malloc] and [realloc] are taken to succeed ([assert(header)] passes);
    [realloc] keeps the cells that fit and leaves the new ones unwritten. *)
Definition ext_vec_reserve (vec : ext_vector) (amount : Z) : ext_vector :=
  match vec with
  | None => Some (mk_header amount 0 (replicate (Z.to_nat amount) junk))
  | Some header =>
    if capacity header <? amount
    then Some (mk_header amount (size header)
                 (resize (Z.to_nat amount) junk (data header)))
    else vec
  end.

(** [while(size + (amount) > new_capacity) new_capacity *= 2;] *)
Fixpoint grow_capacity (fuel : nat) (size amount new_capacity : Z) : option Z :=
  match fuel with
  | O => None
  | S fuel' =>
    if new_capacity <? size_t (size + amount)
    then grow_capacity fuel' size amount (size_t (new_capacity * 2))
    else Some new_capacity
  end.

(** After 64 doublings a [size_t] is 0 and stays 0: 66 iterations decide
    the loop. *)
Definition ext_vec_maybe_grow_ (vec : ext_vector) (amount : Z) : option ext_vector :=
  let capacity := ext_vec_capacity vec in
  let size := ext_vec_size vec in
  if capacity <? size_t (size + amount) then
    let new_capacity := if capacity =? 0 then 1 else size_t (capacity * 2) in
    new_capacity ← grow_capacity 66 size amount new_capacity;
    Some (ext_vec_reserve vec new_capacity)
  else Some vec.

Definition ext_vec_push_back (vec : ext_vector) (e : T) : option ext_vector :=
  vec ← ext_vec_maybe_grow_ vec 1;
  let size := ext_vec_size vec in
  vec ← ext_vec_assign vec size e;
  ext_vec_set_size_ vec (size_t (size + 1)).

Definition ext_vec_pop_back (vec : ext_vector) : option ext_vector :=
  if ext_vec_size vec =? 0 then None
  else ext_vec_set_size_ vec (size_t (ext_vec_size vec - 1)).

(** [memmove(dst, src, n cells)] inside one block of cells. *)
Definition memmove (cells : list T) (dst src n : Z) : option (list T) :=
  if (0 <=? dst) && (0 <=? src) && (0 <=? n)
     && (dst + n <=? Z.of_nat (length cells))
     && (src + n <=? Z.of_nat (length cells))
  then Some (take (Z.to_nat dst) cells
             ++ take (Z.to_nat n) (drop (Z.to_nat src) cells)
             ++ drop (Z.to_nat (dst + n)) cells)
  else None.

(** [ext_vec_insert] and [ext_vec_erase] for an index argument that binds
    tighter than binary minus (a constant, a variable, a parenthesised
    expression): the text the macros paste into [(size - i)] then computes
    with its value.  [VecMore.ext_vec_insert] and [VecMore.ext_vec_erase]
    take the argument as it is written. *)
Definition ext_vec_insert (vec : ext_vector) (i : Z) (e : T) : option ext_vector :=
  vec ← ext_vec_maybe_grow_ vec 1;
  let size := ext_vec_size vec in
  if i <? size_t (size + 1) then
    header ← vec;
    data' ← memmove (data header) (size_t (i + 1)) i (size_t (size - i));
    vec ← ext_vec_assign (set_data header data') i e;
    ext_vec_set_size_ vec (size_t (size + 1))
  else None.

Definition ext_vec_erase (vec : ext_vector) (i : Z) : option ext_vector :=
  let size := ext_vec_size vec in
  if i <? size then
    header ← vec;
    data' ← memmove (data header) i (size_t (i + 1)) (size_t (size_t (size - i) - 1));
    ext_vec_set_size_ (set_data header data') (size_t (size - 1))
  else None.





(** *** The vocabulary of the specification *)

(** [size <= capacity], on the cells the header records. *)
Definition vec_wf (vec : ext_vector) : Prop :=
  match vec with
  | None => True
  | Some header =>
    0 <= size header <= capacity header /\ capacity header <= SIZE_MAX /\
    Z.of_nat (length (data header)) = capacity header
  end.

(** The elements of the array, indices [0 .. size). *)
Definition elements (vec : ext_vector) : list T :=
  match vec with
  | Some header => take (Z.to_nat (size header)) (data header)
  | None => []
  end.

(** A sequence of [push_back] and [pop_back] calls. *)
Inductive stack_op : Type :=
  | Push (e : T)
  | Pop.

Definition apply_stack_op (vec : ext_vector) (op : stack_op) : option ext_vector :=
  match op with
  | Push e => ext_vec_push_back vec e
  | Pop => ext_vec_pop_back vec
  end.

Fixpoint run_stack_ops (vec : ext_vector) (ops : list stack_op) : option ext_vector :=
  match ops with
  | [] => Some vec
  | op :: ops' => vec ← apply_stack_op vec op; run_stack_ops vec ops'
  end.

(** The pushed values that were not popped since, in the order of their
    pushes; [None] when a [pop_back] meets an empty array. *)
Fixpoint surviving (acc : list T) (ops : list stack_op) : option (list T) :=
  match ops with
  | [] => Some acc
  | Push e :: ops' => surviving (acc ++ [e]) ops'
  | Pop :: ops' =>
    match acc with
    | [] => None
    | _ => surviving (removelast acc) ops'
    end
  end.

Definition pushes (ops : list stack_op) : Z :=
  Z.of_nat (length (List.filter (fun op => match op with Push _ => true | Pop => false end) ops)).

Definition pops (ops : list stack_op) : Z :=
  Z.of_nat (length (List.filter (fun op => match op with Push _ => false | Pop => true end) ops)).





End ext_vector.

End Vec.

(** ** The growable array on integers *)

Module VecExample.

(** Four calls, of which two pushes survive; a vector of four cells holding
    two elements. *)
Definition four_calls : list (Vec.stack_op (T:=Z)) :=
  [Vec.Push 1; Vec.Push 2; Vec.Pop; Vec.Push 3].

Definition two_of_four : Vec.ext_vector (T:=Z) :=
  Some (Vec.mk_header 4 2 [10; 20; 0; 0]).

End VecExample.


(** ** The growable string (ext_string.c) *)

Module Str.

Definition LOGARITHMIC_GROWTH_TRESH : Z := 1024 * 1024.

(** [#define ext_str_npos ((size_t)-1)] *)
Definition ext_str_npos : Z := size_t (-1).

#[export] Instance byte_eq_dec : EqDecision byte := Byte.byte_eq_dec.

(** [memcmp(s1, s2, n) == 0], on the bytes readable through each pointer. *)
Definition memcmp_eq (s1 s2 : list byte) (n : Z) : bool :=
  bool_decide (take (Z.to_nat n) s1 = take (Z.to_nat n) s2).

(** [memcpy(dst + off, src, n)]: [None] when it would leave either block. *)
Definition memcpy (dst : list byte) (off : Z) (src : list byte) (n : Z)
    : option (list byte) :=
  if (0 <=? off) && (0 <=? n) && (off + n <=? Z.of_nat (length dst))
     && (n <=? Z.of_nat (length src))
  then Some (take (Z.to_nat off) dst ++ take (Z.to_nat n) src
             ++ drop (Z.to_nat (off + n)) dst)
  else None.

(** [strlen]: the bytes before the first NUL; [None] without a NUL. *)
Fixpoint strlen (cstring : list byte) : option Z :=
  match cstring with
  | [] => None
  | b :: rest => if bool_decide (b = x00) then Some 0 else Z.succ <$> strlen rest
  end.

Section ext_string.

(** What a byte returned by [malloc] or [realloc] holds before it is
    written, and what an unwritten cell of a vector of strings holds. *)
Variable junk : byte.

(** The header that precedes the bytes; [data] is the allocated block,
    [capacity] bytes long. An [ext_string] points at [header->data] and is
    never [NULL]. *)
Record str_header_t : Type := mk_str {
  capacity : Z;
  size : Z;
  data : list byte
}.

Definition ext_string : Type := str_header_t.

Definition ext_str_size (str : ext_string) : Z := size str.
Definition ext_str_capacity (str : ext_string) : Z := capacity str.

Definition ext_str_set_size (str : ext_string) (sz : Z) : ext_string :=
  mk_str (capacity str) sz (data str).

(** [realloc(header, sizeof header + new_capacity)], taken to succeed. *)
Definition str_realloc (str : ext_string) (new_capacity : Z) : ext_string :=
  mk_str new_capacity (size str)
    (resize (Z.to_nat new_capacity) junk (data str)).

(** [while(new_capacity <= header->size + amount) new_capacity *= 2;] *)
Fixpoint grow_capacity (fuel : nat) (sz amount new_capacity : Z) : option Z :=
  match fuel with
  | O => None
  | S fuel' =>
    if new_capacity <=? size_t (sz + amount)
    then grow_capacity fuel' sz amount (size_t (new_capacity * 2))
    else Some new_capacity
  end.

(** After 64 doublings a [size_t] is 0 and stays 0: 66 iterations decide the
    loop. *)
Definition ext_str_maybe_grow (str : ext_string) (amount : Z) : option ext_string :=
  if capacity str <=? size_t (size str + amount) then
    new_capacity ←
      (if LOGARITHMIC_GROWTH_TRESH <? capacity str
       then Some (size_t (capacity str + amount))
       else grow_capacity 66 (size str) amount (capacity str));
    Some (str_realloc str new_capacity)
  else Some str.

Definition ext_str_new_cap (cap : Z) : ext_string :=
  mk_str (size_t (cap + 1)) 0 (replicate (Z.to_nat (size_t (cap + 1))) junk).

Definition ext_str_new_len (bytes : list byte) (len : Z) : option ext_string :=
  let block := replicate (Z.to_nat (size_t (len + 1))) junk in
  block ← memcpy block 0 bytes len;
  block ← store block len x00;
  Some (mk_str (size_t (len + 1)) len block).

Definition ext_str_dup (str : ext_string) : option ext_string :=
  ext_str_new_len (data str) (ext_str_size str).

Definition ext_str_new (cstring : list byte) : option ext_string :=
  len ← strlen cstring; ext_str_new_len cstring len.

(** The [int] that [vsnprintf] returns for a format and arguments that
    expand to [out]: the length of [out], or a negative value (-1 in the C
    libraries) when the length is beyond [INT_MAX] and an [int] cannot hold
    it. *)
Definition vsnprintf_result (out : list byte) : Z :=
  if Z.of_nat (length out) <=? INT_MAX then Z.of_nat (length out) else -1.

(** [vsnprintf(buf + off, n, fmt, args)], for a format and arguments that
    expand to [out]: at most [n - 1] bytes of [out] and a NUL are written,
    and the [int] above is returned. *)
Definition vsnprintf (buf : list byte) (off n : Z) (out : list byte)
    : option (list byte * Z) :=
  if n =? 0 then Some (buf, vsnprintf_result out)
  else
    let k := Z.min (Z.of_nat (length out)) (n - 1) in
    buf ← memcpy buf off out k;
    buf ← store buf (off + k) x00;
    Some (buf, vsnprintf_result out).

(** [ext_str_vfmt(fmt, ap)], for a format of [fmt_len] bytes that expands
    to [out]; [size_t written = vsnprintf(...)] converts the [int]. *)
Definition ext_str_vfmt (fmt_len : Z) (out : list byte) : option ext_string :=
  let str := ext_str_new_cap (size_t (fmt_len * 2)) in
  let cap := ext_str_capacity str in
  '(block, ret) ← vsnprintf (data str) 0 cap out;
  let written := size_t ret in
  let str := mk_str (capacity str) (size str) block in
  if cap <=? written then
    str ← ext_str_maybe_grow str written;
    let cap := ext_str_capacity str in
    '(block, ret) ← vsnprintf (data str) 0 cap out;
    let written := size_t ret in
    if written <? cap
    then Some (mk_str (capacity str) written block)
    else None
  else Some (mk_str (capacity str) written block).

Definition ext_str_append_len (str : ext_string) (bytes : list byte) (len : Z)
    : option ext_string :=
  str ← ext_str_maybe_grow str len;
  let sz := ext_str_size str in
  block ← memcpy (data str) sz bytes len;
  block ← store block (size_t (sz + len)) x00;
  Some (mk_str (capacity str) (size_t (sz + len)) block).

Definition ext_str_append_str (str other : ext_string) : option ext_string :=
  ext_str_append_len str (data other) (ext_str_size other).

Definition ext_str_append (str : ext_string) (cstring : list byte) : option ext_string :=
  len ← strlen cstring; ext_str_append_len str cstring len.

(** The loop of [ext_str_find_len], from index [i]. *)
Fixpoint find_loop (fuel : nat) (str : ext_string) (needle : list byte)
    (len : Z) (i : Z) : option Z :=
  match fuel with
  | O => None
  | S fuel' =>
    if i <=? size_t (ext_str_size str - len) then
      if memcmp_eq (drop (Z.to_nat i) (data str)) needle len then Some i
      else find_loop fuel' str needle len (size_t (i + 1))
    else Some ext_str_npos
  end.

(** The scan visits each index at most once: [size + 2] iterations decide
    the loop. *)
Definition ext_str_find_len (str : ext_string) (start_pos : Z)
    (needle : list byte) (len : Z) : option Z :=
  let sz := ext_str_size str in
  if sz <? len then Some ext_str_npos
  else find_loop (Z.to_nat sz + 2) str needle len start_pos.

(** The loop of [ext_str_rfind_len], from index [i] down. *)
Fixpoint rfind_loop (fuel : nat) (str : ext_string) (needle : list byte)
    (len : Z) (i : Z) : option Z :=
  match fuel with
  | O => None
  | S fuel' =>
    if negb (i =? ext_str_npos) then
      if memcmp_eq (drop (Z.to_nat i) (data str)) needle len then Some i
      else rfind_loop fuel' str needle len (size_t (i - 1))
    else Some ext_str_npos
  end.

Definition ext_str_rfind_len (str : ext_string) (start_pos : Z)
    (needle : list byte) (len : Z) : option Z :=
  let sz := ext_str_size str in
  if sz <? len then Some ext_str_npos
  else if sz <=? start_pos then Some ext_str_npos
  else
    let start_pos := if start_pos <=? len then size_t (len - 1) else start_pos in
    rfind_loop (Z.to_nat sz + 2) str needle len
      (size_t (size_t (sz - start_pos) - 1)).

Definition ext_str_shrink_to_fit (str : ext_string) : ext_string :=
  let cap := ext_str_capacity str in
  let sz := ext_str_size str in
  if size_t (sz + 1) <? cap then str_realloc str (size_t (sz + 1)) else str.

Definition ext_str_reserve (str : ext_string) (amount : Z) : ext_string :=
  let cap := ext_str_capacity str in
  if cap <? size_t (amount + 1) then str_realloc str (size_t (amount + 1))
  else str.

(** An unwritten cell of a vector of strings. *)
Definition junk_string : ext_string := mk_str 0 0 [].

(** The loop of [ext_str_split]: [n] iterations from index [i], on the
    vector of tokens and the offset [last] of the current token. *)
Fixpoint split_loop (n : nat) (str : ext_string) (sep : byte) (i last : Z)
    (tokens : Vec.ext_vector) : option (Vec.ext_vector * Z) :=
  match n with
  | O => Some (tokens, last)
  | S n' =>
    c ← load (data str) i;
    if bool_decide (c = sep) then
      tok ← ext_str_new_len (drop (Z.to_nat last) (data str)) (size_t (i - last));
      tokens ← Vec.ext_vec_push_back junk_string tokens tok;
      split_loop n' str sep (size_t (i + 1)) (size_t (i + 1)) tokens
    else split_loop n' str sep (size_t (i + 1)) last tokens
  end.

Definition ext_str_split (str : ext_string) (sep : byte) : option Vec.ext_vector :=
  '(tokens, last) ← split_loop (Z.to_nat (ext_str_size str)) str sep 0 0 None;
  tok ← ext_str_new_len (drop (Z.to_nat last) (data str))
          (size_t (ext_str_size str - last));
  Vec.ext_vec_push_back junk_string tokens tok.

(** *** The vocabulary of the specification *)

(** The bytes of the string, indices [0 .. size). *)
Definition content (str : ext_string) : list byte :=
  take (Z.to_nat (size str)) (data str).

(** [capacity] bytes are allocated, one of them beyond [size]. *)
Definition str_shape (str : ext_string) : Prop :=
  0 <= size str /\ size str + 1 <= capacity str /\ capacity str <= SIZE_MAX /\
  Z.of_nat (length (data str)) = capacity str.

(** The NUL invariant: [data[size] == 0]. *)
Definition nul_terminated (str : ext_string) : Prop :=
  load (data str) (size str) = Some x00.

Definition str_wf (str : ext_string) : Prop :=
  str_shape str /\ nul_terminated str.

(** A string as [ext_str_new_len] allocates it: NUL-terminated, with a
    capacity of one byte more than its size. *)
Definition fresh_token (tok : ext_string) : Prop :=
  str_wf tok /\ capacity tok = size tok + 1.

(** The bytes of [needle] occur in the string at index [i]. *)
Definition occurs_at (str : ext_string) (needle : list byte) (i : Z) : Prop :=
  0 <= i /\ i + Z.of_nat (length needle) <= size str /\
  take (length needle) (drop (Z.to_nat i) (content str)) = needle.

(** The first index [ext_str_rfind_len] examines: [size - start_pos - 1],
    and, by the test [start_pos <= len] of the function, [size - len] up to
    [start_pos = len] included. *)
Definition rfind_first (str : ext_string) (start_pos len : Z) : Z :=
  if start_pos <=? len then size str - len else size str - start_pos - 1.

(** The tokens joined by the separator byte. *)
Fixpoint join (sep : byte) (tokens : list (list byte)) : list byte :=
  match tokens with
  | [] => []
  | [tok] => tok
  | tok :: rest => tok ++ sep :: join sep rest
  end.

(** The maximal runs of [bytes] without the separator, the run being read
    when [bytes] starts being [cur]. *)
Fixpoint runs (sep : byte) (bytes cur : list byte) : list (list byte) :=
  match bytes with
  | [] => [cur]
  | b :: rest =>
    if bool_decide (b = sep) then cur :: runs sep rest []
    else runs sep rest (cur ++ [b])
  end.

Definition occurrences (sep : byte) (bytes : list byte) : Z :=
  Z.of_nat (length (List.filter (fun b => bool_decide (b = sep)) bytes)).

End ext_string.

End Str.

(** ** The strings of example.c *)

Module StrExample.

(** What [ext_str_new] returns for "abc foo bar foobar" and for the empty
    C string. *)
Definition abc_foo : Str.ext_string :=
  Str.mk_str 19 18 (list_byte_of_string "abc foo bar foobar" ++ [x00]).

Definition empty_string : Str.ext_string := Str.mk_str 1 0 [x00].

Definition foo : list byte := list_byte_of_string "foo".

(** "xxabc", as [ext_str_new] returns it, and the needle "abc". *)
Definition xxabc : Str.ext_string :=
  Str.mk_str 6 5 (list_byte_of_string "xxabc" ++ [x00]).

Definition abc : list byte := list_byte_of_string "abc".

End StrExample.

(** ** The growable array: element access, iteration, bulk insertion *)

Module VecMore.
Import Vec.

Section ext_vector.

Context {T : Type}.
Variable junk : T.

(** [(vec)[0]] and [(vec)[ext_vec_size(vec) - 1]] as rvalues. *)
Definition ext_vec_front (vec : ext_vector (T:=T)) : option T := ext_vec_at vec 0.

Definition ext_vec_back (vec : ext_vector (T:=T)) : option T :=
  ext_vec_at vec (size_t (ext_vec_size vec - 1)).

(** An iterator [T* it] is the index of the cell it points at, counted from
    [vec]; [None] is [NULL]. *)
Definition iterator : Type := option Z.

Definition ext_vec_begin (vec : ext_vector (T:=T)) : iterator :=
  match vec with Some _ => Some 0 | None => None end.

Definition ext_vec_end (vec : ext_vector (T:=T)) : iterator :=
  match vec with Some header => Some (size header) | None => None end.

Definition ext_vec_iterator (vec : ext_vector (T:=T)) (i : Z) : iterator :=
  match vec with Some _ => Some i | None => None end.

(** *** The index argument of [ext_vec_insert] and [ext_vec_erase]

    The two macros paste their index argument without parentheses, so that
    what [(size - i)] and [(size - i - 1)] compute depends on how the
    argument is written.  [Tight z] is an argument that binds tighter than
    binary minus (a constant, a variable, a call, a parenthesised
    expression, a product), of value [z]; [Plus a z] and [Minus a z] are
    the arguments [a + z] and [a - z] written without parentheses.  The
    operands are [size_t] values; the argument has no side effect and does
    not mention the names [size] and [shift], which the macros declare.
    The shift is counted in cells: a count that wrapped below zero leaves
    every block, as its byte count [count * sizeof(T)] does for operands
    that are small against [2 ^ 63 / sizeof(T)]. *)
Inductive index_arg : Type :=
  | Tight (z : Z)
  | Plus (a : index_arg) (z : Z)
  | Minus (a : index_arg) (z : Z).

(** The argument where the macros use it as an operand of [<], of
    [(vec) + i] or of [(vec)[i]]: its value. *)
Fixpoint value (i : index_arg) : Z :=
  match i with
  | Tight z => z
  | Plus a z => size_t (value a + z)
  | Minus a z => size_t (value a - z)
  end.

(** [lhs - i] after the substitution: binary minus associates to the left,
    [lhs - a - z] is [(lhs - a) - z] and [lhs - a + z] is [(lhs - a) + z]. *)
Fixpoint minus_pasted (lhs : Z) (i : index_arg) : Z :=
  match i with
  | Tight z => size_t (lhs - z)
  | Plus a z => size_t (minus_pasted lhs a + z)
  | Minus a z => size_t (minus_pasted lhs a - z)
  end.

(** [ext_vec_insert(vec, i, e)]: the assertion [i < size + 1], the shift of
    [(size - i)] cells from [(vec) + i] to [(vec) + i + 1], the
    assignment. *)
Definition ext_vec_insert (vec : ext_vector (T:=T)) (i : index_arg) (e : T)
    : option ext_vector :=
  vec ← ext_vec_maybe_grow_ junk vec 1;
  let size := ext_vec_size vec in
  if value i <? size_t (size + 1) then
    header ← vec;
    data' ← memmove (data header) (size_t (value i + 1)) (value i)
              (minus_pasted size i);
    vec ← ext_vec_assign (set_data header data') (value i) e;
    ext_vec_set_size_ vec (size_t (size + 1))
  else None.

(** [ext_vec_erase(vec, i)]: the assertion [i < size], the shift of
    [(size - i - 1)] cells from [(vec) + i + 1] to [(vec) + i]. *)
Definition ext_vec_erase (vec : ext_vector (T:=T)) (i : index_arg)
    : option ext_vector :=
  let size := ext_vec_size vec in
  if value i <? size then
    header ← vec;
    data' ← memmove (data header) (value i) (size_t (value i + 1))
              (size_t (minus_pasted size i - 1));
    ext_vec_set_size_ (set_data header data') (size_t (size - 1))
  else None.

(** The loop of example.c,
    [for(it = ext_vec_begin(vec); it != ext_vec_end(vec); it++)], with a
    body that reads [*it]: the elements read, in order. *)
Fixpoint iterate (fuel : nat) (vec : ext_vector (T:=T)) (it : iterator)
    : option (list T) :=
  match fuel with
  | O => None
  | S fuel' =>
    if bool_decide (it = ext_vec_end vec) then Some []
    else
      i ← it;
      e ← ext_vec_at vec i;
      rest ← iterate fuel' vec (Some (i + 1));
      Some (e :: rest)
  end.

(** [it] visits each index once: [size + 1] iterations decide the loop. *)
Definition iterate_all (vec : ext_vector (T:=T)) : option (list T) :=
  iterate (Z.to_nat (ext_vec_size vec) + 1) vec (ext_vec_begin vec).

(** The loop of [ext_vec_push_back_all]: [k] iterations from index [i]. *)
Fixpoint push_back_all_loop (k : nat) (vec : ext_vector) (arr : list T) (i : Z)
    : option ext_vector :=
  match k with
  | O => Some vec
  | S k' =>
    e ← load arr i;
    vec ← ext_vec_push_back junk vec e;
    push_back_all_loop k' vec arr (size_t (i + 1))
  end.

(** [ext_vec_reserve(vec, ext_vec_size(vec) + size)] as
    [ext_vec_push_back_all] expands it: the amount is a text that mentions
    [vec], evaluated at each place where [ext_vec_reserve] pastes it.  On
    the [NULL] vector it is [0 + size] at each of them.  On an allocated
    vector whose capacity is smaller, the assignment
    [header->capacity = (amount)] that follows [realloc] reads the size
    through [vec], which is assigned only after it and still points into
    the block that [realloc] has released: the read has no result. *)
Definition reserve_size_plus (vec : ext_vector (T:=T)) (n : Z)
    : option ext_vector :=
  match vec with
  | None => Some (ext_vec_reserve junk None (size_t (0 + n)))
  | Some header =>
    if capacity header <? size_t (size header + n) then None else Some vec
  end.

(** [ext_vec_push_back_all(vec, arr, size)] for an array [arr] given by
    its name and a count [size] that binds tighter than [+] and [<] (a
    constant, a variable, a quotient of two [sizeof] as in example.c). *)
Definition ext_vec_push_back_all (vec : ext_vector) (arr : list T) (n : Z)
    : option ext_vector :=
  vec ← reserve_size_plus vec n;
  push_back_all_loop (Z.to_nat n) vec arr 0.

(** How the body of a loop ends: at its last statement or by [continue],
    or by [break]. *)
Inductive control : Type :=
  | Continue
  | Break.

(** [__cont = !__cont] *)
Definition lnot (z : Z) : Z := if z =? 0 then 1 else 0.

(** [ext_vec_foreach(elem, vec) body]: the outer [for] on [__cont] and
    [__i], and the inner [for] that sets [elem] and runs the body while
    [__cont] is set.  The body works on a state [S] and reads the cell
    [elem] points at. *)
Fixpoint foreach_loop {S : Type} (fuel : nat) (body : S -> T -> S * control)
    (vec : ext_vector) (cont i : Z) (s : S) : option S :=
  match fuel with
  | O => None
  | Datatypes.S fuel' =>
    if negb (cont =? 0) && (i <? ext_vec_size vec) then
      (* inner loop: __cont is set, the body runs *)
      e ← ext_vec_at vec i;
      let '(s', ctl) := body s e in
      let cont' :=
        match ctl with
        | Break => cont            (* the inner loop is left at once *)
        | Continue => lnot cont    (* its step clears __cont, its test fails *)
        end in
      foreach_loop fuel' body vec (lnot cont') (size_t (i + 1)) s'
    else Some s
  end.

(** [__i] visits each index once: [size + 1] iterations decide the loop. *)
Definition ext_vec_foreach {S : Type} (body : S -> T -> S * control)
    (vec : ext_vector) (s : S) : option S :=
  foreach_loop (Z.to_nat (ext_vec_size vec) + 1) body vec 1 0 s.

(** *** Vocabulary *)

(** The body run on the elements of [l] in order, up to and including the
    first one at which it breaks. *)
Fixpoint run_until_break {S : Type} (body : S -> T -> S * control) (l : list T)
    (s : S) : S :=
  match l with
  | [] => s
  | e :: l' =>
    match body s e with
    | (s', Break) => s'
    | (s', Continue) => run_until_break body l' s'
    end
  end.

(** A loop body that appends the element to a list and goes on. *)
Definition collect (acc : list T) (e : T) : list T * control :=
  (acc ++ [e], Continue).

(** After [n] pushes into an empty array: the capacity is a power of two,
    and less than twice the size. *)
Definition doubled (vec : ext_vector (T:=T)) : Prop :=
  exists k, 0 <= k < 62 /\ ext_vec_capacity vec = 2 ^ k /\
    ext_vec_size vec <= ext_vec_capacity vec < 2 * ext_vec_size vec.

(** [n] calls of [ext_vec_push_back], of the elements of [l] in order. *)
Fixpoint push_all (vec : ext_vector) (l : list T) : option ext_vector :=
  match l with
  | [] => Some vec
  | e :: l' => vec ← ext_vec_push_back junk vec e; push_all vec l'
  end.

End ext_vector.

End VecMore.

(** ** The growable string: slices, joins, character search, comparison *)

Module StrMore.
Import Str.

(** [memcmp(s1, s2, n)], as the sign of the [int] it returns: the first
    pair of bytes that differ decides, compared as [unsigned char]. *)
Fixpoint memcmp (s1 s2 : list byte) (n : nat) : option comparison :=
  match n with
  | O => Some Eq
  | S n' =>
    match s1, s2 with
    | b1 :: r1, b2 :: r2 =>
      match N.compare (Byte.to_N b1) (Byte.to_N b2) with
      | Eq => memcmp r1 r2 n'
      | c => Some c
      end
    | _, _ => None
    end
  end.

(** The array a vector handle points at. *)
Definition cells {T : Type} (vec : Vec.ext_vector (T:=T)) : list T :=
  match vec with
  | Some header => Vec.data header
  | None => []
  end.

Section ext_string.

Variable junk : byte.

(** Whether [char] is a signed type is left to the platform; [str[i]] is
    promoted to [int] accordingly, and an [int] is stored into a [char]
    modulo 256. *)
Variable char_is_signed : bool.

Definition char_to_int (b : byte) : Z :=
  let n := Z.of_N (Byte.to_N b) in
  if char_is_signed && (128 <=? n) then n - 256 else n.

Definition int_to_char (z : Z) : byte :=
  default x00 (Byte.of_N (Z.to_N (z mod 256))).

(** [ext_str_substr]: the two assertions, then [ext_str_new_len]. *)
Definition ext_str_substr (str : ext_string) (start end_ : Z) : option ext_string :=
  if (start <=? end_) && (end_ <=? ext_str_size str)
  then ext_str_new_len junk (drop (Z.to_nat start) (data str))
         (size_t (end_ - start))
  else None.

(** The loop of [ext_str_join]: [n] iterations from index [i]; [i] and
    [count] are [int]. *)
Fixpoint join_loop (n : nat) (joined : ext_string) (sep : list byte)
    (strings : list (list byte)) (i count : Z) : option ext_string :=
  match n with
  | O => Some joined
  | S n' =>
    s ← load strings i;
    joined ← ext_str_append junk joined s;
    joined ← (if negb (i =? count - 1) then ext_str_append junk joined sep
              else Some joined);
    join_loop n' joined sep strings (i + 1) count
  end.

(** [sep] and the [strings[i]] are C strings: blocks that hold a NUL. *)
Definition ext_str_join (sep : list byte) (strings : list (list byte))
    (count : Z) : option ext_string :=
  if count =? 0 then ext_str_new_len junk [x00] 0
  else
    first ← load strings 0;
    len ← strlen first;
    join_loop (Z.to_nat count) (ext_str_new_cap junk (size_t (len * 2)))
      sep strings 0 count.

Fixpoint join_str_loop (n : nat) (joined : ext_string) (sep : list byte)
    (strings : list ext_string) (i count : Z) : option ext_string :=
  match n with
  | O => Some joined
  | S n' =>
    s ← load strings i;
    joined ← ext_str_append_str junk joined s;
    joined ← (if negb (i =? count - 1) then ext_str_append junk joined sep
              else Some joined);
    join_str_loop n' joined sep strings (i + 1) count
  end.

Definition ext_str_join_str (sep : list byte) (strings : list ext_string)
    (count : Z) : option ext_string :=
  if count =? 0 then ext_str_new_len junk [x00] 0
  else
    first ← load strings 0;
    join_str_loop (Z.to_nat count)
      (ext_str_new_cap junk (size_t (ext_str_size first * 2)))
      sep strings 0 count.

(** [ext_str_append_vfmt(str, fmt, ap)], for a format and arguments that
    expand to [out]; both [size_t written = vsnprintf(...)] convert the
    [int] that [vsnprintf] returns. *)
Definition ext_str_append_vfmt (str : ext_string) (out : list byte)
    : option ext_string :=
  let cap := ext_str_capacity str in
  let sz := ext_str_size str in
  let available := size_t (cap - sz) in
  '(block, ret) ← vsnprintf (data str) sz available out;
  let written := size_t ret in
  let str := mk_str (capacity str) (size str) block in
  if available <=? written then
    str ← ext_str_maybe_grow junk str written;
    let cap := ext_str_capacity str in
    let available := size_t (cap - sz) in
    '(block, ret') ← vsnprintf (data str) sz available out;
    let written' := size_t ret' in
    if written' <? available
    then Some (mk_str (capacity str) (size_t (sz + written)) block)
    else None
  else Some (mk_str (capacity str) (size_t (sz + written)) block).

(** [ext_str_find_str], [ext_str_find], [ext_str_rfind_str],
    [ext_str_rfind]: the length of the needle is its size or its
    [strlen]. *)
Definition ext_str_find_str (str : ext_string) (start_pos : Z)
    (needle : ext_string) : option Z :=
  ext_str_find_len str start_pos (data needle) (ext_str_size needle).

Definition ext_str_find (str : ext_string) (start_pos : Z)
    (needle : list byte) : option Z :=
  len ← strlen needle; ext_str_find_len str start_pos needle len.

Definition ext_str_rfind_str (str : ext_string) (start_pos : Z)
    (needle : ext_string) : option Z :=
  ext_str_rfind_len str start_pos (data needle) (ext_str_size needle).

Definition ext_str_rfind (str : ext_string) (start_pos : Z)
    (needle : list byte) : option Z :=
  len ← strlen needle; ext_str_rfind_len str start_pos needle len.

(** The loop of [ext_str_find_char], from index [i]; [c] is an [int]. *)
Fixpoint find_char_loop (fuel : nat) (str : ext_string) (c : Z) (i : Z)
    : option Z :=
  match fuel with
  | O => None
  | S fuel' =>
    if i <? ext_str_size str then
      b ← load (data str) i;
      if char_to_int b =? c then Some i
      else find_char_loop fuel' str c (size_t (i + 1))
    else Some ext_str_npos
  end.

(** The scan visits each index at most once: [size + 1] iterations decide
    the loop. *)
Definition ext_str_find_char (str : ext_string) (start_pos : Z) (c : Z)
    : option Z :=
  find_char_loop (Z.to_nat (ext_str_size str) + 1) str c start_pos.

(** The loop of [ext_str_rfind_char], from index [i] down. *)
Fixpoint rfind_char_loop (fuel : nat) (str : ext_string) (c : Z) (i : Z)
    : option Z :=
  match fuel with
  | O => None
  | S fuel' =>
    if negb (i =? ext_str_npos) then
      b ← load (data str) i;
      if char_to_int b =? c then Some i
      else rfind_char_loop fuel' str c (size_t (i - 1))
    else Some ext_str_npos
  end.

Definition ext_str_rfind_char (str : ext_string) (start_pos : Z) (c : Z)
    : option Z :=
  if ext_str_size str <=? start_pos then Some ext_str_npos
  else rfind_char_loop (Z.to_nat (ext_str_size str) + 1) str c
         (size_t (size_t (ext_str_size str - start_pos) - 1)).

(** The loop of [ext_str_to_lower] and [ext_str_to_upper]: [n] iterations
    from index [i], with [f] the function of the C library ([tolower] or
    [toupper], from [int] to [int]). *)
Definition case_byte (f : Z -> Z) (b : byte) : byte :=
  int_to_char (f (char_to_int b)).

Fixpoint case_loop (f : Z -> Z) (n : nat) (str : ext_string) (i : Z)
    : option ext_string :=
  match n with
  | O => Some str
  | S n' =>
    b ← load (data str) i;
    block ← store (data str) i (case_byte f b);
    case_loop f n' (mk_str (capacity str) (size str) block) (size_t (i + 1))
  end.

Variable tolower : Z -> Z.
Variable toupper : Z -> Z.

Definition ext_str_to_lower (str : ext_string) : option ext_string :=
  case_loop tolower (Z.to_nat (ext_str_size str)) str 0.

Definition ext_str_to_upper (str : ext_string) : option ext_string :=
  case_loop toupper (Z.to_nat (ext_str_size str)) str 0.

(** [ext_str_compare], as the sign of the [int] it returns. *)
Definition ext_str_compare (s1 s2 : ext_string) : option comparison :=
  let len1 := ext_str_size s1 in
  let len2 := ext_str_size s2 in
  let min_len := if len1 <? len2 then len1 else len2 in
  res ← memcmp (data s1) (data s2) (Z.to_nat min_len);
  match res with
  | Eq => Some (if len2 <? len1 then Gt else if len1 <? len2 then Lt else Eq)
  | _ => Some res
  end.

(** *** Vocabulary *)

(** The bytes of a C string: those before its first NUL. *)
Fixpoint c_bytes (cstring : list byte) : list byte :=
  match cstring with
  | [] => []
  | b :: rest => if bool_decide (b = x00) then [] else b :: c_bytes rest
  end.

(** The byte strings of [l] with [sep] between each two. *)
Fixpoint joined_bytes (sep : list byte) (l : list (list byte)) : list byte :=
  match l with
  | [] => []
  | [s] => s
  | s :: rest => s ++ sep ++ joined_bytes sep rest
  end.

(** The order of byte strings: by the first byte that differs, compared
    unsigned; a proper prefix comes first. *)
Fixpoint lex_compare (l1 l2 : list byte) : comparison :=
  match l1, l2 with
  | [], [] => Eq
  | [], _ :: _ => Lt
  | _ :: _, [] => Gt
  | b1 :: r1, b2 :: r2 =>
    match N.compare (Byte.to_N b1) (Byte.to_N b2) with
    | Eq => lex_compare r1 r2
    | c => c
    end
  end.

(** The byte at index [i] of the content is the character [c]. *)
Definition char_at (str : ext_string) (c : Z) (i : Z) : Prop :=
  0 <= i < size str /\
  exists b, content str !! Z.to_nat i = Some b /\ char_to_int b = c.

End ext_string.

End StrMore.

(** ** The hash table: emptiness, iteration, and what a table of records is *)

Module MapMore.
Import Map.

Section ext_map.

Context {E : Type}.
Implicit Types (map : ext_map (E:=E)) (entry : E).

Definition ext_map_empty map : bool := size map =? 0.

(** An iterator [const void* it] is a byte offset from [map->entries];
    [None] is [NULL]. *)
Definition iterator : Type := option Z.

Definition ext_map_end map : iterator :=
  match entries map with
  | [] => None
  | _ => Some (size_t (ext_map_capacity map * entry_sz map))
  end.

(** The loop shared by [ext_map_begin] and [ext_map_incr]:
    [for(; i <= map->capacity_mask; i++)], returning at the first live
    bucket, and [ext_map_end(map)] after the loop. *)
Fixpoint next_valid map (fuel : nat) (i : Z) : option iterator :=
  match fuel with
  | O => None
  | S fuel' =>
    if i <=? capacity_mask map then
      buck ← load (buckets map) i;
      if IS_VALID buck then Some (Some (size_t (i * entry_sz map)))
      else next_valid map fuel' (size_t (i + 1))
    else Some (ext_map_end map)
  end.

(** [i] visits each slot at most once: [capacity + 1] iterations decide the
    loop. *)
Definition ext_map_begin map : option iterator :=
  match entries map with
  | [] => Some None
  | _ => next_valid map (length (buckets map) + 1) 0
  end.

(** [(it - map->entries) / map->entry_sz] *)
Definition iterator_index map (it : iterator) : option Z :=
  off ← it;
  if entry_sz map =? 0 then None else Some (off / entry_sz map).

Definition ext_map_incr map (it : iterator) : option iterator :=
  idx ← iterator_index map it;
  next_valid map (length (buckets map) + 1) (size_t (idx + 1)).

(** The record an iterator points at: the one [entry_at] addresses at the
    same offset. *)
Definition deref map (it : iterator) : option E :=
  off ← it;
  if (entry_sz map =? 0) || negb (off mod entry_sz map =? 0) then None
  else entry_at (entries map) (off / entry_sz map).

(** The loop of example.c,
    [for(it = ext_map_begin(map); it != ext_map_end(map);
         it = ext_map_incr(map, it))],
    with a body that reads the record: the records read, in order. *)
Fixpoint iterate map (fuel : nat) (it : iterator) : option (list E) :=
  match fuel with
  | O => None
  | S fuel' =>
    if bool_decide (it = ext_map_end map) then Some []
    else
      e ← deref map it;
      next ← ext_map_incr map it;
      rest ← iterate map fuel' next;
      Some (e :: rest)
  end.

Definition iterate_all map : option (list E) :=
  it ← ext_map_begin map;
  iterate map (length (buckets map) + 1) it.

(** *** Vocabulary *)

(** The records of the live slots, in slot order. *)
Fixpoint live_records (bs : list Z) (es : list E) : list E :=
  match bs, es with
  | buck :: bs', e :: es' =>
    if IS_VALID buck then e :: live_records bs' es' else live_records bs' es'
  | _, _ => []
  end.

(** The slot [idx] is live and holds [e] with the cached hash [buck]. *)
Definition live_at map (idx : Z) (buck : Z) (e : E) : Prop :=
  load (buckets map) idx = Some buck /\ IS_VALID buck = true /\
  entry_at (entries map) idx = Some e.

(** [n] is the first position of the probe path of [hash] whose slot is
    EMPTY. *)
Definition first_empty map (hash : Z) (n : nat) : Prop :=
  slot_empty map (probe map hash n) /\
  forall j, (j < n)%nat -> ~ slot_empty map (probe map hash j).

(** The callbacks agree on what the key of a record is: [compare] is an
    equivalence, and records it holds equal have the same hash. *)
Definition callbacks_agree (hash : E -> Z) (compare : E -> E -> bool) : Prop :=
  (forall x, compare x x = true) /\
  (forall x y, compare x y = true -> compare y x = true) /\
  (forall x y z, compare x y = true -> compare y z = true ->
     compare x z = true) /\
  (forall x y, compare x y = true -> hash x = hash y).

(** Every live bucket caches the remapped hash of its record. *)
Definition consistent map : Prop :=
  forall idx buck e, live_at map idx buck e -> buck = hash_entry map e.

(** No EMPTY slot lies on the probe path of a live record before the slot
    that holds it. *)
Definition reachable map : Prop :=
  forall idx buck e, live_at map idx buck e ->
    exists j, (Z.of_nat j <= capacity_mask map) /\ probe map buck j = idx /\
      forall j', (j' < j)%nat -> ~ slot_empty map (probe map buck j').

(** No two live slots hold records with the same key. *)
Definition unique_keys map : Prop :=
  forall i1 i2 b1 b2 e1 e2,
    live_at map i1 b1 e1 -> live_at map i2 b2 e2 ->
    compare map e1 e2 = true -> i1 = i2.

(** The state of a table between two calls. *)
Definition map_inv map : Prop :=
  map_wf map /\ callbacks_agree (hash map) (compare map) /\
  consistent map /\ reachable map /\ unique_keys map.

(** [map'] is [map] with the slot [idx] rewritten. *)
Definition same_but map map' (idx : Z) : Prop :=
  capacity_mask map' = capacity_mask map /\
  hash map' = hash map /\ compare map' = compare map /\
  forall j, j <> idx ->
    load (buckets map') j = load (buckets map) j /\
    entry_at (entries map') j = entry_at (entries map) j.

End ext_map.

End MapMore.

(** ** More inputs: a table of two records, strings, loop bodies *)

Module MoreExample.

(** The table after the first two puts of the scenario, "a" and "b". *)
Definition two_records : Map.ext_map :=
  Example.table_after (take 2 Example.a_to_h).

(** [tolower] and [toupper] in the "C" locale. *)
Definition c_tolower (c : Z) : Z :=
  if (65 <=? c) && (c <=? 90) then c + 32 else c.

Definition c_toupper (c : Z) : Z :=
  if (97 <=? c) && (c <=? 122) then c - 32 else c.

(** A loop body that adds the element to a sum and breaks at 20. *)
Definition sum_until_20 (s e : Z) : Z * VecMore.control :=
  (s + e, if e =? 20 then VecMore.Break else VecMore.Continue).

(** A full array of five elements. *)
Definition ten_to_fifty : Vec.ext_vector (T:=Z) :=
  Some (Vec.mk_header 5 5 [10; 20; 30; 40; 50]).

(** C strings: the bytes and the terminating NUL. *)
Definition c_string (s : string) : list byte := list_byte_of_string s ++ [x00].

Definition foo_bar : list (list byte) := [c_string "foo"; c_string "bar"].

End MoreExample.
(** * Properties *)

(** ** Machine integers and memory cells *)

Lemma size_t_small z : 0 <= z <= SIZE_MAX -> size_t z = z.
Proof. unfold SIZE_MAX, size_t. intros H. apply Z.mod_small. lia. Qed.

Lemma size_t_range z : 0 <= size_t z <= SIZE_MAX.
Proof.
  unfold SIZE_MAX, size_t.
  pose proof (Z.mod_pos_bound z (2 ^ 64) ltac:(lia)). lia.
Qed.

Lemma uint32_small z : 0 <= z < 2 ^ 32 -> uint32 z = z.
Proof. unfold uint32. intros H. apply Z.mod_small. lia. Qed.

Lemma uint32_range z : 0 <= uint32 z < 2 ^ 32.
Proof. unfold uint32. apply Z.mod_pos_bound. lia. Qed.

Lemma load_Some {A} (l : list A) i x :
  load l i = Some x <-> 0 <= i /\ l !! Z.to_nat i = Some x.
Proof.
  unfold load. destruct (0 <=? i) eqn:H0; simpl.
  - destruct (i <? Z.of_nat (length l)) eqn:H1.
    + split; [intros ->; split; [lia | done] | intros [_ ?]; done].
    + split; [done |]. intros [_ Hl]. apply lookup_lt_Some in Hl. lia.
  - split; [done | lia].
Qed.

Lemma load_in_range {A} (l : list A) i :
  0 <= i < Z.of_nat (length l) -> exists x, load l i = Some x.
Proof.
  intros H. destruct (lookup_lt_is_Some_2 l (Z.to_nat i)) as [x Hx]; [lia |].
  exists x. apply load_Some. split; [lia | done].
Qed.

Lemma load_lt {A} (l : list A) i x :
  load l i = Some x -> 0 <= i < Z.of_nat (length l).
Proof.
  intros [H0 Hl]%load_Some. apply lookup_lt_Some in Hl. lia.
Qed.

Lemma store_Some {A} (l : list A) i x :
  0 <= i < Z.of_nat (length l) -> store l i x = Some (<[Z.to_nat i := x]> l).
Proof.
  intros H. unfold store.
  destruct (0 <=? i) eqn:H0; [| lia].
  destruct (i <? Z.of_nat (length l)) eqn:H1; [done | lia].
Qed.

Lemma store_inv {A} (l l' : list A) i x :
  store l i x = Some l' ->
  0 <= i < Z.of_nat (length l) /\ l' = <[Z.to_nat i := x]> l.
Proof.
  unfold store. destruct (0 <=? i) eqn:H0; simpl; [| done].
  destruct (i <? Z.of_nat (length l)) eqn:H1; [| done].
  intros [= <-]. split; [lia | done].
Qed.

Lemma load_insert_eq {A} (l : list A) i x :
  0 <= i < Z.of_nat (length l) -> load (<[Z.to_nat i := x]> l) i = Some x.
Proof.
  intros H. apply load_Some. split; [lia |].
  apply list_lookup_insert_eq. lia.
Qed.

Lemma load_insert_ne {A} (l : list A) i j x :
  0 <= i -> i <> j -> load (<[Z.to_nat i := x]> l) j = load l j.
Proof.
  intros Hi Hne. unfold load. rewrite length_insert.
  destruct (0 <=? j) eqn:Hj; simpl; [| done].
  destruct (j <? Z.of_nat (length l)); [| done].
  apply list_lookup_insert_ne. lia.
Qed.

Module MapFacts.
Import Map.

Section facts.

Context {E : Type}.
Variable junk : E.
Implicit Types (map : ext_map (E:=E)) (entry : E).

Lemma IS_VALID_spec buck :
  IS_VALID buck = true <-> buck <> EMPTY_MARK /\ buck <> TOMB_MARK.
Proof.
  unfold IS_VALID, IS_EMPTY, IS_TOMB, EMPTY_MARK, TOMB_MARK.
  destruct (buck =? 0) eqn:H0; destruct (buck =? 1) eqn:H1; simpl; lia.
Qed.

Lemma IS_VALID_false buck :
  IS_VALID buck = false <-> buck = EMPTY_MARK \/ buck = TOMB_MARK.
Proof.
  unfold IS_VALID, IS_EMPTY, IS_TOMB, EMPTY_MARK, TOMB_MARK.
  destruct (buck =? 0) eqn:H0; destruct (buck =? 1) eqn:H1; simpl; lia.
Qed.

Lemma probe_from_succ map idx k :
  probe_from map idx (S k) = probe_next map (probe_from map idx k).
Proof.
  revert idx. induction k as [|k IH]; intros idx; [done |].
  change (probe_from map idx (S (S k)))
    with (probe_from map (probe_next map idx) (S k)).
  rewrite IH. done.
Qed.

Lemma land_mask (x k : Z) :
  0 <= k -> Z.land x (2 ^ k - 1) = x mod 2 ^ k.
Proof.
  intros Hk. rewrite <- Z.land_ones by done.
  f_equal. rewrite Z.ones_equiv. lia.
Qed.

Lemma land_size_t_mask (x k : Z) :
  0 <= k <= 64 -> Z.land (size_t x) (2 ^ k - 1) = x mod 2 ^ k.
Proof.
  intros Hk. rewrite land_mask by lia. unfold size_t.
  replace (2 ^ 64) with (2 ^ k * 2 ^ (64 - k)).
  - rewrite Z.rem_mul_r by lia.
    rewrite Z.mul_comm, Z.mod_add by lia. apply Z.mod_mod. lia.
  - rewrite <- Z.pow_add_r by lia. f_equal. lia.
Qed.

(** On a table of [2^k] slots the path visits [(hash + j) mod 2^k]. *)
Lemma probe_closed map hash k j :
  0 <= k < 64 -> capacity_mask map = 2 ^ k - 1 ->
  probe map hash j = (hash + Z.of_nat j) mod 2 ^ k.
Proof.
  intros Hk Hm. unfold probe. induction j as [|j IH].
  - simpl. rewrite Hm, land_mask by lia. f_equal. lia.
  - rewrite probe_from_succ, IH. unfold probe_next.
    rewrite Hm, land_size_t_mask by lia.
    rewrite Z.add_mod_idemp_l by lia. f_equal. lia.
Qed.

Lemma probe_range map hash k j :
  0 <= k < 64 -> capacity_mask map = 2 ^ k - 1 ->
  0 <= probe map hash j < 2 ^ k.
Proof.
  intros Hk Hm. rewrite (probe_closed map hash k j Hk Hm).
  apply Z.mod_pos_bound. lia.
Qed.

(** Every slot of the table is on the path, within one pass. *)
Lemma probe_reaches map hash k i :
  0 <= k < 64 -> capacity_mask map = 2 ^ k - 1 -> 0 <= i < 2 ^ k ->
  exists j, (Z.of_nat j < 2 ^ k) /\ probe map hash j = i.
Proof.
  intros Hk Hm Hi. exists (Z.to_nat ((i - hash) mod 2 ^ k)).
  pose proof (Z.mod_pos_bound (i - hash) (2 ^ k) ltac:(lia)) as Hb.
  split; [lia |].
  rewrite (probe_closed map hash k _ Hk Hm), Z2Nat.id by lia.
  rewrite Z.add_mod_idemp_r by lia.
  replace (hash + (i - hash)) with i by lia. apply Z.mod_small. lia.
Qed.

(** *** The scan of [find_index] *)

Lemma forall_lt_S (P : nat -> Prop) n :
  P O -> (forall j, (j < n)%nat -> P (S j)) -> forall j, (j < S n)%nat -> P j.
Proof. intros H0 HS [|j] Hj; [done |]. apply HS. lia. Qed.

Lemma tomb_not_match map entry hash idx :
  2 <= hash -> slot_tomb map idx -> ~ slot_match map entry hash idx.
Proof.
  unfold slot_tomb, slot_match, TOMB_MARK. intros Hh Ht [Hm _].
  rewrite Ht in Hm. injection Hm as Hm. lia.
Qed.

Lemma live_not_tomb map idx buck :
  load (buckets map) idx = Some buck -> IS_VALID buck = true ->
  ~ slot_tomb map idx.
Proof.
  unfold slot_tomb. intros Hl Hv Ht. rewrite Hl in Ht. injection Ht as ->.
  done.
Qed.

(** The loop, entered at [idx] with [n] slots to go before the first EMPTY
    one, under any state of [tomb_found]/[tomb_idx]. *)
Lemma find_index_loop_spec map entry hash n :
  2 <= hash ->
  forall fuel idx tomb_found tomb_idx,
  (n < fuel)%nat ->
  slot_empty map (probe_from map idx n) ->
  (forall j, (j < n)%nat -> ~ slot_empty map (probe_from map idx j)) ->
  (forall j, (j <= n)%nat ->
     0 <= probe_from map idx j < Z.of_nat (length (buckets map)) /\
     probe_from map idx j < Z.of_nat (length (entries map))) ->
  exists r,
    find_index_loop map entry hash fuel idx tomb_found tomb_idx = Some r /\
    ((exists j, (j < n)%nat /\
        slot_match map entry hash (probe_from map idx j) /\
        (forall j', (j' < j)%nat ->
           ~ slot_match map entry hash (probe_from map idx j')) /\
        r = probe_from map idx j) \/
     ((forall j, (j < n)%nat ->
         ~ slot_match map entry hash (probe_from map idx j)) /\
      ((tomb_found = true /\ r = tomb_idx) \/
       (tomb_found = false /\
        exists t, (t < n)%nat /\ slot_tomb map (probe_from map idx t) /\
          (forall t', (t' < t)%nat -> ~ slot_tomb map (probe_from map idx t')) /\
          r = probe_from map idx t) \/
       (tomb_found = false /\
        (forall t, (t < n)%nat -> ~ slot_tomb map (probe_from map idx t)) /\
        r = probe_from map idx n)))).
Proof.
  intros Hhash. induction n as [|n IH]; intros fuel idx tf ti Hfuel He Hne Hrg.
  - destruct fuel as [|fuel]; [lia |]. simpl in He. unfold slot_empty in He.
    simpl. rewrite He. simpl.
    exists (if tf then ti else idx). split; [done |]. right.
    split; [intros j Hj; lia |].
    destruct tf; [left; done | right; right].
    split; [done |]. split; [intros t Ht; lia | done].
  - destruct fuel as [|fuel]; [lia |].
    destruct (Hrg O ltac:(lia)) as [Hb0 He0]. simpl in Hb0, He0.
    destruct (load_in_range (buckets map) idx Hb0) as [buck Hbuck].
    assert (Hnot0 : buck <> EMPTY_MARK).
    { intros ->. apply (Hne O); [lia | done]. }
    assert (Hsub : forall tf' ti', exists r,
      find_index_loop map entry hash fuel (probe_next map idx) tf' ti' = Some r /\
      ((exists j, (j < n)%nat /\
          slot_match map entry hash (probe_from map idx (S j)) /\
          (forall j', (j' < j)%nat ->
             ~ slot_match map entry hash (probe_from map idx (S j'))) /\
          r = probe_from map idx (S j)) \/
       ((forall j, (j < n)%nat ->
           ~ slot_match map entry hash (probe_from map idx (S j))) /\
        ((tf' = true /\ r = ti') \/
         (tf' = false /\
          exists t, (t < n)%nat /\ slot_tomb map (probe_from map idx (S t)) /\
            (forall t', (t' < t)%nat ->
               ~ slot_tomb map (probe_from map idx (S t'))) /\
            r = probe_from map idx (S t)) \/
         (tf' = false /\
          (forall t, (t < n)%nat -> ~ slot_tomb map (probe_from map idx (S t))) /\
          r = probe_from map idx (S n)))))).
    { intros tf' ti'. apply IH; [lia | done | |].
      - intros j Hj. apply (Hne (S j)). lia.
      - intros j Hj. apply (Hrg (S j)). lia. }
    simpl. rewrite Hbuck. simpl. fold (probe_next map idx).
    destruct (IS_VALID buck) eqn:Hvalid; simpl.
    + (* a live slot *)
      assert (Hnt : ~ slot_tomb map idx) by (eapply live_not_tomb; eauto).
      assert (Hstep : ~ slot_match map entry hash idx ->
        exists r,
          find_index_loop map entry hash fuel (probe_next map idx) tf ti = Some r /\
          ((exists j, (j < S n)%nat /\
              slot_match map entry hash (probe_from map idx j) /\
              (forall j', (j' < j)%nat ->
                 ~ slot_match map entry hash (probe_from map idx j')) /\
              r = probe_from map idx j) \/
           ((forall j, (j < S n)%nat ->
               ~ slot_match map entry hash (probe_from map idx j)) /\
            ((tf = true /\ r = ti) \/
             (tf = false /\
              exists t, (t < S n)%nat /\ slot_tomb map (probe_from map idx t) /\
                (forall t', (t' < t)%nat ->
                   ~ slot_tomb map (probe_from map idx t')) /\
                r = probe_from map idx t) \/
             (tf = false /\
              (forall t, (t < S n)%nat -> ~ slot_tomb map (probe_from map idx t)) /\
              r = probe_from map idx (S n)))))).
      { intros Hnm. destruct (Hsub tf ti) as (r & Hr & Hcases).
        exists r. split; [done |].
        destruct Hcases as [(j & Hj & Hm & Hfirst & ->) | [Hnone Hcases]].
        - left. exists (S j). split; [lia |]. split; [done |]. split; [| done].
          apply forall_lt_S; done.
        - right. split; [apply forall_lt_S; done |].
          destruct Hcases as [? | [(-> & t & Ht & Htomb & Hfirst & ->) |
                                   (-> & Hnotomb & ->)]].
          + left; done.
          + right; left. split; [done |]. exists (S t).
            split; [lia |]. split; [done |]. split; [| done].
            apply forall_lt_S; done.
          + right; right. split; [done |]. split; [| done].
            apply forall_lt_S; done. }
      destruct (buck =? hash) eqn:Hbh.
      * apply Z.eqb_eq in Hbh. subst buck.
        destruct (load_in_range (entries map) idx ltac:(lia)) as [e Hent].
        unfold entry_at. rewrite Hent. simpl.
        destruct (compare map e entry) eqn:Hcmp.
        -- exists idx. split; [done |]. left. exists O.
           split; [lia |]. split; [| split; [intros j' Hj'; lia | done]].
           split; [done |]. exists e. done.
        -- apply Hstep. intros [_ (e' & He' & Hc')].
           unfold entry_at in He'. congruence.
      * apply Hstep. intros [Hm _]. rewrite Hbuck in Hm.
        injection Hm as Hm. apply Z.eqb_neq in Hbh. done.
    + (* a tombstone *)
      apply IS_VALID_false in Hvalid as [? | ->]; [done |].
      assert (Htomb : slot_tomb map idx) by done.
      assert (Hnm : ~ slot_match map entry hash idx)
        by (apply tomb_not_match; done).
      change (IS_EMPTY TOMB_MARK) with false. cbv iota.
      destruct tf; simpl.
      * destruct (Hsub true ti) as (r & Hr & Hcases).
        exists r. split; [done |].
        destruct Hcases as [(j & Hj & Hm & Hfirst & ->) | [Hnone Hcases]].
        -- left. exists (S j). split; [lia |]. split; [done |].
           split; [| done]. apply forall_lt_S; done.
        -- right. split; [apply forall_lt_S; done |].
           destruct Hcases as [? | [[? _] | [? _]]]; [left; done | done | done].
      * destruct (Hsub true idx) as (r & Hr & Hcases).
        exists r. split; [done |].
        destruct Hcases as [(j & Hj & Hm & Hfirst & ->) | [Hnone Hcases]].
        -- left. exists (S j). split; [lia |]. split; [done |].
           split; [| done]. apply forall_lt_S; done.
        -- right. split; [apply forall_lt_S; done |].
           destruct Hcases as [[_ ->] | [[? _] | [? _]]]; [| done | done].
           right; left. split; [done |]. exists O.
           split; [lia |]. split; [done |].
           split; [intros t' Ht'; lia | done].
Qed.

Lemma least_nat (P : nat -> Prop) :
  (forall n, P n \/ ~ P n) ->
  forall m, P m -> exists n, (n <= m)%nat /\ P n /\ forall j, (j < n)%nat -> ~ P j.
Proof.
  intros Hdec m. induction m as [m IH] using lt_wf_ind. intros Hm.
  assert (Hbelow : forall b, (b <= m)%nat ->
    (exists j, (j < b)%nat /\ P j) \/ (forall j, (j < b)%nat -> ~ P j)).
  { induction b as [|b IHb]; intros Hb.
    - right. intros j Hj. lia.
    - destruct IHb as [(j & Hj & HP) | Hnone]; [lia | |].
      + left. exists j. split; [lia | done].
      + destruct (Hdec b) as [HP | HnP].
        * left. exists b. split; [lia | done].
        * right. intros j Hj. destruct (decide (j = b)) as [-> | Hne]; [done |].
          apply Hnone. lia. }
  destruct (Hbelow m ltac:(lia)) as [(j & Hj & HP) | Hnone].
  - destruct (IH j Hj HP) as (n & Hn & HPn & Hleast).
    exists n. split; [lia | done].
  - exists m. done.
Qed.

Lemma slot_empty_dec map idx : slot_empty map idx \/ ~ slot_empty map idx.
Proof.
  unfold slot_empty. destruct (load (buckets map) idx) as [buck|]; [| right; done].
  destruct (decide (buck = EMPTY_MARK)) as [-> | Hne]; [left; done |].
  right. intros [= ?]. done.
Qed.

(** A table that holds an EMPTY slot has a first one on every probe path,
    met within one pass. *)
Lemma first_empty_on_path map hash :
  table_shape map -> (exists i, slot_empty map i) ->
  exists n, (n < length (buckets map))%nat /\
    slot_empty map (probe map hash n) /\
    forall j, (j < n)%nat -> ~ slot_empty map (probe map hash j).
Proof.
  intros (k & Hk & Hmask & Hlb & Hle) [i Hi].
  pose proof (load_lt _ _ _ Hi) as Hirange.
  destruct (probe_reaches map hash k i Hk Hmask ltac:(lia)) as (j & Hj & Hpj).
  destruct (least_nat (fun n => slot_empty map (probe map hash n))
              (fun n => slot_empty_dec map _) j) as (n & Hn & Hen & Hleast).
  { rewrite Hpj. done. }
  exists n. split; [lia | done].
Qed.

(** *** Counting slots *)

Lemma count_slots_bounds p l : 0 <= count_slots p l <= Z.of_nat (length l).
Proof.
  induction l as [|b l IH]; simpl; [lia |]. destruct (p b); lia.
Qed.

Lemma count_slots_replicate p n x :
  count_slots p (replicate n x) = if p x then Z.of_nat n else 0.
Proof.
  induction n as [|n IH]; simpl; [by destruct (p x) |].
  rewrite IH. destruct (p x); lia.
Qed.

Lemma count_slots_insert p l i old x :
  l !! i = Some old ->
  count_slots p (<[i:=x]> l) =
  count_slots p l - (if p old then 1 else 0) + (if p x then 1 else 0).
Proof.
  revert i. induction l as [|b l IH]; intros i Hl; [done |].
  destruct i as [|i]; simpl in *.
  - injection Hl as ->. lia.
  - rewrite (IH i Hl). lia.
Qed.

Lemma count_slots_le p q l :
  (forall b, p b = true -> q b = true) -> count_slots p l <= count_slots q l.
Proof.
  intros Hpq. induction l as [|b l IH]; simpl; [lia |].
  destruct (p b) eqn:Hp; [rewrite (Hpq b Hp) |]; destruct (q b); lia.
Qed.

Lemma count_slots_missing p l :
  count_slots p l < Z.of_nat (length l) ->
  exists i b, l !! i = Some b /\ p b = false.
Proof.
  induction l as [|b l IH]; simpl; [lia |]. intros Hlt.
  destruct (p b) eqn:Hp.
  - destruct IH as (i & b' & Hi & Hb'); [lia |]. exists (S i), b'. done.
  - exists O, b. done.
Qed.

Lemma live_le_used map : live_slots map <= used_slots map.
Proof.
  apply count_slots_le. intros b [Hb _]%IS_VALID_spec.
  unfold IS_EMPTY. destruct (b =? EMPTY_MARK) eqn:Hz; [lia | done].
Qed.

(** A table within its load factor holds an EMPTY slot. *)
Lemma used_lt_capacity_empty map :
  used_slots map < Z.of_nat (length (buckets map)) ->
  exists i, slot_empty map i.
Proof.
  intros H. apply count_slots_missing in H as (i & b & Hi & Hb).
  exists (Z.of_nat i). unfold slot_empty. apply load_Some.
  split; [lia |]. rewrite Nat2Z.id, Hi. f_equal.
  unfold IS_EMPTY in Hb. destruct (b =? EMPTY_MARK) eqn:Hz; [lia | done].
Qed.

Lemma hash_entry_range map entry : 2 <= hash_entry map entry < 2 ^ 32.
Proof.
  unfold hash_entry. pose proof (uint32_range (hash map entry)) as Hr.
  destruct (uint32 (hash map entry) <? 2) eqn:Hlt; lia.
Qed.

Lemma hash_entry_valid map entry : IS_VALID (hash_entry map entry) = true.
Proof.
  apply IS_VALID_spec. pose proof (hash_entry_range map entry).
  unfold EMPTY_MARK, TOMB_MARK. lia.
Qed.

(** The slot [find_index] resolves to: it is in the table, and live only when
    it matches the probe. *)
Lemma find_index_resolves map entry hash :
  table_shape map -> (exists i, slot_empty map i) -> 2 <= hash ->
  exists idx buck,
    find_index map entry hash = Some idx /\
    0 <= idx <= capacity_mask map /\
    load (buckets map) idx = Some buck /\
    (IS_VALID buck = true -> slot_match map entry hash idx).
Proof.
  intros Hshape Hempty Hhash.
  destruct (first_empty_on_path map hash Hshape Hempty) as (n & Hn & Hen & Hleast).
  destruct Hshape as (k & Hk & Hmask & Hlb & Hle).
  assert (Hrg : forall j, (j <= n)%nat ->
     0 <= probe map hash j < Z.of_nat (length (buckets map)) /\
     probe map hash j < Z.of_nat (length (entries map))).
  { intros j _. pose proof (probe_range map hash k j Hk Hmask). lia. }
  destruct (find_index_loop_spec map entry hash n Hhash (length (buckets map))
              (Z.land hash (capacity_mask map)) false 0 Hn Hen Hleast Hrg)
    as (r & Hr & Hcases).
  assert (Hpath : forall j, 0 <= probe_from map (Z.land hash (capacity_mask map)) j
                            <= capacity_mask map).
  { intros j. pose proof (probe_range map hash k j Hk Hmask) as Hp.
    unfold probe in Hp. lia. }
  assert (Hrange : 0 <= r <= capacity_mask map).
  { destruct Hcases as [(j & _ & _ & _ & ->) |
      [_ [[? _] | [(_ & t & _ & _ & _ & ->) | (_ & _ & ->)]]]];
      [apply Hpath | done | apply Hpath | apply Hpath]. }
  destruct (load_in_range (buckets map) r ltac:(lia)) as [buck Hbuck].
  exists r, buck. split; [done |]. split; [done |]. split; [done |].
  intros Hvalid.
  destruct Hcases as [(j & _ & Hm & _ & ->) |
    [_ [[? _] | [(_ & t & _ & Ht & _ & ->) | (_ & _ & ->)]]]]; [done | done | |].
  - unfold slot_tomb in Ht. rewrite Hbuck in Ht. injection Ht as ->. done.
  - unfold slot_empty, probe in Hen. rewrite Hbuck in Hen.
    injection Hen as ->. done.
Qed.

Lemma wf_allocated map :
  map_wf map -> 0 < capacity_mask map ->
  table_shape map /\ (exists i, slot_empty map i) /\
  0 <= num_entries map /\ used_slots map <= num_entries map /\
  4 * num_entries map <= 3 * (capacity_mask map + 1) /\
  8 <= capacity_mask map + 1 < 2 ^ 62.
Proof.
  intros (Hsz & Hlive & [(Hm & _) | (k & Hk & Hmask & Hlb & Hle & Hn0 & Hused & Hload)])
    Hpos; [lia |].
  assert (2 ^ 3 <= 2 ^ k) by (apply Z.pow_le_mono_r; lia).
  assert (2 ^ k < 2 ^ 62) by (apply Z.pow_lt_mono_r; lia).
  split; [exists k; repeat split; try done; lia |].
  split; [apply used_lt_capacity_empty; lia |].
  repeat split; try done; lia.
Qed.

Lemma count_slots_pos p l i b :
  l !! i = Some b -> p b = true -> 1 <= count_slots p l.
Proof.
  revert i. induction l as [|b' l IH]; intros i Hl Hb; [done |].
  destruct i as [|i]; simpl in *.
  - injection Hl as ->. rewrite Hb. pose proof (count_slots_bounds p l). lia.
  - pose proof (IH i Hl Hb). destruct (p b'); lia.
Qed.

(** *** [ext_map_erase] *)

Lemma ext_map_erase_cases map entry :
  map_wf map -> 0 < capacity_mask map ->
  exists idx buck,
    find_index map entry (hash_entry map entry) = Some idx /\
    load (buckets map) idx = Some buck /\
    (IS_VALID buck = true ->
     exists map',
       ext_map_erase map entry = Some (map', true) /\
       load (buckets map') idx = Some TOMB_MARK /\
       (forall j, j <> idx -> load (buckets map') j = load (buckets map) j) /\
       size map' = size map - 1 /\
       num_entries map' = num_entries map /\
       capacity_mask map' = capacity_mask map /\
       entries map' = entries map /\
       map_wf map') /\
    (IS_VALID buck = false -> ext_map_erase map entry = Some (map, false)).
Proof.
  intros Hwf Hpos.
  destruct (wf_allocated map Hwf Hpos) as (Hshape & Hempty & Hn0 & Hused & Hload & Hcap).
  pose proof (hash_entry_range map entry) as Hh.
  destruct (find_index_resolves map entry (hash_entry map entry) Hshape Hempty
              ltac:(lia)) as (idx & buck & Hfind & Hidx & Hbuck & Hmatch).
  exists idx, buck. split; [done |]. split; [done |].
  pose proof (load_lt _ _ _ Hbuck) as Hlt.
  apply load_Some in Hbuck as Hbuck'. destruct Hbuck' as [_ Hlook].
  unfold ext_map_erase. rewrite Hfind. simpl. rewrite Hbuck. simpl.
  split; intros Hvalid; rewrite Hvalid; [| done].
  rewrite (store_Some _ _ _ Hlt). simpl.
  destruct Hwf as (Hsz & Hlive & Hcases).
  assert (Hone : 1 <= live_slots map) by (eapply count_slots_pos; eauto).
  eexists. split; [done |]. simpl.
  split; [apply load_insert_eq; done |].
  split; [intros j Hj; apply load_insert_ne; lia |].
  split; [apply size_t_small; lia |].
  repeat (split; [done |]).
  (* the invariant *)
  unfold map_wf, live_slots, used_slots. simpl.
  rewrite !(count_slots_insert _ _ _ _ _ Hlook), Hvalid.
  rewrite (size_t_small (size map - 1)) by lia.
  apply IS_VALID_spec in Hvalid as Hne. destruct Hne as [Hne0 Hne1].
  unfold IS_EMPTY at 2 3. unfold IS_VALID at 2, IS_EMPTY at 1, IS_TOMB.
  destruct (buck =? EMPTY_MARK) eqn:Hz; [lia |].
  change (TOMB_MARK =? EMPTY_MARK) with false.
  change (TOMB_MARK =? TOMB_MARK) with true. simpl.
  fold (live_slots map). fold (used_slots map).
  split; [lia |]. split; [lia |].
  destruct Hcases as [(Hm & _) | (k & Hk & Hmask & Hlb & Hle & Hn0' & Hused' & Hload')];
    [lia |].
  right. exists k. rewrite length_insert. repeat split; try done; lia.
Qed.

(** *** [map_grow] *)

Lemma count_slots_insert_le p l i x :
  count_slots p (<[i:=x]> l) <= count_slots p l + 1.
Proof.
  destruct (l !! i) as [old|] eqn:Hl.
  - rewrite (count_slots_insert p l i old x Hl). destruct (p old), (p x); lia.
  - rewrite list_insert_ge by (apply lookup_ge_None; done). lia.
Qed.

Lemma map_grow_loop_spec map new_cap k' :
  new_cap = 2 ^ k' -> 0 <= k' < 63 ->
  Z.of_nat (length (buckets map)) <= 2 ^ 62 ->
  length (entries map) = length (buckets map) ->
  forall n i new_buckets new_entries num,
  (i + n = length (buckets map))%nat ->
  Z.of_nat (length new_buckets) = new_cap ->
  Z.of_nat (length new_entries) = new_cap ->
  0 <= num <= Z.of_nat i ->
  exists new_buckets' new_entries' num',
    map_grow_loop map new_cap n (Z.of_nat i) (new_buckets, new_entries, num)
      = Some (new_buckets', new_entries', num') /\
    length new_buckets' = length new_buckets /\
    length new_entries' = length new_entries /\
    num' = num + count_slots IS_VALID (drop i (buckets map)) /\
    count_slots (fun buck => negb (IS_EMPTY buck)) new_buckets' <=
      count_slots (fun buck => negb (IS_EMPTY buck)) new_buckets +
      count_slots IS_VALID (drop i (buckets map)) /\
    count_slots IS_VALID new_buckets' <=
      count_slots IS_VALID new_buckets +
      count_slots IS_VALID (drop i (buckets map)) /\
    (Forall not_tomb new_buckets -> Forall not_tomb new_buckets').
Proof.
  intros -> Hk' Hlen Hents. induction n as [|n IH];
    intros i nb ne num Hin Hnb Hne Hnum.
  - exists nb, ne, num. simpl.
    rewrite drop_ge by lia. simpl. repeat split; try done; lia.
  - destruct (lookup_lt_is_Some_2 (buckets map) i ltac:(lia)) as [buck Hbuck].
    destruct (lookup_lt_is_Some_2 (entries map) i ltac:(lia)) as [e He].
    assert (Hload : load (buckets map) (Z.of_nat i) = Some buck).
    { apply load_Some. rewrite Nat2Z.id. split; [lia | done]. }
    assert (Hloade : load (entries map) (Z.of_nat i) = Some e).
    { apply load_Some. rewrite Nat2Z.id. split; [lia | done]. }
    assert (2 ^ 62 < 2 ^ 64) by (apply Z.pow_lt_mono_r; lia).
    assert (Hnext : size_t (Z.of_nat i + 1) = Z.of_nat (S i)).
    { rewrite size_t_small; unfold SIZE_MAX; lia. }
    rewrite (drop_S _ _ _ Hbuck).
    simpl map_grow_loop. rewrite Hload. simpl. rewrite Hnext.
    destruct (IS_VALID buck) eqn:Hvalid.
    + assert (0 < 2 ^ k') by (apply Z.pow_pos_nonneg; lia).
      assert (2 ^ k' < 2 ^ 64) by (apply Z.pow_lt_mono_r; lia).
      rewrite (size_t_small (2 ^ k' - 1)) by (unfold SIZE_MAX; lia).
      rewrite land_mask by lia.
      pose proof (Z.mod_pos_bound buck (2 ^ k') ltac:(lia)) as Hidx.
      rewrite (store_Some nb) by lia. simpl.
      unfold entry_at. rewrite Hloade. simpl.
      rewrite (store_Some ne) by lia. simpl.
      rewrite (size_t_small (num + 1)) by (unfold SIZE_MAX; lia).
      destruct (IH (S i) (<[Z.to_nat (buck mod 2 ^ k') := buck]> nb)
                  (<[Z.to_nat (buck mod 2 ^ k') := e]> ne) (num + 1))
        as (nb' & ne' & num' & Hrun & Hlb' & Hle' & Hnum' & Hused & Hlive & Htomb).
      { lia. } { rewrite length_insert. done. } { rewrite length_insert. done. }
      { lia. }
      exists nb', ne', num'. rewrite !length_insert in *.
      split; [done |]. split; [done |]. split; [done |].
      simpl count_slots. try rewrite Hvalid.
      pose proof (count_slots_insert_le (fun buck => negb (IS_EMPTY buck)) nb
                    (Z.to_nat (buck mod 2 ^ k')) buck).
      pose proof (count_slots_insert_le IS_VALID nb
                    (Z.to_nat (buck mod 2 ^ k')) buck).
      split; [lia |]. split; [lia |]. split; [lia |].
      intros Hnt. apply Htomb. apply Forall_insert; [done |].
      apply IS_VALID_spec in Hvalid as [_ ?]. done.
    + destruct (IH (S i) nb ne num) as
        (nb' & ne' & num' & Hrun & Hlb' & Hle' & Hnum' & Hused & Hlive & Htomb);
        [lia | done | done | lia |].
      exists nb', ne', num'. simpl count_slots. try rewrite Hvalid.
      repeat split; try done; lia.
Qed.

Lemma map_grow_spec map :
  map_wf map -> capacity_mask map < 2 ^ 60 ->
  exists map',
    map_grow junk map = Some map' /\
    hash map' = hash map /\ compare map' = compare map /\
    entry_sz map' = entry_sz map /\ size map' = size map /\
    capacity_mask map' =
      (if capacity_mask map =? 0 then INITIAL_CAPACITY - 1
       else 2 * capacity_mask map + 1) /\
    num_entries map' = live_slots map /\
    Forall not_tomb (buckets map') /\
    4 * (num_entries map' + 1) <= 3 * (capacity_mask map' + 1) /\
    map_wf map'.
Proof.
  intros (Hsz & Hlive & Hcases) Hbound. unfold map_grow.
  destruct Hcases as [(Hm & Hb & He & Hn) |
                      (k & Hk & Hmask & Hlb & Hle & Hn0 & Hused & Hload)].
  - (* first allocation *)
    rewrite Hm. simpl. eexists. split; [done |]. simpl.
    unfold live_slots, used_slots, map_wf. simpl. rewrite Hb, Hn. simpl.
    repeat (split; [done |]).
    split. { repeat constructor; unfold not_tomb, EMPTY_MARK, TOMB_MARK; lia. }
    split; [unfold INITIAL_CAPACITY; rewrite size_t_small; unfold SIZE_MAX; lia |].
    split; [done |]. unfold live_slots in Hlive. rewrite Hb in Hlive.
    split; [done |]. right. exists 3.
    unfold INITIAL_CAPACITY. rewrite size_t_small by (unfold SIZE_MAX; lia).
    repeat split; try done; lia.
  - assert (2 ^ 3 <= 2 ^ k) by (apply Z.pow_le_mono_r; lia).
    assert (Hk60 : k <= 60).
    { destruct (Z.le_gt_cases k 60) as [? | Hgt]; [done |].
      pose proof (Z.pow_le_mono_r 2 61 k ltac:(lia) ltac:(lia)). lia. }
    assert (2 ^ k <= 2 ^ 60) by (apply Z.pow_le_mono_r; lia).
    assert (H264 : 2 ^ 64 = 16 * 2 ^ 60) by done.
    assert (H262 : 2 ^ 62 = 4 * 2 ^ 60) by done.
    assert (Hpow : 2 ^ (k + 1) = 2 * 2 ^ k) by (rewrite Z.pow_add_r; lia).
    assert (Hz : (capacity_mask map =? 0) = false) by lia.
    assert (Hp : (0 <? capacity_mask map) = true) by lia.
    rewrite Hz, Hp, Hmask.
    replace (2 ^ k - 1 + 1) with (2 ^ k) by lia.
    rewrite (size_t_small (2 ^ k)) by (unfold SIZE_MAX; lia).
    rewrite (size_t_small (2 ^ k * 2)) by (unfold SIZE_MAX; lia).
    destruct (map_grow_loop_spec map (2 ^ k * 2) (k + 1) ltac:(lia) ltac:(lia)
                ltac:(lia) ltac:(lia) (Z.to_nat (2 ^ k)) O
                (replicate (Z.to_nat (2 ^ k * 2)) EMPTY_MARK)
                (replicate (Z.to_nat (2 ^ k * 2)) junk) 0)
      as (nb & ne & num & Hrun & Hlnb & Hlne & Hnum & Hu & Hl & Hnt).
    { lia. } { rewrite length_replicate. lia. } { rewrite length_replicate. lia. }
    { lia. }
    rewrite length_replicate in Hlnb. rewrite length_replicate in Hlne.
    change (Z.of_nat 0) with 0 in Hrun. rewrite Hrun. simpl.
    rewrite drop_0 in *. rewrite !count_slots_replicate in *.
    change (IS_VALID EMPTY_MARK) with false in *.
    change (negb (IS_EMPTY EMPTY_MARK)) with false in *.
    fold (live_slots map) in *.
    pose proof (live_le_used map) as Hlu.
    rewrite (size_t_small (2 ^ k * 2 - 1)) by (unfold SIZE_MAX; lia).
    eexists. split; [done |]. simpl.
    repeat (split; [done |]).
    split; [lia |]. split; [lia |].
    split.
    { apply Hnt, Forall_replicate. unfold not_tomb, EMPTY_MARK, TOMB_MARK. lia. }
    split; [lia |].
    unfold map_wf, live_slots, used_slots. simpl.
    split; [done |]. split; [unfold live_slots in *; lia |].
    right. exists (k + 1).
    pose proof (count_slots_bounds IS_VALID (buckets map)).
    unfold live_slots in *.
    repeat split; try lia.
Qed.

(** *** [ext_map_put] *)

(** The part of [ext_map_put] that follows the growth check. *)
Lemma put_at_cases map entry :
  map_wf map -> 0 < capacity_mask map ->
  4 * (num_entries map + 1) <= 3 * (capacity_mask map + 1) ->
  size map < SIZE_MAX ->
  exists idx buck map',
    find_index map entry (hash_entry map entry) = Some idx /\
    load (buckets map) idx = Some buck /\
    (IS_VALID buck = true ->
     slot_match map entry (hash_entry map entry) idx) /\
    put_at map entry = Some (map', negb (IS_VALID buck)) /\
    load (buckets map') idx = Some (hash_entry map entry) /\
    entry_at (entries map') idx = Some entry /\
    (forall j, j <> idx ->
       load (buckets map') j = load (buckets map) j /\
       entry_at (entries map') j = entry_at (entries map) j) /\
    capacity_mask map' = capacity_mask map /\
    hash map' = hash map /\ compare map' = compare map /\
    size map' = (if IS_VALID buck then size map else size map + 1) /\
    num_entries map' =
      (if IS_EMPTY buck then num_entries map + 1 else num_entries map) /\
    map_wf map'.
Proof.
  intros Hwf Hpos Hroom Hsize.
  destruct (wf_allocated map Hwf Hpos)
    as (Hshape & Hempty & Hn0 & Hused & Hload & Hcap).
  pose proof (hash_entry_range map entry) as Hh.
  destruct (find_index_resolves map entry (hash_entry map entry) Hshape Hempty
              ltac:(lia)) as (idx & buck & Hfind & Hidx & Hbuck & Hmatch).
  pose proof (load_lt _ _ _ Hbuck) as Hlt.
  apply load_Some in Hbuck as Hbuck'. destruct Hbuck' as [_ Hlook].
  destruct Hwf as (Hsz & Hlive & [(Hm0 & _) | (k & Hk & Hmask & Hlb & Hle & _)]);
    [lia |].
  assert (Hlte : 0 <= idx < Z.of_nat (length (entries map))) by lia.
  assert (H262 : 2 ^ 64 = 4 * 2 ^ 62) by done.
  exists idx, buck. eexists. split; [done |]. split; [done |]. split; [done |].
  unfold put_at. rewrite Hfind. simpl. rewrite Hbuck. simpl.
  rewrite (store_Some _ _ _ Hlt). simpl. rewrite (store_Some _ _ _ Hlte). simpl.
  split; [done |]. simpl.
  split; [apply load_insert_eq; done |].
  split; [apply load_insert_eq; done |].
  split.
  { intros j Hj. unfold entry_at. rewrite !load_insert_ne by lia. done. }
  repeat (split; [done |]).
  assert (Hsz' : (if negb (IS_VALID buck) then size_t (size map + 1) else size map)
                 = (if IS_VALID buck then size map else size map + 1)).
  { destruct (IS_VALID buck); simpl; [done |].
    apply size_t_small. lia. }
  assert (Hnum' : (if negb (IS_VALID buck) && IS_EMPTY buck
                   then size_t (num_entries map + 1) else num_entries map)
                  = (if IS_EMPTY buck then num_entries map + 1
                     else num_entries map)).
  { destruct (IS_EMPTY buck) eqn:Hemp.
    - unfold IS_EMPTY in Hemp. apply Z.eqb_eq in Hemp. subst buck. simpl.
      apply size_t_small. unfold SIZE_MAX. lia.
    - rewrite andb_false_r. done. }
  rewrite Hsz', Hnum'. split; [done |]. split; [done |].
  (* the invariant *)
  pose proof (hash_entry_valid map entry) as Hhv.
  unfold map_wf, live_slots, used_slots in *. simpl.
  rewrite !(count_slots_insert _ _ _ _ _ Hlook), Hhv.
  assert (Hhe : IS_EMPTY (hash_entry map entry) = false).
  { unfold IS_EMPTY, EMPTY_MARK. lia. }
  rewrite Hhe. simpl negb.
  assert (Hev : IS_EMPTY buck = true -> IS_VALID buck = false).
  { unfold IS_VALID. intros ->. done. }
  split; [destruct (IS_VALID buck); lia |].
  split; [destruct (IS_VALID buck); lia |].
  right. exists k. rewrite !length_insert.
  destruct (IS_EMPTY buck) eqn:Hemp; simpl; repeat split; try done; lia.
Qed.

Lemma over_load_spec map :
  0 <= num_entries map < 2 ^ 62 -> 0 <= capacity_mask map < 2 ^ 62 ->
  over_load map = true <->
  3 * (capacity_mask map + 1) < 4 * (num_entries map + 1).
Proof.
  intros Hn Hm. unfold over_load.
  assert (H262 : 2 ^ 64 = 4 * 2 ^ 62) by done.
  rewrite !size_t_small by (unfold SIZE_MAX; lia). lia.
Qed.

(** The growth check of [ext_map_put]: afterwards the table is allocated
    and has room for one more slot in use. *)
Lemma put_grow_spec map :
  map_wf map -> capacity_mask map < 2 ^ 60 ->
  exists map1,
    put_grow junk map = Some map1 /\
    (over_load map = false -> map1 = map) /\
    (over_load map = true -> map_grow junk map = Some map1) /\
    size map1 = size map /\
    hash map1 = hash map /\ compare map1 = compare map /\
    map_wf map1 /\ 0 < capacity_mask map1 /\
    4 * (num_entries map1 + 1) <= 3 * (capacity_mask map1 + 1).
Proof.
  intros Hwf Hbound. unfold put_grow.
  destruct (over_load map) eqn:Hover.
  - destruct (map_grow_spec map Hwf Hbound)
      as (map1 & Hgrow & Hh & Hc & _ & Hs & Hm & Hn & _ & Hroom & Hwf1).
    exists map1. repeat (split; [done |]). split; [| done].
    rewrite Hm. destruct Hwf as (_ & _ & [(-> & _) | (k & Hk & -> & _)]).
    + simpl. unfold INITIAL_CAPACITY. lia.
    + assert (2 ^ 3 <= 2 ^ k) by (apply Z.pow_le_mono_r; lia).
      destruct (2 ^ k - 1 =? 0) eqn:?; lia.
  - exists map. repeat (split; [done |]).
    destruct Hwf as (Hsz & Hlive & [(Hm & Hb & He & Hn) |
                         (k & Hk & Hmask & Hlb & Hle & Hn0 & Hused & Hload)]).
    + exfalso. unfold over_load in Hover. rewrite Hm, Hn in Hover. done.
    + assert (2 ^ 3 <= 2 ^ k) by (apply Z.pow_le_mono_r; lia).
      assert (2 ^ k < 2 ^ 62) by (apply Z.pow_lt_mono_r; lia).
      assert (Hnot : ~ over_load map = true) by (rewrite Hover; done).
      rewrite over_load_spec in Hnot by lia.
      split; lia.
Qed.

Lemma ext_map_put_cases map entry :
  map_wf map -> capacity_mask map < 2 ^ 60 -> size map < SIZE_MAX ->
  exists map1 idx buck map',
    put_grow junk map = Some map1 /\
    (over_load map = false -> map1 = map) /\
    (over_load map = true -> map_grow junk map = Some map1) /\
    find_index map1 entry (hash_entry map entry) = Some idx /\
    load (buckets map1) idx = Some buck /\
    ext_map_put junk map entry = Some (map', negb (IS_VALID buck)) /\
    load (buckets map') idx = Some (hash_entry map entry) /\
    entry_at (entries map') idx = Some entry /\
    (forall j, j <> idx ->
       load (buckets map') j = load (buckets map1) j /\
       entry_at (entries map') j = entry_at (entries map1) j) /\
    capacity_mask map' = capacity_mask map1 /\
    size map' = (if IS_VALID buck then size map else size map + 1) /\
    num_entries map' =
      (if IS_EMPTY buck then num_entries map1 + 1 else num_entries map1) /\
    map_wf map' /\
    (IS_VALID buck = true ->
     slot_match map1 entry (hash_entry map entry) idx) /\
    hash map' = hash map /\ compare map' = compare map /\
    map_wf map1 /\ 0 < capacity_mask map1.
Proof.
  intros Hwf Hbound Hsize.
  destruct (put_grow_spec map Hwf Hbound)
    as (map1 & Hgrow & Hsame & Hgrown & Hs1 & Hh1 & Hc1 & Hwf1 & Hpos1 & Hroom1).
  destruct (put_at_cases map1 entry Hwf1 Hpos1 Hroom1 ltac:(lia))
    as (idx & buck & map' & Hfind & Hbuck & Hmatch & Hput & Hb' & He' & Hoth &
        Hm' & Hh' & Hc' & Hs' & Hn' & Hwf').
  assert (Hhe : hash_entry map1 entry = hash_entry map entry).
  { unfold hash_entry. rewrite Hh1. done. }
  rewrite Hhe in *. rewrite Hs1 in Hs'.
  exists map1, idx, buck, map'.
  unfold ext_map_put. rewrite Hgrow. simpl.
  repeat (split; [done |]). split; [congruence |]. split; [congruence |]. done.
Qed.

Lemma ext_map_init_wf entry_sz (hash : E -> Z) compare :
  map_wf (ext_map_init entry_sz hash compare).
Proof.
  unfold map_wf, live_slots. simpl. unfold SIZE_MAX.
  split; [lia |]. split; [lia |]. left. done.
Qed.

(** *** The claims on the probe, [ext_map_put] and [ext_map_erase] *)

(** C3. On a table of [capacity_mask + 1] slots that holds an EMPTY slot,
    [find_index(entry, hash)] returns, for a probe hash that is not a
    sentinel: the first slot of the probe path, before its first EMPTY slot,
    whose cached hash is the probe hash and whose record the [compare]
    callback accepts, if there is one; otherwise the first TOMBSTONE slot
    met before that EMPTY slot, if there is one; otherwise that EMPTY slot.
    Tombstones never end the scan.  One pass over the table is enough
    fuel. *)
Theorem find_index_probe_sequence map entry hash :
  table_shape map ->
  (exists i, slot_empty map i) ->
  2 <= hash ->
  exists n r,
    slot_empty map (probe map hash n) /\
    (forall j, (j < n)%nat -> ~ slot_empty map (probe map hash j)) /\
    find_index map entry hash = Some r /\
    (forall fuel, (length (buckets map) <= fuel)%nat ->
       find_index_fuel fuel map entry hash = Some r) /\
    scan_outcome map entry hash n r.
Proof.
  intros Hshape Hempty Hhash.
  destruct (first_empty_on_path map hash Hshape Hempty) as (n & Hn & Hen & Hleast).
  destruct Hshape as (k & Hk & Hmask & Hlb & Hle).
  assert (Hrg : forall j, (j <= n)%nat ->
     0 <= probe map hash j < Z.of_nat (length (buckets map)) /\
     probe map hash j < Z.of_nat (length (entries map))).
  { intros j _. pose proof (probe_range map hash k j Hk Hmask). lia. }
  destruct (find_index_loop_spec map entry hash n Hhash (length (buckets map))
              (Z.land hash (capacity_mask map)) false 0 Hn Hen Hleast Hrg)
    as (r & Hr & Hcases).
  exists n, r. split; [done |]. split; [done |]. split; [done |]. split.
  - intros fuel Hfuel.
    destruct (find_index_loop_spec map entry hash n Hhash fuel
                (Z.land hash (capacity_mask map)) false 0 ltac:(lia)
                Hen Hleast Hrg) as (r' & Hr' & Hcases').
    unfold find_index_fuel. rewrite Hr'. f_equal.
    clear Hr Hr'.
    destruct Hcases as [(j & Hj & Hm & Hf & ->) | [Hnone Hc]];
    destruct Hcases' as [(j' & Hj' & Hm' & Hf' & ->) | [Hnone' Hc']].
    + destruct (Nat.lt_trichotomy j j') as [Hlt | [-> | Hgt]]; [| done |].
      * exfalso. eapply Hf'; eauto.
      * exfalso. eapply Hf; eauto.
    + exfalso. eapply Hnone'; eauto.
    + exfalso. eapply Hnone; eauto.
    + destruct Hc as [[? _] | [(_ & t & Ht & Htomb & Hft & ->) | (_ & Hnt & ->)]];
        [done | |];
      (destruct Hc' as [[? _] | [(_ & t' & Ht' & Htomb' & Hft' & ->) |
                                 (_ & Hnt' & ->)]]; [done | |]).
      * destruct (Nat.lt_trichotomy t t') as [Hlt | [-> | Hgt]]; [| done |].
        -- exfalso. eapply Hft'; eauto.
        -- exfalso. eapply Hft; eauto.
      * exfalso. eapply Hnt'; eauto.
      * exfalso. eapply Hnt; eauto.
      * done.
  - unfold scan_outcome.
    destruct Hcases as [Hc | [Hnone [[? _] | [(_ & Hc) | (_ & Hc)]]]];
      [left; done | done | right; left; done | right; right; done].
Qed.

(** C4 (amended). [ext_map_put] first runs its growth check, which leaves
    [map1]: the table itself when [num_entries + 1] is within 75% of the
    capacity, the table rehashed by [map_grow] otherwise.  The probe then
    resolves to a slot [idx] of [map1], and: if that slot was not live,
    [size] is incremented by exactly 1 and put returns true, and
    [num_entries] is [map1]'s plus 1 if the slot was EMPTY and [map1]'s if
    it was a TOMBSTONE; if the slot was live, [size] is unchanged,
    [num_entries] is [map1]'s and put returns false.  In both cases the slot
    then caches the hash of the record and holds the record, and no other
    slot of [map1] changes. *)
Theorem ext_map_put_counts map entry :
  map_wf map -> capacity_mask map < 2 ^ 60 -> size map < SIZE_MAX ->
  exists map1 idx buck map',
    put_grow junk map = Some map1 /\
    (over_load map = false -> map1 = map) /\
    (over_load map = true -> map_grow junk map = Some map1) /\
    find_index map1 entry (hash_entry map entry) = Some idx /\
    load (buckets map1) idx = Some buck /\
    ext_map_put junk map entry = Some (map', negb (IS_VALID buck)) /\
    (IS_VALID buck = false ->
       size map' = size map + 1 /\
       (buck = EMPTY_MARK -> num_entries map' = num_entries map1 + 1) /\
       (buck = TOMB_MARK -> num_entries map' = num_entries map1)) /\
    (IS_VALID buck = true ->
       size map' = size map /\ num_entries map' = num_entries map1) /\
    load (buckets map') idx = Some (hash_entry map entry) /\
    entry_at (entries map') idx = Some entry /\
    (forall j, j <> idx ->
       load (buckets map') j = load (buckets map1) j /\
       entry_at (entries map') j = entry_at (entries map1) j).
Proof.
  intros Hwf Hbound Hsize.
  destruct (ext_map_put_cases map entry Hwf Hbound Hsize)
    as (map1 & idx & buck & map' & Hgrow & Hsame & Hgrown & Hfind & Hbuck &
        Hput & Hb' & He' & Hoth & _ & Hs' & Hn' & _ & _).
  exists map1, idx, buck, map'. repeat (split; [done |]).
  split; [| split; [| done]].
  - intros Hnv. rewrite Hnv in Hs'. split; [done |].
    split; intros ->; rewrite Hn'; done.
  - intros Hv. rewrite Hv in Hs'. split; [done |]. rewrite Hn'.
    apply IS_VALID_spec in Hv as [Hne _]. unfold IS_EMPTY.
    destruct (buck =? EMPTY_MARK) eqn:Hz; [lia | done].
Qed.

(** [ext_map_erase] on an allocated table: the probe resolves to a slot;
    if it is live, its metadata becomes the TOMBSTONE sentinel, no other
    bucket changes, [size] is decremented by 1, [num_entries], the capacity
    and the entries are unchanged and erase returns true; if it is not live,
    erase returns false and the table is unchanged. *)
Lemma ext_map_erase_tombstone map entry :
  map_wf map -> 0 < capacity_mask map ->
  exists idx buck,
    find_index map entry (hash_entry map entry) = Some idx /\
    load (buckets map) idx = Some buck /\
    (IS_VALID buck = true ->
     exists map',
       ext_map_erase map entry = Some (map', true) /\
       load (buckets map') idx = Some TOMB_MARK /\
       (forall j, j <> idx -> load (buckets map') j = load (buckets map) j) /\
       size map' = size map - 1 /\
       num_entries map' = num_entries map /\
       capacity_mask map' = capacity_mask map /\
       entries map' = entries map) /\
    (IS_VALID buck = false -> ext_map_erase map entry = Some (map, false)).
Proof.
  intros Hwf Hpos.
  destruct (ext_map_erase_cases map entry Hwf Hpos)
    as (idx & buck & Hfind & Hbuck & Hlive & Hdead).
  exists idx, buck. repeat (split; [done |]). split; [| done].
  intros Hv. destruct (Hlive Hv) as (map' & H1 & H2 & H3 & H4 & H5 & H6 & H7 & _).
  exists map'. done.
Qed.

(** C5 (the code departs from it). A table that [ext_map_init] has created
    and that no put has allocated yet holds no record, so every key is
    missing from it; [buckets] is [NULL] and [capacity_mask] is 0.  The scan
    of [ext_map_erase] starts at slot [hash & 0 = 0] and reads [buckets[0]]:
    the call has no result, whatever the number of iterations allowed,
    instead of returning false.  [ext_map_capacity] and [ext_map_clear] test
    for this state and return. *)
Theorem ext_map_erase_before_first_put entry_sz hash compare entry :
  buckets (ext_map_init entry_sz hash compare) = [] /\
  ext_map_size (ext_map_init entry_sz hash compare) = 0 /\
  map_wf (ext_map_init entry_sz hash compare) /\
  Z.land (hash_entry (ext_map_init entry_sz hash compare) entry)
    (capacity_mask (ext_map_init entry_sz hash compare)) = 0 /\
  load (buckets (ext_map_init entry_sz hash compare)) 0 = None /\
  (forall fuel,
     find_index_fuel fuel (ext_map_init entry_sz hash compare) entry
       (hash_entry (ext_map_init entry_sz hash compare) entry) = None) /\
  ext_map_erase (ext_map_init entry_sz hash compare) entry = None /\
  ext_map_capacity (ext_map_init entry_sz hash compare) = 0 /\
  ext_map_clear (ext_map_init entry_sz hash compare)
    = Some (ext_map_init entry_sz hash compare).
Proof.
  split; [done |]. split; [done |]. split; [apply ext_map_init_wf |].
  assert (Hhome : Z.land (hash_entry (ext_map_init entry_sz hash compare) entry)
                    (capacity_mask (ext_map_init entry_sz hash compare)) = 0)
    by apply Z.land_0_r.
  split; [done |]. split; [done |].
  assert (Hscan : forall fuel,
            find_index_fuel fuel (ext_map_init entry_sz hash compare) entry
              (hash_entry (ext_map_init entry_sz hash compare) entry) = None).
  { intros fuel. unfold find_index_fuel. rewrite Hhome.
    destruct fuel as [|fuel]; done. }
  split; [done |]. split; [| done].
  unfold ext_map_erase, find_index. rewrite Hscan. done.
Qed.

(** *** Eight puts into an empty table *)

Lemma put_all_snoc l : forall map entry,
  put_all junk map (l ++ [entry])
  = put_all junk map l ≫= fun map' => fst <$> ext_map_put junk map' entry.
Proof.
  induction l as [|e l IH]; intros map entry; simpl.
  - destruct (ext_map_put junk map entry) as [[map' b]|]; done.
  - destruct (ext_map_put junk map e) as [[map' b]|]; simpl; [apply IH | done].
Qed.

Lemma ext_map_capacity_allocated map :
  map_wf map -> 0 < capacity_mask map ->
  ext_map_capacity map = capacity_mask map + 1.
Proof.
  intros Hwf Hpos.
  destruct (wf_allocated map Hwf Hpos) as ((k & Hk & Hmask & Hlb & Hle) & _ & _ & _ & _ & Hcap).
  unfold ext_map_capacity. destruct (entries map) as [|e l] eqn:He.
  - simpl in Hle. lia.
  - apply size_t_small. assert (2 ^ 62 < 2 ^ 64) by done. unfold SIZE_MAX. lia.
Qed.

(** The live slots of the arrays the loop of [map_grow] builds hold
    (cached hash, record) pairs of live slots of the old arrays. *)
Lemma map_grow_loop_pairs map new_cap (P : Z -> E -> Prop) n :
  (forall j buck e, load (buckets map) j = Some buck -> IS_VALID buck = true ->
     entry_at (entries map) j = Some e -> P buck e) ->
  forall i nb ne num nb' ne' num',
  map_grow_loop map new_cap n i (nb, ne, num) = Some (nb', ne', num') ->
  (forall idx buck e, load nb idx = Some buck -> IS_VALID buck = true ->
     load ne idx = Some e -> P buck e) ->
  forall idx buck e, load nb' idx = Some buck -> IS_VALID buck = true ->
    load ne' idx = Some e -> P buck e.
Proof.
  intros Hold. induction n as [|n IH]; intros i nb ne num nb' ne' num'; simpl.
  - intros [= <- <- <-]. done.
  - destruct (load (buckets map) i) as [buck|] eqn:Hbuck; simpl; [| done].
    destruct (IS_VALID buck) eqn:Hvalid; [| apply IH].
    destruct (store nb _ buck) as [nb1|] eqn:Hs1; simpl; [| done].
    destruct (entry_at (entries map) i) as [e|] eqn:He; simpl; [| done].
    destruct (store ne _ e) as [ne1|] eqn:Hs2; simpl; [| done].
    intros Hrun Hpairs. apply (IH _ _ _ _ _ _ _ Hrun).
    apply store_inv in Hs1 as [Hr1 ->]. apply store_inv in Hs2 as [Hr2 ->].
    intros idx b' e' Hb' Hv' He'.
    destruct (decide (idx = Z.land buck (size_t (new_cap - 1)))) as [-> | Hne].
    + rewrite load_insert_eq in Hb' by done.
      rewrite load_insert_eq in He' by done.
      injection Hb' as <-. injection He' as <-. eapply Hold; eauto.
    + rewrite load_insert_ne in Hb' by lia.
      rewrite load_insert_ne in He' by lia. eapply Hpairs; eauto.
Qed.

Lemma hash_entry_ext map map' e :
  hash map' = hash map -> hash_entry map' e = hash_entry map e.
Proof. unfold hash_entry. intros ->. done. Qed.

Lemma map_grow_stored_in map map' l :
  map_grow junk map = Some map' -> stored_in map l -> stored_in map' l.
Proof.
  unfold map_grow. intros Hgrow Hst.
  destruct (0 <? capacity_mask map) eqn:Hpos.
  - destruct (map_grow_loop _ _ _ _ _) as [[[nb ne] num]|] eqn:Hrun; [| done].
    simpl in Hgrow. injection Hgrow as <-. unfold stored_in. simpl.
    apply (map_grow_loop_pairs map _
             (fun buck e => e ∈ l /\ buck = hash_entry map e) _
             ltac:(intros; eapply Hst; eauto) _ _ _ _ _ _ _ Hrun).
    intros idx buck e Hb Hv _. exfalso.
    apply load_Some in Hb as [_ Hb]. apply lookup_replicate in Hb as [-> _].
    done.
  - simpl in Hgrow. injection Hgrow as <-. unfold stored_in. simpl.
    intros idx buck e Hb Hv _. exfalso.
    apply load_Some in Hb as [_ Hb]. apply lookup_replicate in Hb as [-> _].
    done.
Qed.

Lemma load_nat {A} (l : list A) (i : nat) : load l (Z.of_nat i) = l !! i.
Proof.
  unfold load. destruct (l !! i) as [x|] eqn:Hx.
  - pose proof (lookup_lt_Some _ _ _ Hx).
    destruct (0 <=? Z.of_nat i) eqn:H0; [| lia].
    destruct (Z.of_nat i <? Z.of_nat (length l)) eqn:H1; [| lia].
    simpl. rewrite Nat2Z.id. done.
  - destruct ((0 <=? Z.of_nat i) && (Z.of_nat i <? Z.of_nat (length l)));
      [rewrite Nat2Z.id |]; done.
Qed.

(** The put of a record whose key no stored record has, in a table without
    tombstones: the slot is EMPTY, so the put is an insertion. *)
Lemma put_fresh_key map entry l :
  map_wf map -> capacity_mask map < 2 ^ 60 -> size map < SIZE_MAX ->
  Forall not_tomb (buckets map) -> stored_in map l ->
  (forall e, e ∈ l -> compare map e entry = false) ->
  exists map1 map',
    put_grow junk map = Some map1 /\
    (over_load map = false -> map1 = map) /\
    (over_load map = true -> map_grow junk map = Some map1) /\
    ext_map_put junk map entry = Some (map', true) /\
    map_wf map' /\ hash map' = hash map /\ compare map' = compare map /\
    0 < capacity_mask map' /\
    capacity_mask map' = capacity_mask map1 /\
    num_entries map' = num_entries map1 + 1 /\
    size map' = size map + 1 /\
    Forall not_tomb (buckets map') /\ stored_in map' (l ++ [entry]) /\
    holds map' entry /\ (forall e, holds map1 e -> holds map' e).
Proof.
  intros Hwf Hbound Hsize Hnt Hst Hfresh.
  destruct (ext_map_put_cases map entry Hwf Hbound Hsize)
    as (map1 & idx & buck & map' & Hgrow & Hsame & Hgrown & Hfind & Hbuck &
        Hput & Hb' & He' & Hoth & Hm' & Hs' & Hn' & Hwf' & Hmatch & Hh' & Hc' &
        Hwf1 & Hpos1).
  assert (Hnt1 : Forall not_tomb (buckets map1) /\ stored_in map1 l /\
                 compare map1 = compare map /\ hash map1 = hash map).
  { destruct (over_load map) eqn:Hover.
    - specialize (Hgrown eq_refl).
      destruct (map_grow_spec map Hwf Hbound)
        as (map2 & Hg2 & Hh2 & Hc2 & _ & _ & _ & _ & Hnt2 & _).
      assert (map2 = map1) as -> by congruence.
      split; [done |]. split; [| done]. eapply map_grow_stored_in; eauto.
    - rewrite (Hsame eq_refl). done. }
  destruct Hnt1 as (Hnt1 & Hst1 & Hc1 & Hh1).
  assert (Hhe : forall e, hash_entry map' e = hash_entry map1 e).
  { intros e. apply hash_entry_ext. congruence. }
  assert (Hhm : forall e, hash_entry map1 e = hash_entry map e).
  { intros e. apply hash_entry_ext. done. }
  assert (Hempty : buck = EMPTY_MARK).
  { destruct (IS_VALID buck) eqn:Hvalid.
    - exfalso. destruct (Hmatch eq_refl) as [_ (e & He & Hcmp)].
      rewrite Hc1, (Hfresh e) in Hcmp; [done |]. eapply Hst1; eauto.
    - apply IS_VALID_false in Hvalid as [-> | ->]; [done |]. exfalso.
      apply load_Some in Hbuck as [_ Hbuck].
      rewrite Forall_lookup in Hnt1. apply (Hnt1 _ _ Hbuck). done. }
  subst buck. change (IS_VALID EMPTY_MARK) with false in *.
  change (IS_EMPTY EMPTY_MARK) with true in *. simpl in Hput.
  exists map1, map'. repeat (split; [done |]).
  split; [lia |]. repeat (split; [done |]).
  pose proof (load_lt _ _ _ Hbuck) as Hidx.
  split; [| split; [| split]].
  - apply Forall_lookup. intros i b Hb. rewrite <- load_nat in Hb.
    destruct (decide (Z.of_nat i = idx)) as [<- | Hne].
    + rewrite Hb' in Hb. injection Hb as <-.
      pose proof (hash_entry_range map entry). unfold not_tomb, TOMB_MARK. lia.
    + destruct (Hoth _ Hne) as [Hbo _]. rewrite Hbo, load_nat in Hb.
      rewrite Forall_lookup in Hnt1. eapply Hnt1; eauto.
  - intros j b e Hb Hv He. rewrite elem_of_app, Hhe.
    destruct (decide (j = idx)) as [-> | Hne].
    + rewrite He' in He. injection He as <-. rewrite Hb' in Hb.
      injection Hb as <-. rewrite Hhm.
      split; [right; apply list_elem_of_singleton |]; done.
    + destruct (Hoth _ Hne) as [Hbo Heo]. rewrite Hbo in Hb.
      rewrite Heo in He. destruct (Hst1 _ _ _ Hb Hv He). split; [left |]; done.
  - exists idx. rewrite Hhe, Hhm. done.
  - intros e (j & Hb & He). exists j. rewrite Hhe.
    assert (Hne : j <> idx).
    { intros ->. rewrite Hbuck in Hb. injection Hb as Hb.
      pose proof (hash_entry_range map1 e). unfold EMPTY_MARK in Hb. lia. }
    destruct (Hoth _ Hne) as [-> ->]. done.
Qed.

Lemma distinct_keys_prefix compare (l : list E) k e :
  distinct_keys compare l -> l !! k = Some e ->
  forall e', e' ∈ take k l -> compare e' e = false.
Proof.
  intros Hd Hk e' [i Hi]%list_elem_of_lookup.
  apply lookup_take_Some in Hi as [Hi Hlt].
  apply (Hd i k e' e Hi Hk). lia.
Qed.

(** The first six puts: the first one allocates 8 slots, and each one
    occupies an EMPTY slot. *)
Lemma six_puts entry_sz hash compare (l : list E) (k : nat) :
  distinct_keys compare l -> (1 <= k <= 6)%nat -> (k <= length l)%nat ->
  exists map,
    put_all junk (ext_map_init entry_sz hash compare) (take k l) = Some map /\
    map_wf map /\ Map.hash map = hash /\ Map.compare map = compare /\
    capacity_mask map = INITIAL_CAPACITY - 1 /\
    num_entries map = Z.of_nat k /\ size map = Z.of_nat k /\
    Forall not_tomb (buckets map) /\ stored_in map (take k l) /\
    (forall e, e ∈ take k l -> holds map e).
Proof.
  intros Hd Hk Hlen. induction k as [|k IH]; [lia |].
  destruct (lookup_lt_is_Some_2 l k ltac:(lia)) as [e He].
  rewrite (take_S_r _ _ _ He), put_all_snoc.
  pose proof (distinct_keys_prefix compare l k e Hd He) as Hfresh.
  destruct (decide (k = O)) as [-> | Hk0].
  - (* the first put, on the table as ext_map_init leaves it *)
    simpl. set (map0 := ext_map_init entry_sz hash compare).
    destruct (put_fresh_key map0 e [])
      as (map1 & map' & _ & _ & Hgrown & Hput & Hwf' & Hh' & Hc' & _ & Hm' &
          Hn' & Hs' & Hnt' & Hst' & Hnew & _);
      [apply ext_map_init_wf | done | done | constructor | | | ].
    { intros idx buck e' Hb. apply load_lt in Hb. simpl in Hb. lia. }
    { intros e' He'. apply elem_of_nil in He'. done. }
    destruct (map_grow_spec map0 (ext_map_init_wf _ _ _) ltac:(done))
      as (map2 & Hg2 & _ & _ & _ & _ & Hm2 & Hn2 & _).
    assert (map2 = map1) as -> by (rewrite (Hgrown eq_refl) in Hg2; congruence).
    rewrite Hput. simpl. exists map'.
    split; [done |]. split; [done |]. split; [done |]. split; [done |].
    split; [rewrite Hm', Hm2; done |].
    split; [rewrite Hn', Hn2; done |]. split; [rewrite Hs'; done |].
    split; [done |]. split; [done |].
    intros e' ->%list_elem_of_singleton. done.
  - destruct IH as (map & Hrun & Hwf & Hh & Hc & Hm & Hn & Hs & Hnt & Hst & Hheld);
      [lia | lia |].
    rewrite Hrun. simpl. unfold INITIAL_CAPACITY in *.
    assert (Hover : over_load map = false).
    { destruct (over_load map) eqn:Hover; [| done].
      apply over_load_spec in Hover; lia. }
    destruct (put_fresh_key map e (take k l))
      as (map1 & map' & _ & Hsame & _ & Hput & Hwf' & Hh' & Hc' & _ & Hm' &
          Hn' & Hs' & Hnt' & Hst' & Hnew & Hkept); try done.
    { lia. } { unfold SIZE_MAX. lia. } { rewrite Hc. done. }
    rewrite (Hsame Hover) in *. rewrite Hput. simpl. exists map'.
    split; [done |]. split; [done |]. split; [congruence |].
    split; [congruence |]. split; [lia |]. split; [lia |]. split; [lia |].
    split; [done |]. split; [done |].
    intros e' [He' | ->%list_elem_of_singleton]%elem_of_app; auto.
Qed.

(** *** Records in their home slots *)

(** The scan that finds its first slot EMPTY returns it at once. *)
Lemma find_index_home_empty map entry hash :
  load (buckets map) (Z.land hash (capacity_mask map)) = Some EMPTY_MARK ->
  find_index map entry hash = Some (Z.land hash (capacity_mask map)).
Proof.
  intros Hb. unfold find_index, find_index_fuel.
  pose proof (load_lt _ _ _ Hb) as Hlt.
  destruct (length (buckets map)) as [|n]; [lia |].
  simpl find_index_loop. rewrite Hb. done.
Qed.

(** The scan that finds the key in its first slot returns it at once. *)
Lemma find_index_home_hit map entry hash e :
  IS_VALID hash = true ->
  load (buckets map) (Z.land hash (capacity_mask map)) = Some hash ->
  entry_at (entries map) (Z.land hash (capacity_mask map)) = Some e ->
  compare map e entry = true ->
  find_index map entry hash = Some (Z.land hash (capacity_mask map)).
Proof.
  intros Hv Hb He Hcmp. unfold find_index, find_index_fuel.
  pose proof (load_lt _ _ _ Hb) as Hlt.
  destruct (length (buckets map)) as [|n]; [lia |].
  simpl find_index_loop. rewrite Hb. simpl.
  rewrite Hv, Z.eqb_refl. simpl. rewrite He. simpl. rewrite Hcmp. done.
Qed.

Lemma at_home_retrievable map e : at_home map e -> retrievable map e.
Proof.
  intros [Hb He] q Hcmp Hhash. unfold ext_map_get, home in *.
  assert (Hq : hash_entry map q = hash_entry map e)
    by (unfold hash_entry; rewrite Hhash; done).
  rewrite Hq.
  rewrite (find_index_home_hit map q _ e (hash_entry_valid _ _) Hb He Hcmp).
  simpl. rewrite Hb. simpl. rewrite hash_entry_valid. simpl. rewrite He. done.
Qed.

(** A put, past its growth check, of a record whose home slot no record of
    the table has: the record goes to its home slot. *)
Lemma put_at_home map entry l :
  map_wf map -> 0 < capacity_mask map ->
  4 * (num_entries map + 1) <= 3 * (capacity_mask map + 1) ->
  size map < SIZE_MAX ->
  all_home map l ->
  (forall e, e ∈ l -> home map e <> home map entry) ->
  exists map',
    put_at map entry = Some (map', true) /\
    map_wf map' /\ capacity_mask map' = capacity_mask map /\
    hash map' = hash map /\ compare map' = compare map /\
    size map' = size map + 1 /\ num_entries map' = num_entries map + 1 /\
    all_home map' (l ++ [entry]).
Proof.
  intros Hwf Hpos Hroom Hsize [Hall Honly] Hfree.
  destruct (put_at_cases map entry Hwf Hpos Hroom Hsize)
    as (idx & buck & map' & Hfind & Hbuck & _ & Hput & Hb' & He' & Hoth &
        Hm' & Hh' & Hc' & Hs' & Hn' & Hwf').
  destruct (wf_allocated map Hwf Hpos) as ((k & Hk & Hmask & Hlb & Hle) & _).
  assert (Hhome : load (buckets map) (home map entry) = Some EMPTY_MARK).
  { destruct (load_in_range (buckets map) (home map entry)) as [b Hb].
    { rewrite Hlb. apply (probe_range map (hash_entry map entry) k 0 Hk Hmask). }
    destruct (decide (b = EMPTY_MARK)) as [-> | Hne]; [done |].
    destruct (Honly _ _ Hb Hne) as (e & Hel & Heq). exfalso.
    apply (Hfree e Hel). done. }
  unfold home in Hhome.
  rewrite (find_index_home_empty map entry _ Hhome) in Hfind.
  injection Hfind as <-. rewrite Hhome in Hbuck. injection Hbuck as <-.
  change (IS_VALID EMPTY_MARK) with false in *.
  change (IS_EMPTY EMPTY_MARK) with true in *. simpl in Hput.
  assert (Hhe : forall e, hash_entry map' e = hash_entry map e)
    by (intros e; apply hash_entry_ext; done).
  assert (Hho : forall e, home map' e = home map e)
    by (intros e; unfold home; rewrite Hhe, Hm'; done).
  exists map'. repeat (split; [done |]). split.
  - intros e [Hel | ->%list_elem_of_singleton]%elem_of_app;
      unfold at_home; rewrite Hho, Hhe; [| done].
    destruct (Hoth (home map e) (Hfree e Hel)) as [-> ->]. apply Hall. done.
  - intros j b Hb Hne. setoid_rewrite elem_of_app. setoid_rewrite Hho.
    destruct (decide (j = home map entry)) as [-> | Hj].
    + exists entry. split; [right; apply list_elem_of_singleton |]; done.
    + destruct (Hoth j Hj) as [Hbo _]. rewrite Hbo in Hb.
      destruct (Honly _ _ Hb Hne) as (e & Hel & Heq). exists e. auto.
Qed.

(** The loop of [map_grow] when no two live slots of the old table are
    sent to the same slot of the new one. *)
Lemma map_grow_loop_home map new_cap n :
  Z.of_nat (length (buckets map)) < SIZE_MAX ->
  (forall j1 j2 b1 b2 e1 e2,
     load (buckets map) j1 = Some b1 -> IS_VALID b1 = true ->
     entry_at (entries map) j1 = Some e1 ->
     load (buckets map) j2 = Some b2 -> IS_VALID b2 = true ->
     entry_at (entries map) j2 = Some e2 ->
     Z.land b1 (size_t (new_cap - 1)) = Z.land b2 (size_t (new_cap - 1)) ->
     b1 = b2 /\ e1 = e2) ->
  forall i nb ne num nb' ne' num',
  map_grow_loop map new_cap n i (nb, ne, num) = Some (nb', ne', num') ->
  0 <= i ->
  grow_inv map new_cap i nb ne -> grow_inv map new_cap (i + Z.of_nat n) nb' ne'.
Proof.
  intros Hlen Hcompat.
  induction n as [|n IH]; intros i nb ne num nb' ne' num'.
  - simpl. intros [= <- <- <-] _. rewrite Z.add_0_r. done.
  - simpl map_grow_loop.
    destruct (load (buckets map) i) as [buck|] eqn:Hbuck; simpl; [| done].
    pose proof (load_lt _ _ _ Hbuck) as Hi.
    rewrite (size_t_small (i + 1)) by lia.
    replace (i + Z.of_nat (S n)) with ((i + 1) + Z.of_nat n) by lia.
    destruct (IS_VALID buck) eqn:Hvalid.
    + destruct (store nb _ buck) as [nb1|] eqn:Hs1; simpl; [| done].
      destruct (entry_at (entries map) i) as [e|] eqn:He; simpl; [| done].
      destruct (store ne _ e) as [ne1|] eqn:Hs2; simpl; [| done].
      intros Hrun _ [Hcopied Honly]. apply (IH _ _ _ _ _ _ _ Hrun); [lia |].
      apply store_inv in Hs1 as [Hr1 ->]. apply store_inv in Hs2 as [Hr2 ->].
      split.
      * intros j b e0 Hj Hb Hv He0.
        destruct (decide (Z.land b (size_t (new_cap - 1))
                          = Z.land buck (size_t (new_cap - 1)))) as [Heq | Hne].
        -- destruct (Hcompat j i b buck e0 e Hb Hv He0 Hbuck Hvalid He Heq)
             as [-> ->].
           rewrite !load_insert_eq by done. done.
        -- rewrite !load_insert_ne by lia. apply (Hcopied j); try done.
           assert (j <> i) by (intros ->; congruence). lia.
      * intros idx b Hb Hne.
        destruct (decide (idx = Z.land buck (size_t (new_cap - 1))))
          as [-> | Hidx].
        -- exists i, buck, e. repeat split; try done; lia.
        -- rewrite load_insert_ne in Hb by lia.
           destruct (Honly idx b Hb Hne) as (j & b' & e' & Hj & Hrest).
           exists j, b', e'. split; [lia | done].
    + intros Hrun _ [Hcopied Honly]. apply (IH _ _ _ _ _ _ _ Hrun); [lia |].
      split.
      * intros j b e0 Hj Hb Hv He0. apply (Hcopied j); try done.
        assert (j <> i) by (intros ->; congruence). lia.
      * intros idx b Hb Hne.
        destruct (Honly idx b Hb Hne) as (j & b' & e' & Hj & Hrest).
        exists j, b', e'. split; [lia | done].
Qed.

(** [map_grow] on a table whose records have pairwise distinct home slots
    in the doubled table: every record is in its home slot afterwards. *)
Lemma map_grow_home map map' l :
  map_wf map -> 0 < capacity_mask map -> capacity_mask map < 2 ^ 60 ->
  map_grow junk map = Some map' ->
  stored_in map l -> (forall e, e ∈ l -> holds map e) ->
  distinct_homes map (2 * capacity_mask map + 1) l ->
  all_home map' l.
Proof.
  intros Hwf Hpos Hbound Hgrow Hst Hheld Hdist.
  destruct (wf_allocated map Hwf Hpos)
    as ((k & Hk & Hmask & Hlb & Hle) & _ & _ & _ & _ & Hcap).
  unfold map_grow in Hgrow.
  destruct (capacity_mask map =? 0) eqn:Hz; [lia |].
  destruct (0 <? capacity_mask map) eqn:Hp; [| lia].
  assert (Hnew : size_t (size_t (size_t (capacity_mask map + 1) * 2) - 1)
                 = 2 * capacity_mask map + 1).
  { rewrite (size_t_small (capacity_mask map + 1)) by (unfold SIZE_MAX; lia).
    rewrite (size_t_small ((capacity_mask map + 1) * 2))
      by (unfold SIZE_MAX; lia).
    rewrite size_t_small by (unfold SIZE_MAX; lia). lia. }
  destruct (map_grow_loop _ _ _ _ _) as [[[nb ne] num]|] eqn:Hrun; [| done].
  simpl in Hgrow. injection Hgrow as <-.
  apply map_grow_loop_home in Hrun as [Hcopied Honly].
  - unfold all_home, at_home, home, hash_entry. simpl.
    fold (hash_entry map). split.
    + intros e Hel. destruct (Hheld e Hel) as (idx & Hb & He).
      apply (Hcopied idx); try done; [| apply hash_entry_valid].
      apply load_lt in Hb. lia.
    + intros idx b Hb Hne.
      destruct (Honly idx b Hb Hne) as (j & b' & e' & _ & Hb' & Hv' & He' & ->).
      destruct (Hst j b' e' Hb' Hv' He') as [Hel ->]. exists e'. done.
  - unfold SIZE_MAX. lia.
  - intros j1 j2 b1 b2 e1 e2 Hb1 Hv1 He1 Hb2 Hv2 He2 Heq.
    destruct (Hst j1 b1 e1 Hb1 Hv1 He1) as [[i1 Hi1]%list_elem_of_lookup ->].
    destruct (Hst j2 b2 e2 Hb2 Hv2 He2) as [[i2 Hi2]%list_elem_of_lookup ->].
    destruct (decide (i1 = i2)) as [-> | Hne].
    + assert (e1 = e2) as -> by congruence. done.
    + exfalso. rewrite Hnew in Heq. apply (Hdist i1 i2 e1 e2 Hi1 Hi2 Hne Heq).
  - lia.
  - split.
    + intros j b e Hj. lia.
    + intros idx b Hb Hne. exfalso.
      apply load_Some in Hb as [_ Hb]. apply lookup_replicate in Hb as [-> _].
      done.
Qed.

(** The seventh and the eighth put. *)
Lemma eight_puts entry_sz hash compare (l : list E) :
  length l = 8%nat -> distinct_keys compare l ->
  exists map6 map7 map8,
    put_all junk (ext_map_init entry_sz hash compare) (take 6 l) = Some map6 /\
    put_all junk (ext_map_init entry_sz hash compare) (take 7 l) = Some map7 /\
    put_all junk (ext_map_init entry_sz hash compare) l = Some map8 /\
    num_entries map6 = 6 /\ over_load map6 = true /\
    ext_map_capacity map6 = INITIAL_CAPACITY /\
    over_load map7 = false /\
    ext_map_capacity map7 = 2 * INITIAL_CAPACITY /\
    ext_map_capacity map8 = 2 * INITIAL_CAPACITY /\
    size map8 = 8.
Proof.
  intros Hlen Hd.
  destruct (six_puts entry_sz hash compare l 6 Hd ltac:(lia) ltac:(lia))
    as (map6 & Hrun6 & Hwf6 & Hh6 & Hc6 & Hm6 & Hn6 & Hs6 & Hnt6 & Hst6 & Hheld6).
  unfold INITIAL_CAPACITY in *.
  destruct (lookup_lt_is_Some_2 l 6 ltac:(lia)) as [e7 He7].
  destruct (lookup_lt_is_Some_2 l 7 ltac:(lia)) as [e8 He8].
  assert (Hover6 : over_load map6 = true) by (apply over_load_spec; lia).
  (* the seventh put grows the table *)
  destruct (put_fresh_key map6 e7 (take 6 l))
    as (map6' & map7 & _ & _ & Hgrown & Hput7 & Hwf7 & Hh7 & Hc7 & Hpos7 & Hm7 &
        Hn7 & Hs7 & Hnt7 & Hst7 & _); try done.
  { lia. } { unfold SIZE_MAX. lia. }
  { rewrite Hc6. apply (distinct_keys_prefix compare l 6 e7 Hd He7). }
  destruct (map_grow_spec map6 Hwf6 ltac:(lia))
    as (map2 & Hg2 & _ & _ & _ & _ & Hm2 & Hn2 & _).
  assert (map2 = map6') as -> by (rewrite (Hgrown Hover6) in Hg2; congruence).
  rewrite Hm6 in Hm2. simpl in Hm2.
  assert (Hlive6 : 0 <= live_slots map6 <= 6).
  { pose proof (live_le_used map6).
    pose proof (count_slots_bounds IS_VALID (buckets map6)).
    destruct Hwf6 as (_ & _ & [(? & _) | (k & _ & _ & _ & _ & _ & Hused & _)]);
      unfold live_slots in *; lia. }
  assert (Hover7 : over_load map7 = false).
  { destruct (over_load map7) eqn:Hover; [| done].
    apply over_load_spec in Hover; lia. }
  (* the eighth put does not *)
  destruct (put_fresh_key map7 e8 (take 6 l ++ [e7]))
    as (map7' & map8 & _ & Hsame & _ & Hput8 & Hwf8 & _ & _ & Hpos8 & Hm8 &
        _ & Hs8 & _); try done.
  { lia. } { unfold SIZE_MAX. lia. }
  { rewrite Hc7, Hc6, <- (take_S_r l 6 e7 He7).
    apply (distinct_keys_prefix compare l 7 e8 Hd He8). }
  rewrite (Hsame Hover7) in *.
  exists map6, map7, map8.
  split; [done |].
  split; [rewrite (take_S_r l 6 e7 He7), put_all_snoc, Hrun6; simpl;
          rewrite Hput7; done |].
  split.
  { rewrite <- (take_ge l 8) by lia.
    rewrite (take_S_r l 7 e8 He8), put_all_snoc.
    rewrite (take_S_r l 6 e7 He7), put_all_snoc, Hrun6. simpl.
    rewrite Hput7. simpl. rewrite Hput8. done. }
  split; [done |]. split; [done |].
  split; [rewrite ext_map_capacity_allocated; [lia | done | lia] |].
  split; [done |].
  split; [rewrite ext_map_capacity_allocated; [lia | done | lia] |].
  split; [rewrite ext_map_capacity_allocated; [lia | done | lia] |].
  lia.
Qed.

(** With pairwise distinct home slots in the table of 16 slots, the eight
    records end up each in its home slot. *)
Lemma eight_puts_home entry_sz hash compare (l : list E) map8 :
  length l = 8%nat -> distinct_keys compare l ->
  distinct_homes (ext_map_init entry_sz hash compare)
    (2 * INITIAL_CAPACITY - 1) l ->
  put_all junk (ext_map_init entry_sz hash compare) l = Some map8 ->
  Map.hash map8 = hash /\ Map.compare map8 = compare /\ all_home map8 l.
Proof.
  intros Hlen Hd Hdist Hrun8.
  destruct (six_puts entry_sz hash compare l 6 Hd ltac:(lia) ltac:(lia))
    as (map6 & Hrun6 & Hwf6 & Hh6 & Hc6 & Hm6 & Hn6 & Hs6 & Hnt6 & Hst6 &
        Hheld6).
  set (map0 := ext_map_init entry_sz hash compare) in *.
  unfold INITIAL_CAPACITY in *. simpl in Hdist.
  destruct (lookup_lt_is_Some_2 l 6 ltac:(lia)) as [e7 He7].
  destruct (lookup_lt_is_Some_2 l 7 ltac:(lia)) as [e8 He8].
  assert (Hover6 : over_load map6 = true) by (apply over_load_spec; lia).
  destruct (map_grow_spec map6 Hwf6 ltac:(lia))
    as (map6g & Hg & Hhg & Hcg & _ & Hsg & Hmg & Hng & _ & Hroomg & Hwfg).
  rewrite Hm6 in Hmg. simpl in Hmg.
  assert (Hlive6 : 0 <= live_slots map6 <= 6).
  { pose proof (live_le_used map6).
    pose proof (count_slots_bounds IS_VALID (buckets map6)).
    destruct Hwf6 as (_ & _ & [(? & _) | (k & _ & _ & _ & _ & _ & Hused & _)]);
      unfold live_slots in *; lia. }
  assert (Hhomes : forall map i j ei ej,
            Map.hash map = hash -> capacity_mask map = 15 ->
            l !! i = Some ei -> l !! j = Some ej -> i <> j ->
            home map ei <> home map ej).
  { intros map i j ei ej Hh Hm Hi Hj Hne. unfold home.
    rewrite Hm, !(hash_entry_ext map0 map) by done. eapply Hdist; eauto. }
  assert (Hall6 : all_home map6g (take 6 l)).
  { apply (map_grow_home map6 map6g (take 6 l) Hwf6); try done; [lia | lia |].
    rewrite Hm6.
    intros i j ei ej [Hi _]%lookup_take_Some [Hj _]%lookup_take_Some Hne.
    rewrite !(hash_entry_ext map0 map6) by done. eapply Hdist; eauto. }
  (* the seventh record goes to its home slot of the grown table *)
  destruct (put_at_home map6g e7 (take 6 l) Hwfg ltac:(lia) Hroomg
              ltac:(unfold SIZE_MAX; lia) Hall6)
    as (map7 & Hput7 & Hwf7 & Hm7 & Hh7 & Hc7 & Hs7 & Hn7 & Hall7).
  { intros e [i [Hi Hlt]%lookup_take_Some]%list_elem_of_lookup.
    apply (Hhomes map6g i 6%nat); try done; [congruence | lia]. }
  rewrite <- (take_S_r l 6 e7 He7) in Hall7.
  assert (Hover7 : over_load map7 = false).
  { destruct (over_load map7) eqn:Hover; [| done].
    apply over_load_spec in Hover; lia. }
  (* and so does the eighth *)
  destruct (put_at_home map7 e8 (take 7 l) Hwf7 ltac:(lia) ltac:(lia)
              ltac:(unfold SIZE_MAX; lia) Hall7)
    as (map8' & Hput8 & Hwf8 & Hm8 & Hh8 & Hc8 & Hs8 & Hn8 & Hall8).
  { intros e [i [Hi Hlt]%lookup_take_Some]%list_elem_of_lookup.
    apply (Hhomes map7 i 7%nat); try done; [congruence | lia | lia]. }
  rewrite <- (take_S_r l 7 e8 He8), take_ge in Hall8 by lia.
  rewrite <- (take_ge l 8) in Hrun8 by lia.
  rewrite (take_S_r l 7 e8 He8), put_all_snoc in Hrun8.
  rewrite (take_S_r l 6 e7 He7), put_all_snoc, Hrun6 in Hrun8.
  unfold ext_map_put, put_grow in Hrun8. simpl in Hrun8.
  rewrite Hover6, Hg in Hrun8. simpl in Hrun8. rewrite Hput7 in Hrun8.
  simpl in Hrun8. rewrite Hover7 in Hrun8. simpl in Hrun8.
  rewrite Hput8 in Hrun8. injection Hrun8 as <-.
  split; [congruence |]. split; [congruence | done].
Qed.

(** C2 (amended). On a table created empty, 8 records with pairwise
    distinct keys are put one at a time: the first put allocates 8 slots,
    the capacity is 8 after each of the first six puts, [num_entries] is 6
    after the sixth, so the seventh put call is the one whose growth check
    fires ([num_entries + 1 = 7] exceeds 75% of 8) and that doubles the
    capacity to 16, before it inserts; the eighth put does not grow, and the
    capacity is 16 and [size] is 8 after it.  When the remapped hashes of
    the 8 records are pairwise distinct modulo 16, a lookup of each of the
    8 keys returns the record that was put. *)
Theorem growth_on_seventh_put entry_sz hash compare (l : list E) :
  length l = 8%nat -> distinct_keys compare l ->
  capacity_after junk (ext_map_init entry_sz hash compare) [] = Some 0 /\
  (forall k, (1 <= k <= 6)%nat ->
     capacity_after junk (ext_map_init entry_sz hash compare) (take k l)
       = Some INITIAL_CAPACITY) /\
  grows_at_put junk (ext_map_init entry_sz hash compare) l 7 /\
  capacity_after junk (ext_map_init entry_sz hash compare) l
    = Some (2 * INITIAL_CAPACITY) /\
  exists map6 map7 map8,
    put_all junk (ext_map_init entry_sz hash compare) (take 6 l) = Some map6 /\
    num_entries map6 = 6 /\ over_load map6 = true /\
    put_all junk (ext_map_init entry_sz hash compare) (take 7 l) = Some map7 /\
    over_load map7 = false /\
    put_all junk (ext_map_init entry_sz hash compare) l = Some map8 /\
    size map8 = 8 /\
    (distinct_homes (ext_map_init entry_sz hash compare)
       (2 * INITIAL_CAPACITY - 1) l ->
     forall e q, e ∈ l -> compare e q = true -> hash q = hash e ->
       ext_map_get map8 q = Some (Some e)).
Proof.
  intros Hlen Hd.
  destruct (eight_puts entry_sz hash compare l Hlen Hd)
    as (map6 & map7 & map8 & Hrun6 & Hrun7 & Hrun8 & Hn6 & Hover6 & Hcap6 &
        Hover7 & Hcap7 & Hcap8 & Hs8).
  split; [done |]. split.
  { intros k Hk.
    destruct (six_puts entry_sz hash compare l k Hd Hk ltac:(lia))
      as (map & Hrun & Hwf & _ & _ & Hm & _).
    unfold capacity_after. rewrite Hrun. simpl.
    rewrite ext_map_capacity_allocated; [f_equal; lia | done |].
    unfold INITIAL_CAPACITY in Hm. lia. }
  split.
  { unfold grows_at_put, capacity_after. simpl Nat.sub.
    rewrite Hrun6, Hrun7. simpl. rewrite Hcap6, Hcap7. done. }
  split; [unfold capacity_after; rewrite Hrun8; simpl; rewrite Hcap8; done |].
  exists map6, map7, map8. repeat (split; [done |]).
  intros Hdist e q Hel Hcmp Hhash.
  destruct (eight_puts_home entry_sz hash compare l map8 Hlen Hd Hdist Hrun8)
    as (Hh8 & Hc8 & Hall8 & _).
  apply (at_home_retrievable map8 e (Hall8 e Hel)); congruence.
Qed.

End facts.

End MapFacts.

(** ** The hash table on the records of example.c *)

Module ExampleFacts.
Import Map Example MapFacts.

Local Open Scope string_scope.

(** The scenario of the specification, run: the eight records are
    retrievable afterwards, each with its value. *)
Lemma a_to_h_retrievable :
  Forall (fun e => ext_map_get (table_after a_to_h) (mk_entry (name e) 0)
                   = Some (Some e)) a_to_h.
Proof. repeat constructor. Qed.

(** C1 (the code departs from it). "h" and "x" are live and retrievable in a
    table of 8 slots; their cached hashes are equal modulo 16.  The seventh
    put grows the table; [map_grow] copies both records to slot
    [hash & 15] without probing, the second copy overwrites the first, and
    "x" is no longer retrievable although it was never erased. *)
Theorem map_grow_drops_colliding_entry :
  ext_map_capacity (table_after six_colliding) = 8 /\
  ext_map_get (table_after six_colliding) (mk_entry "x" 0)
    = Some (Some (mk_entry "x" 2)) /\
  ext_map_get (table_after six_colliding) (mk_entry "h" 0)
    = Some (Some (mk_entry "h" 1)) /\
  Z.land (hash_entry empty_map (mk_entry "x" 0)) 15
    = Z.land (hash_entry empty_map (mk_entry "h" 0)) 15 /\
  over_load (table_after six_colliding) = true /\
  ext_map_capacity (table_after (six_colliding ++ [mk_entry "e" 7])) = 16 /\
  ext_map_get (table_after (six_colliding ++ [mk_entry "e" 7])) (mk_entry "x" 0)
    = Some None.
Proof. vm_compute. repeat split; reflexivity. Qed.

(** C2 as stated fails on the scenario of the specification: before the
    eighth put of "a".."h" the table already has 16 slots. *)
Lemma eighth_put_does_not_grow : ~ grows_at_put junk empty_map a_to_h 8.
Proof. intros [H _]. vm_compute in H. discriminate H. Qed.

(** C4 as stated fails on a table with five live slots and a tombstone: the
    put of a record whose key is present returns false, and [num_entries]
    goes from 6 to 5 because the growth check fired first. *)
Lemma put_on_live_slot_changes_num_entries :
  ~ (forall map',
       ext_map_put junk five_and_tomb (mk_entry "a" 100) = Some (map', false) ->
       num_entries map' = num_entries five_and_tomb).
Proof.
  intros H.
  assert (Hv : (fun r => (num_entries (fst r), snd r)) <$>
               ext_map_put junk five_and_tomb (mk_entry "a" 100)
               = Some (5, false)) by (vm_compute; reflexivity).
  destruct (ext_map_put junk five_and_tomb (mk_entry "a" 100))
    as [[map' b]|]; [| discriminate Hv].
  simpl in Hv. injection Hv as Hn ->.
  specialize (H map' eq_refl). rewrite Hn in H.
  vm_compute in H. discriminate H.
Qed.

Lemma find_index_probe_sequence_witness :
  table_shape (table_after (take 6 a_to_h)) /\
  (exists i, slot_empty (table_after (take 6 a_to_h)) i) /\
  2 <= 3792446982 /\
  exists n r,
    slot_empty (table_after (take 6 a_to_h))
      (probe (table_after (take 6 a_to_h)) 3792446982 n) /\
    (forall j, (j < n)%nat ->
       ~ slot_empty (table_after (take 6 a_to_h))
           (probe (table_after (take 6 a_to_h)) 3792446982 j)) /\
    find_index (table_after (take 6 a_to_h)) (mk_entry "g" 0) 3792446982
      = Some r /\
    (forall fuel, (length (buckets (table_after (take 6 a_to_h))) <= fuel)%nat ->
       find_index_fuel fuel (table_after (take 6 a_to_h)) (mk_entry "g" 0)
         3792446982 = Some r) /\
    scan_outcome (table_after (take 6 a_to_h)) (mk_entry "g" 0) 3792446982 n r.
Proof.
  assert (Hshape : table_shape (table_after (take 6 a_to_h))).
  { exists 3. vm_compute. repeat split; congruence. }
  assert (Hempty : exists i, slot_empty (table_after (take 6 a_to_h)) i).
  { exists 6. vm_compute. reflexivity. }
  assert (Hhash : 2 <= 3792446982) by lia.
  split; [exact Hshape |]. split; [exact Hempty |]. split; [exact Hhash |].
  exact (find_index_probe_sequence (table_after (take 6 a_to_h))
           (mk_entry "g" 0) 3792446982 Hshape Hempty Hhash).
Defined.

Lemma ext_map_put_counts_witness :
  map_wf empty_map /\ capacity_mask empty_map < 2 ^ 60 /\
  size empty_map < SIZE_MAX /\
  exists map1 idx buck map',
    put_grow junk empty_map = Some map1 /\
    (over_load empty_map = false -> map1 = empty_map) /\
    (over_load empty_map = true -> map_grow junk empty_map = Some map1) /\
    find_index map1 (mk_entry "a" 1) (hash_entry empty_map (mk_entry "a" 1))
      = Some idx /\
    load (buckets map1) idx = Some buck /\
    ext_map_put junk empty_map (mk_entry "a" 1)
      = Some (map', negb (IS_VALID buck)) /\
    (IS_VALID buck = false ->
       size map' = size empty_map + 1 /\
       (buck = EMPTY_MARK -> num_entries map' = num_entries map1 + 1) /\
       (buck = TOMB_MARK -> num_entries map' = num_entries map1)) /\
    (IS_VALID buck = true ->
       size map' = size empty_map /\ num_entries map' = num_entries map1) /\
    load (buckets map') idx = Some (hash_entry empty_map (mk_entry "a" 1)) /\
    entry_at (entries map') idx = Some (mk_entry "a" 1) /\
    (forall j, j <> idx ->
       load (buckets map') j = load (buckets map1) j /\
       entry_at (entries map') j = entry_at (entries map1) j).
Proof.
  assert (Hwf : map_wf empty_map).
  { split; [vm_compute; split; congruence |].
    split; [vm_compute; congruence |]. left. repeat split; reflexivity. }
  assert (Hbound : capacity_mask empty_map < 2 ^ 60) by (vm_compute; reflexivity).
  assert (Hsize : size empty_map < SIZE_MAX) by (vm_compute; reflexivity).
  split; [exact Hwf |]. split; [exact Hbound |]. split; [exact Hsize |].
  exact (ext_map_put_counts junk empty_map (mk_entry "a" 1) Hwf Hbound Hsize).
Defined.

Lemma ext_map_erase_tombstone_example :
  map_wf (table_after (take 6 a_to_h)) /\
  0 < capacity_mask (table_after (take 6 a_to_h)) /\
  exists idx buck,
    find_index (table_after (take 6 a_to_h)) (mk_entry "f" 0)
      (hash_entry (table_after (take 6 a_to_h)) (mk_entry "f" 0)) = Some idx /\
    load (buckets (table_after (take 6 a_to_h))) idx = Some buck /\
    (IS_VALID buck = true ->
     exists map',
       ext_map_erase (table_after (take 6 a_to_h)) (mk_entry "f" 0)
         = Some (map', true) /\
       load (buckets map') idx = Some TOMB_MARK /\
       (forall j, j <> idx ->
          load (buckets map') j = load (buckets (table_after (take 6 a_to_h))) j) /\
       size map' = size (table_after (take 6 a_to_h)) - 1 /\
       num_entries map' = num_entries (table_after (take 6 a_to_h)) /\
       capacity_mask map' = capacity_mask (table_after (take 6 a_to_h)) /\
       entries map' = entries (table_after (take 6 a_to_h))) /\
    (IS_VALID buck = false ->
     ext_map_erase (table_after (take 6 a_to_h)) (mk_entry "f" 0)
       = Some (table_after (take 6 a_to_h), false)).
Proof.
  assert (Hwf : map_wf (table_after (take 6 a_to_h))).
  { split; [vm_compute; split; congruence |].
    split; [vm_compute; congruence |].
    right. exists 3. vm_compute. repeat split; congruence. }
  assert (Hpos : 0 < capacity_mask (table_after (take 6 a_to_h)))
    by (vm_compute; reflexivity).
  split; [exact Hwf |]. split; [exact Hpos |].
  exact (ext_map_erase_tombstone (table_after (take 6 a_to_h))
           (mk_entry "f" 0) Hwf Hpos).
Defined.

Lemma a_to_h_distinct_keys : distinct_keys compare a_to_h.
Proof.
  intros i j ei ej Hi Hj Hne.
  destruct i as [|[|[|[|[|[|[|[|i]]]]]]]]; try discriminate Hi;
    destruct j as [|[|[|[|[|[|[|[|j]]]]]]]]; try discriminate Hj;
    try lia; simpl in Hi, Hj; injection Hi as <-; injection Hj as <-;
    reflexivity.
Qed.

(** The remapped hashes of "a".."h" are pairwise distinct modulo 16. *)
Lemma a_to_h_distinct_homes : distinct_homes empty_map 15 a_to_h.
Proof.
  intros i j ei ej Hi Hj Hne.
  destruct i as [|[|[|[|[|[|[|[|i]]]]]]]]; try discriminate Hi;
    destruct j as [|[|[|[|[|[|[|[|j]]]]]]]]; try discriminate Hj;
    try lia; simpl in Hi, Hj; injection Hi as <-; injection Hj as <-;
    intros H; vm_compute in H; discriminate H.
Qed.

Lemma growth_on_seventh_put_witness :
  length a_to_h = 8%nat /\ distinct_keys compare a_to_h /\
  distinct_homes empty_map 15 a_to_h /\
  capacity_after junk empty_map [] = Some 0 /\
  (forall k, (1 <= k <= 6)%nat ->
     capacity_after junk empty_map (take k a_to_h) = Some INITIAL_CAPACITY) /\
  grows_at_put junk empty_map a_to_h 7 /\
  capacity_after junk empty_map a_to_h = Some (2 * INITIAL_CAPACITY) /\
  exists map6 map7 map8,
    put_all junk empty_map (take 6 a_to_h) = Some map6 /\
    num_entries map6 = 6 /\ over_load map6 = true /\
    put_all junk empty_map (take 7 a_to_h) = Some map7 /\
    over_load map7 = false /\
    put_all junk empty_map a_to_h = Some map8 /\
    size map8 = 8 /\
    (distinct_homes empty_map (2 * INITIAL_CAPACITY - 1) a_to_h ->
     forall e q, e ∈ a_to_h -> compare e q = true -> hash q = hash e ->
       ext_map_get map8 q = Some (Some e)).
Proof.
  assert (Hlen : length a_to_h = 8%nat) by reflexivity.
  split; [exact Hlen |]. split; [exact a_to_h_distinct_keys |].
  split; [exact a_to_h_distinct_homes |].
  exact (growth_on_seventh_put junk 16 hash compare a_to_h Hlen
           a_to_h_distinct_keys).
Defined.

End ExampleFacts.

(** ** The growable array *)

Module VecFacts.
Import Vec.

Section facts.

Context {T : Type}.
Variable junk : T.
Implicit Types (vec : ext_vector (T:=T)) (e : T).
Implicit Types (ops : list (stack_op (T:=T))) (content acc : list T).

Lemma grow_capacity_result fuel size amount new_capacity r :
  0 <= new_capacity <= SIZE_MAX ->
  grow_capacity fuel size amount new_capacity = Some r ->
  size_t (size + amount) <= r /\ 0 <= r <= SIZE_MAX.
Proof.
  revert new_capacity. induction fuel as [|fuel IH]; intros nc Hnc; [done |].
  simpl. destruct (nc <? size_t (size + amount)) eqn:Hlt.
  - apply IH. apply size_t_range.
  - intros [= <-]. lia.
Qed.

Lemma grow_capacity_exit fuel size amount new_capacity :
  size_t (size + amount) <= new_capacity ->
  grow_capacity (S fuel) size amount new_capacity = Some new_capacity.
Proof.
  intros H. simpl.
  destruct (new_capacity <? size_t (size + amount)) eqn:Hlt; [lia | done].
Qed.

Lemma elements_length vec :
  vec_wf vec -> Z.of_nat (length (elements vec)) = ext_vec_size vec.
Proof.
  destruct vec as [[c s d]|]; simpl; [| done].
  intros (Hs & Hc & Hd). rewrite length_take. lia.
Qed.

Lemma elements_lookup vec i :
  vec_wf vec -> 0 <= i < ext_vec_size vec ->
  ext_vec_at vec i = elements vec !! Z.to_nat i.
Proof.
  destruct vec as [[c s d]|]; simpl; [| lia].
  intros (Hs & Hc & Hd) Hi.
  rewrite lookup_take_lt by lia.
  destruct (d !! Z.to_nat i) as [x|] eqn:Hx.
  - apply load_Some. split; [lia | done].
  - apply lookup_ge_None in Hx. lia.
Qed.

Lemma ext_vec_reserve_spec vec amount :
  vec_wf vec -> 0 <= amount <= SIZE_MAX ->
  vec_wf (ext_vec_reserve junk vec amount) /\
  ext_vec_size (ext_vec_reserve junk vec amount) = ext_vec_size vec /\
  ext_vec_capacity (ext_vec_reserve junk vec amount)
    = Z.max (ext_vec_capacity vec) amount /\
  elements (ext_vec_reserve junk vec amount) = elements vec.
Proof.
  destruct vec as [[c s d]|]; simpl.
  - intros (Hs & Hc & Hd) Ha.
    destruct (c <? amount) eqn:Hlt; simpl.
    + rewrite length_resize.
      split; [lia |]. split; [done |]. split; [lia |].
      rewrite take_resize_le by lia. rewrite resize_le by lia. done.
    + split; [done |]. split; [done |]. split; [lia | done].
  - intros _ Ha. rewrite length_replicate.
    split; [lia |]. split; [done |]. split; [lia | done].
Qed.

Lemma ext_vec_maybe_grow_inv vec amount vec1 :
  vec_wf vec ->
  ext_vec_maybe_grow_ junk vec amount = Some vec1 ->
  vec_wf vec1 /\ ext_vec_size vec1 = ext_vec_size vec /\
  size_t (ext_vec_size vec + amount) <= ext_vec_capacity vec1 /\
  ext_vec_capacity vec <= ext_vec_capacity vec1 /\
  elements vec1 = elements vec.
Proof.
  intros Hwf. unfold ext_vec_maybe_grow_.
  destruct (ext_vec_capacity vec <? size_t (ext_vec_size vec + amount)) eqn:Hlt.
  - destruct (grow_capacity _ _ _ _) as [nc|] eqn:Hnc; [| done].
    simpl. intros [= <-].
    apply grow_capacity_result in Hnc as [Hge Hr].
    + destruct (ext_vec_reserve_spec vec nc Hwf Hr) as (Hwf1 & Hs1 & Hc1 & He1).
      rewrite Hs1, Hc1. repeat split; try done; lia.
    + destruct (ext_vec_capacity vec =? 0); [unfold SIZE_MAX; lia |].
      apply size_t_range.
  - intros [= <-]. repeat split; try done; lia.
Qed.

(** With a capacity that can be doubled, one more element always fits. *)
Lemma ext_vec_maybe_grow_one vec :
  vec_wf vec -> ext_vec_capacity vec < 2 ^ 62 ->
  exists vec1,
    ext_vec_maybe_grow_ junk vec 1 = Some vec1 /\
    ext_vec_capacity vec1 =
      (if ext_vec_size vec <? ext_vec_capacity vec then ext_vec_capacity vec
       else if ext_vec_capacity vec =? 0 then 1
       else 2 * ext_vec_capacity vec).
Proof.
  intros Hwf Hcap. unfold ext_vec_maybe_grow_.
  assert (H262 : 2 ^ 64 = 4 * 2 ^ 62) by done.
  assert (Hsc : 0 <= ext_vec_size vec <= ext_vec_capacity vec).
  { destruct vec as [[c s d]|]; simpl in *; lia. }
  rewrite (size_t_small (ext_vec_size vec + 1)) by (unfold SIZE_MAX; lia).
  destruct (ext_vec_capacity vec <? ext_vec_size vec + 1) eqn:Hlt.
  - assert (Hfull : (ext_vec_size vec <? ext_vec_capacity vec) = false) by lia.
    rewrite Hfull.
    rewrite (size_t_small (ext_vec_capacity vec * 2)) by (unfold SIZE_MAX; lia).
    set (nc := if ext_vec_capacity vec =? 0 then 1 else ext_vec_capacity vec * 2).
    assert (Hnc : ext_vec_size vec + 1 <= nc <= SIZE_MAX).
    { unfold nc, SIZE_MAX. destruct (ext_vec_capacity vec =? 0) eqn:Hz; lia. }
    rewrite grow_capacity_exit
      by (rewrite size_t_small by (unfold SIZE_MAX; lia); lia).
    simpl. eexists. split; [done |].
    destruct (ext_vec_reserve_spec vec nc Hwf ltac:(lia)) as (_ & _ & -> & _).
    unfold nc. destruct (ext_vec_capacity vec =? 0) eqn:Hz; lia.
  - exists vec. split; [done |].
    assert (Hroom : (ext_vec_size vec <? ext_vec_capacity vec) = true) by lia.
    rewrite Hroom. done.
Qed.

Lemma take_S_insert {A} (l : list A) n x :
  (n < length l)%nat -> take (S n) (<[n:=x]> l) = take n l ++ [x].
Proof.
  intros Hn. rewrite (take_S_r _ _ x) by (apply list_lookup_insert_eq; done).
  rewrite take_insert_ge by lia. done.
Qed.

(** [vec[size] = e; size = size + 1] on a vector with room. *)
Lemma append_cell vec e :
  vec_wf vec -> ext_vec_size vec < ext_vec_capacity vec ->
  exists vec1 vec2,
    ext_vec_assign vec (ext_vec_size vec) e = Some vec1 /\
    ext_vec_set_size_ vec1 (size_t (ext_vec_size vec + 1)) = Some vec2 /\
    vec_wf vec2 /\ ext_vec_size vec2 = ext_vec_size vec + 1 /\
    ext_vec_capacity vec2 = ext_vec_capacity vec /\
    elements vec2 = elements vec ++ [e].
Proof.
  destruct vec as [[c s d]|]; simpl; [| lia].
  intros (Hs & Hc & Hd) Hroom.
  rewrite store_Some by lia. simpl.
  rewrite size_t_small by lia.
  eexists _, _. split; [done |]. split; [done |]. simpl.
  rewrite length_insert. split; [lia |]. split; [done |]. split; [done |].
  replace (Z.to_nat (s + 1)) with (S (Z.to_nat s)) by lia.
  apply take_S_insert. lia.
Qed.

Lemma ext_vec_push_back_spec vec e :
  vec_wf vec -> ext_vec_capacity vec < 2 ^ 62 ->
  exists vec',
    ext_vec_push_back junk vec e = Some vec' /\
    vec_wf vec' /\
    ext_vec_size vec' = ext_vec_size vec + 1 /\
    elements vec' = elements vec ++ [e] /\
    ext_vec_capacity vec' =
      (if ext_vec_size vec <? ext_vec_capacity vec then ext_vec_capacity vec
       else if ext_vec_capacity vec =? 0 then 1
       else 2 * ext_vec_capacity vec).
Proof.
  intros Hwf Hcap.
  destruct (ext_vec_maybe_grow_one vec Hwf Hcap) as (vec1 & Hgrow & Hcap1).
  destruct (ext_vec_maybe_grow_inv vec 1 vec1 Hwf Hgrow)
    as (Hwf1 & Hs1 & Hroom & Hmono & He1).
  assert (H262 : 2 ^ 64 = 4 * 2 ^ 62) by done.
  assert (Hsc : 0 <= ext_vec_size vec <= ext_vec_capacity vec).
  { destruct vec as [[c s d]|]; simpl in *; lia. }
  rewrite size_t_small in Hroom by (unfold SIZE_MAX; lia).
  destruct (append_cell vec1 e Hwf1 ltac:(lia))
    as (vec2 & vec3 & Hassign & Hset & Hwf3 & Hs3 & Hc3 & He3).
  exists vec3. unfold ext_vec_push_back. rewrite Hgrow. simpl.
  rewrite Hassign. simpl. rewrite Hset.
  split; [done |]. split; [done |]. split; [lia |].
  split; [congruence |]. congruence.
Qed.

Lemma removelast_take {A} (l : list A) n :
  (S n <= length l)%nat -> removelast (take (S n) l) = take n l.
Proof.
  intros Hn. destruct (lookup_lt_is_Some_2 l n ltac:(lia)) as [x Hx].
  rewrite (take_S_r _ _ x Hx). apply removelast_last.
Qed.

Lemma ext_vec_pop_back_spec vec :
  vec_wf vec -> ext_vec_size vec <> 0 ->
  exists vec',
    ext_vec_pop_back vec = Some vec' /\
    vec_wf vec' /\
    ext_vec_size vec' = ext_vec_size vec - 1 /\
    ext_vec_capacity vec' = ext_vec_capacity vec /\
    elements vec' = removelast (elements vec).
Proof.
  destruct vec as [[c s d]|]; simpl; [| done].
  intros (Hs & Hc & Hd) Hne. unfold ext_vec_pop_back. simpl.
  destruct (s =? 0) eqn:Hz; [lia |].
  rewrite size_t_small by lia.
  eexists. split; [done |]. simpl.
  split; [lia |]. split; [done |]. split; [done |].
  replace (Z.to_nat s) with (S (Z.to_nat (s - 1))) by lia.
  rewrite removelast_take by lia. done.
Qed.

(** *** Sequences of [push_back] and [pop_back] *)

Lemma surviving_length ops : forall acc content,
  surviving acc ops = Some content ->
  Z.of_nat (length content) = Z.of_nat (length acc) + pushes ops - pops ops.
Proof.
  induction ops as [|[e|] ops IH]; intros acc content;
    unfold pushes, pops in *; simpl.
  - intros [= <-]. lia.
  - intros H. apply IH in H. rewrite length_app in H. simpl in *. lia.
  - destruct acc as [|a acc'] eqn:Hacc; [done |].
    intros H. apply IH in H.
    assert (Hlen : S (length (removelast (a :: acc'))) = length (a :: acc')).
    { rewrite (app_removelast_last a (l := a :: acc')) at 2 by done.
      rewrite length_app. simpl. lia. }
    simpl length in *. lia.
Qed.

Lemma run_stack_ops_spec ops : forall vec acc content n,
  vec_wf vec -> elements vec = acc ->
  ext_vec_capacity vec <= 2 * n -> ext_vec_size vec <= n ->
  n + Z.of_nat (length ops) < 2 ^ 61 ->
  surviving acc ops = Some content ->
  exists vec',
    run_stack_ops junk vec ops = Some vec' /\ vec_wf vec' /\
    elements vec' = content.
Proof.
  induction ops as [|[e|] ops IH]; intros vec acc content n Hwf Hel Hcap Hsz Hn;
    simpl length in Hn; simpl.
  - intros [= <-]. exists vec. done.
  - intros Hsurv.
    assert (H262 : 2 ^ 62 = 2 * 2 ^ 61) by done.
    destruct (ext_vec_push_back_spec vec e Hwf ltac:(lia))
      as (vec1 & Hpush & Hwf1 & Hs1 & He1 & Hc1).
    rewrite Hpush. simpl.
    apply (IH vec1 (acc ++ [e]) content (n + 1)); try done; try lia.
    + congruence.
    + rewrite Hc1.
      destruct (ext_vec_size vec <? ext_vec_capacity vec) eqn:?; [lia |].
      destruct (ext_vec_capacity vec =? 0) eqn:?; lia.
  - destruct acc as [|a acc'] eqn:Hacc; [done |]. intros Hsurv.
    pose proof (elements_length vec Hwf) as Hlen. rewrite Hel in Hlen.
    destruct (ext_vec_pop_back_spec vec Hwf ltac:(simpl in Hlen; lia))
      as (vec1 & Hpop & Hwf1 & Hs1 & Hc1 & He1).
    rewrite Hpop. simpl.
    apply (IH vec1 (removelast (a :: acc')) content (n + 1)); try done; try lia.
    congruence.
Qed.

(** C8. A sequence of fewer than 2^61 [push_back] and [pop_back] calls on
    the empty array, in which no [pop_back] meets an empty array, returns an
    array whose size is the number of pushes minus the number of pops and
    whose element at each index [i] below the size is the [i]-th, in the
    order of the pushes, of the pushed values that were not popped since. *)
Theorem push_pop_sequence ops content :
  Z.of_nat (length ops) < 2 ^ 61 ->
  surviving [] ops = Some content ->
  exists vec,
    run_stack_ops junk None ops = Some vec /\
    ext_vec_size vec = pushes ops - pops ops /\
    Z.of_nat (length content) = ext_vec_size vec /\
    forall i, 0 <= i < ext_vec_size vec ->
      is_Some (ext_vec_at vec i) /\
      ext_vec_at vec i = content !! Z.to_nat i.
Proof.
  intros Hlen Hsurv.
  destruct (run_stack_ops_spec ops None [] content 0) as (vec & Hrun & Hwf & Hel);
    try done; try (simpl; lia).
  pose proof (surviving_length ops [] content Hsurv) as Hcl. simpl in Hcl.
  pose proof (elements_length vec Hwf) as Hsz. rewrite Hel in Hsz.
  exists vec. split; [done |]. split; [lia |]. split; [done |].
  intros i Hi. rewrite (elements_lookup vec i Hwf Hi), Hel.
  split; [| done]. apply lookup_lt_is_Some_2. lia.
Qed.

(** *** [size <= capacity] under every operation *)

Lemma vec_wf_size_le_capacity vec :
  vec_wf vec -> 0 <= ext_vec_size vec <= ext_vec_capacity vec.
Proof. destruct vec as [[c s d]|]; simpl; lia. Qed.

Lemma memmove_length (cells cells' : list T) dst src n :
  memmove cells dst src n = Some cells' -> length cells' = length cells.
Proof.
  unfold memmove.
  destruct ((0 <=? dst) && (0 <=? src) && (0 <=? n)
            && (dst + n <=? Z.of_nat (length cells))
            && (src + n <=? Z.of_nat (length cells))) eqn:Hc; [| done].
  apply andb_prop in Hc as [Hc H5]. apply andb_prop in Hc as [Hc H4].
  apply andb_prop in Hc as [Hc H3]. apply andb_prop in Hc as [H1 H2].
  intros [= <-]. rewrite !length_app, !length_take, length_drop, length_drop.
  lia.
Qed.

Lemma memmove_total (cells : list T) dst src n :
  0 <= dst -> 0 <= src -> 0 <= n ->
  dst + n <= Z.of_nat (length cells) -> src + n <= Z.of_nat (length cells) ->
  exists cells', memmove cells dst src n = Some cells'.
Proof.
  intros H1 H2 H3 H4 H5. unfold memmove.
  destruct ((0 <=? dst) && (0 <=? src) && (0 <=? n)
            && (dst + n <=? Z.of_nat (length cells))
            && (src + n <=? Z.of_nat (length cells))) eqn:Hc; [eauto |].
  exfalso. rewrite !andb_false_iff in Hc. lia.
Qed.











End facts.

End VecFacts.

(** ** The growable array on integers *)

Module VecExamples.
Import Vec VecFacts VecExample.

Lemma push_pop_sequence_witness :
  Z.of_nat (length four_calls) < 2 ^ 61 /\
  surviving [] four_calls = Some [1; 3] /\
  exists vec,
    run_stack_ops 0 None four_calls = Some vec /\
    ext_vec_size vec = pushes four_calls - pops four_calls /\
    Z.of_nat (length [1; 3]) = ext_vec_size vec /\
    forall i, 0 <= i < ext_vec_size vec ->
      is_Some (ext_vec_at vec i) /\
      ext_vec_at vec i = [1; 3] !! Z.to_nat i.
Proof.
  assert (Hlen : Z.of_nat (length four_calls) < 2 ^ 61) by (vm_compute; reflexivity).
  assert (Hsurv : surviving [] four_calls = Some [1; 3]) by reflexivity.
  split; [exact Hlen |]. split; [exact Hsurv |].
  exact (push_pop_sequence 0 four_calls [1; 3] Hlen Hsurv).
Defined.


End VecExamples.

(** ** The growable string *)

Module StrFacts.
Import Str.

Section facts.

Variable junk : byte.
Implicit Types (str : ext_string) (needle bytes : list byte) (sep : byte).

Lemma npos_eq : ext_str_npos = SIZE_MAX.
Proof. reflexivity. Qed.

Lemma content_length str :
  str_shape str -> Z.of_nat (length (content str)) = size str.
Proof.
  intros (H0 & H1 & H2 & H3). unfold content. rewrite length_take. lia.
Qed.

(** *** [ext_str_find_len] and [ext_str_rfind_len] *)

Lemma memcmp_eq_occurs str needle i :
  str_shape str -> 0 <= i -> i + Z.of_nat (length needle) <= size str ->
  memcmp_eq (drop (Z.to_nat i) (data str)) needle (Z.of_nat (length needle)) = true
  <-> occurs_at str needle i.
Proof.
  intros (H0 & H1 & H2 & H3) Hi Hfit. unfold memcmp_eq, occurs_at, content.
  rewrite bool_decide_eq_true, Nat2Z.id, firstn_all.
  assert (Heq : take (length needle) (drop (Z.to_nat i) (take (Z.to_nat (size str)) (data str)))
                = take (length needle) (drop (Z.to_nat i) (data str))).
  { apply list_eq. intros k. rewrite !lookup_take.
    case_decide; [| done]. rewrite !lookup_drop, lookup_take.
    case_decide; [done | lia]. }
  rewrite Heq. split; [intros H; repeat split; done | intros (_ & _ & H); done].
Qed.

(** The forward scan with at most [m] indices left up to [size - len]. *)
Lemma find_loop_spec str needle (m : nat) : forall fuel i,
  str_shape str -> Z.of_nat (length needle) <= size str -> 0 <= i ->
  size str - Z.of_nat (length needle) + 1 <= i + Z.of_nat m ->
  (m < fuel)%nat ->
  exists r,
    find_loop fuel str needle (Z.of_nat (length needle)) i = Some r /\
    ((r = ext_str_npos /\ forall j, i <= j -> ~ occurs_at str needle j) \/
     (i <= r /\ occurs_at str needle r /\
      forall j, i <= j < r -> ~ occurs_at str needle j)).
Proof.
  induction m as [|m IH]; intros fuel i Hshape Hlen Hi Hm Hfuel;
    (destruct fuel as [|fuel]; [lia |]); simpl;
    pose proof Hshape as (H0 & H1 & H2 & H3);
    rewrite (size_t_small (ext_str_size str - Z.of_nat (length needle)))
      by (unfold ext_str_size; lia); unfold ext_str_size;
    (destruct (i <=? size str - Z.of_nat (length needle)) eqn:Hle;
     [| exists ext_str_npos; split; [done |]; left; split; [done |];
        intros j Hj [_ [Hfit _]]; lia]).
  - lia.
  - destruct (memcmp_eq _ needle _) eqn:Hcmp.
    + exists i. split; [done |]. right. split; [lia |].
      split; [apply memcmp_eq_occurs; [done | lia | lia | done] |].
      intros j Hj. lia.
    + rewrite size_t_small by lia.
      destruct (IH fuel (i + 1) Hshape Hlen ltac:(lia) ltac:(lia) ltac:(lia))
        as (r & Hr & Hcases).
      exists r. split; [done |].
      assert (Hni : ~ occurs_at str needle i).
      { intros Hocc. apply memcmp_eq_occurs in Hocc; [| done | lia | lia].
        congruence. }
      destruct Hcases as [[-> Hnone] | (Hle' & Hocc & Hfirst)].
      * left. split; [done |]. intros j Hj.
        destruct (decide (j = i)) as [-> | Hne]; [done |]. apply Hnone. lia.
      * right. split; [lia |]. split; [done |]. intros j Hj.
        destruct (decide (j = i)) as [-> | Hne]; [done |]. apply Hfirst. lia.
Qed.

(** The backward scan from index [n] down to 0. *)
Lemma rfind_loop_spec str needle (n : nat) : forall fuel,
  str_shape str ->
  Z.of_nat n + Z.of_nat (length needle) <= size str ->
  (n + 1 < fuel)%nat ->
  exists r,
    rfind_loop fuel str needle (Z.of_nat (length needle)) (Z.of_nat n) = Some r /\
    ((r = ext_str_npos /\
      forall j, 0 <= j <= Z.of_nat n -> ~ occurs_at str needle j) \/
     (0 <= r <= Z.of_nat n /\ occurs_at str needle r /\
      forall j, r < j <= Z.of_nat n -> ~ occurs_at str needle j)).
Proof.
  induction n as [|n IH]; intros fuel Hshape Hfit Hfuel;
    (destruct fuel as [|fuel]; [lia |]);
    pose proof Hshape as (H0 & H1 & H2 & H3);
    cbn [rfind_loop]; rewrite npos_eq.
  - change (Z.of_nat 0) with 0 in *.
    change (0 =? SIZE_MAX) with false. cbn [negb].
    destruct (memcmp_eq _ needle _) eqn:Hcmp.
    + exists 0. split; [done |]. right. split; [done |].
      split; [apply memcmp_eq_occurs; [done | lia | lia | done] |].
      intros j Hj. lia.
    + change (size_t (0 - 1)) with SIZE_MAX.
      destruct fuel as [|fuel]; [lia |]. cbn [rfind_loop]. rewrite npos_eq.
      rewrite Z.eqb_refl. cbn [negb].
      exists SIZE_MAX. split; [done |]. left. split; [done |].
      intros j Hj Hocc. assert (j = 0) as -> by lia.
      apply memcmp_eq_occurs in Hocc; [| done | lia | lia].
      congruence.
  - assert (Hne : (Z.of_nat (S n) =? SIZE_MAX) = false)
      by (apply Z.eqb_neq; unfold SIZE_MAX in *; lia).
    rewrite Hne. cbn [negb].
    destruct (memcmp_eq _ needle _) eqn:Hcmp.
    + exists (Z.of_nat (S n)). split; [done |]. right. split; [lia |].
      split; [apply memcmp_eq_occurs; [done | lia | lia | done] |].
      intros j Hj. lia.
    + rewrite size_t_small by lia.
      replace (Z.of_nat (S n) - 1) with (Z.of_nat n) by lia.
      destruct (IH fuel Hshape ltac:(lia) ltac:(lia)) as (r & Hr & Hcases).
      exists r. rewrite <- npos_eq. split; [done |].
      assert (Hni : ~ occurs_at str needle (Z.of_nat (S n))).
      { intros Hocc. apply memcmp_eq_occurs in Hocc; [| done | lia | lia].
        congruence. }
      destruct Hcases as [[-> Hnone] | (Hle' & Hocc & Hfirst)].
      * left. split; [done |]. intros j Hj.
        destruct (decide (j = Z.of_nat (S n))) as [-> | Hne']; [done |].
        apply Hnone. lia.
      * right. split; [lia |]. split; [done |]. intros j Hj.
        destruct (decide (j = Z.of_nat (S n))) as [-> | Hne']; [done |].
        apply Hfirst. lia.
Qed.

Lemma occurs_at_index str needle i :
  str_shape str -> occurs_at str needle i ->
  0 <= i <= size str /\ i <> ext_str_npos /\
  (0 < Z.of_nat (length needle) -> i < size str).
Proof.
  intros (H0 & H1 & H2 & H3) (Hi & Hfit & _). rewrite npos_eq.
  split; [lia |]. split; lia.
Qed.

Lemma ext_str_find_len_spec str start_pos needle :
  str_shape str -> 0 <= start_pos ->
  exists r,
    ext_str_find_len str start_pos needle (Z.of_nat (length needle)) = Some r /\
    ((r = ext_str_npos /\
      forall i, start_pos <= i -> ~ occurs_at str needle i) \/
     (r <> ext_str_npos /\ start_pos <= r /\ occurs_at str needle r /\
      forall j, start_pos <= j < r -> ~ occurs_at str needle j)).
Proof.
  intros Hshape Hstart. pose proof Hshape as (H0 & H1 & H2 & H3).
  unfold ext_str_find_len, ext_str_size.
  destruct (size str <? Z.of_nat (length needle)) eqn:Hlt.
  - exists ext_str_npos. split; [done |]. left. split; [done |].
    intros i _ (Hi0 & Hfit & _). lia.
  - destruct (find_loop_spec str needle (Z.to_nat (size str) + 1)
                (Z.to_nat (size str) + 2) start_pos Hshape)
      as (r & Hr & Hcases); try lia.
    exists r. split; [done |].
    destruct Hcases as [Hnone | (Hle & Hocc & Hfirst)]; [left; done |].
    right. split; [| done].
    apply (occurs_at_index str needle r Hshape Hocc).
Qed.

Lemma rfind_first_range str start_pos len :
  str_shape str -> 0 <= start_pos < size str -> 0 <= len <= size str ->
  0 <= rfind_first str start_pos len <= size str - len.
Proof.
  intros (H0 & H1 & H2 & H3) Hs Hl. unfold rfind_first.
  destruct (start_pos <=? len) eqn:Hle; lia.
Qed.

Lemma ext_str_rfind_len_spec str start_pos needle :
  str_shape str -> 0 <= start_pos ->
  exists r,
    ext_str_rfind_len str start_pos needle (Z.of_nat (length needle)) = Some r /\
    ((r = ext_str_npos /\
      (start_pos < size str ->
       forall i, i <= rfind_first str start_pos (Z.of_nat (length needle)) ->
         ~ occurs_at str needle i)) \/
     (r <> ext_str_npos /\ start_pos < size str /\
      r <= rfind_first str start_pos (Z.of_nat (length needle)) /\
      occurs_at str needle r /\
      forall j, r < j <= rfind_first str start_pos (Z.of_nat (length needle)) ->
        ~ occurs_at str needle j)).
Proof.
  intros Hshape Hstart. pose proof Hshape as (H0 & H1 & H2 & H3).
  unfold ext_str_rfind_len, ext_str_size.
  destruct (size str <? Z.of_nat (length needle)) eqn:Hlt.
  { exists ext_str_npos. split; [done |]. left. split; [done |].
    intros _ i _ (Hi0 & Hfit & _). lia. }
  destruct (size str <=? start_pos) eqn:Hge.
  { exists ext_str_npos. split; [done |]. left. split; [done |]. lia. }
  pose proof (rfind_first_range str start_pos (Z.of_nat (length needle)) Hshape
                ltac:(lia) ltac:(lia)) as Hfr.
  assert (Hinit :
    size_t (size_t (size str -
      (if start_pos <=? Z.of_nat (length needle)
       then size_t (Z.of_nat (length needle) - 1) else start_pos)) - 1)
    = rfind_first str start_pos (Z.of_nat (length needle))).
  { unfold rfind_first in *.
    destruct (start_pos <=? Z.of_nat (length needle)) eqn:Hle.
    - destruct (length needle) as [|k] eqn:Hk.
      + change (size_t (Z.of_nat 0 - 1)) with (2 ^ 64 - 1).
        replace (size str - (2 ^ 64 - 1)) with (size str + 1 + -1 * 2 ^ 64) by lia.
        unfold size_t at 2. rewrite Z.mod_add by lia.
        rewrite Z.mod_small by (unfold SIZE_MAX in *; lia).
        rewrite size_t_small by lia. change (Z.of_nat 0) with 0. lia.
      + rewrite (size_t_small (Z.of_nat (S k) - 1)) by lia.
        rewrite (size_t_small (size str - _)) by lia.
        rewrite size_t_small by lia. lia.
    - rewrite (size_t_small (size str - start_pos)) by lia.
      rewrite size_t_small by lia. lia. }
  rewrite Hinit.
  set (first := rfind_first str start_pos (Z.of_nat (length needle))) in *.
  destruct (rfind_loop_spec str needle (Z.to_nat first)
              (Z.to_nat (size str) + 2) Hshape) as (r & Hr & Hcases); try lia.
  rewrite Z2Nat.id in Hr, Hcases by lia.
  exists r. split; [done |].
  destruct Hcases as [[-> Hnone] | (Hle & Hocc & Hfirst)].
  - left. split; [done |]. intros _ i Hi Hocc.
    apply (Hnone i); [| done]. destruct Hocc as (? & _). lia.
  - right. split; [apply (occurs_at_index str needle r Hshape Hocc) |].
    split; [lia |]. split; [lia |]. done.
Qed.

(** What the two searches compute.  For every string, start position and
    needle (the empty needle included), [ext_str_find_len] and
    [ext_str_rfind_len] return either [ext_str_npos] or an index [r] at
    which the bytes of the needle occur within the string, [r + len <= size]
    (so [r < size] whenever the needle is not empty, and [r <= size] for the
    empty needle).  [ext_str_find_len] returns the first occurrence at or
    after [start_pos], and [ext_str_npos] exactly when there is none.
    [ext_str_rfind_len] returns [ext_str_npos] when [start_pos >= size];
    otherwise the last occurrence at or below the first index it examines,
    [rfind_first], and [ext_str_npos] exactly when there is none.  No index
    of an occurrence is [ext_str_npos]. *)
Lemma find_rfind_len_occurrence str start_pos needle :
  str_shape str -> 0 <= start_pos ->
  (exists r,
     ext_str_find_len str start_pos needle (Z.of_nat (length needle)) = Some r /\
     (r = ext_str_npos \/ (start_pos <= r /\ occurs_at str needle r /\
        forall j, start_pos <= j < r -> ~ occurs_at str needle j)) /\
     (r = ext_str_npos <->
      ~ exists i, start_pos <= i /\ occurs_at str needle i)) /\
  (exists r,
     ext_str_rfind_len str start_pos needle (Z.of_nat (length needle)) = Some r /\
     (r = ext_str_npos \/
      (start_pos < size str /\
       r <= rfind_first str start_pos (Z.of_nat (length needle)) /\
       occurs_at str needle r /\
       forall j, r < j <= rfind_first str start_pos (Z.of_nat (length needle)) ->
         ~ occurs_at str needle j)) /\
     (r = ext_str_npos <->
      ~ (start_pos < size str /\
         exists i, i <= rfind_first str start_pos (Z.of_nat (length needle)) /\
           occurs_at str needle i))) /\
  (forall i, occurs_at str needle i ->
     0 <= i /\ i + Z.of_nat (length needle) <= size str /\
     i <> ext_str_npos /\ (0 < Z.of_nat (length needle) -> i < size str)).
Proof.
  intros Hshape Hstart. split; [| split].
  - destruct (ext_str_find_len_spec str start_pos needle Hshape Hstart)
      as (r & Hr & Hcases).
    exists r. split; [done |].
    destruct Hcases as [[-> Hnone] | (Hne & Hle & Hocc & Hfirst)].
    + split; [left; done |]. split; [| done].
      intros _ (i & Hi & Hocc). apply (Hnone i Hi Hocc).
    + split; [right; done |]. split; [done |].
      intros Hno. exfalso. apply Hno. exists r. done.
  - destruct (ext_str_rfind_len_spec str start_pos needle Hshape Hstart)
      as (r & Hr & Hcases).
    exists r. split; [done |].
    destruct Hcases as [[-> Hnone] | (Hne & Hlt & Hle & Hocc & Hfirst)].
    + split; [left; done |]. split; [| done].
      intros _ (Hlt & i & Hi & Hocc). apply (Hnone Hlt i Hi Hocc).
    + split; [right; done |]. split; [done |].
      intros Hno. exfalso. apply Hno. split; [done |]. exists r. done.
  - intros i Hocc.
    destruct (occurs_at_index str needle i Hshape Hocc) as (Hi & Hn & Hlt).
    destruct Hocc as (_ & Hfit & _). repeat split; try done; lia.
Qed.

(** *** [ext_str_new_len] *)

Lemma ext_str_new_len_spec bytes len :
  0 <= len <= Z.of_nat (length bytes) -> len < SIZE_MAX ->
  ext_str_new_len junk bytes len
    = Some (mk_str (len + 1) len (take (Z.to_nat len) bytes ++ [x00])).
Proof.
  intros Hlen Hmax. unfold ext_str_new_len.
  rewrite (size_t_small (len + 1)) by lia.
  unfold memcpy. rewrite length_replicate.
  assert (Hc : (0 <=? 0) && (0 <=? len)
               && (0 + len <=? Z.of_nat (Z.to_nat (len + 1)))
               && (len <=? Z.of_nat (length bytes)) = true).
  { rewrite !andb_true_iff. repeat split; apply Z.leb_le; lia. }
  rewrite Hc. simpl.
  replace (Z.to_nat (len + 1)) with (Z.to_nat len + 1)%nat by lia.
  rewrite replicate_add, drop_app_length' by (rewrite length_replicate; lia).
  simpl. unfold store.
  rewrite length_app, length_take. simpl.
  assert (Hr : (0 <=? len)
               && (len <? Z.of_nat (Init.Nat.min (Z.to_nat len) (length bytes) + 1))
               = true).
  { rewrite andb_true_iff. split; [apply Z.leb_le | apply Z.ltb_lt]; lia. }
  rewrite Hr. simpl. do 3 f_equal.
  rewrite insert_app_r_alt by (rewrite length_take; lia).
  rewrite length_take.
  replace (Z.to_nat len - Init.Nat.min (Z.to_nat len) (length bytes))%nat
    with O by lia.
  done.
Qed.

Lemma ext_str_new_len_wf bytes len str :
  0 <= len <= Z.of_nat (length bytes) -> len < SIZE_MAX ->
  ext_str_new_len junk bytes len = Some str ->
  str_wf str /\ size str = len /\ capacity str = len + 1 /\
  content str = take (Z.to_nat len) bytes.
Proof.
  intros Hlen Hmax. rewrite ext_str_new_len_spec by done. intros [= <-].
  unfold str_wf, str_shape, nul_terminated, content. simpl.
  rewrite length_app, length_take. simpl.
  split; [split; [lia |] |].
  - apply load_Some. split; [lia |].
    rewrite lookup_app_r by (rewrite length_take; lia).
    rewrite length_take.
    replace (Z.to_nat len - Init.Nat.min (Z.to_nat len) (length bytes))%nat
      with O by lia.
    done.
  - split; [done |]. split; [done |].
    rewrite take_app_length' by (rewrite length_take; lia). done.
Qed.

(** *** [ext_str_split] *)

Lemma join_cons sep tok rest :
  rest <> [] -> join sep (tok :: rest) = tok ++ sep :: join sep rest.
Proof. destruct rest; done. Qed.

Lemma runs_nonempty sep bytes : forall cur, runs sep bytes cur <> [].
Proof.
  induction bytes as [|b rest IH]; intros cur; simpl; [done |].
  case_bool_decide; [done | apply IH].
Qed.

Lemma runs_join sep bytes : forall cur,
  join sep (runs sep bytes cur) = cur ++ bytes.
Proof.
  induction bytes as [|b rest IH]; intros cur; simpl.
  - rewrite app_nil_r. done.
  - case_bool_decide as Hb.
    + rewrite join_cons by apply runs_nonempty. rewrite IH. subst b. done.
    + rewrite IH, <- app_assoc. done.
Qed.

Lemma runs_length sep bytes : forall cur,
  Z.of_nat (length (runs sep bytes cur)) = occurrences sep bytes + 1.
Proof.
  unfold occurrences.
  induction bytes as [|b rest IH]; intros cur; simpl; [done |].
  case_bool_decide; simpl; rewrite ?Nat2Z.inj_succ, IH; lia.
Qed.

Lemma runs_no_sep sep bytes : forall cur,
  sep ∉ cur -> Forall (fun tok => sep ∉ tok) (runs sep bytes cur).
Proof.
  induction bytes as [|b rest IH]; intros cur Hcur; simpl.
  - constructor; [done | constructor].
  - case_bool_decide as Hb.
    + constructor; [done |]. apply IH. apply not_elem_of_nil.
    + apply IH. rewrite elem_of_app, list_elem_of_singleton.
      intros [? | ?]; [done | congruence].
Qed.

Lemma take_drop_content str last k :
  (last + k <= Z.to_nat (size str))%nat ->
  take k (drop last (data str)) = take k (drop last (content str)).
Proof.
  intros Hk. unfold content. apply list_eq. intros j. rewrite !lookup_take.
  case_decide; [| done]. rewrite !lookup_drop, lookup_take.
  case_decide; [done | lia].
Qed.

Lemma split_loop_spec str sep (n : nat) : forall i last tokens,
  str_shape str -> size str < 2 ^ 61 ->
  0 <= last <= i -> i + Z.of_nat n = size str ->
  Vec.vec_wf tokens ->
  Vec.ext_vec_capacity tokens <= Z.max 1 (2 * Vec.ext_vec_size tokens) ->
  Vec.ext_vec_size tokens <= i ->
  Forall fresh_token (Vec.elements tokens) ->
  exists tokens' last',
    split_loop junk n str sep i last tokens = Some (tokens', last') /\
    Vec.vec_wf tokens' /\
    Vec.ext_vec_capacity tokens' <= Z.max 1 (2 * Vec.ext_vec_size tokens') /\
    Vec.ext_vec_size tokens' <= size str /\
    0 <= last' <= size str /\
    Forall fresh_token (Vec.elements tokens') /\
    (content <$> Vec.elements tokens')
      ++ [drop (Z.to_nat last') (content str)]
    = (content <$> Vec.elements tokens)
      ++ runs sep (drop (Z.to_nat i) (content str))
           (take (Z.to_nat (i - last)) (drop (Z.to_nat last) (content str))).
Proof.
  induction n as [|n IH];
    intros i last tokens Hshape Hsmall Hlast Hin Hwf Hcap Hsz Hfresh;
    pose proof Hshape as (H0 & H1 & H2 & H3);
    pose proof (content_length str Hshape) as Hclen.
  - exists tokens, last. simpl. split; [done |]. split; [done |].
    split; [done |]. split; [lia |]. split; [lia |]. split; [done |].
    rewrite (drop_ge (content str) (Z.to_nat i)) by lia. simpl.
    rewrite take_ge by (rewrite length_drop; lia). done.
  - assert (H261 : 2 ^ 64 = 8 * 2 ^ 61) by done.
    assert (H262 : 2 ^ 62 = 2 * 2 ^ 61) by done.
    destruct (lookup_lt_is_Some_2 (content str) (Z.to_nat i) ltac:(lia))
      as [b Hb].
    assert (Hload : load (data str) i = Some b).
    { apply load_Some. split; [lia |]. unfold content in Hb.
      rewrite lookup_take_lt in Hb by lia. done. }
    simpl. rewrite Hload. simpl.
    rewrite (size_t_small (i + 1)) by (unfold SIZE_MAX; lia).
    rewrite (drop_S _ _ _ Hb). simpl.
    assert (Hcur : take (Z.to_nat (i + 1 - last)) (drop (Z.to_nat last) (content str))
                   = take (Z.to_nat (i - last)) (drop (Z.to_nat last) (content str))
                     ++ [b]).
    { replace (Z.to_nat (i + 1 - last)) with (S (Z.to_nat (i - last))) by lia.
      apply take_S_r. rewrite lookup_drop.
      replace (Z.to_nat last + Z.to_nat (i - last))%nat with (Z.to_nat i) by lia.
      done. }
    case_bool_decide as Hsep.
    + (* a separator: the run [last .. i) becomes a token *)
      rewrite (size_t_small (i - last)) by (unfold SIZE_MAX; lia).
      destruct (ext_str_new_len junk (drop (Z.to_nat last) (data str)) (i - last))
        as [tok|] eqn:Htok;
        [| rewrite ext_str_new_len_spec in Htok;
           [done | rewrite length_drop; lia | unfold SIZE_MAX; lia]].
      apply ext_str_new_len_wf in Htok as (Htwf & Hts & Htc & Htcontent);
        [| rewrite length_drop; lia | unfold SIZE_MAX; lia].
      rewrite take_drop_content in Htcontent by lia.
      simpl.
      destruct (VecFacts.ext_vec_push_back_spec junk_string tokens tok Hwf)
        as (tokens1 & Hpush & Hwf1 & Hs1 & He1 & Hc1).
      { pose proof (VecFacts.vec_wf_size_le_capacity tokens Hwf). lia. }
      rewrite Hpush. simpl.
      destruct (IH (i + 1) (i + 1) tokens1 Hshape Hsmall)
        as (tokens' & last' & Hrun & Hwf' & Hcap' & Hsz' & Hlast' & Hfresh' & Heq);
        try lia; try done.
      { rewrite Hc1, Hs1.
        pose proof (VecFacts.vec_wf_size_le_capacity tokens Hwf).
        destruct (Vec.ext_vec_size tokens <? Vec.ext_vec_capacity tokens) eqn:?;
          [lia |].
        destruct (Vec.ext_vec_capacity tokens =? 0) eqn:?; lia. }
      { rewrite He1. apply Forall_app. split; [done |].
        constructor; [| done]. split; [done | lia]. }
      exists tokens', last'. split; [done |]. repeat (split; [done |]).
      replace (Z.to_nat (i + 1 - (i + 1))) with O in Heq by lia.
      replace (Z.to_nat (i + 1)) with (S (Z.to_nat i)) in Heq by lia.
      rewrite Heq, He1, fmap_app, take_0. simpl. rewrite <- app_assoc. simpl.
      rewrite Htcontent. done.
    + destruct (IH (i + 1) last tokens Hshape Hsmall)
        as (tokens' & last' & Hrun & Hwf' & Hcap' & Hsz' & Hlast' & Hfresh' & Heq);
        try lia; try done.
      exists tokens', last'. split; [done |]. repeat (split; [done |]).
      replace (Z.to_nat (i + 1)) with (S (Z.to_nat i)) in Heq by lia.
      rewrite Heq, Hcur. done.
Qed.

(** C10. [ext_str_split(s, c)], for a string of fewer than 2^61 bytes,
    returns a vector of exactly [k + 1] strings, each as
    [ext_str_new_len] allocates it, where [k] is the number of bytes of
    [s] in [0, size) equal to [c]; no token holds the separator, and the
    tokens joined by the separator, in order, are the bytes of [s]; an
    empty string gives one empty token. *)
Theorem ext_str_split_tokens str sep :
  str_shape str -> size str < 2 ^ 61 ->
  exists vec,
    ext_str_split junk str sep = Some vec /\
    Vec.ext_vec_size vec = occurrences sep (content str) + 1 /\
    Z.of_nat (length (Vec.elements vec)) = occurrences sep (content str) + 1 /\
    Forall fresh_token (Vec.elements vec) /\
    Forall (fun tok => sep ∉ content tok) (Vec.elements vec) /\
    join sep (content <$> Vec.elements vec) = content str /\
    (content str = [] -> content <$> Vec.elements vec = [[]]).
Proof.
  intros Hshape Hsmall. pose proof Hshape as (H0 & H1 & H2 & H3).
  pose proof (content_length str Hshape) as Hclen.
  assert (H261 : 2 ^ 64 = 8 * 2 ^ 61) by done.
  assert (H262 : 2 ^ 62 = 2 * 2 ^ 61) by done.
  destruct (split_loop_spec str sep (Z.to_nat (size str)) 0 0 None Hshape Hsmall)
    as (tokens & last & Hrun & Hwf & Hcap & Hsz & Hlast & Hfresh & Heq);
    try done; try (simpl; lia).
  simpl in Heq. rewrite drop_0 in Heq.
  unfold ext_str_split, ext_str_size. rewrite Hrun. simpl.
  rewrite (size_t_small (size str - last)) by (unfold SIZE_MAX; lia).
  destruct (ext_str_new_len junk (drop (Z.to_nat last) (data str)) (size str - last))
    as [tok|] eqn:Htok;
    [| rewrite ext_str_new_len_spec in Htok;
       [done | rewrite length_drop; lia | unfold SIZE_MAX; lia]].
  apply ext_str_new_len_wf in Htok as (Htwf & Hts & Htc & Htcontent);
    [| rewrite length_drop; lia | unfold SIZE_MAX; lia].
  rewrite take_drop_content in Htcontent by lia.
  rewrite take_ge in Htcontent by (rewrite length_drop; lia).
  simpl.
  destruct (VecFacts.ext_vec_push_back_spec junk_string tokens tok Hwf)
    as (vec & Hpush & Hwfv & Hsv & Hev & _).
  { pose proof (VecFacts.vec_wf_size_le_capacity tokens Hwf). lia. }
  exists vec. split; [done |].
  assert (Hruns : content <$> Vec.elements vec = runs sep (content str) []).
  { rewrite Hev, fmap_app. simpl. rewrite Htcontent. done. }
  pose proof (VecFacts.elements_length vec Hwfv) as Hlen.
  assert (Hcount : Z.of_nat (length (Vec.elements vec))
                   = occurrences sep (content str) + 1).
  { rewrite <- (runs_length sep (content str) []), <- Hruns, length_fmap. done. }
  split; [lia |]. split; [done |].
  split.
  { rewrite Hev. apply Forall_app. split; [done |].
    constructor; [| done]. split; [done | lia]. }
  split.
  { pose proof (runs_no_sep sep (content str) [] (not_elem_of_nil sep)) as Hno.
    rewrite <- Hruns in Hno. rewrite Forall_fmap in Hno. done. }
  split; [rewrite Hruns; apply runs_join |].
  intros Hempty. rewrite Hruns, Hempty. done.
Qed.

(** *** The NUL terminator *)

(** [memcpy(block + sz, bytes, len); block[sz + len] = 0] in a block with
    room for the terminator. *)
Lemma write_tail (block : list byte) sz bytes len :
  0 <= sz -> 0 <= len <= Z.of_nat (length bytes) ->
  sz + len < Z.of_nat (length block) ->
  exists block',
    (memcpy block sz bytes len ≫= fun b => store b (sz + len) x00) = Some block' /\
    length block' = length block /\
    take (Z.to_nat (sz + len)) block'
      = take (Z.to_nat sz) block ++ take (Z.to_nat len) bytes /\
    load block' (sz + len) = Some x00.
Proof.
  intros Hsz Hlen Hroom. unfold memcpy.
  assert (Hc : (0 <=? sz) && (0 <=? len) && (sz + len <=? Z.of_nat (length block))
               && (len <=? Z.of_nat (length bytes)) = true).
  { rewrite !andb_true_iff. repeat split; apply Z.leb_le; lia. }
  rewrite Hc. simpl.
  set (b1 := take (Z.to_nat sz) block ++ take (Z.to_nat len) bytes
             ++ drop (Z.to_nat (sz + len)) block).
  assert (Hl1 : length b1 = length block).
  { unfold b1. rewrite !length_app, !length_take, length_drop. lia. }
  rewrite store_Some by lia.
  eexists. split; [done |]. rewrite length_insert.
  split; [done |]. split.
  - rewrite take_insert_ge by lia. unfold b1.
    rewrite app_assoc, take_app_length'; [done |].
    rewrite length_app, !length_take. lia.
  - apply load_insert_eq. lia.
Qed.

Lemma grow_capacity_spec sz amount fuel : forall new_capacity,
  0 <= sz + amount < 2 ^ 62 -> 1 <= new_capacity ->
  sz + amount < new_capacity * 2 ^ (Z.of_nat fuel - 1) ->
  exists r,
    grow_capacity fuel sz amount new_capacity = Some r /\
    sz + amount < r /\ new_capacity <= r /\
    r <= Z.max new_capacity (2 * (sz + amount)).
Proof.
  assert (H264 : 2 ^ 64 = 4 * 2 ^ 62) by done.
  induction fuel as [|fuel IH]; intros nc Ht Hnc Hfuel.
  - exfalso. change (Z.of_nat 0 - 1) with (-1) in Hfuel.
    change (2 ^ (-1)) with 0 in Hfuel. lia.
  - simpl. rewrite (size_t_small (sz + amount)) by (unfold SIZE_MAX; lia).
    destruct (nc <=? sz + amount) eqn:Hle.
    + rewrite size_t_small by (unfold SIZE_MAX; lia).
      destruct (IH (nc * 2) Ht ltac:(lia)) as (r & Hr & H1 & H2 & H3).
      { destruct fuel as [|fuel].
        - change (Z.of_nat 1 - 1) with 0 in Hfuel. simpl in Hfuel. lia.
        - replace (Z.of_nat (S (S fuel)) - 1) with (Z.succ (Z.of_nat (S fuel) - 1))
            in Hfuel by lia.
          rewrite Z.pow_succ_r in Hfuel by lia. lia. }
      exists r. split; [done |]. lia.
    + exists nc. split; [done |]. lia.
Qed.

Lemma ext_str_maybe_grow_spec str amount :
  str_shape str -> 0 <= amount -> size str + amount < 2 ^ 62 ->
  capacity str <= 2 ^ 62 ->
  exists str',
    ext_str_maybe_grow junk str amount = Some str' /\
    str_shape str' /\ size str' = size str /\
    size str + amount < capacity str' /\
    capacity str <= capacity str' /\ capacity str' <= 2 ^ 63 /\
    take (Z.to_nat (size str)) (data str') = content str /\
    (size str + amount < capacity str -> str' = str).
Proof.
  intros (H0 & H1 & H2 & H3) Ha Ht Hcap. unfold ext_str_maybe_grow.
  assert (H264 : 2 ^ 64 = 4 * 2 ^ 62) by done.
  assert (H263 : 2 ^ 63 = 2 * 2 ^ 62) by done.
  rewrite (size_t_small (size str + amount)) by (unfold SIZE_MAX; lia).
  destruct (capacity str <=? size str + amount) eqn:Hle.
  - assert (Hnew : exists nc,
      (if LOGARITHMIC_GROWTH_TRESH <? capacity str
       then Some (size_t (capacity str + amount))
       else grow_capacity 66 (size str) amount (capacity str)) = Some nc /\
      size str + amount < nc /\ capacity str <= nc /\ nc <= 2 ^ 63).
    { destruct (LOGARITHMIC_GROWTH_TRESH <? capacity str).
      - rewrite size_t_small by (unfold SIZE_MAX; lia).
        eexists. split; [done |]. lia.
      - destruct (grow_capacity_spec (size str) amount 66 (capacity str))
          as (r & Hr & Hr1 & Hr2 & Hr3); [lia | lia | |].
        + change (Z.of_nat 66 - 1) with 65.
          assert (2 ^ 62 <= 2 ^ 65) by (apply Z.pow_le_mono_r; lia). nia.
        + exists r. split; [done |]. lia. }
    destruct Hnew as (nc & -> & Hn1 & Hn2 & Hn3). simpl.
    eexists. split; [done |]. unfold str_shape, str_realloc, content. simpl.
    rewrite length_resize.
    split; [unfold SIZE_MAX; lia |]. split; [done |]. split; [lia |].
    split; [lia |]. split; [lia |].
    split; [| lia].
    rewrite take_resize_le by lia. apply resize_le. lia.
  - exists str. split; [done |]. unfold str_shape, content.
    repeat split; try done; lia.
Qed.

Lemma ext_str_append_len_spec str bytes len :
  str_shape str -> 0 <= len <= Z.of_nat (length bytes) ->
  size str + len < 2 ^ 62 -> capacity str <= 2 ^ 62 ->
  exists str',
    ext_str_append_len junk str bytes len = Some str' /\
    str_wf str' /\ size str' = size str + len /\
    content str' = content str ++ take (Z.to_nat len) bytes.
Proof.
  intros Hshape Hlen Ht Hcap.
  assert (H264 : 2 ^ 64 = 4 * 2 ^ 62) by done.
  assert (H263 : 2 ^ 63 = 2 * 2 ^ 62) by done.
  destruct (ext_str_maybe_grow_spec str len Hshape ltac:(lia) Ht Hcap)
    as (str1 & Hgrow & Hshape1 & Hs1 & Hroom & _ & Hc1 & Hcontent & _).
  pose proof Hshape1 as (G0 & G1 & G2 & G3).
  unfold ext_str_append_len. rewrite Hgrow. simpl. unfold ext_str_size.
  rewrite Hs1. rewrite (size_t_small (size str + len)) by (unfold SIZE_MAX; lia).
  destruct (write_tail (data str1) (size str) bytes len)
    as (block & Hwrite & Hlb & Htake & Hnul); [lia | lia | lia |].
  destruct (memcpy (data str1) (size str) bytes len) as [b1|]; [| done].
  simpl in Hwrite. simpl. rewrite Hwrite. simpl.
  eexists. split; [done |].
  unfold str_wf, str_shape, nul_terminated, content. simpl.
  rewrite Hlb, Htake, Hcontent. repeat split; try done; lia.
Qed.

Lemma str_realloc_wf str new_capacity :
  str_wf str -> size str + 1 <= new_capacity <= SIZE_MAX ->
  str_wf (str_realloc junk str new_capacity) /\
  content (str_realloc junk str new_capacity) = content str.
Proof.
  intros [(H0 & H1 & H2 & H3) Hnul] Hnc.
  unfold str_wf, str_shape, nul_terminated, content, str_realloc. simpl.
  rewrite length_resize. split; [split; [lia |] |].
  - apply load_Some in Hnul as [_ Hnul]. apply load_Some. split; [lia |].
    rewrite lookup_resize by lia. done.
  - rewrite take_resize_le by lia. rewrite resize_le by lia. done.
Qed.

Lemma ext_str_reserve_wf str amount :
  str_wf str -> 0 <= amount < SIZE_MAX ->
  str_wf (ext_str_reserve junk str amount) /\
  content (ext_str_reserve junk str amount) = content str /\
  amount + 1 <= capacity (ext_str_reserve junk str amount).
Proof.
  intros Hwf Ha. pose proof Hwf as [(H0 & H1 & H2 & H3) Hnul].
  unfold ext_str_reserve, ext_str_capacity.
  rewrite size_t_small by lia.
  destruct (capacity str <? amount + 1) eqn:Hlt.
  - destruct (str_realloc_wf str (amount + 1) Hwf ltac:(lia)) as [? ?].
    split; [done |]. split; [done |]. simpl. lia.
  - split; [done |]. split; [done | lia].
Qed.

Lemma ext_str_shrink_to_fit_wf str :
  str_wf str ->
  str_wf (ext_str_shrink_to_fit junk str) /\
  content (ext_str_shrink_to_fit junk str) = content str /\
  capacity (ext_str_shrink_to_fit junk str) = size str + 1.
Proof.
  intros Hwf. pose proof Hwf as [(H0 & H1 & H2 & H3) Hnul].
  unfold ext_str_shrink_to_fit, ext_str_capacity, ext_str_size.
  rewrite size_t_small by lia.
  destruct (size str + 1 <? capacity str) eqn:Hlt.
  - destruct (str_realloc_wf str (size str + 1) Hwf ltac:(lia)) as [? ?].
    split; [done |]. split; [done |]. done.
  - split; [done |]. split; [done | lia].
Qed.

(** What [ext_str_new_cap] returns holds, at index [size], whatever
    [malloc] left there. *)
Lemma ext_str_new_cap_terminator cap :
  0 <= cap < SIZE_MAX ->
  str_shape (ext_str_new_cap junk cap) /\
  load (data (ext_str_new_cap junk cap)) (size (ext_str_new_cap junk cap))
    = Some junk.
Proof.
  intros Hcap. unfold ext_str_new_cap, str_shape. simpl.
  rewrite size_t_small by lia. rewrite length_replicate.
  split; [lia |]. apply load_Some. split; [lia |].
  apply lookup_replicate_2. lia.
Qed.

Lemma vsnprintf_result_small out :
  Z.of_nat (length out) <= INT_MAX ->
  vsnprintf_result out = Z.of_nat (length out).
Proof.
  intros Hint. unfold vsnprintf_result.
  destruct (Z.leb_spec (Z.of_nat (length out)) INT_MAX); [done | lia].
Qed.

Lemma vsnprintf_spec (buf : list byte) n out :
  0 < n <= Z.of_nat (length buf) -> Z.of_nat (length out) <= INT_MAX ->
  exists buf',
    vsnprintf buf 0 n out = Some (buf', Z.of_nat (length out)) /\
    length buf' = length buf /\
    (Z.of_nat (length out) < n ->
     take (length out) buf' = out /\
     load buf' (Z.of_nat (length out)) = Some x00).
Proof.
  intros Hn Hint. unfold vsnprintf. rewrite (vsnprintf_result_small out Hint).
  destruct (n =? 0) eqn:Hz; [lia |].
  set (k := Z.min (Z.of_nat (length out)) (n - 1)).
  destruct (write_tail buf 0 out k) as (buf' & Hwrite & Hlen & Htake & Hnul);
    [lia | lia | lia |].
  destruct (memcpy buf 0 out k) as [b1|]; [| done]. simpl in *.
  rewrite Hwrite. simpl. exists buf'. split; [done |]. split; [done |].
  intros Hfit. assert (Hk : k = Z.of_nat (length out)) by lia.
  rewrite Hk, Z.add_0_l, Nat2Z.id, firstn_all in Htake.
  rewrite Hk, Z.add_0_l in Hnul. done.
Qed.

Lemma ext_str_vfmt_spec fmt_len out :
  0 <= fmt_len < 2 ^ 61 -> Z.of_nat (length out) <= INT_MAX ->
  exists str,
    ext_str_vfmt junk fmt_len out = Some str /\
    str_wf str /\ content str = out.
Proof.
  intros Hfmt Hint.
  assert (Hout : Z.of_nat (length out) < 2 ^ 61) by (unfold INT_MAX in Hint; lia).
  assert (H264 : 2 ^ 64 = 8 * 2 ^ 61) by done.
  assert (H262 : 2 ^ 62 = 2 * 2 ^ 61) by done.
  assert (Hw : size_t (Z.of_nat (length out)) = Z.of_nat (length out))
    by (apply size_t_small; unfold SIZE_MAX; lia).
  unfold ext_str_vfmt, ext_str_new_cap, ext_str_capacity. simpl.
  rewrite (size_t_small (fmt_len * 2)) by (unfold SIZE_MAX; lia).
  rewrite (size_t_small (fmt_len * 2 + 1)) by (unfold SIZE_MAX; lia).
  set (c0 := fmt_len * 2 + 1).
  destruct (vsnprintf_spec (replicate (Z.to_nat c0) junk) c0 out)
    as (b1 & Hv1 & Hl1 & Hfit1); [| done |].
  { rewrite length_replicate. lia. }
  rewrite Hv1. simpl. rewrite ?Hw. rewrite length_replicate in Hl1.
  destruct (c0 <=? Z.of_nat (length out)) eqn:Hle.
  - destruct (ext_str_maybe_grow_spec (mk_str c0 0 b1) (Z.of_nat (length out)))
      as (str2 & Hgrow & Hshape2 & Hs2 & Hroom & _ & _ & _ & _).
    { unfold str_shape, SIZE_MAX. simpl. lia. } { lia. } { simpl. lia. }
    { simpl. lia. }
    rewrite Hgrow. simpl. simpl in Hs2, Hroom.
    pose proof Hshape2 as (G0 & G1 & G2 & G3).
    destruct (vsnprintf_spec (data str2) (capacity str2) out)
      as (b2 & Hv2 & Hl2 & Hfit2); [lia | done |].
    rewrite Hv2. simpl. rewrite ?Hw.
    destruct (Z.of_nat (length out) <? capacity str2) eqn:Hlt; [| lia].
    destruct (Hfit2 ltac:(lia)) as [Htake Hnul].
    eexists. split; [done |].
    unfold str_wf, str_shape, nul_terminated, content. simpl.
    rewrite Nat2Z.id. repeat split; try done; lia.
  - destruct (Hfit1 ltac:(lia)) as [Htake Hnul].
    eexists. split; [done |].
    unfold str_wf, str_shape, nul_terminated, content, SIZE_MAX. simpl.
    rewrite Nat2Z.id. repeat split; try done; lia.
Qed.

Lemma strlen_range cstring len :
  strlen cstring = Some len -> 0 <= len < Z.of_nat (length cstring).
Proof.
  revert len. induction cstring as [|b rest IH]; intros len; simpl; [done |].
  case_bool_decide.
  - intros [= <-]. lia.
  - destruct (strlen rest) as [k|]; simpl; [| done].
    intros [= <-]. specialize (IH k eq_refl). lia.
Qed.

Lemma ext_str_new_wf cstring str :
  Z.of_nat (length cstring) <= SIZE_MAX ->
  ext_str_new junk cstring = Some str -> str_wf str.
Proof.
  intros Hmax. unfold ext_str_new.
  destruct (strlen cstring) as [len|] eqn:Hlen; simpl; [| done].
  apply strlen_range in Hlen. intros Hnew.
  apply ext_str_new_len_wf in Hnew as [? _]; [done | lia | lia].
Qed.

End facts.

End StrFacts.

(** ** The growable string on the strings of example.c *)

Module StrExamples.
Import Str StrFacts StrExample.

(** C6 (the code departs from it). [ext_str_new_cap] sets [size] and
    [capacity] and writes no byte: on a block that [malloc] returns filled
    with 0xAA, the byte at index [size] of the new string is 0xAA, not 0. *)
Theorem ext_str_new_cap_no_terminator :
  size (ext_str_new_cap xaa 10) = 0 /\
  capacity (ext_str_new_cap xaa 10) = 11 /\
  load (data (ext_str_new_cap xaa 10)) (size (ext_str_new_cap xaa 10)) = Some xaa /\
  ~ nul_terminated (ext_str_new_cap xaa 10).
Proof.
  split; [reflexivity |]. split; [reflexivity |]. split; [reflexivity |].
  unfold nul_terminated. vm_compute. discriminate.
Qed.

(** C7 (the code departs from it). [ext_str_rfind_len(str, start_pos, ...)]
    searches downwards from the index [size - start_pos - 1], as
    [ext_str_rfind_char] does, and lowers that index to [size - len] for a
    start position that would let the needle end beyond the string.  The
    test for it is [start_pos <= len], which also takes [start_pos = len]:
    on "xxabc" with the needle "abc" and the start position 3 the search
    starts at index 2 instead of 1 and returns 2, although "abc" occurs at
    no index up to 1, where the sentinel is due; with the start position 4
    the sentinel is returned.  With the needle "c" and the start position 1
    it returns 4 where [ext_str_rfind_char] returns the sentinel.  With the
    empty needle and the start position 0 the same assignment wraps to
    [(size_t)-1] and the index returned is [size], not an index in
    [0, size). *)
Theorem ext_str_rfind_len_clamp_takes_equal :
  size xxabc = 5 /\
  ext_str_rfind_len xxabc 3 abc 3 = Some 2 /\
  ~ 2 <= size xxabc - 3 - 1 /\
  ~ (exists i, i <= size xxabc - 3 - 1 /\ occurs_at xxabc abc i) /\
  ext_str_rfind_len xxabc 3 abc 3 <> Some ext_str_npos /\
  ext_str_rfind_len xxabc 4 abc 3 = Some ext_str_npos /\
  ext_str_rfind_len xxabc 1 ["c"%byte] 1 = Some 4 /\
  (forall char_is_signed,
     StrMore.ext_str_rfind_char char_is_signed xxabc 1 99
     = Some ext_str_npos) /\
  ext_str_rfind_len xxabc 0 [] 0 = Some 5.
Proof.
  split; [reflexivity |]. split; [reflexivity |].
  split; [simpl; lia |]. split.
  { intros (i & Hi & Hpos & _ & Htake). simpl in Hi.
    assert (Hcases : i = 0 \/ i = 1) by lia.
    destruct Hcases as [-> | ->]; vm_compute in Htake; discriminate Htake. }
  split; [vm_compute; discriminate |]. split; [reflexivity |].
  split; [reflexivity |]. split; [| reflexivity].
  intros []; reflexivity.
Qed.

(** With the empty needle the index returned can be [size], which is
    neither [ext_str_npos] nor in [0, size). *)
Lemma find_empty_needle_returns_size :
  ~ (forall r, ext_str_find_len empty_string 0 [] 0 = Some r ->
       r = ext_str_npos \/ 0 <= r < size empty_string) /\
  ~ (forall r, ext_str_rfind_len abc_foo 0 [] 0 = Some r ->
       r = ext_str_npos \/ 0 <= r < size abc_foo).
Proof.
  split; intros H.
  - destruct (H 0 eq_refl) as [Hn | Hr]; [vm_compute in Hn; discriminate Hn |].
    simpl in Hr. lia.
  - destruct (H 18 eq_refl) as [Hn | Hr]; [vm_compute in Hn; discriminate Hn |].
    simpl in Hr. lia.
Qed.

Lemma find_rfind_len_occurrence_witness :
  str_shape abc_foo /\ 0 <= 5 /\
  (exists r,
     ext_str_find_len abc_foo 5 foo (Z.of_nat (length foo)) = Some r /\
     (r = ext_str_npos \/ (5 <= r /\ occurs_at abc_foo foo r /\
        forall j, 5 <= j < r -> ~ occurs_at abc_foo foo j)) /\
     (r = ext_str_npos <->
      ~ exists i, 5 <= i /\ occurs_at abc_foo foo i)) /\
  (exists r,
     ext_str_rfind_len abc_foo 5 foo (Z.of_nat (length foo)) = Some r /\
     (r = ext_str_npos \/
      (5 < size abc_foo /\
       r <= rfind_first abc_foo 5 (Z.of_nat (length foo)) /\
       occurs_at abc_foo foo r /\
       forall j, r < j <= rfind_first abc_foo 5 (Z.of_nat (length foo)) ->
         ~ occurs_at abc_foo foo j)) /\
     (r = ext_str_npos <->
      ~ (5 < size abc_foo /\
         exists i, i <= rfind_first abc_foo 5 (Z.of_nat (length foo)) /\
           occurs_at abc_foo foo i))) /\
  (forall i, occurs_at abc_foo foo i ->
     0 <= i /\ i + Z.of_nat (length foo) <= size abc_foo /\
     i <> ext_str_npos /\ (0 < Z.of_nat (length foo) -> i < size abc_foo)).
Proof.
  assert (Hshape : str_shape abc_foo).
  { unfold str_shape, abc_foo, SIZE_MAX. simpl. lia. }
  assert (Hstart : 0 <= 5) by lia.
  split; [exact Hshape |]. split; [exact Hstart |].
  exact (find_rfind_len_occurrence abc_foo 5 foo Hshape Hstart).
Defined.

Lemma ext_str_split_tokens_witness :
  str_shape abc_foo /\ size abc_foo < 2 ^ 61 /\
  exists vec,
    ext_str_split xaa abc_foo " " = Some vec /\
    Vec.ext_vec_size vec = occurrences " " (content abc_foo) + 1 /\
    Z.of_nat (length (Vec.elements vec)) = occurrences " " (content abc_foo) + 1 /\
    Forall fresh_token (Vec.elements vec) /\
    Forall (fun tok => " "%byte ∉ content tok) (Vec.elements vec) /\
    join " " (content <$> Vec.elements vec) = content abc_foo /\
    (content abc_foo = [] -> content <$> Vec.elements vec = [[]]).
Proof.
  assert (Hshape : str_shape abc_foo).
  { unfold str_shape, abc_foo, SIZE_MAX. simpl. lia. }
  assert (Hsmall : size abc_foo < 2 ^ 61) by (vm_compute; reflexivity).
  split; [exact Hshape |]. split; [exact Hsmall |].
  exact (ext_str_split_tokens xaa abc_foo " " Hshape Hsmall).
Defined.

End StrExamples.

(** ** The growable array: what each operation does to the elements *)

Module VecMoreFacts.
Import Vec VecFacts VecMore.

Section facts.

Context {T : Type}.
Variable junk : T.
Implicit Types (vec : ext_vector (T:=T)) (l : list T).

Lemma insert_take_S l (i : nat) (e : T) :
  (i < length l)%nat -> <[i:=e]> (take (S i) l) = take i l ++ [e].
Proof.
  intros Hi. rewrite <- take_insert_lt by lia. apply take_S_insert. done.
Qed.

(** The cells after [memmove(vec + i + 1, vec + i, size - i)] and
    [vec[i] = e]. *)
Lemma shift_right_cells (d : list T) (i s : nat) e :
  (i <= s)%nat -> (s < length d)%nat ->
  take (S s) (<[i:=e]> (take (S i) d ++ take (s - i) (drop i d) ++ drop (S s) d))
  = take i (take s d) ++ e :: drop i (take s d).
Proof.
  intros Hi Hs.
  rewrite insert_app_l by (rewrite length_take; lia).
  rewrite insert_take_S by lia.
  rewrite app_assoc.
  rewrite take_app_length'.
  - rewrite take_take, Nat.min_l by lia. rewrite <- app_assoc. simpl.
    do 2 f_equal. rewrite take_drop_commute. do 2 f_equal. lia.
  - rewrite !length_app, !length_take, length_drop. simpl. lia.
Qed.

(** The cells after [memmove(vec + i, vec + i + 1, size - i - 1)]. *)
Lemma shift_left_cells (d : list T) (i s : nat) :
  (i < s)%nat -> (s <= length d)%nat ->
  take (s - 1) (take i d ++ take (s - i - 1) (drop (S i) d) ++ drop (s - 1) d)
  = take i (take s d) ++ drop (S i) (take s d).
Proof.
  intros Hi Hs. rewrite app_assoc. rewrite take_app_length'.
  - rewrite take_take, Nat.min_l by lia. f_equal.
    rewrite take_drop_commute. do 2 f_equal. lia.
  - rewrite !length_app, !length_take, length_drop. lia.
Qed.

(** [ext_vec_insert] at an index of the array or at its end, for an
    argument that is pasted as its value. *)
Lemma ext_vec_insert_spec vec i e :
  vec_wf vec -> ext_vec_capacity vec < 2 ^ 62 -> 0 <= i <= ext_vec_size vec ->
  exists vec',
    Vec.ext_vec_insert junk vec i e = Some vec' /\ vec_wf vec' /\
    ext_vec_size vec' = ext_vec_size vec + 1 /\
    elements vec'
    = take (Z.to_nat i) (elements vec) ++ e :: drop (Z.to_nat i) (elements vec).
Proof.
  intros Hwf Hcap Hi.
  assert (H262 : 2 ^ 64 = 4 * 2 ^ 62) by done.
  pose proof (vec_wf_size_le_capacity vec Hwf) as Hsc.
  destruct (ext_vec_maybe_grow_one junk vec Hwf Hcap) as (vec1 & Hgrow & _).
  destruct (ext_vec_maybe_grow_inv junk vec 1 vec1 Hwf Hgrow)
    as (Hwf1 & Hs1 & Hroom & _ & He1).
  rewrite size_t_small in Hroom by (unfold SIZE_MAX; lia).
  unfold Vec.ext_vec_insert. rewrite Hgrow. simpl. rewrite Hs1.
  rewrite (size_t_small (ext_vec_size vec + 1)) by (unfold SIZE_MAX; lia).
  destruct (i <? ext_vec_size vec + 1) eqn:Hlt; [| lia].
  destruct vec1 as [[c s d]|]; simpl in *; [| lia]. subst s.
  destruct Hwf1 as (_ & Hc & Hd).
  rewrite (size_t_small (i + 1)) by (unfold SIZE_MAX; lia).
  rewrite (size_t_small (ext_vec_size vec - i)) by (unfold SIZE_MAX; lia).
  destruct (memmove_total d (i + 1) i (ext_vec_size vec - i))
    as [d' Hm]; try lia.
  rewrite Hm. simpl. pose proof (memmove_length _ _ _ _ _ Hm) as Hlen.
  rewrite store_Some by lia. simpl. eexists. split; [done |].
  simpl. rewrite length_insert. split; [lia |]. split; [done |].
  rewrite <- He1.
  unfold memmove in Hm.
  destruct ((0 <=? i + 1) && (0 <=? i) && (0 <=? ext_vec_size vec - i)
            && (i + 1 + (ext_vec_size vec - i) <=? Z.of_nat (length d))
            && (i + (ext_vec_size vec - i) <=? Z.of_nat (length d)));
    [| done].
  injection Hm as <-.
  replace (Z.to_nat (ext_vec_size vec + 1))
    with (S (Z.to_nat (ext_vec_size vec))) by lia.
  replace (Z.to_nat (i + 1)) with (S (Z.to_nat i)) by lia.
  replace (Z.to_nat (ext_vec_size vec - i))
    with (Z.to_nat (ext_vec_size vec) - Z.to_nat i)%nat by lia.
  replace (Z.to_nat (i + 1 + (ext_vec_size vec - i)))
    with (S (Z.to_nat (ext_vec_size vec))) by lia.
  apply shift_right_cells; lia.
Qed.

(** [ext_vec_erase] at an index of the array. *)
Lemma ext_vec_erase_spec vec i :
  vec_wf vec -> 0 <= i < ext_vec_size vec ->
  exists vec',
    Vec.ext_vec_erase vec i = Some vec' /\ vec_wf vec' /\
    ext_vec_size vec' = ext_vec_size vec - 1 /\
    ext_vec_capacity vec' = ext_vec_capacity vec /\
    elements vec'
    = take (Z.to_nat i) (elements vec) ++ drop (S (Z.to_nat i)) (elements vec).
Proof.
  intros Hwf Hi. unfold Vec.ext_vec_erase.
  destruct (i <? ext_vec_size vec) eqn:Hb; [| lia].
  destruct vec as [[c s d]|]; simpl in *; [| lia].
  destruct Hwf as (Hs & Hc & Hd).
  rewrite (size_t_small (i + 1)) by lia.
  rewrite (size_t_small (s - i)) by lia.
  rewrite (size_t_small (s - i - 1)) by lia.
  rewrite (size_t_small (s - 1)) by lia.
  destruct (memmove_total d i (i + 1) (s - i - 1)) as [d' Hm]; try lia.
  rewrite Hm. simpl. pose proof (memmove_length _ _ _ _ _ Hm) as Hlen.
  eexists. split; [done |]. simpl. split; [lia |]. split; [done |].
  split; [done |].
  unfold memmove in Hm.
  destruct ((0 <=? i) && (0 <=? i + 1) && (0 <=? s - i - 1)
            && (i + (s - i - 1) <=? Z.of_nat (length d))
            && (i + 1 + (s - i - 1) <=? Z.of_nat (length d))); [| done].
  injection Hm as <-.
  replace (Z.to_nat (s - 1)) with (Z.to_nat s - 1)%nat by lia.
  replace (Z.to_nat (i + 1)) with (S (Z.to_nat i)) by lia.
  replace (Z.to_nat (s - i - 1))
    with (Z.to_nat s - Z.to_nat i - 1)%nat by lia.
  replace (Z.to_nat (i + (s - i - 1))) with (Z.to_nat s - 1)%nat by lia.
  apply shift_left_cells; lia.
Qed.


Lemma ext_vec_erase_tight vec i :
  ext_vec_erase vec (Tight i) = Vec.ext_vec_erase vec i.
Proof. reflexivity. Qed.


(** X2. [ext_vec_erase(vec, i)], for an index argument that binds tighter
    than binary minus, with [i < size]: the element at [i] is dropped, the
    elements above it move down by one, the capacity is kept; with
    [i >= size] (an empty or [NULL] array included) the assertion fails. *)
Theorem ext_vec_erase_elements vec i :
  vec_wf vec -> 0 <= i <= SIZE_MAX ->
  (i < ext_vec_size vec ->
   exists vec',
     ext_vec_erase vec (Tight i) = Some vec' /\ vec_wf vec' /\
     ext_vec_size vec' = ext_vec_size vec - 1 /\
     ext_vec_capacity vec' = ext_vec_capacity vec /\
     elements vec'
     = take (Z.to_nat i) (elements vec) ++ drop (S (Z.to_nat i)) (elements vec)) /\
  (ext_vec_size vec <= i -> ext_vec_erase vec (Tight i) = None).
Proof.
  intros Hwf Hi. rewrite ext_vec_erase_tight. split.
  - intros Hlt. apply ext_vec_erase_spec; [done | lia].
  - intros Hge. unfold Vec.ext_vec_erase.
    destruct (i <? ext_vec_size vec) eqn:Hb; [lia | done].
Qed.

(** X3. For an index argument that binds tighter than binary minus,
    [ext_vec_erase(vec, i)] after [ext_vec_insert(vec, i, e)] gives the
    elements of [vec] back, and [ext_vec_insert(vec, i, e)] after
    [ext_vec_erase(vec, i)], with [e] the element that was at [i], does
    too. *)
Theorem insert_erase_round_trip vec i e :
  vec_wf vec -> ext_vec_capacity vec < 2 ^ 62 -> 0 <= i ->
  (i <= ext_vec_size vec ->
   exists vec1 vec2,
     ext_vec_insert junk vec (Tight i) e = Some vec1 /\
     ext_vec_erase vec1 (Tight i) = Some vec2 /\
     elements vec2 = elements vec) /\
  (i < ext_vec_size vec -> ext_vec_at vec i = Some e ->
   exists vec1 vec2,
     ext_vec_erase vec (Tight i) = Some vec1 /\
     ext_vec_insert junk vec1 (Tight i) e = Some vec2 /\
     elements vec2 = elements vec).
Proof.
  intros Hwf Hcap Hi.
  pose proof (elements_length vec Hwf) as Hlen. split.
  - intros Hle.
    destruct (ext_vec_insert_spec vec i e Hwf Hcap ltac:(lia))
      as (vec1 & Hins & Hwf1 & Hs1 & He1).
    destruct (ext_vec_erase_spec vec1 i Hwf1 ltac:(lia))
      as (vec2 & Her & _ & _ & _ & He2).
    exists vec1, vec2. split; [done |]. split; [done |]. rewrite He2, He1.
    rewrite take_app_le by (rewrite length_take; lia).
    rewrite take_take, Nat.min_id.
    rewrite drop_app_ge by (rewrite length_take; lia).
    rewrite length_take.
    replace (S (Z.to_nat i) - Z.to_nat i `min` length (elements vec))%nat
      with 1%nat by lia.
    simpl. rewrite drop_0. apply take_drop.
  - intros Hlt Hat.
    destruct (ext_vec_erase_spec vec i Hwf ltac:(lia))
      as (vec1 & Her & Hwf1 & Hs1 & Hc1 & He1).
    destruct (ext_vec_insert_spec vec1 i e Hwf1 ltac:(lia) ltac:(lia))
      as (vec2 & Hins & _ & _ & He2).
    exists vec1, vec2. split; [done |]. split; [done |]. rewrite He2, He1.
    rewrite take_app_le by (rewrite length_take; lia).
    rewrite take_take, Nat.min_id.
    rewrite drop_app_ge by (rewrite length_take; lia).
    rewrite length_take.
    replace (Z.to_nat i - Z.to_nat i `min` length (elements vec))%nat
      with O by lia.
    rewrite drop_0. rewrite (elements_lookup vec i Hwf) in Hat by lia.
    rewrite <- (take_drop_middle _ _ _ Hat) at 3. done.
Qed.



(** The loop of [ext_vec_push_back_all] in a block with room for the [k]
    elements: no push reallocates. *)
Lemma push_back_all_loop_spec (arr : list T) k : forall vec i,
  vec_wf vec -> 0 <= i -> i + Z.of_nat k <= Z.of_nat (length arr) ->
  Z.of_nat (length arr) <= SIZE_MAX ->
  ext_vec_size vec + Z.of_nat k <= ext_vec_capacity vec ->
  ext_vec_capacity vec < 2 ^ 62 ->
  exists vec',
    push_back_all_loop junk k vec arr i = Some vec' /\ vec_wf vec' /\
    ext_vec_size vec' = ext_vec_size vec + Z.of_nat k /\
    ext_vec_capacity vec' = ext_vec_capacity vec /\
    elements vec' = elements vec ++ take k (drop (Z.to_nat i) arr).
Proof.
  induction k as [|k IH]; intros vec i Hwf Hi Hlen Hmax Hroom Hcap.
  - simpl. exists vec. rewrite app_nil_r. repeat split; try done; lia.
  - simpl push_back_all_loop.
    destruct (load_in_range arr i ltac:(lia)) as [e He].
    rewrite He. simpl.
    destruct (ext_vec_push_back_spec junk vec e Hwf Hcap)
      as (vec1 & Hpush & Hwf1 & Hs1 & He1 & Hc1).
    rewrite Hpush. simpl.
    destruct (ext_vec_size vec <? ext_vec_capacity vec) eqn:Hlt; [| lia].
    rewrite (size_t_small (i + 1)) by lia.
    destruct (IH vec1 (i + 1) Hwf1 ltac:(lia) ltac:(lia) Hmax ltac:(lia)
                ltac:(lia)) as (vec' & Hrun & Hwf' & Hs' & Hc' & He').
    exists vec'. split; [done |]. split; [done |]. split; [lia |].
    split; [lia |]. rewrite He', He1, <- app_assoc. f_equal.
    apply load_Some in He as [_ He].
    rewrite (drop_S _ _ _ He). simpl. do 2 f_equal.
    f_equal. lia.
Qed.

(** X5. [ext_vec_push_back_all(vec, arr, n)] on the [NULL] vector, or on
    one that has room for [n] more elements, appends the first [n] elements
    of [arr] in order: the capacity becomes [n] for the [NULL] vector and is
    unchanged otherwise, and no push reallocates.  On an allocated vector
    without that room the call has no defined result: [ext_vec_reserve]
    reads the size through the pointer [realloc] has released. *)
Theorem ext_vec_push_back_all_elements vec (arr : list T) n :
  vec_wf vec -> 0 <= n <= Z.of_nat (length arr) ->
  Z.of_nat (length arr) <= SIZE_MAX ->
  ext_vec_capacity vec < 2 ^ 62 -> ext_vec_size vec + n < 2 ^ 62 ->
  (vec = None \/ ext_vec_size vec + n <= ext_vec_capacity vec ->
   exists vec',
     ext_vec_push_back_all junk vec arr n = Some vec' /\ vec_wf vec' /\
     ext_vec_size vec' = ext_vec_size vec + n /\
     ext_vec_capacity vec'
     = Z.max (ext_vec_capacity vec) (ext_vec_size vec + n) /\
     elements vec' = elements vec ++ take (Z.to_nat n) arr) /\
  (vec <> None -> ext_vec_capacity vec < ext_vec_size vec + n ->
   ext_vec_push_back_all junk vec arr n = None).
Proof.
  intros Hwf Hn Hmax Hcap Hsz.
  assert (H262 : 2 ^ 64 = 4 * 2 ^ 62) by done.
  pose proof (vec_wf_size_le_capacity vec Hwf) as Hsc.
  assert (Hsum : size_t (ext_vec_size vec + n) = ext_vec_size vec + n)
    by (apply size_t_small; unfold SIZE_MAX; lia).
  split.
  - intros Hroom.
    assert (Hres : reserve_size_plus junk vec n
                   = Some (ext_vec_reserve junk vec (ext_vec_size vec + n))).
    { destruct vec as [header|]; simpl in *.
      - destruct Hroom as [[=] | Hroom]. rewrite Hsum.
        destruct (capacity header <? size header + n) eqn:Hlt; [lia | done].
      - rewrite Hsum. done. }
    unfold ext_vec_push_back_all. rewrite Hres. simpl.
    destruct (ext_vec_reserve_spec junk vec (ext_vec_size vec + n) Hwf
                ltac:(unfold SIZE_MAX; lia)) as (Hwf1 & Hs1 & Hc1 & He1).
    destruct (push_back_all_loop_spec arr (Z.to_nat n)
                (ext_vec_reserve junk vec (ext_vec_size vec + n)) 0 Hwf1
                ltac:(lia) ltac:(lia) Hmax ltac:(lia) ltac:(lia))
      as (vec' & Hrun & Hwf' & Hs' & Hc' & He').
    exists vec'. split; [done |]. split; [done |]. split; [lia |].
    split; [lia |]. rewrite He', He1. done.
  - intros Hsome Hless. unfold ext_vec_push_back_all.
    destruct vec as [header|]; [| done]. simpl in *. rewrite Hsum.
    destruct (capacity header <? size header + n) eqn:Hlt; [done | lia].
Qed.

(** X6. After [ext_vec_push_back(vec, e)], [ext_vec_back] is [e] and
    [ext_vec_front] is the first element; [ext_vec_pop_back] then gives the
    elements of [vec] back.  On an array without elements [ext_vec_pop_back]
    fails its assertion and [ext_vec_back] reads outside the block. *)
Theorem push_back_then_pop_back vec e :
  vec_wf vec -> ext_vec_capacity vec < 2 ^ 62 ->
  (exists vec1 vec2,
     ext_vec_push_back junk vec e = Some vec1 /\
     ext_vec_back vec1 = Some e /\
     ext_vec_front vec1 = (elements vec ++ [e]) !! O /\
     ext_vec_pop_back vec1 = Some vec2 /\
     elements vec2 = elements vec /\ ext_vec_size vec2 = ext_vec_size vec) /\
  (ext_vec_size vec = 0 ->
   ext_vec_pop_back vec = None /\ ext_vec_back vec = None).
Proof.
  intros Hwf Hcap. split.
  - destruct (ext_vec_push_back_spec junk vec e Hwf Hcap)
      as (vec1 & Hpush & Hwf1 & Hs1 & He1 & _).
    pose proof (vec_wf_size_le_capacity vec Hwf) as Hsc.
    pose proof (elements_length vec Hwf) as Hel.
    destruct (ext_vec_pop_back_spec vec1 Hwf1 ltac:(lia))
      as (vec2 & Hpop & _ & Hs2 & _ & He2).
    exists vec1, vec2. split; [done |]. split; [| split; [| split; [done |]]].
    + unfold ext_vec_back. rewrite Hs1.
      rewrite size_t_small by (unfold SIZE_MAX; lia).
      rewrite (elements_lookup vec1) by (try done; lia).
      rewrite He1. replace (ext_vec_size vec + 1 - 1) with (ext_vec_size vec) by lia.
      rewrite lookup_app_r by lia.
      replace (Z.to_nat (ext_vec_size vec) - length (elements vec))%nat
        with O by lia. done.
    + unfold ext_vec_front.
      rewrite (elements_lookup vec1) by (try done; lia). rewrite He1. done.
    + split; [| lia]. rewrite He2, He1. apply removelast_last.
  - intros Hz. unfold ext_vec_pop_back, ext_vec_back. rewrite Hz. simpl.
    split; [done |]. destruct vec as [[c s d]|]; simpl in *; [| done].
    destruct Hwf as (_ & Hc & Hd). unfold load.
    change (size_t (0 - 1)) with (2 ^ 64 - 1).
    destruct (2 ^ 64 - 1 <? Z.of_nat (length d)) eqn:Hlt;
      [unfold SIZE_MAX in Hc; lia |].
    rewrite andb_false_r. done.
Qed.

Lemma push_back_doubled vec e vec' :
  vec_wf vec -> ext_vec_size vec < 2 ^ 60 ->
  vec = None \/ doubled vec ->
  ext_vec_push_back junk vec e = Some vec' ->
  vec_wf vec' /\ doubled vec' /\ elements vec' = elements vec ++ [e] /\
  ext_vec_size vec' = ext_vec_size vec + 1.
Proof.
  intros Hwf Hsz Hd Hpush.
  assert (Hcap : ext_vec_capacity vec < 2 ^ 62).
  { destruct Hd as [-> | (k & _ & _ & Hd)]; [done | lia]. }
  destruct (ext_vec_push_back_spec junk vec e Hwf Hcap)
    as (vec1 & Hpush1 & Hwf1 & Hs1 & He1 & Hc1).
  assert (vec1 = vec') as -> by congruence.
  split; [done |]. split; [| done].
  destruct Hd as [-> | (k & Hk & Hck & Hd)].
  - simpl in *. exists 0. rewrite Hc1, Hs1. simpl. lia.
  - destruct (ext_vec_size vec <? ext_vec_capacity vec) eqn:Hlt.
    + exists k. rewrite Hc1, Hs1. lia.
    + destruct (ext_vec_capacity vec =? 0) eqn:Hz; [lia |].
      assert (k < 61).
      { destruct (Z.le_gt_cases 61 k) as [Hge | ?]; [| done].
        pose proof (Z.pow_le_mono_r 2 61 k ltac:(lia) Hge). lia. }
      exists (k + 1). rewrite Hc1, Hs1, Hck, Z.pow_add_r by lia.
      change (2 ^ 1) with 2. lia.
Qed.

Lemma push_all_doubled l : forall vec,
  vec_wf vec -> ext_vec_size vec + Z.of_nat (length l) < 2 ^ 60 ->
  vec = None \/ doubled vec ->
  exists vec',
    push_all junk vec l = Some vec' /\ vec_wf vec' /\
    (vec' = vec \/ doubled vec') /\
    elements vec' = elements vec ++ l /\
    ext_vec_size vec' = ext_vec_size vec + Z.of_nat (length l).
Proof.
  induction l as [|e l IH]; intros vec Hwf Hsz Hd.
  - exists vec. simpl. rewrite app_nil_r. repeat split; try done; [auto | lia].
  - simpl push_all. simpl length in Hsz.
    assert (Hcap : ext_vec_capacity vec < 2 ^ 62).
    { destruct Hd as [-> | (k & _ & _ & Hd)]; [done | lia]. }
    destruct (ext_vec_push_back_spec junk vec e Hwf Hcap) as (vec1 & Hpush & _).
    rewrite Hpush. simpl.
    destruct (push_back_doubled vec e vec1 Hwf ltac:(lia) Hd Hpush)
      as (Hwf1 & Hd1 & He1 & Hs1).
    destruct (IH vec1 Hwf1 ltac:(lia) (or_intror Hd1))
      as (vec' & Hrun & Hwf' & Hd' & He' & Hs').
    exists vec'. split; [done |]. split; [done |]. split.
    + right. destruct Hd' as [-> | ?]; done.
    + rewrite He', He1, <- app_assoc. simpl length. split; [done | lia].
Qed.

(** X7. The growth policy of [ext_vec_push_back]: after [n >= 1] pushes
    into an array that was [NULL], the elements are the pushed values in
    order, and the capacity is a power of two with
    [size <= capacity < 2 * size]. *)
Theorem push_back_doubles_capacity l :
  l <> [] -> Z.of_nat (length l) < 2 ^ 60 ->
  exists vec,
    push_all junk None l = Some vec /\ vec_wf vec /\
    elements vec = l /\ ext_vec_size vec = Z.of_nat (length l) /\
    doubled vec.
Proof.
  intros Hne Hlen.
  destruct (push_all_doubled l None I ltac:(simpl; lia) (or_introl eq_refl))
    as (vec & Hrun & Hwf & Hd & He & Hs).
  exists vec. split; [done |]. split; [done |]. split; [done |].
  split; [done |].
  destruct Hd as [-> | Hd]; [| done].
  simpl in Hs. destruct l; [done | simpl in Hs; lia].
Qed.

(** The loop of [ext_vec_foreach], entered with [__cont] set. *)
Lemma foreach_loop_spec {S : Type} (body : S -> T -> S * control) vec
    (n : nat) : forall fuel i s,
  vec_wf vec -> 0 <= i -> i + Z.of_nat n = ext_vec_size vec ->
  (n + 1 < fuel + 1)%nat -> (1 <= fuel)%nat ->
  foreach_loop fuel body vec 1 i s
  = Some (run_until_break body (drop (Z.to_nat i) (elements vec)) s).
Proof.
  induction n as [|n IH]; intros fuel i s Hwf Hi Hn Hfuel Hfuel1.
  - destruct fuel as [|fuel]; [lia |]. simpl.
    destruct (i <? ext_vec_size vec) eqn:Hlt; [lia |].
    rewrite drop_ge; [done |].
    pose proof (elements_length vec Hwf). lia.
  - destruct fuel as [|fuel]; [lia |]. simpl foreach_loop.
    change (negb (1 =? 0)) with true. simpl andb.
    destruct (i <? ext_vec_size vec) eqn:Hlt; [| lia].
    pose proof (vec_wf_size_le_capacity vec Hwf) as Hsc.
    pose proof (elements_length vec Hwf) as Hel.
    rewrite (elements_lookup vec i Hwf) by lia.
    destruct (lookup_lt_is_Some_2 (elements vec) (Z.to_nat i) ltac:(lia))
      as [e He].
    rewrite He. simpl. rewrite (drop_S _ _ _ He). simpl.
    assert (Hmax : ext_vec_size vec <= SIZE_MAX).
    { destruct vec as [[c sz d]|]; simpl in *; [lia | unfold SIZE_MAX; lia]. }
    rewrite (size_t_small (i + 1)) by lia.
    destruct (body s e) as [s' [|]].
    + change (lnot (lnot 1)) with 1.
      rewrite (IH fuel (i + 1) s' Hwf) by lia.
      do 3 f_equal. lia.
    + change (lnot 1) with 0.
      destruct fuel as [|fuel]; [lia |]. done.
Qed.

(** X8. [ext_vec_foreach] runs its body on the elements in index order,
    each once; a body that ends or executes [continue] goes on to the next
    element, a body that executes [break] leaves the two loops of the macro
    at once.  On an empty or [NULL] array the body does not run. *)
Theorem ext_vec_foreach_in_order {S : Type} (body : S -> T -> S * control)
    vec (s : S) :
  vec_wf vec ->
  ext_vec_foreach body vec s
  = Some (run_until_break body (elements vec) s).
Proof.
  intros Hwf. unfold ext_vec_foreach.
  pose proof (vec_wf_size_le_capacity vec Hwf) as Hsc.
  rewrite (foreach_loop_spec body vec (Z.to_nat (ext_vec_size vec))
             _ 0 s Hwf) by lia.
  done.
Qed.

Lemma iterate_spec (header : ext_vec_header_t_ (T:=T)) (n : nat) :
  forall fuel i,
  vec_wf (Some header) -> 0 <= i -> i + Z.of_nat n = size header ->
  (n < fuel)%nat ->
  iterate fuel (Some header) (Some i)
  = Some (drop (Z.to_nat i) (elements (Some header))).
Proof.
  induction n as [|n IH]; intros [|fuel] i Hwf Hi Hn Hfuel; try lia.
  - simpl iterate. rewrite bool_decide_eq_true_2 by (f_equal; lia).
    rewrite drop_ge; [done |].
    pose proof (elements_length (Some header) Hwf) as Hel.
    simpl ext_vec_size in Hel. lia.
  - simpl iterate. rewrite bool_decide_eq_false_2 by (intros [=]; lia).
    pose proof (elements_length (Some header) Hwf) as Hel.
    simpl ext_vec_size in Hel.
    pose proof (elements_lookup (Some header) i Hwf ltac:(simpl; lia)) as Hat.
    change (ext_vec_at (Some header) i) with (load (data header) i) in Hat.
    rewrite Hat.
    destruct (lookup_lt_is_Some_2 (elements (Some header)) (Z.to_nat i)
                ltac:(lia)) as [e He].
    rewrite He, (drop_S _ _ _ He). cbn [mbind option_bind].
    rewrite (IH fuel (i + 1) Hwf) by lia. cbn [mbind option_bind].
    do 3 f_equal. lia.
Qed.

Lemma run_until_break_collect (l : list T) : forall acc,
  run_until_break collect l acc = acc ++ l.
Proof.
  induction l as [|e l IH]; intros acc; simpl.
  - rewrite app_nil_r. done.
  - rewrite IH, <- app_assoc. done.
Qed.

(** X29. The loop [for(it = ext_vec_begin(vec); it != ext_vec_end(vec);
    it++)] terminates and reads the elements of the array in index order,
    each once; [ext_vec_foreach] with a body that never breaks reads the
    same.  [ext_vec_begin] and [ext_vec_end] are equal exactly when the
    array has no element, and both are [NULL] for the [NULL] array. *)
Theorem ext_vec_iterate_elements vec :
  vec_wf vec ->
  iterate_all vec = Some (elements vec) /\
  ext_vec_foreach collect vec [] = iterate_all vec /\
  (ext_vec_begin vec = ext_vec_end vec <-> ext_vec_size vec = 0) /\
  (vec = None -> ext_vec_begin vec = None /\ ext_vec_end vec = None).
Proof.
  intros Hwf.
  assert (Hall : iterate_all vec = Some (elements vec)).
  { unfold iterate_all. destruct vec as [header|].
    - assert (0 <= size header) by (simpl in Hwf; lia).
      simpl ext_vec_begin. simpl ext_vec_size.
      rewrite (iterate_spec header (Z.to_nat (size header)) _ 0 Hwf) by lia.
      done.
    - reflexivity. }
  split; [done |]. split; [| split].
  - rewrite Hall. unfold ext_vec_foreach.
    pose proof (vec_wf_size_le_capacity vec Hwf) as Hsc.
    rewrite (foreach_loop_spec collect vec (Z.to_nat (ext_vec_size vec))
               _ 0 [] Hwf) by lia.
    rewrite run_until_break_collect. done.
  - destruct vec as [header|]; simpl; [| done].
    split; [intros [=]; lia | intros ->; done].
  - intros ->. done.
Qed.

End facts.

End VecMoreFacts.

(** ** The growable string: what each operation does to the content *)

Module StrMoreFacts.
Import Str StrFacts StrMore.

Section facts.

Variable junk : byte.
Variable char_is_signed : bool.
Implicit Types (str : ext_string) (bytes : list byte).

(** *** C strings *)

Lemma strlen_c_bytes cstring len :
  strlen cstring = Some len ->
  len = Z.of_nat (length (c_bytes cstring)) /\
  take (Z.to_nat len) cstring = c_bytes cstring.
Proof.
  revert len. induction cstring as [|b rest IH]; intros len; simpl; [done |].
  case_bool_decide.
  - intros [= <-]. done.
  - destruct (strlen rest) as [k|] eqn:Hk; simpl; [| done].
    intros [= <-]. destruct (IH k eq_refl) as [Hlen Htake].
    pose proof (strlen_range rest k Hk).
    simpl. split; [lia |].
    replace (Z.to_nat (Z.succ k)) with (S (Z.to_nat k)) by lia.
    simpl. f_equal. done.
Qed.

Lemma strlen_is_Some cstring : x00 ∈ cstring -> is_Some (strlen cstring).
Proof.
  induction cstring as [|b rest IH]; intros Hin.
  - apply elem_of_nil in Hin. done.
  - simpl. case_bool_decide; [done |].
    apply elem_of_cons in Hin as [Heq | Hin]; [congruence |].
    destruct (IH Hin) as [k ->]. done.
Qed.

Lemma strlen_None cstring : x00 ∉ cstring -> strlen cstring = None.
Proof.
  induction cstring as [|b rest IH]; intros Hin; [done |].
  simpl. case_bool_decide as Hb.
  - exfalso. apply Hin. subst b. left.
  - rewrite IH; [done |]. intros Hr. apply Hin. by right.
Qed.

Lemma c_bytes_no_nul cstring : x00 ∉ c_bytes cstring.
Proof.
  induction cstring as [|b rest IH]; simpl; [apply not_elem_of_nil |].
  case_bool_decide; [apply not_elem_of_nil |].
  intros [Heq | Hin]%elem_of_cons; [congruence | done].
Qed.

(** *** Constructors *)

(** X9. [ext_str_new(cstring)] copies the bytes of the C string up to its
    first NUL: the new string holds exactly those bytes, is NUL-terminated
    and has no spare capacity.  [ext_str_dup(str)] copies the [size] bytes
    of [str], embedded NUL bytes included, whatever the capacity of [str]
    and whether or not [str] is terminated. *)
Theorem ext_str_new_dup_content cstring str :
  Z.of_nat (length cstring) <= SIZE_MAX -> x00 ∈ cstring -> str_shape str ->
  (exists new,
     ext_str_new junk cstring = Some new /\ fresh_token new /\
     content new = c_bytes cstring /\ x00 ∉ content new) /\
  (exists dup,
     ext_str_dup junk str = Some dup /\ fresh_token dup /\
     content dup = content str).
Proof.
  intros Hmax Hnul Hshape. split.
  - destruct (strlen_is_Some cstring Hnul) as [len Hlen].
    pose proof (strlen_range cstring len Hlen) as Hr.
    destruct (strlen_c_bytes cstring len Hlen) as [Hl Htake].
    unfold ext_str_new. rewrite Hlen. simpl.
    rewrite ext_str_new_len_spec by lia.
    eexists. split; [done |].
    destruct (ext_str_new_len_wf junk cstring len _ ltac:(lia) ltac:(lia)
                (ext_str_new_len_spec junk cstring len ltac:(lia) ltac:(lia)))
      as (Hwf & Hs & Hc & Hcont).
    split; [split; [done | lia] |].
    rewrite Hcont, Htake. split; [done | apply c_bytes_no_nul].
  - destruct Hshape as (H0 & H1 & H2 & H3).
    unfold ext_str_dup, ext_str_size.
    rewrite ext_str_new_len_spec by lia.
    eexists. split; [done |].
    destruct (ext_str_new_len_wf junk (data str) (size str) _ ltac:(lia)
                ltac:(lia)
                (ext_str_new_len_spec junk (data str) (size str) ltac:(lia)
                   ltac:(lia)))
      as (Hwf & Hs & Hc & Hcont).
    split; [split; [done | lia] |]. done.
Qed.

(** X10. [ext_str_substr(str, start, end)] with [start <= end <= size] is
    a new NUL-terminated string that holds the bytes [start .. end) of
    [str]; the whole range gives a copy of [str], an empty range the empty
    string.  With [start > end] or [end > size] an assertion fails. *)
Theorem ext_str_substr_content str start end_ :
  str_shape str -> 0 <= start -> 0 <= end_ ->
  (start <= end_ <= size str ->
   exists sub,
     ext_str_substr junk str start end_ = Some sub /\ fresh_token sub /\
     size sub = end_ - start /\
     content sub
     = take (Z.to_nat (end_ - start)) (drop (Z.to_nat start) (content str))) /\
  (end_ < start \/ size str < end_ -> ext_str_substr junk str start end_ = None) /\
  ext_str_substr junk str 0 (size str) = ext_str_dup junk str.
Proof.
  intros Hshape Hstart Hend. pose proof Hshape as (H0 & H1 & H2 & H3).
  split; [| split].
  - intros Hr. unfold ext_str_substr, ext_str_size.
    destruct (start <=? end_) eqn:Hle; [| lia].
    destruct (end_ <=? size str) eqn:Hle2; [| lia]. simpl.
    rewrite (size_t_small (end_ - start)) by lia.
    assert (Hlen : end_ - start
                   <= Z.of_nat (length (drop (Z.to_nat start) (data str)))).
    { rewrite length_drop. lia. }
    pose proof (ext_str_new_len_spec junk (drop (Z.to_nat start) (data str))
                  (end_ - start) ltac:(lia) ltac:(lia)) as Hnew.
    rewrite Hnew. eexists. split; [done |].
    destruct (ext_str_new_len_wf junk (drop (Z.to_nat start) (data str))
                (end_ - start) _ ltac:(lia) ltac:(lia) Hnew)
      as (Hwf & Hs & Hc & Hcont).
    split; [split; [done | lia] |]. split; [done |].
    rewrite Hcont. apply take_drop_content. lia.
  - intros Hbad. unfold ext_str_substr, ext_str_size.
    destruct (start <=? end_) eqn:Hle; [| done].
    destruct (end_ <=? size str) eqn:Hle2; [lia | done].
  - unfold ext_str_substr, ext_str_dup, ext_str_size.
    destruct (0 <=? size str) eqn:Hle; [| lia].
    rewrite Z.leb_refl. simpl. rewrite Z.sub_0_r, size_t_small by lia. done.
Qed.

(** *** Appending *)

Lemma ext_str_append_len_capacity str bytes len str' :
  ext_str_append_len junk str bytes len = Some str' ->
  exists str1,
    ext_str_maybe_grow junk str len = Some str1 /\
    capacity str' = capacity str1.
Proof.
  unfold ext_str_append_len.
  destruct (ext_str_maybe_grow junk str len) as [str1|]; simpl; [| done].
  destruct (memcpy _ _ _ _) as [b1|]; simpl; [| done].
  destruct (store _ _ _) as [b2|]; simpl; [| done].
  intros [= <-]. exists str1. done.
Qed.

(** How far [ext_str_maybe_grow] lets the capacity grow. *)
Lemma ext_str_maybe_grow_capacity str amount str' :
  str_shape str -> 0 <= amount -> size str + amount < 2 ^ 62 ->
  capacity str <= 2 ^ 62 ->
  ext_str_maybe_grow junk str amount = Some str' ->
  capacity str'
  <= Z.max (capacity str + amount) (2 * (size str + amount)).
Proof.
  intros (H0 & H1 & H2 & H3) Ha Ht Hcap. unfold ext_str_maybe_grow.
  assert (H264 : 2 ^ 64 = 4 * 2 ^ 62) by done.
  rewrite (size_t_small (size str + amount)) by (unfold SIZE_MAX; lia).
  destruct (capacity str <=? size str + amount) eqn:Hle.
  - destruct (LOGARITHMIC_GROWTH_TRESH <? capacity str).
    + simpl. rewrite size_t_small by (unfold SIZE_MAX; lia).
      intros [= <-]. simpl. lia.
    + destruct (grow_capacity_spec (size str) amount 66 (capacity str))
        as (r & Hr & Hr1 & Hr2 & Hr3); [lia | lia | |].
      * change (Z.of_nat 66 - 1) with 65.
        assert (2 ^ 62 <= 2 ^ 65) by (apply Z.pow_le_mono_r; lia). nia.
      * rewrite Hr. simpl. intros [= <-]. simpl. lia.
  - intros [= <-]. lia.
Qed.

(** [ext_str_append_len], with the bound on the capacity that lets calls
    be chained. *)
Lemma ext_str_append_len_chain str bytes len K :
  str_shape str -> 0 <= len <= Z.of_nat (length bytes) ->
  size str + len < 2 ^ 60 -> 0 <= K < 2 ^ 61 ->
  capacity str <= K + 2 * size str ->
  exists str',
    ext_str_append_len junk str bytes len = Some str' /\
    str_wf str' /\ size str' = size str + len /\
    content str' = content str ++ take (Z.to_nat len) bytes /\
    capacity str' <= K + 2 * size str'.
Proof.
  intros Hshape Hlen Ht HK Hcap.
  assert (H262 : 2 ^ 62 = 4 * 2 ^ 60) by done.
  assert (H261 : 2 ^ 61 = 2 * 2 ^ 60) by done.
  pose proof Hshape as (H0 & H1 & H2 & H3).
  destruct (ext_str_append_len_spec junk str bytes len Hshape Hlen
              ltac:(lia) ltac:(lia)) as (str' & Happ & Hwf & Hs & Hc).
  exists str'. repeat (split; [done |]).
  destruct (ext_str_append_len_capacity str bytes len str' Happ)
    as (str1 & Hgrow & ->).
  pose proof (ext_str_maybe_grow_capacity str len str1 Hshape ltac:(lia)
                ltac:(lia) ltac:(lia) Hgrow).
  lia.
Qed.

(** X11. [ext_str_append_str(&str, other)], for [other] a string other than
    [*str], and [ext_str_append(&str, cstring)]: the content becomes the
    old content followed by the bytes of [other] (all [size] of them) or by
    the bytes of the C string up to its NUL.  The result is NUL-terminated
    also when [*str] was not, as a string of [ext_str_new_cap] may be. *)
Theorem ext_str_append_content str other cstring :
  str_shape str -> capacity str <= 2 ^ 62 ->
  str_shape other -> size str + size other < 2 ^ 62 ->
  x00 ∈ cstring -> size str + Z.of_nat (length cstring) < 2 ^ 62 ->
  (exists str',
     ext_str_append_str junk str other = Some str' /\ str_wf str' /\
     size str' = size str + size other /\
     content str' = content str ++ content other) /\
  (exists str',
     ext_str_append junk str cstring = Some str' /\ str_wf str' /\
     content str' = content str ++ c_bytes cstring).
Proof.
  intros Hshape Hcap Hother Hsz Hnul Hsz2. split.
  - pose proof Hother as (G0 & G1 & G2 & G3).
    unfold ext_str_append_str, ext_str_size.
    destruct (ext_str_append_len_spec junk str (data other) (size other)
                Hshape ltac:(lia) Hsz Hcap) as (str' & Happ & Hwf & Hs & Hc).
    exists str'. repeat (split; [done |]). done.
  - destruct (strlen_is_Some cstring Hnul) as [len Hlen].
    pose proof (strlen_range cstring len Hlen) as Hr.
    destruct (strlen_c_bytes cstring len Hlen) as [_ Htake].
    unfold ext_str_append. rewrite Hlen. simpl.
    destruct (ext_str_append_len_spec junk str cstring len
                Hshape ltac:(lia) ltac:(lia) Hcap)
      as (str' & Happ & Hwf & Hs & Hc).
    exists str'. split; [done |]. split; [done |]. rewrite Hc, Htake. done.
Qed.

(** *** Capacity *)

(** X12. [ext_str_reserve(&str, amount)] leaves the content and the
    terminator alone and makes the capacity the larger of the old capacity
    and [amount + 1]; [ext_str_shrink_to_fit] leaves them alone and makes
    the capacity [size + 1]; so a shrink undoes any reserve. *)
Theorem ext_str_reserve_shrink str amount :
  str_wf str -> 0 <= amount < SIZE_MAX ->
  (str_wf (ext_str_reserve junk str amount) /\
   content (ext_str_reserve junk str amount) = content str /\
   capacity (ext_str_reserve junk str amount)
   = Z.max (capacity str) (amount + 1)) /\
  (str_wf (ext_str_shrink_to_fit junk str) /\
   content (ext_str_shrink_to_fit junk str) = content str /\
   capacity (ext_str_shrink_to_fit junk str) = size str + 1) /\
  (str_wf (ext_str_shrink_to_fit junk (ext_str_reserve junk str amount)) /\
   content (ext_str_shrink_to_fit junk (ext_str_reserve junk str amount))
   = content str /\
   capacity (ext_str_shrink_to_fit junk (ext_str_reserve junk str amount))
   = size str + 1).
Proof.
  intros Hwf Ha. pose proof Hwf as [(H0 & H1 & H2 & H3) Hnul].
  destruct (ext_str_reserve_wf junk str amount Hwf Ha) as (Hwf1 & Hc1 & Hcap1).
  assert (Hcap : capacity (ext_str_reserve junk str amount)
                 = Z.max (capacity str) (amount + 1)).
  { unfold ext_str_reserve, ext_str_capacity.
    rewrite size_t_small by lia.
    destruct (capacity str <? amount + 1) eqn:Hlt; simpl; lia. }
  assert (Hsz : size (ext_str_reserve junk str amount) = size str).
  { unfold ext_str_reserve, ext_str_capacity.
    destruct (capacity str <? size_t (amount + 1)); done. }
  split; [done |]. split; [apply ext_str_shrink_to_fit_wf; done |].
  destruct (ext_str_shrink_to_fit_wf junk _ Hwf1) as (Hwf2 & Hc2 & Hcap2).
  split; [done |]. split; [congruence |]. rewrite Hcap2, Hsz. done.
Qed.

(** *** Formatted output *)

(** [vsnprintf(buf + off, n, ...)] with [n > 0] inside the block. *)
Lemma vsnprintf_at (buf : list byte) off n out :
  0 <= off -> 0 < n -> off + n <= Z.of_nat (length buf) ->
  Z.of_nat (length out) <= INT_MAX ->
  exists buf',
    vsnprintf buf off n out = Some (buf', Z.of_nat (length out)) /\
    length buf' = length buf /\
    take (Z.to_nat off) buf' = take (Z.to_nat off) buf /\
    (Z.of_nat (length out) < n ->
     take (Z.to_nat (off + Z.of_nat (length out))) buf'
     = take (Z.to_nat off) buf ++ out /\
     load buf' (off + Z.of_nat (length out)) = Some x00).
Proof.
  intros Hoff Hn Hfit Hint. unfold vsnprintf.
  rewrite (vsnprintf_result_small out Hint).
  destruct (n =? 0) eqn:Hz; [lia |].
  set (k := Z.min (Z.of_nat (length out)) (n - 1)).
  destruct (write_tail buf off out k) as (buf' & Hwrite & Hlen & Htake & Hnul);
    [lia | lia | lia |].
  destruct (memcpy buf off out k) as [b1|]; [| done]. simpl in *.
  rewrite Hwrite. simpl. exists buf'. split; [done |]. split; [done |].
  split.
  - assert (Hpre : take (Z.to_nat off) (take (Z.to_nat (off + k)) buf')
                   = take (Z.to_nat off) buf').
    { rewrite take_take. f_equal. lia. }
    rewrite <- Hpre, Htake.
    rewrite take_app_le by (rewrite length_take; lia).
    rewrite take_take. f_equal. lia.
  - intros Hall. assert (Hk : k = Z.of_nat (length out)) by lia.
    rewrite Hk in Htake, Hnul. rewrite Nat2Z.id, firstn_all in Htake. done.
Qed.

(** Whatever [vsnprintf] writes, it returns [vsnprintf_result]. *)
Lemma vsnprintf_returns (buf buf' : list byte) off n out ret :
  vsnprintf buf off n out = Some (buf', ret) -> ret = vsnprintf_result out.
Proof.
  unfold vsnprintf. intros Hv. destruct (n =? 0); [congruence |].
  destruct (memcpy buf off out _) as [b1|]; [| done]. simpl in Hv.
  destruct (store b1 _ x00) as [b2|]; [| done]. simpl in Hv. congruence.
Qed.

(** An expansion beyond [INT_MAX] bytes: [size_t written] is then
    [SIZE_MAX], which no capacity exceeds. *)
Lemma vsnprintf_result_large out :
  INT_MAX < Z.of_nat (length out) -> size_t (vsnprintf_result out) = SIZE_MAX.
Proof.
  intros Hint. unfold vsnprintf_result.
  destruct (Z.leb_spec (Z.of_nat (length out)) INT_MAX); [lia | done].
Qed.

Lemma grow_capacity_SIZE_MAX sz amount : forall fuel c,
  size_t (sz + amount) = SIZE_MAX -> 0 <= c <= SIZE_MAX ->
  grow_capacity fuel sz amount c = None.
Proof.
  induction fuel as [|fuel IH]; intros c Hsum Hc; [done |].
  simpl. rewrite Hsum. destruct (Z.leb_spec c SIZE_MAX); [| lia].
  apply IH; [done |]. unfold size_t, SIZE_MAX.
  pose proof (Z.mod_pos_bound (c * 2) (2 ^ 64)). lia.
Qed.

(** The capacity that [ext_str_maybe_grow] leaves is a [size_t]. *)
Lemma ext_str_maybe_grow_size_t str amount str' :
  0 <= capacity str <= SIZE_MAX ->
  ext_str_maybe_grow junk str amount = Some str' ->
  0 <= capacity str' <= SIZE_MAX.
Proof.
  intros Hcap. unfold ext_str_maybe_grow.
  destruct (capacity str <=? size_t (size str + amount)); [| congruence].
  destruct (LOGARITHMIC_GROWTH_TRESH <? capacity str).
  - simpl. intros [= <-]. simpl. unfold size_t, SIZE_MAX.
    pose proof (Z.mod_pos_bound (capacity str + amount) (2 ^ 64)). lia.
  - assert (Hloop : forall fuel c c', 0 <= c <= SIZE_MAX ->
              grow_capacity fuel (size str) amount c = Some c' ->
              0 <= c' <= SIZE_MAX).
    { induction fuel as [|fuel IH]; intros c c' Hc; [done |]. simpl.
      destruct (c <=? size_t (size str + amount)); [| congruence].
      apply IH. unfold size_t, SIZE_MAX.
      pose proof (Z.mod_pos_bound (c * 2) (2 ^ 64)). lia. }
    destruct (grow_capacity 66 _ _ _) as [c'|] eqn:Hg; [| done].
    simpl. intros [= <-]. simpl. by apply (Hloop _ _ _ Hcap Hg).
Qed.

(** With an expansion of [2 ^ 31] bytes or more, neither function returns:
    the doubling loop of [ext_str_maybe_grow] does not end, or the second
    [assert(written < ...)] fails. *)
Lemma vfmt_beyond_INT_MAX str fmt_len out :
  0 <= capacity str <= SIZE_MAX ->
  INT_MAX < Z.of_nat (length out) ->
  ext_str_vfmt junk fmt_len out = None /\
  ext_str_append_vfmt junk str out = None.
Proof.
  intros Hcap Hint. pose proof (vsnprintf_result_large out Hint) as Hret.
  split.
  - unfold ext_str_vfmt.
    destruct (vsnprintf _ 0 _ out) as [[b1 r1]|] eqn:Hv1; [| done].
    apply vsnprintf_returns in Hv1 as ->. cbn [mbind option_bind].
    rewrite Hret.
    assert (Hc0 : 0 <= size_t (size_t (fmt_len * 2) + 1) <= SIZE_MAX).
    { generalize (size_t (fmt_len * 2) + 1). intros z. unfold size_t, SIZE_MAX.
      pose proof (Z.mod_pos_bound z (2 ^ 64)). lia. }
    unfold ext_str_new_cap, ext_str_capacity. simpl.
    destruct (Z.leb_spec (size_t (size_t (fmt_len * 2) + 1)) SIZE_MAX); [| lia].
    destruct (ext_str_maybe_grow _ _ _) as [str2|] eqn:Hg; [| done].
    apply ext_str_maybe_grow_size_t in Hg; [| done].
    cbn [mbind option_bind].
    destruct (vsnprintf _ 0 _ out) as [[b2 r2]|] eqn:Hv2; [| done].
    apply vsnprintf_returns in Hv2 as ->. cbn [mbind option_bind].
    rewrite Hret. unfold ext_str_capacity.
    destruct (Z.ltb_spec SIZE_MAX (capacity str2)); [lia | done].
  - unfold ext_str_append_vfmt.
    destruct (vsnprintf _ _ _ out) as [[b1 r1]|] eqn:Hv1; [| done].
    apply vsnprintf_returns in Hv1 as ->. cbn [mbind option_bind].
    rewrite Hret.
    assert (Ha : forall z, 0 <= size_t z <= SIZE_MAX).
    { intros z. unfold size_t, SIZE_MAX.
      pose proof (Z.mod_pos_bound z (2 ^ 64)). lia. }
    destruct (Z.leb_spec (size_t (ext_str_capacity str - ext_str_size str))
                SIZE_MAX) as [_ | Hgt];
      [| pose proof (Ha (ext_str_capacity str - ext_str_size str)); lia].
    destruct (ext_str_maybe_grow _ _ _) as [str2|] eqn:Hg; [| done].
    cbn [mbind option_bind].
    destruct (vsnprintf _ _ _ out) as [[b2 r2]|] eqn:Hv2; [| done].
    apply vsnprintf_returns in Hv2 as ->. cbn [mbind option_bind].
    rewrite Hret.
    destruct (Z.ltb_spec SIZE_MAX (size_t (ext_str_capacity str2 - ext_str_size str)));
      [| done].
    pose proof (Ha (ext_str_capacity str2 - ext_str_size str)). lia.
Qed.

(** X13. For a format whose expansion is shorter than [2 ^ 31] bytes (the
    [int] that [vsnprintf] returns is then its length): [ext_str_vfmt]
    returns a NUL-terminated string whose content is the expansion, whether
    the expansion fits the first buffer of [2 * strlen(fmt) + 1] bytes or
    needs the second pass; [ext_str_append_vfmt] appends the expansion to
    the content, also in one or two passes, and leaves the string
    NUL-terminated. *)
Theorem ext_str_vfmt_append_vfmt_content str fmt_len out :
  str_shape str -> capacity str <= 2 ^ 62 ->
  0 <= fmt_len < 2 ^ 61 ->
  Z.of_nat (length out) < 2 ^ 31 ->
  size str + Z.of_nat (length out) < 2 ^ 61 ->
  (exists new,
     ext_str_vfmt junk fmt_len out = Some new /\ str_wf new /\
     content new = out) /\
  (exists str',
     ext_str_append_vfmt junk str out = Some str' /\ str_wf str' /\
     size str' = size str + Z.of_nat (length out) /\
     content str' = content str ++ out).
Proof.
  intros Hshape Hcap Hfmt Hshort Hout. pose proof Hshape as (H0 & H1 & H2 & H3).
  assert (Hint : Z.of_nat (length out) <= INT_MAX) by (unfold INT_MAX; lia).
  assert (H264 : 2 ^ 64 = 8 * 2 ^ 61) by done.
  assert (H262 : 2 ^ 62 = 2 * 2 ^ 61) by done.
  assert (Hw : size_t (Z.of_nat (length out)) = Z.of_nat (length out))
    by (apply size_t_small; unfold SIZE_MAX; lia).
  split; [apply ext_str_vfmt_spec; [lia | done] |].
  unfold ext_str_append_vfmt, ext_str_capacity, ext_str_size.
  rewrite (size_t_small (capacity str - size str)) by lia.
  assert (Hsum : size_t (size str + Z.of_nat (length out))
                 = size str + Z.of_nat (length out))
    by (apply size_t_small; unfold SIZE_MAX; lia).
  destruct (vsnprintf_at (data str) (size str) (capacity str - size str) out)
    as (b1 & Hv1 & Hl1 & Hpre1 & Hfit1); [lia | lia | lia | done |].
  rewrite Hv1. simpl. rewrite ?Hw, ?Hsum.
  destruct (capacity str - size str <=? Z.of_nat (length out)) eqn:Hle.
  - destruct (ext_str_maybe_grow_spec junk
                (mk_str (capacity str) (size str) b1) (Z.of_nat (length out)))
      as (str2 & Hgrow & Hshape2 & Hs2 & Hroom & _ & _ & Hkeep & _).
    { unfold str_shape. simpl. lia. } { lia. } { simpl. lia. } { simpl. lia. }
    rewrite Hgrow. simpl. simpl in Hs2, Hroom, Hkeep.
    unfold content in Hkeep. simpl in Hkeep.
    pose proof Hshape2 as (G0 & G1 & G2 & G3).
    rewrite (size_t_small (capacity str2 - size str)) by lia.
    destruct (vsnprintf_at (data str2) (size str) (capacity str2 - size str) out)
      as (b2 & Hv2 & Hl2 & Hpre2 & Hfit2); [lia | lia | lia | done |].
    rewrite Hv2. simpl. rewrite ?Hw, ?Hsum.
    destruct (Z.of_nat (length out) <? capacity str2 - size str) eqn:Hlt;
      [| lia].
    destruct (Hfit2 ltac:(lia)) as [Htake Hnul].
    eexists. split; [done |].
    unfold str_wf, str_shape, nul_terminated, content. simpl.
    rewrite Htake, Hkeep, Hpre1. repeat split; try done; lia.
  - destruct (Hfit1 ltac:(lia)) as [Htake Hnul].
    eexists. split; [done |].
    unfold str_wf, str_shape, nul_terminated, content. simpl.
    rewrite Htake. repeat split; try done; lia.
Qed.

(** *** Searching for a character *)

Lemma to_N_inj (b1 b2 : byte) : Byte.to_N b1 = Byte.to_N b2 -> b1 = b2.
Proof.
  intros Heq. pose proof (Byte.of_to_N b1) as H1.
  rewrite Heq, Byte.of_to_N in H1. congruence.
Qed.

Lemma char_to_int_inj (b1 b2 : byte) :
  char_to_int char_is_signed b1 = char_to_int char_is_signed b2 -> b1 = b2.
Proof.
  unfold char_to_int. intros Heq. apply to_N_inj.
  pose proof (Byte.to_N_bounded b1). pose proof (Byte.to_N_bounded b2).
  destruct (char_is_signed && (128 <=? Z.of_N (Byte.to_N b1))) eqn:E1;
    destruct (char_is_signed && (128 <=? Z.of_N (Byte.to_N b2))) eqn:E2;
    lia.
Qed.

(** The byte [b] occurs at index [i] exactly when the character that [b]
    promotes to is there. *)
Lemma occurs_at_char str b i :
  str_shape str ->
  occurs_at str [b] i <-> char_at char_is_signed str (char_to_int char_is_signed b) i.
Proof.
  intros Hshape. pose proof (content_length str Hshape) as Hlen.
  unfold occurs_at, char_at. simpl. split.
  - intros (Hi & Hfit & Htake). split; [lia |]. exists b. split; [| done].
    destruct (drop (Z.to_nat i) (content str)) as [|x l] eqn:Hd;
      [done |].
    simpl in Htake. injection Htake as ->.
    rewrite <- (Nat.add_0_r (Z.to_nat i)), <- lookup_drop, Hd. done.
  - intros (Hi & b' & Hb' & Heq). apply char_to_int_inj in Heq as ->.
    split; [lia |]. split; [lia |].
    rewrite (drop_S _ _ _ Hb'). done.
Qed.

Lemma char_at_load str c i b :
  str_shape str -> 0 <= i < size str -> load (data str) i = Some b ->
  char_at char_is_signed str c i <-> char_to_int char_is_signed b = c.
Proof.
  intros Hshape Hi Hb. apply load_Some in Hb as [_ Hb].
  assert (Hc : content str !! Z.to_nat i = Some b).
  { unfold content. rewrite lookup_take. case_decide; [done | lia]. }
  unfold char_at. split.
  - intros (_ & b' & Hb' & Heq). congruence.
  - intros Heq. split; [done |]. exists b. done.
Qed.

(** The forward scan with at most [m] indices left below [size]. *)
Lemma find_char_loop_spec str c (m : nat) : forall fuel i,
  str_shape str -> 0 <= i -> size str <= i + Z.of_nat m -> (m < fuel)%nat ->
  exists r,
    find_char_loop char_is_signed fuel str c i = Some r /\
    ((r = ext_str_npos /\
      forall j, i <= j -> ~ char_at char_is_signed str c j) \/
     (i <= r /\ char_at char_is_signed str c r /\
      forall j, i <= j < r -> ~ char_at char_is_signed str c j)).
Proof.
  induction m as [|m IH]; intros fuel i Hshape Hi Hm Hfuel;
    pose proof Hshape as (H0 & H1 & H2 & H3);
    (destruct fuel as [|fuel]; [lia |]); simpl; unfold ext_str_size.
  - destruct (i <? size str) eqn:Hlt; [lia |].
    exists ext_str_npos. split; [done |]. left. split; [done |].
    intros j Hj [Hr _]. lia.
  - destruct (i <? size str) eqn:Hlt.
    + destruct (load_in_range (data str) i ltac:(lia)) as [b Hb].
      rewrite Hb. simpl.
      pose proof (char_at_load str c i b Hshape ltac:(lia) Hb) as Hat.
      destruct (Z.eqb_spec (char_to_int char_is_signed b) c) as [Heq | Heq].
      * exists i. split; [done |]. right. split; [lia |].
        split; [apply Hat; lia |]. intros j Hj. lia.
      * rewrite (size_t_small (i + 1)) by lia.
        destruct (IH fuel (i + 1) Hshape ltac:(lia) ltac:(lia) ltac:(lia))
          as (r & Hr & Hcases).
        exists r. split; [done |].
        assert (Hnot : ~ char_at char_is_signed str c i)
          by (rewrite Hat; lia).
        destruct Hcases as [[-> Hnone] | (Hle & Hocc & Hfirst)].
        -- left. split; [done |]. intros j Hj.
           destruct (decide (j = i)) as [-> | Hne]; [done |].
           apply Hnone. lia.
        -- right. split; [lia |]. split; [done |]. intros j Hj.
           destruct (decide (j = i)) as [-> | Hne]; [done |].
           apply Hfirst. lia.
    + exists ext_str_npos. split; [done |]. left. split; [done |].
      intros j Hj [Hr _]. lia.
Qed.

(** X14. [ext_str_find_char(str, start_pos, c)] returns the first index at
    or after [start_pos] whose byte, promoted to [int], is [c], and
    [ext_str_npos] exactly when there is none (in particular when
    [start_pos >= size]); for the character of a byte it is what
    [ext_str_find_len] returns for the one-byte needle. *)
Theorem ext_str_find_char_first str start_pos c :
  str_shape str -> 0 <= start_pos ->
  exists r,
    ext_str_find_char char_is_signed str start_pos c = Some r /\
    (r = ext_str_npos \/
     (start_pos <= r < size str /\ char_at char_is_signed str c r /\
      forall j, start_pos <= j < r -> ~ char_at char_is_signed str c j)) /\
    (r = ext_str_npos <->
     ~ exists j, start_pos <= j /\ char_at char_is_signed str c j) /\
    (forall b, c = char_to_int char_is_signed b ->
       ext_str_find_len str start_pos [b] 1 = Some r).
Proof.
  intros Hshape Hstart. pose proof Hshape as (H0 & H1 & H2 & H3).
  unfold ext_str_find_char, ext_str_size.
  destruct (find_char_loop_spec str c (Z.to_nat (size str))
              (Z.to_nat (size str) + 1) start_pos Hshape Hstart
              ltac:(lia) ltac:(lia)) as (r & Hr & Hcases).
  exists r. split; [done |].
  assert (Hnpos : forall j, char_at char_is_signed str c j -> j <> ext_str_npos).
  { intros j [Hj _]. rewrite npos_eq. lia. }
  split; [| split].
  - destruct Hcases as [[-> _] | (Hle & Hocc & Hfirst)]; [left; done |].
    right. pose proof Hocc as [Hrange _]. split; [lia |]. split; done.
  - destruct Hcases as [[-> Hnone] | (Hle & Hocc & Hfirst)].
    + split; [| done]. intros _ (j & Hj & Hocc). apply (Hnone j Hj Hocc).
    + split.
      * intros ->. exfalso. apply (Hnpos _ Hocc). done.
      * intros Hno. exfalso. apply Hno. exists r. done.
  - intros b ->.
    destruct (ext_str_find_len_spec str start_pos [b] Hshape Hstart)
      as (r' & Hr' & Hcases').
    change (Z.of_nat (length [b])) with 1 in *. rewrite Hr'. f_equal.
    destruct Hcases as [[-> Hnone] | (Hle & Hocc & Hfirst)];
      destruct Hcases' as [[-> Hnone'] | (Hne' & Hle' & Hocc' & Hfirst')].
    + done.
    + exfalso. apply (Hnone r' Hle'). apply occurs_at_char; done.
    + exfalso. apply (Hnone' r Hle). apply occurs_at_char; done.
    + destruct (Z.lt_trichotomy r r') as [Hlt | [-> | Hgt]]; [| done |].
      * exfalso. apply (Hfirst' r ltac:(lia)). apply occurs_at_char; done.
      * exfalso. apply (Hfirst r' ltac:(lia)). apply occurs_at_char; done.
Qed.

(** The backward scan from index [n]. *)
Lemma rfind_char_loop_spec str c (n : nat) : forall fuel,
  str_shape str -> Z.of_nat n < size str -> (n + 1 < fuel)%nat ->
  exists r,
    rfind_char_loop char_is_signed fuel str c (Z.of_nat n) = Some r /\
    ((r = ext_str_npos /\
      forall j, 0 <= j <= Z.of_nat n -> ~ char_at char_is_signed str c j) \/
     (0 <= r <= Z.of_nat n /\ char_at char_is_signed str c r /\
      forall j, r < j <= Z.of_nat n -> ~ char_at char_is_signed str c j)).
Proof.
  induction n as [|n IH]; intros fuel Hshape Hn Hfuel;
    pose proof Hshape as (H0 & H1 & H2 & H3);
    (destruct fuel as [|fuel]; [lia |]).
  - simpl rfind_char_loop. change (Z.of_nat 0) with 0 in *.
    destruct (0 =? ext_str_npos) eqn:Hz; [rewrite npos_eq in Hz; done |].
    simpl negb. cbv iota.
    destruct (load_in_range (data str) 0 ltac:(lia)) as [b Hb].
    rewrite Hb. simpl.
    pose proof (char_at_load str c 0 b Hshape ltac:(lia) Hb) as Hat.
    destruct (Z.eqb_spec (char_to_int char_is_signed b) c) as [Heq | Heq].
    + exists 0. split; [done |]. right. split; [lia |].
      split; [apply Hat; lia |]. intros j Hj. lia.
    + change (size_t (0 - 1)) with ext_str_npos.
      destruct fuel as [|fuel]; [lia |]. simpl.
      exists ext_str_npos. split; [done |]. left. split; [done |].
      intros j Hj. assert (j = 0) as -> by lia. rewrite Hat. lia.
  - remember (Z.of_nat (S n)) as i eqn:Hi. simpl rfind_char_loop.
    destruct (i =? ext_str_npos) eqn:Hz;
      [apply Z.eqb_eq in Hz; rewrite npos_eq in Hz; lia |].
    simpl negb. cbv iota.
    destruct (load_in_range (data str) i ltac:(lia)) as [b Hb].
    rewrite Hb. simpl.
    pose proof (char_at_load str c i b Hshape ltac:(lia) Hb) as Hat.
    destruct (Z.eqb_spec (char_to_int char_is_signed b) c) as [Heq | Heq].
    + exists i. split; [done |]. right. split; [lia |].
      split; [apply Hat; lia |]. intros j Hj. lia.
    + replace (size_t (i - 1)) with (Z.of_nat n)
        by (rewrite size_t_small; lia).
      destruct (IH fuel Hshape ltac:(lia) ltac:(lia)) as (r & Hr & Hcases).
      exists r. split; [done |].
      assert (Hnot : ~ char_at char_is_signed str c i)
        by (rewrite Hat; lia).
      destruct Hcases as [[-> Hnone] | (Hle & Hocc & Hfirst)].
      * left. split; [done |]. intros j Hj.
        destruct (decide (j = i)) as [-> | Hne]; [done |].
        apply Hnone. lia.
      * right. split; [lia |]. split; [done |]. intros j Hj.
        destruct (decide (j = i)) as [-> | Hne]; [done |].
        apply Hfirst. lia.
Qed.

(** X15. [ext_str_rfind_char(str, start_pos, c)] returns [ext_str_npos]
    when [start_pos >= size], and otherwise the last index at or below
    [size - start_pos - 1] whose byte, promoted to [int], is [c], or
    [ext_str_npos] when there is none.  For the character of a byte this
    is what [ext_str_rfind_len] returns for the one-byte needle, except at
    [start_pos = 1], where [ext_str_rfind_len] starts at the last byte and
    [ext_str_rfind_char] at the one before it. *)
Theorem ext_str_rfind_char_last str start_pos c :
  str_shape str -> 0 <= start_pos ->
  exists r,
    ext_str_rfind_char char_is_signed str start_pos c = Some r /\
    (size str <= start_pos -> r = ext_str_npos) /\
    (r = ext_str_npos \/
     (start_pos < size str /\ 0 <= r <= size str - start_pos - 1 /\
      char_at char_is_signed str c r /\
      forall j, r < j <= size str - start_pos - 1 ->
        ~ char_at char_is_signed str c j)) /\
    (r = ext_str_npos <->
     ~ (start_pos < size str /\
        exists j, j <= size str - start_pos - 1 /\
          char_at char_is_signed str c j)) /\
    (forall b, c = char_to_int char_is_signed b -> start_pos <> 1 ->
       ext_str_rfind_len str start_pos [b] 1 = Some r).
Proof.
  intros Hshape Hstart. pose proof Hshape as (H0 & H1 & H2 & H3).
  assert (Hnpos : forall j, char_at char_is_signed str c j -> j <> ext_str_npos).
  { intros j [Hj _]. rewrite npos_eq. lia. }
  assert (Hagree : forall b r,
    c = char_to_int char_is_signed b -> start_pos <> 1 ->
    (r = ext_str_npos /\
     (start_pos < size str ->
      forall j, 0 <= j <= size str - start_pos - 1 ->
        ~ char_at char_is_signed str c j) \/
     (start_pos < size str /\ 0 <= r <= size str - start_pos - 1 /\
      char_at char_is_signed str c r /\
      forall j, r < j <= size str - start_pos - 1 ->
        ~ char_at char_is_signed str c j)) ->
    ext_str_rfind_len str start_pos [b] 1 = Some r).
  { intros b r -> Hne1 Hcases.
    destruct (ext_str_rfind_len_spec str start_pos [b] Hshape Hstart)
      as (r' & Hr' & Hcases').
    change (Z.of_nat (length [b])) with 1 in *. rewrite Hr'. f_equal.
    assert (Hfirst1 : start_pos < size str ->
              rfind_first str start_pos 1 = size str - start_pos - 1).
    { intros Hlt. unfold rfind_first.
      destruct (start_pos <=? 1) eqn:Hle; lia. }
    destruct Hcases as [[-> Hnone] | (Hlt & Hle & Hocc & Hfirst)];
      destruct Hcases' as [[-> Hnone'] | (Hne' & Hlt' & Hle' & Hocc' & Hfirst')].
    - done.
    - exfalso. rewrite (Hfirst1 Hlt') in Hle'.
      destruct Hocc' as (Hr0 & ?). 
      apply (Hnone Hlt' r' ltac:(lia)). apply occurs_at_char; [done |].
      split; [done | done].
    - exfalso. apply (Hnone' Hlt r); [rewrite Hfirst1; lia |].
      apply occurs_at_char; done.
    - rewrite (Hfirst1 Hlt) in *.
      destruct (Z.lt_trichotomy r r') as [Hl | [-> | Hg]]; [| done |].
      + exfalso. apply (Hfirst r' ltac:(lia)). apply occurs_at_char; done.
      + exfalso. apply (Hfirst' r ltac:(lia)). apply occurs_at_char; done. }
  unfold ext_str_rfind_char, ext_str_size.
  destruct (size str <=? start_pos) eqn:Hge.
  - exists ext_str_npos. split; [done |]. split; [done |].
    split; [left; done |]. split.
    + split; [| done]. intros _ [Hlt _]. lia.
    + intros b Hc Hne1. apply Hagree; [done | done |]. left.
      split; [done |]. intros Hlt. lia.
  - rewrite (size_t_small (size str - start_pos)) by lia.
    rewrite (size_t_small (size str - start_pos - 1)) by lia.
    destruct (rfind_char_loop_spec str c (Z.to_nat (size str - start_pos - 1))
                (Z.to_nat (size str) + 1) Hshape ltac:(lia) ltac:(lia))
      as (r & Hr & Hcases).
    rewrite Z2Nat.id in Hr, Hcases by lia.
    exists r. split; [done |]. split; [lia |].
    split; [| split].
    + destruct Hcases as [[-> _] | (Hle & Hocc & Hfirst)]; [left; done |].
      right. split; [lia |]. split; [lia |]. split; done.
    + destruct Hcases as [[-> Hnone] | (Hle & Hocc & Hfirst)].
      * split; [| done]. intros _ (_ & j & Hj & Hocc).
        destruct Hocc as [Hjr Hb]. apply (Hnone j ltac:(lia)). split; done.
      * split.
        -- intros ->. exfalso. apply (Hnpos _ Hocc). done.
        -- intros Hno. exfalso. apply Hno. split; [lia |]. exists r.
           split; [lia | done].
    + intros b Hc Hne1. apply Hagree; [done | done |].
      destruct Hcases as [[-> Hnone] | (Hle & Hocc & Hfirst)].
      * left. split; [done |]. intros _. done.
      * right. split; [lia |]. split; [lia |]. split; done.
Qed.

(** *** Comparison *)

Lemma lex_compare_eq (l1 l2 : list byte) : lex_compare l1 l2 = Eq <-> l1 = l2.
Proof.
  revert l2. induction l1 as [|b1 r1 IH]; intros [|b2 r2]; simpl; try done.
  destruct (N.compare (Byte.to_N b1) (Byte.to_N b2)) eqn:Hc.
  - apply N.compare_eq_iff, to_N_inj in Hc as ->. rewrite IH.
    split; [intros ->; done | intros [= ->]; done].
  - split; [done |]. intros [= -> _]. rewrite N.compare_refl in Hc. done.
  - split; [done |]. intros [= -> _]. rewrite N.compare_refl in Hc. done.
Qed.

Lemma lex_compare_antisym (l1 l2 : list byte) :
  lex_compare l2 l1 = CompOpp (lex_compare l1 l2).
Proof.
  revert l2. induction l1 as [|b1 r1 IH]; intros [|b2 r2]; simpl; try done.
  rewrite (N.compare_antisym (Byte.to_N b1) (Byte.to_N b2)).
  destruct (N.compare (Byte.to_N b1) (Byte.to_N b2)); simpl; [apply IH | done | done].
Qed.

Lemma memcmp_take (s1 s2 : list byte) : forall n,
  (n <= length s1)%nat -> (n <= length s2)%nat ->
  memcmp s1 s2 n = Some (lex_compare (take n s1) (take n s2)).
Proof.
  revert s2. induction s1 as [|b1 r1 IH]; intros [|b2 r2] [|n] H1 H2;
    simpl in *; try done; try lia.
  destruct (N.compare (Byte.to_N b1) (Byte.to_N b2)); [| done | done].
  apply IH; lia.
Qed.

(** The order of two byte strings from the order of their prefixes of the
    smaller length, as [ext_str_compare] computes it. *)
Lemma lex_compare_min (l1 l2 : list byte) :
  lex_compare l1 l2
  = match lex_compare (take (length l1 `min` length l2) l1)
            (take (length l1 `min` length l2) l2) with
    | Eq => if (length l2 <? length l1)%nat then Gt
            else if (length l1 <? length l2)%nat then Lt else Eq
    | c => c
    end.
Proof.
  revert l2. induction l1 as [|b1 r1 IH]; intros [|b2 r2]; simpl; try done.
  destruct (N.compare (Byte.to_N b1) (Byte.to_N b2)); [| done | done].
  rewrite IH. done.
Qed.

(** X16. [ext_str_compare(s1, s2)] orders the two contents as byte strings:
    by the first byte that differs, compared unsigned, a proper prefix
    first; embedded NUL bytes are compared like any other.  The result is 0
    exactly when the contents are equal, and swapping the arguments changes
    its sign. *)
Theorem ext_str_compare_order s1 s2 :
  str_shape s1 -> str_shape s2 ->
  ext_str_compare s1 s2 = Some (lex_compare (content s1) (content s2)) /\
  (ext_str_compare s1 s2 = Some Eq <-> content s1 = content s2) /\
  ext_str_compare s2 s1 = (CompOpp <$> ext_str_compare s1 s2) /\
  (forall l, l <> [] -> content s2 = content s1 ++ l ->
     ext_str_compare s1 s2 = Some Lt).
Proof.
  intros Hs1 Hs2.
  assert (Hcmp : forall a b, str_shape a -> str_shape b ->
            ext_str_compare a b = Some (lex_compare (content a) (content b))).
  { intros a b Ha Hb. pose proof Ha as (A0 & A1 & A2 & A3).
    pose proof Hb as (B0 & B1 & B2 & B3).
    pose proof (content_length a Ha) as Hla.
    pose proof (content_length b Hb) as Hlb.
    unfold ext_str_compare, ext_str_size.
    set (m := if size a <? size b then size a else size b).
    assert (Hm : Z.to_nat m = (length (content a) `min` length (content b))%nat).
    { unfold m. destruct (size a <? size b) eqn:Hlt; lia. }
    rewrite memcmp_take by (unfold m; destruct (size a <? size b) eqn:Hlt; lia).
    simpl. rewrite (lex_compare_min (content a) (content b)), <- Hm.
    assert (Hta : take (Z.to_nat m) (content a) = take (Z.to_nat m) (data a)).
    { unfold content. rewrite take_take. f_equal. lia. }
    assert (Htb : take (Z.to_nat m) (content b) = take (Z.to_nat m) (data b)).
    { unfold content. rewrite take_take. f_equal. lia. }
    rewrite Hta, Htb.
    destruct (lex_compare (take (Z.to_nat m) (data a))
                (take (Z.to_nat m) (data b))); [| done | done].
    assert (E1 : (size b <? size a)
                 = (length (content b) <? length (content a))%nat).
    { destruct (Z.ltb_spec (size b) (size a));
        destruct (Nat.ltb_spec (length (content b)) (length (content a)));
        try done; lia. }
    assert (E2 : (size a <? size b)
                 = (length (content a) <? length (content b))%nat).
    { destruct (Z.ltb_spec (size a) (size b));
        destruct (Nat.ltb_spec (length (content a)) (length (content b)));
        try done; lia. }
    rewrite E1, E2. done. }
  rewrite (Hcmp s1 s2 Hs1 Hs2), (Hcmp s2 s1 Hs2 Hs1).
  split; [done |]. split; [| split].
  - rewrite <- lex_compare_eq. split; [intros [= ->] | intros ->]; done.
  - simpl. f_equal. apply lex_compare_antisym.
  - intros l Hl ->. f_equal. clear Hcmp Hs1 Hs2.
    induction (content s1) as [|b r IH]; simpl.
    + destruct l; done.
    + rewrite N.compare_refl. done.
Qed.

(** *** Letter case *)

Lemma case_loop_spec (f : Z -> Z) n : forall str i,
  0 <= i -> i + Z.of_nat n <= Z.of_nat (length (data str)) ->
  Z.of_nat (length (data str)) <= SIZE_MAX ->
  case_loop char_is_signed f n str i
  = Some (mk_str (capacity str) (size str)
            (take (Z.to_nat i) (data str)
             ++ (case_byte char_is_signed f
                   <$> take n (drop (Z.to_nat i) (data str)))
             ++ drop (Z.to_nat i + n) (data str))).
Proof.
  induction n as [|n IH]; intros str i Hi Hlen Hmax.
  - simpl. rewrite Nat.add_0_r, take_drop. destruct str; done.
  - simpl case_loop.
    destruct (load_in_range (data str) i ltac:(lia)) as [b Hb].
    rewrite Hb. simpl. rewrite store_Some by lia. simpl.
    rewrite (size_t_small (i + 1)) by lia.
    rewrite IH by (simpl; rewrite ?length_insert; lia). simpl.
    do 2 f_equal.
    apply load_Some in Hb as [_ Hb].
    replace (Z.to_nat (i + 1)) with (S (Z.to_nat i)) by lia.
    rewrite VecFacts.take_S_insert by lia.
    rewrite !drop_insert_lt by lia.
    rewrite (drop_S _ _ _ Hb). simpl.
    rewrite <- app_assoc. simpl. do 4 f_equal. lia.
Qed.

Lemma case_loop_content (f : Z -> Z) str :
  str_wf str ->
  exists str',
    case_loop char_is_signed f (Z.to_nat (size str)) str 0 = Some str' /\
    str_wf str' /\ size str' = size str /\ capacity str' = capacity str /\
    content str' = case_byte char_is_signed f <$> content str.
Proof.
  intros [(H0 & H1 & H2 & H3) Hnul].
  rewrite case_loop_spec by lia. eexists. split; [done |].
  change (Z.to_nat 0) with O. rewrite take_0, drop_0, Nat.add_0_l, app_nil_l.
  set (s := Z.to_nat (size str)).
  assert (Hl : length (case_byte char_is_signed f <$> take s (data str)) = s)
    by (rewrite length_fmap, length_take; lia).
  unfold str_wf, str_shape, nul_terminated, content. simpl. fold s.
  split; [split |].
  - rewrite length_app, Hl, length_drop. repeat split; lia.
  - apply load_Some in Hnul as [_ Hnul]. apply load_Some. split; [lia |].
    fold s in Hnul |- *.
    rewrite lookup_app_r by lia. rewrite Hl, lookup_drop, <- Hnul. f_equal. lia.
  - split; [done |]. split; [done |]. rewrite take_app_length'; done.
Qed.

Variable tolower : Z -> Z.
Variable toupper : Z -> Z.

(** X17. [ext_str_to_lower] and [ext_str_to_upper] replace each of the
    [size] bytes of the content, embedded NUL bytes included, by what
    [tolower] or [toupper] maps it to, and touch nothing else: size,
    capacity and terminator are kept.  When the conversion maps its own
    results to themselves, converting twice is converting once. *)
Theorem ext_str_to_lower_upper_content str :
  str_wf str ->
  (exists lo,
     ext_str_to_lower char_is_signed tolower str = Some lo /\ str_wf lo /\
     size lo = size str /\ capacity lo = capacity str /\
     content lo = case_byte char_is_signed tolower <$> content str /\
     ((forall b, case_byte char_is_signed tolower
                   (case_byte char_is_signed tolower b)
                 = case_byte char_is_signed tolower b) ->
      exists lo2,
        ext_str_to_lower char_is_signed tolower lo = Some lo2 /\
        content lo2 = content lo)) /\
  (exists up,
     ext_str_to_upper char_is_signed toupper str = Some up /\ str_wf up /\
     size up = size str /\ capacity up = capacity str /\
     content up = case_byte char_is_signed toupper <$> content str).
Proof.
  intros Hwf. unfold ext_str_to_lower, ext_str_to_upper, ext_str_size. split.
  - destruct (case_loop_content tolower str Hwf)
      as (lo & Hlo & Hwflo & Hs & Hc & Hcont).
    exists lo. repeat (split; [done |]). intros Hidem.
    destruct (case_loop_content tolower lo Hwflo)
      as (lo2 & Hlo2 & _ & _ & _ & Hcont2).
    exists lo2. split; [done |]. rewrite Hcont2, Hcont, <- list_fmap_compose.
    apply list_fmap_ext. intros i b _. apply Hidem.
  - destruct (case_loop_content toupper str Hwf)
      as (up & Hup & Hwfup & Hs & Hc & Hcont).
    exists up. done.
Qed.

(** *** Joining *)

Lemma joined_bytes_cons (sep s : list byte) rest :
  joined_bytes sep (s :: rest)
  = s ++ match rest with [] => [] | _ => sep ++ joined_bytes sep rest end.
Proof. destruct rest; simpl; [rewrite app_nil_r |]; done. Qed.

(** Joining with a one-byte separator, as [ext_str_split] takes one. *)
Lemma joined_bytes_join (c : byte) (l : list (list byte)) :
  joined_bytes [c] l = join c l.
Proof.
  induction l as [|s [|s' rest] IH]; simpl in *; [done | done |].
  rewrite IH. done.
Qed.

(** [ext_str_append] and [ext_str_append_str] in a chain of calls. *)
Lemma ext_str_append_chain str cstring K :
  str_shape str -> x00 ∈ cstring ->
  size str + Z.of_nat (length (c_bytes cstring)) < 2 ^ 60 ->
  0 <= K < 2 ^ 61 -> capacity str <= K + 2 * size str ->
  exists str',
    ext_str_append junk str cstring = Some str' /\
    str_wf str' /\
    size str' = size str + Z.of_nat (length (c_bytes cstring)) /\
    content str' = content str ++ c_bytes cstring /\
    capacity str' <= K + 2 * size str'.
Proof.
  intros Hshape Hnul Hsz HK Hcap.
  destruct (strlen_is_Some cstring Hnul) as [len Hlen].
  pose proof (strlen_range cstring len Hlen) as Hr.
  destruct (strlen_c_bytes cstring len Hlen) as [Hl Htake].
  unfold ext_str_append. rewrite Hlen. simpl.
  destruct (ext_str_append_len_chain str cstring len K Hshape ltac:(lia)
              ltac:(lia) HK Hcap) as (str' & Happ & Hwf & Hs & Hc & Hb).
  exists str'. split; [done |]. split; [done |]. split; [lia |].
  split; [rewrite Hc, Htake; done | done].
Qed.

Lemma ext_str_append_str_chain str other K :
  str_shape str -> str_shape other ->
  size str + size other < 2 ^ 60 ->
  0 <= K < 2 ^ 61 -> capacity str <= K + 2 * size str ->
  exists str',
    ext_str_append_str junk str other = Some str' /\
    str_wf str' /\ size str' = size str + size other /\
    content str' = content str ++ content other /\
    capacity str' <= K + 2 * size str'.
Proof.
  intros Hshape Hother Hsz HK Hcap. pose proof Hother as (G0 & G1 & G2 & G3).
  unfold ext_str_append_str, ext_str_size.
  destruct (ext_str_append_len_chain str (data other) (size other) K Hshape
              ltac:(lia) ltac:(lia) HK Hcap)
    as (str' & Happ & Hwf & Hs & Hc & Hb).
  exists str'. done.
Qed.

(** The loop of [ext_str_join_str] on the strings [i .. count). *)
Lemma join_str_loop_spec (sep : list byte) (strings : list ext_string)
    count K :
  x00 ∈ sep -> 0 <= count <= Z.of_nat (length strings) ->
  Forall str_shape (take (Z.to_nat count) strings) ->
  0 <= K < 2 ^ 61 ->
  forall n i joined,
  0 <= i -> i + Z.of_nat n = count ->
  str_shape joined -> capacity joined <= K + 2 * size joined ->
  size joined
  + Z.of_nat (length (joined_bytes (c_bytes sep)
                        (content <$> drop (Z.to_nat i)
                                       (take (Z.to_nat count) strings))))
  < 2 ^ 60 ->
  exists joined',
    join_str_loop junk n joined sep strings i count = Some joined' /\
    str_shape joined' /\ ((0 < n)%nat -> str_wf joined') /\
    content joined'
    = content joined
      ++ joined_bytes (c_bytes sep)
           (content <$> drop (Z.to_nat i) (take (Z.to_nat count) strings)).
Proof.
  intros Hsep Hcount Hall HK.
  induction n as [|n IH]; intros i joined Hi Hn Hshape Hcap Hsz.
  - simpl. exists joined. split; [done |]. split; [done |].
    split; [lia |].
    rewrite drop_ge by (rewrite length_take; lia). simpl.
    rewrite app_nil_r. done.
  - simpl join_str_loop.
    destruct (lookup_lt_is_Some_2 (take (Z.to_nat count) strings) (Z.to_nat i))
      as [s Hs]; [rewrite length_take; lia |].
    assert (Hload : load strings i = Some s).
    { apply load_Some. split; [done |].
      apply lookup_take_Some in Hs as [Hs _]. done. }
    rewrite Hload. simpl.
    assert (Hss : str_shape s).
    { rewrite Forall_lookup in Hall. apply (Hall _ _ Hs). }
    rewrite (drop_S _ _ _ Hs), fmap_cons, joined_bytes_cons in Hsz |- *.
    rewrite length_app in Hsz.
    pose proof (content_length s Hss) as Hls.
    destruct (ext_str_append_str_chain joined s K Hshape Hss ltac:(lia) HK Hcap)
      as (j1 & Happ1 & Hwf1 & Hs1 & Hc1 & Hb1).
    rewrite Happ1. simpl.
    replace (S (Z.to_nat i)) with (Z.to_nat (i + 1)) in Hsz |- * by lia.
    destruct (i =? count - 1) eqn:Hlast.
    + (* the last string: no separator after it *)
      assert (n = O) as -> by lia. simpl.
      rewrite drop_ge by (rewrite length_take; lia). simpl.
      exists j1. split; [done |]. split; [apply Hwf1 |]. split; [done |].
      rewrite Hc1, app_nil_r. done.
    + simpl negb. cbv iota.
      destruct (drop (Z.to_nat (i + 1)) (take (Z.to_nat count) strings))
        as [|s' rest] eqn:Hrest.
      { exfalso. apply (f_equal length) in Hrest.
        rewrite length_drop, length_take in Hrest. simpl in Hrest. lia. }
      rewrite <- Hrest in *.
      assert (Hne : (content <$> drop (Z.to_nat (i + 1))
                                   (take (Z.to_nat count) strings)) <> []).
      { rewrite Hrest. done. }
      destruct (content <$> drop (Z.to_nat (i + 1))
                              (take (Z.to_nat count) strings))
        as [|t ts] eqn:Hts; [done |].
      rewrite <- Hts in *. rewrite length_app in Hsz.
      destruct (ext_str_append_chain j1 sep K (proj1 Hwf1) Hsep ltac:(lia) HK Hb1)
        as (j2 & Happ2 & Hwf2 & Hs2 & Hc2 & Hb2).
      rewrite Happ2. simpl.
      destruct (IH (i + 1) j2 ltac:(lia) ltac:(lia) (proj1 Hwf2) Hb2 ltac:(lia))
        as (j3 & Hrun & Hsh3 & Hwf3 & Hc3).
      exists j3. split; [done |]. split; [done |].
      split; [intros _; apply Hwf3; lia |].
      rewrite Hc3, Hc2, Hc1, <- !app_assoc. done.
Qed.

(** The loop of [ext_str_join] on the C strings [i .. count). *)
Lemma join_loop_spec (sep : list byte) (strings : list (list byte))
    count K :
  x00 ∈ sep -> 0 <= count <= Z.of_nat (length strings) ->
  Forall (fun s => x00 ∈ s) (take (Z.to_nat count) strings) ->
  0 <= K < 2 ^ 61 ->
  forall n i joined,
  0 <= i -> i + Z.of_nat n = count ->
  str_shape joined -> capacity joined <= K + 2 * size joined ->
  size joined
  + Z.of_nat (length (joined_bytes (c_bytes sep)
                        (c_bytes <$> drop (Z.to_nat i)
                                       (take (Z.to_nat count) strings))))
  < 2 ^ 60 ->
  exists joined',
    join_loop junk n joined sep strings i count = Some joined' /\
    str_shape joined' /\ ((0 < n)%nat -> str_wf joined') /\
    content joined'
    = content joined
      ++ joined_bytes (c_bytes sep)
           (c_bytes <$> drop (Z.to_nat i) (take (Z.to_nat count) strings)).
Proof.
  intros Hsep Hcount Hall HK.
  induction n as [|n IH]; intros i joined Hi Hn Hshape Hcap Hsz.
  - simpl. exists joined. split; [done |]. split; [done |].
    split; [lia |].
    rewrite drop_ge by (rewrite length_take; lia). simpl.
    rewrite app_nil_r. done.
  - simpl join_loop.
    destruct (lookup_lt_is_Some_2 (take (Z.to_nat count) strings) (Z.to_nat i))
      as [s Hs]; [rewrite length_take; lia |].
    assert (Hload : load strings i = Some s).
    { apply load_Some. split; [done |].
      apply lookup_take_Some in Hs as [Hs _]. done. }
    rewrite Hload. simpl.
    assert (Hss : x00 ∈ s).
    { rewrite Forall_lookup in Hall. apply (Hall _ _ Hs). }
    rewrite (drop_S _ _ _ Hs), fmap_cons, joined_bytes_cons in Hsz |- *.
    rewrite length_app in Hsz.
    destruct (ext_str_append_chain joined s K Hshape Hss ltac:(lia) HK Hcap)
      as (j1 & Happ1 & Hwf1 & Hs1 & Hc1 & Hb1).
    rewrite Happ1. simpl.
    replace (S (Z.to_nat i)) with (Z.to_nat (i + 1)) in Hsz |- * by lia.
    destruct (i =? count - 1) eqn:Hlast.
    + assert (n = O) as -> by lia. simpl.
      rewrite drop_ge by (rewrite length_take; lia). simpl.
      exists j1. split; [done |]. split; [apply Hwf1 |]. split; [done |].
      rewrite Hc1, app_nil_r. done.
    + simpl negb. cbv iota.
      destruct (drop (Z.to_nat (i + 1)) (take (Z.to_nat count) strings))
        as [|s' rest] eqn:Hrest.
      { exfalso. apply (f_equal length) in Hrest.
        rewrite length_drop, length_take in Hrest. simpl in Hrest. lia. }
      rewrite <- Hrest in *.
      assert (Hne : (c_bytes <$> drop (Z.to_nat (i + 1))
                                   (take (Z.to_nat count) strings)) <> []).
      { rewrite Hrest. done. }
      destruct (c_bytes <$> drop (Z.to_nat (i + 1))
                              (take (Z.to_nat count) strings))
        as [|t ts] eqn:Hts; [done |].
      rewrite <- Hts in *. rewrite length_app in Hsz.
      destruct (ext_str_append_chain j1 sep K (proj1 Hwf1) Hsep ltac:(lia) HK Hb1)
        as (j2 & Happ2 & Hwf2 & Hs2 & Hc2 & Hb2).
      rewrite Happ2. simpl.
      destruct (IH (i + 1) j2 ltac:(lia) ltac:(lia) (proj1 Hwf2) Hb2 ltac:(lia))
        as (j3 & Hrun & Hsh3 & Hwf3 & Hc3).
      exists j3. split; [done |]. split; [done |].
      split; [intros _; apply Hwf3; lia |].
      rewrite Hc3, Hc2, Hc1, <- !app_assoc. done.
Qed.

Lemma empty_string_wf :
  exists str, ext_str_new_len junk [x00] 0 = Some str /\ str_wf str /\
    content str = [].
Proof.
  rewrite ext_str_new_len_spec by (simpl; unfold SIZE_MAX; lia).
  eexists. split; [done |].
  unfold str_wf, str_shape, nul_terminated, content, SIZE_MAX. simpl.
  repeat split; lia.
Qed.

Lemma joined_bytes_head_le (sep s : list byte) rest :
  (length s <= length (joined_bytes sep (s :: rest)))%nat.
Proof. rewrite joined_bytes_cons, length_app. lia. Qed.

(** X18. [ext_str_join(sep, strings, count)] and
    [ext_str_join_str(sep, strings, count)] return a NUL-terminated string
    whose content is the first [count] strings in order, with the bytes of
    the C string [sep] between each two and none after the last; for
    [count = 0] it is the empty string.  [ext_str_join] takes each string
    up to its NUL, [ext_str_join_str] takes the [size] bytes of each.  The
    count fits an [int]. *)
Theorem ext_str_join_content (sep : list byte) (cstrings : list (list byte))
    (strings : list ext_string) :
  x00 ∈ sep ->
  Forall (fun s => x00 ∈ s) cstrings -> Forall str_shape strings ->
  Z.of_nat (length cstrings) < 2 ^ 31 -> Z.of_nat (length strings) < 2 ^ 31 ->
  Z.of_nat (length (joined_bytes (c_bytes sep) (c_bytes <$> cstrings))) < 2 ^ 59 ->
  Z.of_nat (length (joined_bytes (c_bytes sep) (content <$> strings))) < 2 ^ 59 ->
  (exists joined,
     ext_str_join junk sep cstrings (Z.of_nat (length cstrings)) = Some joined /\
     str_wf joined /\
     content joined = joined_bytes (c_bytes sep) (c_bytes <$> cstrings)) /\
  (exists joined,
     ext_str_join_str junk sep strings (Z.of_nat (length strings)) = Some joined /\
     str_wf joined /\
     content joined = joined_bytes (c_bytes sep) (content <$> strings)).
Proof.
  intros Hsep Hc Hs Hnc Hns Hbc Hbs.
  assert (H260 : 2 ^ 60 = 2 * 2 ^ 59) by done.
  assert (H261 : 2 ^ 61 = 4 * 2 ^ 59) by done.
  assert (H264 : 2 ^ 64 = 32 * 2 ^ 59) by done.
  split.
  - unfold ext_str_join. destruct cstrings as [|s0 rest] eqn:Hcs.
    { simpl. destruct empty_string_wf as (str & -> & Hwf & Hcont).
      exists str. done. }
    rewrite <- Hcs in *.
    destruct (Z.of_nat (length cstrings) =? 0) eqn:Hz;
      [rewrite Hcs in Hz; simpl in Hz; lia |].
    assert (Hs0 : load cstrings 0 = Some s0) by (rewrite Hcs; done).
    rewrite Hs0. simpl.
    assert (Hn0 : x00 ∈ s0).
    { rewrite Hcs in Hc. apply Forall_cons in Hc as [? _]. done. }
    destruct (strlen_is_Some s0 Hn0) as [len Hlen]. rewrite Hlen. simpl.
    destruct (strlen_c_bytes s0 len Hlen) as [Hl _].
    assert (Hle : len < 2 ^ 59).
    { pose proof (joined_bytes_head_le (c_bytes sep) (c_bytes s0)
                    (c_bytes <$> rest)).
      rewrite Hcs, fmap_cons in Hbc. lia. }
    rewrite (size_t_small (len * 2)) by (unfold SIZE_MAX; lia).
    destruct (ext_str_new_cap_terminator junk (len * 2)
                ltac:(unfold SIZE_MAX; lia)) as [Hshape0 _].
    destruct (join_loop_spec sep cstrings (Z.of_nat (length cstrings))
                (2 * len + 1) Hsep ltac:(lia)
                ltac:(rewrite Nat2Z.id, firstn_all; done) ltac:(lia)
                (length cstrings) 0 (ext_str_new_cap junk (len * 2))
                ltac:(lia) ltac:(lia) Hshape0)
      as (joined & Hrun & _ & Hwf & Hcont).
    { unfold ext_str_new_cap. simpl.
      rewrite size_t_small by (unfold SIZE_MAX; lia). lia. }
    { rewrite Nat2Z.id, firstn_all. change (Z.to_nat 0) with O.
      rewrite drop_0. simpl. lia. }
    rewrite Nat2Z.id. rewrite Hrun.
    exists joined. split; [done |].
    split; [apply Hwf; rewrite Hcs; simpl; lia |].
    rewrite Hcont, Nat2Z.id, firstn_all. change (Z.to_nat 0) with O.
    rewrite drop_0. unfold content, ext_str_new_cap. simpl. done.
  - unfold ext_str_join_str. destruct strings as [|s0 rest] eqn:Hcs.
    { simpl. destruct empty_string_wf as (str & -> & Hwf & Hcont).
      exists str. done. }
    rewrite <- Hcs in *.
    destruct (Z.of_nat (length strings) =? 0) eqn:Hz;
      [rewrite Hcs in Hz; simpl in Hz; lia |].
    assert (Hs0 : load strings 0 = Some s0) by (rewrite Hcs; done).
    rewrite Hs0. simpl.
    assert (Hn0 : str_shape s0).
    { rewrite Hcs in Hs. apply Forall_cons in Hs as [? _]. done. }
    pose proof (content_length s0 Hn0) as Hl.
    pose proof Hn0 as (G0 & _).
    unfold ext_str_size.
    assert (Hle : size s0 < 2 ^ 59).
    { pose proof (joined_bytes_head_le (c_bytes sep) (content s0)
                    (content <$> rest)).
      rewrite Hcs, fmap_cons in Hbs. lia. }
    rewrite (size_t_small (size s0 * 2)) by (unfold SIZE_MAX; lia).
    destruct (ext_str_new_cap_terminator junk (size s0 * 2)
                ltac:(unfold SIZE_MAX; lia)) as [Hshape0 _].
    destruct (join_str_loop_spec sep strings (Z.of_nat (length strings))
                (2 * size s0 + 1) Hsep ltac:(lia)
                ltac:(rewrite Nat2Z.id, firstn_all; done) ltac:(lia)
                (length strings) 0 (ext_str_new_cap junk (size s0 * 2))
                ltac:(lia) ltac:(lia) Hshape0)
      as (joined & Hrun & _ & Hwf & Hcont).
    { unfold ext_str_new_cap. simpl.
      rewrite size_t_small by (unfold SIZE_MAX; lia). lia. }
    { rewrite Nat2Z.id, firstn_all. change (Z.to_nat 0) with O.
      rewrite drop_0. simpl. lia. }
    rewrite Nat2Z.id. rewrite Hrun.
    exists joined. split; [done |].
    split; [apply Hwf; rewrite Hcs; simpl; lia |].
    rewrite Hcont, Nat2Z.id, firstn_all. change (Z.to_nat 0) with O.
    rewrite drop_0. unfold content, ext_str_new_cap. simpl. done.
Qed.

(** What [ext_str_split] returns: the vector of the maximal runs without
    the separator. *)
Lemma ext_str_split_runs str sep :
  str_shape str -> size str < 2 ^ 61 ->
  exists vec,
    ext_str_split junk str sep = Some vec /\ Vec.vec_wf vec /\
    Forall fresh_token (Vec.elements vec) /\
    content <$> Vec.elements vec = runs sep (content str) [].
Proof.
  intros Hshape Hsmall. pose proof Hshape as (H0 & H1 & H2 & H3).
  pose proof (content_length str Hshape) as Hclen.
  assert (H261 : 2 ^ 64 = 8 * 2 ^ 61) by done.
  destruct (split_loop_spec junk str sep (Z.to_nat (size str)) 0 0 None
              Hshape Hsmall)
    as (tokens & last & Hrun & Hwf & Hcap & Hsz & Hlast & Hfresh & Heq);
    try done; try (simpl; lia).
  change (Z.to_nat (0 - 0)) with O in Heq. change (Z.to_nat 0) with O in Heq.
  rewrite take_0, drop_0 in Heq.
  unfold ext_str_split, ext_str_size. rewrite Hrun. simpl.
  rewrite (size_t_small (size str - last)) by (unfold SIZE_MAX; lia).
  pose proof (ext_str_new_len_spec junk (drop (Z.to_nat last) (data str))
                (size str - last) ltac:(rewrite length_drop; lia)
                ltac:(unfold SIZE_MAX; lia)) as Hnew.
  match type of Hnew with _ = Some ?t => set (tok := t) in * end.
  destruct (ext_str_new_len_wf junk (drop (Z.to_nat last) (data str))
              (size str - last) _ ltac:(rewrite length_drop; lia)
              ltac:(unfold SIZE_MAX; lia) Hnew)
    as (Htwf & Hts & Htc & Htcontent).
  rewrite Hnew. simpl.
  rewrite take_drop_content in Htcontent by lia.
  rewrite take_ge in Htcontent by (rewrite length_drop; lia).
  destruct (VecFacts.ext_vec_push_back_spec junk_string tokens tok Hwf)
    as (vec & Hpush & Hwfv & Hsv & Hev & _).
  { pose proof (VecFacts.vec_wf_size_le_capacity tokens Hwf). lia. }
  rewrite Hpush. exists vec. split; [done |]. split; [done |]. split.
  - rewrite Hev. apply Forall_app. split; [done |].
    constructor; [| done]. split; [done |]. simpl in *. lia.
  - rewrite Hev, fmap_app. simpl. rewrite Htcontent. done.
Qed.

(** X19. [ext_str_join_str] undoes [ext_str_split]: joining the tokens of
    [ext_str_split(str, c)], passed as the array and the size of the vector
    it returned, with the one-character C string of [c] gives a
    NUL-terminated string with the content of [str]. *)
Theorem split_then_join_str str (c : byte) :
  str_shape str -> size str < 2 ^ 31 - 1 -> c <> x00 ->
  exists vec joined,
    ext_str_split junk str c = Some vec /\
    1 <= Vec.ext_vec_size vec <= 2 ^ 31 - 1 /\
    ext_str_join_str junk [c; x00] (cells vec) (Vec.ext_vec_size vec)
      = Some joined /\
    str_wf joined /\ content joined = content str.
Proof.
  intros Hshape Hsmall Hc. pose proof Hshape as (H0 & H1 & H2 & H3).
  pose proof (content_length str Hshape) as Hclen.
  assert (H231 : 2 ^ 31 < 2 ^ 59) by done.
  assert (H261 : 2 ^ 61 = 4 * 2 ^ 59) by done.
  assert (H260 : 2 ^ 60 = 2 * 2 ^ 59) by done.
  assert (H264 : 2 ^ 64 = 32 * 2 ^ 59) by done.
  destruct (ext_str_split_runs str c Hshape ltac:(lia))
    as (vec & Hsplit & Hwf & Hfresh & Hruns).
  pose proof (VecFacts.elements_length vec Hwf) as Hlen.
  pose proof (runs_length c (content str) []) as Hrl.
  rewrite <- Hruns, length_fmap in Hrl.
  assert (Hocc : 0 <= occurrences c (content str) <= size str).
  { unfold occurrences.
    pose proof (filter_length (fun b => bool_decide (b = c)) (content str)).
    split; [lia |]. rewrite <- Hclen. apply inj_le.
    apply filter_length_le. }
  assert (Hsep : c_bytes [c; x00] = [c]).
  { simpl. case_bool_decide; [done |]. simpl. done. }
  assert (Hjoin : joined_bytes (c_bytes [c; x00]) (content <$> Vec.elements vec)
                  = content str).
  { rewrite Hsep, joined_bytes_join, Hruns. apply runs_join. }
  destruct vec as [[cap sz d]|]; [| simpl in *; lia].
  simpl Vec.elements in *. simpl Vec.ext_vec_size in *. simpl in Hwf.
  simpl cells.
  simpl Vec.ext_vec_size. destruct Hwf as (Hsz & Hcap & Hd).
  assert (Hz : (sz =? 0) = false) by lia.
  destruct (lookup_lt_is_Some_2 (take (Z.to_nat sz) d) O) as [s0 Hs0];
    [rewrite length_take; lia |].
  assert (Hload : load d 0 = Some s0).
  { apply load_Some. split; [done |].
    apply lookup_take_Some in Hs0 as [Hs0 _]. done. }
  assert (Hall : Forall str_shape (take (Z.to_nat sz) d)).
  { eapply Forall_impl; [exact Hfresh |]. intros t [[Ht _] _]. done. }
  assert (Hs0shape : str_shape s0).
  { rewrite Forall_lookup in Hall. apply (Hall _ _ Hs0). }
  assert (Hs0le : size s0 <= size str).
  { pose proof (content_length s0 Hs0shape) as Hl0.
    assert (Hd0 : take (Z.to_nat sz) d = s0 :: drop 1 (take (Z.to_nat sz) d)).
    { rewrite <- (take_drop_middle _ _ _ Hs0) at 1. done. }
    pose proof (joined_bytes_head_le (c_bytes [c; x00]) (content s0)
                  (content <$> drop 1 (take (Z.to_nat sz) d))) as Hh.
    rewrite <- fmap_cons, <- Hd0, Hjoin in Hh. lia. }
  pose proof Hs0shape as (G0 & _).
  destruct (ext_str_new_cap_terminator junk (size s0 * 2)
              ltac:(unfold SIZE_MAX; lia)) as [Hshape0 _].
  destruct (join_str_loop_spec [c; x00] d sz (2 * size s0 + 1))
    with (n := Z.to_nat sz) (i := 0)
         (joined := ext_str_new_cap junk (size s0 * 2))
    as (joined & Hrun & _ & Hwfj & Hcont); try done; try lia.
  { right. left. }
  { unfold ext_str_new_cap. simpl.
    rewrite size_t_small by (unfold SIZE_MAX; lia). lia. }
  { change (Z.to_nat 0) with O. rewrite drop_0, Hjoin. simpl. lia. }
  exists (Some (Vec.mk_header cap sz d)), joined.
  split; [done |]. simpl. split; [lia |]. split.
  - unfold ext_str_join_str, ext_str_size. rewrite Hz, Hload. simpl.
    rewrite (size_t_small (size s0 * 2)) by (unfold SIZE_MAX; lia). done.
  - split; [apply Hwfj; lia |].
    rewrite Hcont. change (Z.to_nat 0) with O. rewrite drop_0, Hjoin. done.
Qed.

End facts.

End StrMoreFacts.

(** ** The hash table: iteration, clearing, and lookups after updates *)

Module MapMoreFacts.
Import Map MapFacts MapMore.

Section facts.

Context {E : Type}.
Variable junk : E.
Implicit Types (map : ext_map (E:=E)) (entry : E).

(** *** Iteration *)

Lemma live_records_length (bs : list Z) : forall es : list E,
  length es = length bs ->
  Z.of_nat (length (live_records bs es)) = count_slots IS_VALID bs.
Proof.
  induction bs as [|b bs IH]; intros [|e es] Hlen; simpl in *; try done.
  destruct (IS_VALID b); simpl; rewrite <- (IH es) by lia; lia.
Qed.

Lemma iterate_from map :
  entries map <> [] -> 0 < entry_sz map ->
  Z.of_nat (length (buckets map)) = capacity_mask map + 1 ->
  length (entries map) = length (buckets map) ->
  (capacity_mask map + 1) * entry_sz map <= SIZE_MAX ->
  forall n i fuel1 fuel2,
    (i + n = length (buckets map))%nat -> (n < fuel1)%nat -> (n < fuel2)%nat ->
    (next_valid map fuel1 (Z.of_nat i) ≫= iterate map fuel2) =
    Some (live_records (drop i (buckets map)) (drop i (entries map))).
Proof.
  intros Hne Hsz Hlb Hle Hfit.
  assert (Hend : ext_map_end map =
                 Some ((capacity_mask map + 1) * entry_sz map)).
  { unfold ext_map_end, ext_map_capacity. destruct (entries map); [done |].
    unfold SIZE_MAX in Hfit.
    rewrite (size_t_small (capacity_mask map + 1)) by (unfold SIZE_MAX; nia).
    rewrite size_t_small by (unfold SIZE_MAX; nia). done. }
  induction n as [|n IH]; intros i [|fuel1] [|fuel2] Hi Hf1 Hf2; try lia.
  - simpl next_valid.
    destruct (Z.leb_spec (Z.of_nat i) (capacity_mask map)); [lia |].
    simpl. rewrite bool_decide_eq_true_2 by done.
    rewrite !drop_ge by lia. done.
  - remember (S fuel2) as f2 eqn:Hf2eq. simpl next_valid.
    destruct (Z.leb_spec (Z.of_nat i) (capacity_mask map)); [| lia].
    destruct (lookup_lt_is_Some_2 (buckets map) i ltac:(lia)) as [b Hb].
    destruct (lookup_lt_is_Some_2 (entries map) i ltac:(lia)) as [e He].
    rewrite load_nat, Hb.
    rewrite (drop_S _ _ _ Hb), (drop_S _ _ _ He). simpl live_records.
    assert (Hnext : size_t (Z.of_nat i + 1) = Z.of_nat (S i)).
    { rewrite size_t_small by (unfold SIZE_MAX in *; nia). lia. }
    destruct (IS_VALID b) eqn:Hvalid.
    + assert (Hoff : size_t (Z.of_nat i * entry_sz map) =
                     Z.of_nat i * entry_sz map).
      { apply size_t_small. unfold SIZE_MAX in *. nia. }
      subst f2. simpl. rewrite Hvalid, Hoff. simpl.
      rewrite bool_decide_eq_false_2
        by (rewrite Hend; intros [=]; nia).
      unfold deref, ext_map_incr, iterator_index. simpl.
      destruct (Z.eqb_spec (entry_sz map) 0); [lia |]. simpl.
      rewrite Z.mod_mul by lia. simpl.
      rewrite Z.div_mul by lia.
      unfold entry_at. rewrite load_nat, He. simpl.
      rewrite Hnext.
      specialize (IH (S i) (length (buckets map) + 1)%nat fuel2
                    ltac:(lia) ltac:(lia) ltac:(lia)).
      destruct (next_valid map (length (buckets map) + 1) (Z.of_nat (S i)))
        as [it |]; [| done].
      simpl in IH |- *. rewrite IH. done.
    + simpl. rewrite Hvalid, Hnext. apply IH; lia.
Qed.

(** X20. The loop [for(it = ext_map_begin(map); it != ext_map_end(map);
    it = ext_map_incr(map, it))] terminates and reads the records of the
    live slots, each once and in slot order: as many as there are live
    slots.  The entry size is positive and the entry array fits the address
    space.  On a table that never allocated, begin and end are both [NULL]
    and the loop reads nothing. *)
Theorem iterate_all_live_records map :
  map_wf map -> 0 < entry_sz map ->
  (capacity_mask map + 1) * entry_sz map <= SIZE_MAX ->
  iterate_all map = Some (live_records (buckets map) (entries map)) /\
  Z.of_nat (length (live_records (buckets map) (entries map))) =
    live_slots map /\
  (entries map = [] ->
   ext_map_begin map = Some None /\ ext_map_end map = None).
Proof.
  intros Hwf Hsz Hfit.
  destruct Hwf as (_ & _ & [(Hmask & Hb & He & _) |
                            (k & Hk & Hmask & Hlb & Hle & _)]).
  - unfold iterate_all, ext_map_begin, ext_map_end, live_slots.
    rewrite Hb, He. simpl. unfold ext_map_end. rewrite He.
    rewrite bool_decide_eq_true_2 by done. done.
  - assert (Hne : entries map <> []).
    { intros Heq. rewrite Heq in Hle. simpl in Hle.
      assert (0 < 2 ^ k) by (apply Z.pow_pos_nonneg; lia). lia. }
    split; [| split].
    + unfold iterate_all, ext_map_begin.
      destruct (entries map) as [|e0 es] eqn:Hes; [done |].
      rewrite <- Hes in *.
      apply (iterate_from map Hne Hsz ltac:(lia) ltac:(lia) Hfit
               (length (buckets map)) 0%nat); lia.
    + apply live_records_length. lia.
    + done.
Qed.

(** *** Clearing *)

Lemma clear_loop_spec n : forall i (bs : list Z),
  (i + n <= length bs)%nat -> Z.of_nat (length bs) <= 2 ^ 62 ->
  clear_loop n (Z.of_nat i) bs =
  Some (take i bs ++ replicate n EMPTY_MARK ++ drop (i + n) bs).
Proof.
  induction n as [|n IH]; intros i bs Hi Hlen; simpl.
  - rewrite Nat.add_0_r, take_drop. done.
  - rewrite store_Some by lia. simpl. rewrite Nat2Z.id.
    rewrite size_t_small by (unfold SIZE_MAX; lia).
    replace (Z.of_nat i + 1) with (Z.of_nat (S i)) by lia.
    rewrite IH by (rewrite ?length_insert; lia).
    rewrite VecFacts.take_S_insert by lia.
    rewrite drop_insert_lt by lia.
    rewrite <- app_assoc. simpl.
    replace (i + S n)%nat with (S (i + n)) by lia. done.
Qed.

Lemma live_records_replicate n (es : list E) :
  live_records (replicate n EMPTY_MARK) es = [].
Proof.
  revert es. induction n as [|n IH]; intros [|e es]; simpl; try done.
Qed.

Lemma load_replicate {A} n (x : A) i :
  0 <= i < Z.of_nat n -> load (replicate n x) i = Some x.
Proof.
  intros Hi. apply load_Some. split; [lia |].
  apply lookup_replicate_2. lia.
Qed.

(** What [ext_map_clear] leaves. *)
Lemma ext_map_clear_cases map :
  map_wf map ->
  exists map',
    ext_map_clear map = Some map' /\ map_wf map' /\
    hash map' = hash map /\ compare map' = compare map /\
    capacity_mask map' = capacity_mask map /\
    entries map' = entries map /\
    (capacity_mask map = 0 -> map' = map) /\
    (0 < capacity_mask map ->
     size map' = 0 /\ num_entries map' = 0 /\
     buckets map' = replicate (length (buckets map)) EMPTY_MARK).
Proof.
  intros Hwf. unfold ext_map_clear.
  destruct (Z.ltb_spec 0 (capacity_mask map)) as [Hpos | Hzero].
  - destruct (wf_allocated map Hwf Hpos)
      as ((k & Hk & Hmask & Hlb & Hle) & _ & _ & _ & _ & Hcap).
    assert (Hpow : 2 ^ k <= 2 ^ 62) by (rewrite Hmask in Hcap; lia).
    replace (capacity_mask map + 1) with (Z.of_nat (length (buckets map)))
      by lia.
    rewrite Nat2Z.id.
    pose proof (clear_loop_spec (length (buckets map)) 0 (buckets map)
                  ltac:(simpl; lia) ltac:(lia)) as Hloop.
    change (Z.of_nat 0) with 0 in Hloop. rewrite Hloop.
    simpl. rewrite drop_all, app_nil_r.
    eexists. split; [done |]. simpl. split.
    { unfold map_wf, live_slots, used_slots. simpl.
      rewrite !count_slots_replicate. simpl.
      split; [unfold SIZE_MAX; lia |]. split; [lia |]. right.
      exists k. rewrite length_replicate.
      destruct Hwf as (_ & _ & [(Hm & _) | (k' & Hk' & Hmask' & _)]); [lia |].
      assert (k' = k).
      { apply (Z.pow_inj_r 2); lia. }
      subst k'. repeat (split; [lia || done |]). lia. }
    repeat (split; [done |]). split; [lia |]. done.
  - destruct Hwf as (Hs & Hl & [(Hm & Hb & He & Hn) | (k & Hk & Hmask & _)]).
    + exists map. repeat (split; [done |]).
      split; [unfold map_wf; tauto |]. repeat (split; [done |]). lia.
    + assert (0 < 2 ^ k) by (apply Z.pow_pos_nonneg; lia).
      assert (2 ^ 3 <= 2 ^ k) by (apply Z.pow_le_mono_r; lia). lia.
Qed.

(** X21. [ext_map_clear] on a table that has allocated marks every bucket
    EMPTY and sets [size] and [num_entries] to 0; the entry array and the
    capacity stay as they are, so that nothing is released.  Afterwards the
    table is empty, no slot is live, and [ext_map_get] returns [NULL] for
    every record.  On a table that never allocated it does nothing. *)
Theorem ext_map_clear_empties map :
  map_wf map ->
  exists map',
    ext_map_clear map = Some map' /\
    ext_map_capacity map' = ext_map_capacity map /\
    entries map' = entries map /\
    map_wf map' /\
    (capacity_mask map = 0 -> map' = map) /\
    (0 < capacity_mask map ->
     size map' = 0 /\ num_entries map' = 0 /\ ext_map_empty map' = true /\
     buckets map' = replicate (length (buckets map)) EMPTY_MARK /\
     live_records (buckets map') (entries map') = [] /\
     forall q, ext_map_get map' q = Some None).
Proof.
  intros Hwf.
  destruct (ext_map_clear_cases map Hwf)
    as (map' & Hclear & Hwf' & Hhash & Hcmp & Hmask' & Hent & Hnop & Hdone).
  exists map'. split; [done |].
  split; [unfold ext_map_capacity; rewrite Hent, Hmask'; done |].
  repeat (split; [done |]). intros Hpos.
  destruct (Hdone Hpos) as (Hsz & Hnum & Hbs).
  destruct (wf_allocated map Hwf Hpos)
    as ((k & Hk & Hmask & Hlb & Hle) & _).
  unfold ext_map_empty. rewrite Hsz, Hbs.
  repeat (split; [done |]).
  split; [apply live_records_replicate |].
  intros q.
  assert (Hhome : 0 <= Z.land (hash_entry map' q) (capacity_mask map')
                  < Z.of_nat (length (buckets map))).
  { rewrite Hmask', Hmask, land_mask by lia. rewrite Hlb.
    apply Z.mod_pos_bound. lia. }
  assert (Hslot : load (buckets map')
                    (Z.land (hash_entry map' q) (capacity_mask map'))
                  = Some EMPTY_MARK).
  { rewrite Hbs. apply load_replicate. done. }
  unfold ext_map_get.
  rewrite (find_index_home_empty map' q _ Hslot). simpl.
  rewrite Hslot. done.
Qed.

(** *** The probe path and the slots a lookup can reach *)

Lemma probe_from_ext map map' idx j :
  capacity_mask map' = capacity_mask map ->
  probe_from map' idx j = probe_from map idx j.
Proof.
  intros Hmask. revert idx. induction j as [|j IH]; intros idx; simpl; [done |].
  unfold probe_next. rewrite Hmask. apply IH.
Qed.

Lemma probe_ext map map' hash j :
  capacity_mask map' = capacity_mask map ->
  probe map' hash j = probe map hash j.
Proof.
  intros Hmask. unfold probe. rewrite Hmask. apply probe_from_ext. done.
Qed.

Lemma probe_inj map hash k j1 j2 :
  0 <= k < 64 -> capacity_mask map = 2 ^ k - 1 ->
  Z.of_nat j1 < 2 ^ k -> Z.of_nat j2 < 2 ^ k ->
  probe map hash j1 = probe map hash j2 -> j1 = j2.
Proof.
  intros Hk Hmask H1 H2. rewrite !(probe_closed map hash k) by done.
  intros Heq.
  assert (Hpos : 0 < 2 ^ k) by (apply Z.pow_pos_nonneg; lia).
  pose proof (Z.div_mod (hash + Z.of_nat j1) (2 ^ k) ltac:(lia)) as D1.
  pose proof (Z.div_mod (hash + Z.of_nat j2) (2 ^ k) ltac:(lia)) as D2.
  set (q := (hash + Z.of_nat j1) / 2 ^ k - (hash + Z.of_nat j2) / 2 ^ k).
  assert (Hq : Z.of_nat j1 - Z.of_nat j2 = 2 ^ k * q) by (unfold q; lia).
  destruct (Z.lt_trichotomy q 0) as [Hneg | [Hz | Hgt]]; [nia | | nia].
  rewrite Hz in Hq. lia.
Qed.

Lemma first_empty_unique map hash n1 n2 :
  first_empty map hash n1 -> first_empty map hash n2 -> n1 = n2.
Proof.
  intros [H1 L1] [H2 L2].
  destruct (Nat.lt_trichotomy n1 n2) as [Hlt | [Heq | Hgt]]; [| done |].
  - exfalso. eapply L2; eauto.
  - exfalso. eapply L1; eauto.
Qed.

(** Where [find_index] resolves to: a slot of the probe path, not beyond
    its first EMPTY slot; and when that slot is not live, no slot before
    that EMPTY one matches. *)
Lemma find_index_path map entry hash :
  table_shape map -> (exists i, slot_empty map i) -> 2 <= hash ->
  exists n j r,
    (n < length (buckets map))%nat /\ first_empty map hash n /\
    (j <= n)%nat /\ r = probe map hash j /\
    find_index map entry hash = Some r /\
    ((slot_match map entry hash r /\ (j < n)%nat) \/
     (~ slot_live map r /\
      forall j', (j' < n)%nat ->
        ~ slot_match map entry hash (probe map hash j'))).
Proof.
  intros Hshape Hempty Hhash.
  destruct (first_empty_on_path map hash Hshape Hempty) as (n & Hn & Hen & Hleast).
  destruct Hshape as (k & Hk & Hmask & Hlb & Hle).
  assert (Hrg : forall j, (j <= n)%nat ->
     0 <= probe map hash j < Z.of_nat (length (buckets map)) /\
     probe map hash j < Z.of_nat (length (entries map))).
  { intros j _. pose proof (probe_range map hash k j Hk Hmask). lia. }
  destruct (find_index_loop_spec map entry hash n Hhash (length (buckets map))
              (Z.land hash (capacity_mask map)) false 0 Hn Hen Hleast Hrg)
    as (r & Hr & Hcases).
  fold (probe map hash) in Hcases.
  destruct Hcases as [(j & Hj & Hm & _ & ->) |
    [Hnone [[? _] | [(_ & t & Ht & Htomb & _ & ->) | (_ & _ & ->)]]]];
    [| done | |].
  - exists n, j, (probe map hash j). repeat (split; [done || lia |]).
    left. done.
  - exists n, t, (probe map hash t). repeat (split; [done || lia |]).
    right. split; [| done].
    intros (buck & Hb & Hv). unfold slot_tomb in Htomb. unfold probe in Hb.
    rewrite Hb in Htomb. injection Htomb as ->. done.
  - exists n, n, (probe map hash n). repeat (split; [done || lia |]).
    right. split; [| done].
    intros (buck & Hb & Hv). unfold slot_empty, probe in Hen.
    unfold probe in Hb. rewrite Hb in Hen. injection Hen as ->. done.
Qed.

(** The two outcomes of [ext_map_get]. *)
Lemma get_outcome map q :
  table_shape map -> (exists i, slot_empty map i) ->
  exists n, first_empty map (hash_entry map q) n /\
    ((exists idx x, live_at map idx (hash_entry map q) x /\
        compare map x q = true /\ ext_map_get map q = Some (Some x)) \/
     ((forall j, (j < n)%nat ->
         ~ slot_match map q (hash_entry map q)
             (probe map (hash_entry map q) j)) /\
      ext_map_get map q = Some None)).
Proof.
  intros Hshape Hempty.
  pose proof (hash_entry_range map q) as Hh.
  pose proof (hash_entry_valid map q) as Hv.
  destruct (find_index_path map q (hash_entry map q) Hshape Hempty ltac:(lia))
    as (n & j & r & Hn & Hfirst & Hj & -> & Hfind & Hcases).
  exists n. split; [done |]. unfold ext_map_get. rewrite Hfind. simpl.
  destruct Hcases as [[(Hb & x & Hx & Hc) _] | [Hdead Hnone]].
  - left. exists (probe map (hash_entry map q) j), x.
    rewrite Hb. simpl. rewrite Hv. simpl. rewrite Hx. simpl.
    unfold live_at. done.
  - right. split; [done |].
    destruct Hshape as (k & Hk & Hmask & Hlb & Hle).
    pose proof (probe_range map (hash_entry map q) k j Hk Hmask) as Hr.
    destruct (load_in_range (buckets map) (probe map (hash_entry map q) j)
                ltac:(lia)) as [buck Hbuck].
    rewrite Hbuck. simpl.
    destruct (IS_VALID buck) eqn:Hvalid; [| done].
    exfalso. apply Hdead. exists buck. done.
Qed.

Lemma hash_entry_agree map x y :
  callbacks_agree (hash map) (compare map) -> compare map x y = true ->
  hash_entry map x = hash_entry map y.
Proof.
  intros (_ & _ & _ & Hh) Hc. unfold hash_entry. rewrite (Hh x y Hc). done.
Qed.

(** A live record with the key of [q] sits on the probe path of [q],
    before the first EMPTY slot of that path. *)
Lemma live_on_path map q idx b e n :
  table_shape map -> callbacks_agree (hash map) (compare map) ->
  consistent map -> reachable map ->
  live_at map idx b e -> compare map e q = true ->
  first_empty map (hash_entry map q) n ->
  exists j, (j < n)%nat /\ probe map (hash_entry map q) j = idx /\
    slot_match map q (hash_entry map q) idx.
Proof.
  intros Hshape Hagree Hcons Hreach Hlive Hc [Hen Hleast].
  assert (Hb : b = hash_entry map q).
  { rewrite (Hcons _ _ _ Hlive). apply hash_entry_agree; done. }
  subst b.
  destruct (Hreach _ _ _ Hlive) as (j & _ & Hj & Hpath).
  destruct Hlive as (Hload & Hvalid & He).
  exists j. split; [| split; [done |]].
  - destruct (Nat.lt_trichotomy j n) as [Hlt | [-> | Hgt]]; [done | |].
    + exfalso. unfold slot_empty in Hen. rewrite Hj, Hload in Hen.
      injection Hen as Heq. rewrite Heq in Hvalid. done.
    + exfalso. eapply Hpath; eauto.
  - split; [done |]. exists e. done.
Qed.

(** A lookup finds the live record with the key of [q], if there is one. *)
Lemma get_live map q idx b e :
  map_inv map -> 0 < capacity_mask map ->
  live_at map idx b e -> compare map e q = true ->
  ext_map_get map q = Some (Some e).
Proof.
  intros (Hwf & Hagree & Hcons & Hreach & Huniq) Hpos Hlive Hc.
  destruct (wf_allocated map Hwf Hpos) as (Hshape & Hempty & _).
  destruct (get_outcome map q Hshape Hempty) as (n & Hfirst & Hcases).
  destruct Hcases as [(idx' & x & Hlive' & Hc' & Hget) | [Hnone Hget]].
  - rewrite Hget. do 2 f_equal.
    destruct Hagree as (_ & Hsym & Htrans & _).
    assert (Hsame : idx' = idx).
    { eapply Huniq; eauto. }
    subst idx'. destruct Hlive as (_ & _ & He). destruct Hlive' as (_ & _ & He').
    congruence.
  - exfalso.
    destruct (live_on_path map q idx b e n Hshape Hagree Hcons Hreach Hlive Hc
                Hfirst) as (j & Hj & <- & Hm).
    eapply Hnone; eauto.
Qed.

(** A lookup returns [NULL] when no live record has the key of [q]. *)
Lemma get_absent map q :
  map_wf map -> 0 < capacity_mask map ->
  (forall idx b e, live_at map idx b e -> compare map e q = false) ->
  ext_map_get map q = Some None.
Proof.
  intros Hwf Hpos Hnone.
  destruct (wf_allocated map Hwf Hpos) as (Hshape & Hempty & _).
  destruct (get_outcome map q Hshape Hempty) as (n & Hfirst & Hcases).
  destruct Hcases as [(idx' & x & Hlive' & Hc' & Hget) | [_ Hget]]; [| done].
  rewrite (Hnone _ _ _ Hlive') in Hc'. done.
Qed.

Lemma get_found_inv map q e :
  map_inv map -> 0 < capacity_mask map ->
  ext_map_get map q = Some (Some e) ->
  exists idx b, live_at map idx b e /\ compare map e q = true.
Proof.
  intros (Hwf & Hagree & Hcons & Hreach & Huniq) Hpos Hget.
  destruct (wf_allocated map Hwf Hpos) as (Hshape & Hempty & _).
  destruct (get_outcome map q Hshape Hempty) as (n & Hfirst & Hcases).
  destruct Hcases as [(idx' & x & Hlive' & Hc' & Hget') | [_ Hget']];
    [| congruence].
  assert (x = e) by congruence. subst x. eauto.
Qed.

Lemma get_missing_inv map q :
  map_inv map -> 0 < capacity_mask map ->
  ext_map_get map q = Some None ->
  forall idx b e, live_at map idx b e -> compare map e q = false.
Proof.
  intros Hinv Hpos Hget idx b e Hlive.
  destruct (compare map e q) eqn:Hc; [| done].
  rewrite (get_live map q idx b e Hinv Hpos Hlive Hc) in Hget. done.
Qed.

(** *** The invariant across a rewritten slot *)

Lemma same_but_live map map' idx i b e :
  same_but map map' idx -> i <> idx ->
  live_at map' i b e <-> live_at map i b e.
Proof.
  intros (_ & _ & _ & Hs) Hne. destruct (Hs i Hne) as [Hb He].
  unfold live_at. rewrite Hb, He. done.
Qed.

Lemma same_but_empty map map' idx i :
  same_but map map' idx -> ~ slot_empty map' idx ->
  slot_empty map' i -> slot_empty map i.
Proof.
  intros (_ & _ & _ & Hs) Hidx Hi.
  destruct (decide (i = idx)) as [-> | Hne]; [done |].
  destruct (Hs i Hne) as [Hb _]. unfold slot_empty in *. congruence.
Qed.

Lemma consistent_same_but map map' idx :
  same_but map map' idx -> consistent map ->
  (forall b e, live_at map' idx b e -> b = hash_entry map e) ->
  consistent map'.
Proof.
  intros Hsame Hcons Hidx i b e Hlive.
  rewrite (hash_entry_ext map map') by apply Hsame.
  destruct (decide (i = idx)) as [-> | Hne]; [apply Hidx; done |].
  apply (Hcons i). apply (same_but_live map map' idx); done.
Qed.

Lemma reachable_same_but map map' idx :
  same_but map map' idx -> ~ slot_empty map' idx -> reachable map ->
  (forall b e, live_at map' idx b e ->
     exists j, (Z.of_nat j <= capacity_mask map) /\ probe map b j = idx /\
       forall j', (j' < j)%nat -> ~ slot_empty map (probe map b j')) ->
  reachable map'.
Proof.
  intros Hsame Hfull Hreach Hidx i b e Hlive.
  assert (Hmask : capacity_mask map' = capacity_mask map) by apply Hsame.
  assert (Hpath : exists j, (Z.of_nat j <= capacity_mask map) /\
            probe map b j = i /\
            forall j', (j' < j)%nat -> ~ slot_empty map (probe map b j')).
  { destruct (decide (i = idx)) as [-> | Hne]; [eapply Hidx; eauto |].
    eapply Hreach. apply (same_but_live map map' idx); eauto. }
  destruct Hpath as (j & Hj & Hp & Hfree).
  exists j. rewrite Hmask. split; [done |].
  rewrite (probe_ext map map') by done. split; [done |].
  intros j' Hj' Hempty. rewrite (probe_ext map map') in Hempty by done.
  apply (Hfree j' Hj'). eapply same_but_empty; eauto.
Qed.

Lemma unique_same_but map map' idx :
  same_but map map' idx -> unique_keys map ->
  (forall b e i b' e', live_at map' idx b e -> i <> idx ->
     live_at map i b' e' ->
     compare map e e' = false /\ compare map e' e = false) ->
  unique_keys map'.
Proof.
  intros Hsame Huniq Hidx i1 i2 b1 b2 e1 e2 L1 L2 Hc.
  assert (Hcmp : compare map' = compare map) by apply Hsame.
  rewrite Hcmp in Hc.
  destruct (decide (i1 = idx)) as [-> | Hne1];
    destruct (decide (i2 = idx)) as [-> | Hne2]; [done | | |].
  - apply (same_but_live map map' idx) in L2; [| done | done].
    destruct (Hidx _ _ _ _ _ L1 Hne2 L2) as [Hf _]. congruence.
  - apply (same_but_live map map' idx) in L1; [| done | done].
    destruct (Hidx _ _ _ _ _ L2 Hne1 L1) as [_ Hf]. congruence.
  - apply (same_but_live map map' idx) in L1; [| done | done].
    apply (same_but_live map map' idx) in L2; [| done | done].
    eapply Huniq; eauto.
Qed.

(** *** [put_at], [map_grow] and [ext_map_erase] keep the invariant *)

Lemma put_at_inv map entry :
  map_inv map -> 0 < capacity_mask map ->
  4 * (num_entries map + 1) <= 3 * (capacity_mask map + 1) ->
  size map < SIZE_MAX ->
  exists idx map' b,
    put_at map entry = Some (map', b) /\ map_inv map' /\
    live_at map' idx (hash_entry map entry) entry /\
    same_but map map' idx /\
    (forall i bk x, live_at map i bk x -> compare map x entry = true ->
       i = idx) /\
    (b = true -> ~ slot_live map idx) /\
    (b = false -> slot_match map entry (hash_entry map entry) idx) /\
    size map' = (if b then size map + 1 else size map).
Proof.
  intros (Hwf & Hagree & Hcons & Hreach & Huniq) Hpos Hload Hsize.
  destruct (put_at_cases map entry Hwf Hpos Hload Hsize)
    as (idx & buck & map' & Hfind & Hbuck & Hmatch & Hput & Hb' & He' &
        Hothers & Hmask' & Hhash' & Hcmp' & Hsz' & _ & Hwf').
  destruct (wf_allocated map Hwf Hpos) as (Hshape & Hempty & _).
  pose proof (hash_entry_range map entry) as Hh.
  pose proof (hash_entry_valid map entry) as Hv.
  destruct (find_index_path map entry (hash_entry map entry) Hshape Hempty
              ltac:(lia))
    as (n & j & r & Hn & Hfirst & Hj & Hr & Hfind' & Hcases).
  assert (Hidx : r = idx) by congruence.
  rewrite Hidx in *. clear Hidx r.
  assert (Hsame : same_but map map' idx) by (unfold same_but; done).
  assert (Honly : forall i bk x, live_at map i bk x ->
            compare map x entry = true -> i = idx).
  { intros i bk x Hlive Hc.
    destruct Hcases as [[(Hbm & eo & Heo & Hco) _] | [_ Hnone]].
    - destruct Hagree as (_ & Hsym & Htrans & _).
      apply (Huniq i idx bk (hash_entry map entry) x eo Hlive);
        [unfold live_at; done | eauto].
    - exfalso.
      destruct (live_on_path map entry i bk x n Hshape Hagree Hcons Hreach
                  Hlive Hc Hfirst) as (j' & Hj' & <- & Hm).
      eapply Hnone; eauto. }
  assert (Hlive' : live_at map' idx (hash_entry map entry) entry)
    by (unfold live_at; done).
  assert (Hfull : ~ slot_empty map' idx).
  { unfold slot_empty. rewrite Hb'. intros [= Heq].
    rewrite Heq in Hv. done. }
  assert (Hheld : forall b e, live_at map' idx b e ->
            b = hash_entry map entry /\ e = entry).
  { intros b e (Hb & _ & He). split; congruence. }
  exists idx, map', (negb (IS_VALID buck)). split; [done |]. split.
  { split; [done |]. split; [rewrite Hhash', Hcmp'; done |].
    split; [| split].
    - apply (consistent_same_but map map' idx Hsame Hcons).
      intros b e Hl. destruct (Hheld b e Hl) as [-> ->]. done.
    - apply (reachable_same_but map map' idx Hsame Hfull Hreach).
      intros b e Hl. destruct (Hheld b e Hl) as [-> ->].
      exists j. destruct Hshape as (k & Hk & Hmask & Hlb & Hle).
      split; [lia |]. split; [done |].
      intros j' Hj'. apply Hfirst. lia.
    - apply (unique_same_but map map' idx Hsame Huniq).
      intros b e i b0 e0 Hl Hne Hl0. destruct (Hheld b e Hl) as [-> ->].
      destruct Hagree as (_ & Hsym & _).
      split.
      + destruct (compare map entry e0) eqn:Hc; [| done].
        exfalso. apply Hne. eapply Honly; eauto.
      + destruct (compare map e0 entry) eqn:Hc; [| done].
        exfalso. apply Hne. eapply Honly; eauto. }
  split; [done |]. split; [done |]. split; [done |]. split; [| split].
  - intros Hnew (bk & Hbk & Hvk).
    assert (bk = buck) by congruence. subst bk.
    rewrite Hvk in Hnew. done.
  - intros Hold. apply Hmatch. destruct (IS_VALID buck); done.
  - rewrite Hsz'. destruct (IS_VALID buck); done.
Qed.

(** The live slots of the arrays the loop of [map_grow] builds: each holds
    the pair of a live old slot, at the home index of its cached hash. *)
Lemma map_grow_loop_at_home map new_cap n :
  forall i nb ne num nb' ne' num',
  map_grow_loop map new_cap n i (nb, ne, num) = Some (nb', ne', num') ->
  (forall idx buck e, load nb idx = Some buck -> IS_VALID buck = true ->
     load ne idx = Some e ->
     idx = Z.land buck (size_t (new_cap - 1)) /\
     exists j, live_at map j buck e) ->
  forall idx buck e, load nb' idx = Some buck -> IS_VALID buck = true ->
    load ne' idx = Some e ->
    idx = Z.land buck (size_t (new_cap - 1)) /\
    exists j, live_at map j buck e.
Proof.
  induction n as [|n IH]; intros i nb ne num nb' ne' num'; simpl.
  - intros [= <- <- <-]. done.
  - destruct (load (buckets map) i) as [buck|] eqn:Hbuck; simpl; [| done].
    destruct (IS_VALID buck) eqn:Hvalid; [| apply IH].
    destruct (store nb _ buck) as [nb1|] eqn:Hs1; simpl; [| done].
    destruct (entry_at (entries map) i) as [e|] eqn:He; simpl; [| done].
    destruct (store ne _ e) as [ne1|] eqn:Hs2; simpl; [| done].
    intros Hrun Hpairs. apply (IH _ _ _ _ _ _ _ Hrun).
    apply store_inv in Hs1 as [Hr1 ->]. apply store_inv in Hs2 as [Hr2 ->].
    intros idx b' e' Hb' Hv' He'.
    destruct (decide (idx = Z.land buck (size_t (new_cap - 1)))) as [-> | Hne].
    + rewrite load_insert_eq in Hb' by done.
      rewrite load_insert_eq in He' by done.
      injection Hb' as <-. injection He' as <-.
      split; [done |]. exists i. unfold live_at. done.
    + rewrite load_insert_ne in Hb' by lia.
      rewrite load_insert_ne in He' by lia. eapply Hpairs; eauto.
Qed.

Lemma map_grow_at_home map map' :
  map_grow junk map = Some map' ->
  forall idx buck e, live_at map' idx buck e ->
    idx = Z.land buck (capacity_mask map') /\ exists j, live_at map j buck e.
Proof.
  unfold map_grow. intros Hgrow.
  assert (Hfresh : forall n m idx buck (e : E),
            load (replicate n EMPTY_MARK) idx = Some buck ->
            IS_VALID buck = true -> load (replicate m junk) idx = Some e ->
            idx = Z.land buck (size_t
              ((if capacity_mask map =? 0 then INITIAL_CAPACITY
                else size_t (size_t (capacity_mask map + 1) * 2)) - 1)) /\
            exists j, live_at map j buck e).
  { intros n m idx buck e Hb Hv _. exfalso.
    apply load_Some in Hb as [_ Hb]. apply lookup_replicate in Hb as [-> _].
    done. }
  destruct (0 <? capacity_mask map) eqn:Hpos.
  - destruct (map_grow_loop _ _ _ _ _) as [[[nb ne] num]|] eqn:Hrun; [| done].
    simpl in Hgrow. injection Hgrow as <-. unfold live_at. simpl.
    intros idx buck e (Hb & Hv & He).
    apply (map_grow_loop_at_home map _ _ _ _ _ _ _ _ _ Hrun (Hfresh _ _)
             idx buck e Hb Hv He).
  - simpl in Hgrow. injection Hgrow as <-. unfold live_at. simpl.
    intros idx buck e (Hb & Hv & He). eapply Hfresh; eauto.
Qed.

Lemma map_grow_inv map map' :
  map_inv map -> capacity_mask map < 2 ^ 60 ->
  map_grow junk map = Some map' -> map_inv map'.
Proof.
  intros (Hwf & Hagree & Hcons & Hreach & Huniq) Hbound Hgrow.
  destruct (map_grow_spec junk map Hwf Hbound)
    as (map2 & Hgrow2 & Hhash & Hcmp & _ & _ & Hmask & _ & _ & _ & Hwf').
  assert (map2 = map') by congruence. subst map2.
  pose proof (map_grow_at_home map map' Hgrow) as Hhome.
  split; [done |]. split; [rewrite Hhash, Hcmp; done |]. split; [| split].
  - intros idx b e Hlive. destruct (Hhome _ _ _ Hlive) as (_ & j & Hold).
    rewrite (hash_entry_ext map map') by done. eapply Hcons; eauto.
  - intros idx b e Hlive. destruct (Hhome _ _ _ Hlive) as (Hidx & _).
    exists 0%nat. split; [| split; [| lia]].
    + simpl. destruct (capacity_mask map =? 0); unfold INITIAL_CAPACITY in *;
        destruct Hwf as (_ & _ & [(Hm & _) | (k & Hk & Hm & _)]);
        try lia;
        assert (0 < 2 ^ k) by (apply Z.pow_pos_nonneg; lia); lia.
    + unfold probe. simpl. done.
  - intros i1 i2 b1 b2 e1 e2 L1 L2 Hc. rewrite Hcmp in Hc.
    destruct (Hhome _ _ _ L1) as (Hi1 & j1 & Ho1).
    destruct (Hhome _ _ _ L2) as (Hi2 & j2 & Ho2).
    assert (j1 = j2) by (eapply Huniq; eauto). subst j2.
    destruct Ho1 as (Hb1 & _). destruct Ho2 as (Hb2 & _).
    assert (b1 = b2) by congruence. subst b2. congruence.
Qed.

Lemma erase_callbacks map entry map' b :
  ext_map_erase map entry = Some (map', b) ->
  hash map' = hash map /\ compare map' = compare map.
Proof.
  unfold ext_map_erase.
  destruct (find_index _ _ _) as [idx|]; simpl; [| done].
  destruct (load _ _) as [buck|]; simpl; [| done].
  destruct (IS_VALID buck).
  - destruct (store _ _ _) as [bs|]; simpl; [| done].
    intros [= <- <-]. done.
  - intros [= <- <-]. done.
Qed.

Lemma erase_inv map entry :
  map_inv map -> 0 < capacity_mask map ->
  exists map' b,
    ext_map_erase map entry = Some (map', b) /\ map_inv map' /\
    capacity_mask map' = capacity_mask map /\
    (b = false ->
     map' = map /\
     forall i bk x, live_at map i bk x -> compare map x entry = false) /\
    (b = true ->
     exists idx bk x,
       live_at map idx bk x /\ compare map x entry = true /\
       slot_tomb map' idx /\ same_but map map' idx /\
       size map' = size map - 1).
Proof.
  intros Hinv Hpos.
  pose proof Hinv as (Hwf & Hagree & Hcons & Hreach & Huniq).
  destruct (ext_map_erase_cases map entry Hwf Hpos)
    as (idx & buck & Hfind & Hbuck & Hlive & Hdead).
  destruct (wf_allocated map Hwf Hpos) as (Hshape & Hempty & _).
  pose proof (hash_entry_range map entry) as Hh.
  pose proof (hash_entry_valid map entry) as Hv.
  destruct (find_index_path map entry (hash_entry map entry) Hshape Hempty
              ltac:(lia))
    as (n & j & r & Hn & Hfirst & Hj & Hr & Hfind' & Hcases).
  assert (Hidx : r = idx) by congruence.
  rewrite Hidx in *. clear Hidx r.
  destruct (IS_VALID buck) eqn:Hvalid.
  - destruct (Hlive eq_refl)
      as (map' & Herase & Htomb & Hothers & Hsz & _ & Hmask & Hent & Hwf').
    destruct (erase_callbacks _ _ _ _ Herase) as [Hhash Hcmp].
    assert (Hsame : same_but map map' idx).
    { unfold same_but. repeat (split; [done |]).
      intros i Hne. rewrite Hent. split; [apply Hothers |]; done. }
    assert (Hgone : forall b e, ~ live_at map' idx b e).
    { intros b e (Hb & Hvb & _). rewrite Htomb in Hb.
      injection Hb as <-. done. }
    assert (Hfull : ~ slot_empty map' idx).
    { unfold slot_empty. rewrite Htomb. done. }
    exists map', true. split; [done |]. split.
    { split; [done |]. split; [rewrite Hhash, Hcmp; done |].
      split; [| split].
      - apply (consistent_same_but map map' idx Hsame Hcons).
        intros b e Hl. destruct (Hgone b e Hl).
      - apply (reachable_same_but map map' idx Hsame Hfull Hreach).
        intros b e Hl. destruct (Hgone b e Hl).
      - apply (unique_same_but map map' idx Hsame Huniq).
        intros b e i b0 e0 Hl. destruct (Hgone b e Hl). }
    split; [done |]. split; [done |]. intros _.
    destruct Hcases as [[(Hbm & x & Hx & Hc) _] | [Hnot _]].
    + exists idx, (hash_entry map entry), x.
      unfold live_at, slot_tomb. done.
    + exfalso. apply Hnot. exists buck. done.
  - exists map, false. split; [apply Hdead; done |]. split; [done |].
    split; [done |]. split; [| done]. intros _. split; [done |].
    intros i bk x Hl. destruct (compare map x entry) eqn:Hc; [| done].
    exfalso. destruct Hcases as [[(Hbm & _) _] | [_ Hnone]].
    + assert (buck = hash_entry map entry) by congruence. subst buck.
      congruence.
    + destruct (live_on_path map entry i bk x n Hshape Hagree Hcons Hreach
                  Hl Hc Hfirst) as (j' & Hj' & <- & Hm).
      eapply Hnone; eauto.
Qed.

Lemma ext_map_put_inv map entry :
  map_inv map -> capacity_mask map < 2 ^ 60 -> size map < SIZE_MAX ->
  exists map1 idx map' b,
    put_grow junk map = Some map1 /\
    (over_load map = false -> map1 = map) /\
    compare map1 = compare map /\
    map_inv map1 /\ 0 < capacity_mask map1 /\
    ext_map_put junk map entry = Some (map', b) /\
    map_inv map' /\ 0 < capacity_mask map' /\
    live_at map' idx (hash_entry map entry) entry /\
    same_but map1 map' idx /\
    (forall i bk x, live_at map1 i bk x -> compare map x entry = true ->
       i = idx) /\
    (b = true -> ~ slot_live map1 idx) /\
    (b = false -> slot_match map1 entry (hash_entry map entry) idx) /\
    size map' = (if b then size map + 1 else size map).
Proof.
  intros Hinv Hbound Hsize.
  pose proof Hinv as (Hwf & _).
  destruct (put_grow_spec junk map Hwf Hbound)
    as (map1 & Hgrow & Hsame & Hgrown & Hsz1 & Hhash1 & Hcmp1 & Hwf1 & Hpos1 &
        Hload1).
  assert (Hinv1 : map_inv map1).
  { destruct (over_load map) eqn:Hover.
    - eapply map_grow_inv; eauto.
    - rewrite (Hsame eq_refl). done. }
  destruct (put_at_inv map1 entry Hinv1 Hpos1 Hload1 ltac:(lia))
    as (idx & map' & b & Hput & Hinv' & Hlive' & Hsb & Honly & Hb & Hm &
        Hsz').
  exists map1, idx, map', b.
  rewrite (hash_entry_ext map map1) in Hlive', Hm by done.
  rewrite Hcmp1 in Honly. rewrite Hsz1 in Hsz'.
  unfold ext_map_put. rewrite Hgrow. simpl.
  repeat (split; [done |]).
  split; [| done].
  destruct Hsb as (Hmask & _). lia.
Qed.

(** *** Lookups after updates *)

Lemma get_total map q :
  map_wf map -> 0 < capacity_mask map ->
  ext_map_get map q = Some None \/ exists x, ext_map_get map q = Some (Some x).
Proof.
  intros Hwf Hpos.
  destruct (wf_allocated map Hwf Hpos) as (Hshape & Hempty & _).
  destruct (get_outcome map q Hshape Hempty) as (n & _ & Hcases).
  destruct Hcases as [(idx & x & _ & _ & Hget) | [_ Hget]]; eauto.
Qed.

Lemma over_load_unallocated map :
  map_wf map -> over_load map = false -> 0 < capacity_mask map.
Proof.
  intros (_ & _ & [(Hm & _ & _ & Hn) | (k & Hk & Hmask & _)]) Hover.
  - unfold over_load in Hover. rewrite Hm, Hn in Hover. done.
  - assert (2 ^ 3 <= 2 ^ k) by (apply Z.pow_le_mono_r; lia). lia.
Qed.

Lemma ext_map_init_inv entry_sz (hash : E -> Z) compare :
  callbacks_agree hash compare -> map_inv (ext_map_init entry_sz hash compare).
Proof.
  intros Hagree. split; [apply ext_map_init_wf |]. split; [done |].
  split; [| split].
  - intros idx b e (Hb & _). apply load_lt in Hb. simpl in Hb. lia.
  - intros idx b e (Hb & _). apply load_lt in Hb. simpl in Hb. lia.
  - intros i1 i2 b1 b2 e1 e2 (Hb & _). apply load_lt in Hb. simpl in Hb. lia.
Qed.

Lemma ext_map_clear_inv map :
  map_inv map -> exists map', ext_map_clear map = Some map' /\ map_inv map'.
Proof.
  intros Hinv. pose proof Hinv as (Hwf & Hagree & _).
  destruct (ext_map_clear_cases map Hwf)
    as (map' & Hclear & Hwf' & Hhash & Hcmp & Hmask' & Hent & Hnop & Hdone).
  exists map'. split; [done |].
  destruct (Z.eq_dec (capacity_mask map) 0) as [Hz | Hnz].
  - rewrite (Hnop Hz). done.
  - assert (Hpos : 0 < capacity_mask map).
    { destruct Hwf as (_ & _ & [(Hm & _) | (k & Hk & Hmask & _)]); [lia |].
      assert (2 ^ 3 <= 2 ^ k) by (apply Z.pow_le_mono_r; lia). lia. }
    destruct (Hdone Hpos) as (_ & _ & Hbs).
    assert (Hnone : forall idx b e, ~ live_at map' idx b e).
    { intros idx b e (Hb & Hv & _). rewrite Hbs in Hb.
      apply load_Some in Hb as [_ Hb].
      apply lookup_replicate in Hb as [-> _]. done. }
    split; [done |]. split; [rewrite Hhash, Hcmp; done |].
    split; [| split].
    + intros idx b e Hl. destruct (Hnone _ _ _ Hl).
    + intros idx b e Hl. destruct (Hnone _ _ _ Hl).
    + intros i1 i2 b1 b2 e1 e2 Hl. destruct (Hnone _ _ _ Hl).
Qed.

(** X22. The invariant of the table: every live bucket caches the remapped
    hash of its record, no EMPTY slot lies on the probe path of a live
    record before its slot, and no two live slots hold records that
    [compare] holds equal.  For callbacks that agree ([compare] an
    equivalence, equal records hashing alike) it holds after
    [ext_map_init], and [ext_map_put] (also when it grows the table),
    [ext_map_erase] and [ext_map_clear] return and keep it. *)
Theorem map_inv_kept entry_sz (hash : E -> Z) (compare : E -> E -> bool)
    map entry :
  (callbacks_agree hash compare ->
   map_inv (ext_map_init entry_sz hash compare)) /\
  (map_inv map ->
   (capacity_mask map < 2 ^ 60 -> size map < SIZE_MAX ->
    exists map' b,
      ext_map_put junk map entry = Some (map', b) /\ map_inv map') /\
   (0 < capacity_mask map ->
    exists map' b,
      ext_map_erase map entry = Some (map', b) /\ map_inv map') /\
   (exists map', ext_map_clear map = Some map' /\ map_inv map')).
Proof.
  split; [apply ext_map_init_inv |]. intros Hinv. split; [| split].
  - intros Hbound Hsize.
    destruct (ext_map_put_inv map entry Hinv Hbound Hsize)
      as (map1 & idx & map' & b & _ & _ & _ & _ & _ & Hput & Hinv' & _).
    eauto.
  - intros Hpos.
    destruct (erase_inv map entry Hinv Hpos) as (map' & b & Herase & Hinv' & _).
    eauto.
  - apply ext_map_clear_inv. done.
Qed.

(** X23. On an allocated table that satisfies the invariant,
    [ext_map_get(q)] returns the record [e] exactly when some live slot
    holds [e] and [compare(e, q)] holds, and returns [NULL] exactly when no
    live slot holds a record that [compare] holds equal to [q]; it always
    returns one or the other. *)
Theorem ext_map_get_exact map q :
  map_inv map -> 0 < capacity_mask map ->
  (forall e, ext_map_get map q = Some (Some e) <->
     exists idx b, live_at map idx b e /\ compare map e q = true) /\
  (ext_map_get map q = Some None <->
     forall idx b e, live_at map idx b e -> compare map e q = false) /\
  (ext_map_get map q = Some None \/
   exists e, ext_map_get map q = Some (Some e)).
Proof.
  intros Hinv Hpos. pose proof Hinv as (Hwf & _). split; [| split].
  - intros e. split.
    + apply get_found_inv; done.
    + intros (idx & b & Hlive & Hc). eapply get_live; eauto.
  - split.
    + apply get_missing_inv; done.
    + apply get_absent; done.
  - apply get_total; done.
Qed.

(** X24. After [ext_map_put(entry)], a lookup with any record of the same
    key returns [entry], whether or not the put grew the table or replaced
    a record.  The put returns true and adds 1 to [size] when it filled a
    slot that was not live, and returns false and leaves [size] otherwise;
    when it does not grow the table, it returns true exactly when a lookup
    of [entry] returned [NULL] before. *)
Theorem put_then_get map entry :
  map_inv map -> capacity_mask map < 2 ^ 60 -> size map < SIZE_MAX ->
  exists map' b,
    ext_map_put junk map entry = Some (map', b) /\
    (forall q, compare map entry q = true ->
       ext_map_get map' q = Some (Some entry)) /\
    size map' = (if b then size map + 1 else size map) /\
    (over_load map = false ->
     (b = true <-> ext_map_get map entry = Some None)).
Proof.
  intros Hinv Hbound Hsize. pose proof Hinv as (Hwf & Hagree & _).
  destruct (ext_map_put_inv map entry Hinv Hbound Hsize)
    as (map1 & idx & map' & b & _ & Hsame & Hcmp1 & Hinv1 & Hpos1 & Hput &
        Hinv' & Hpos' & Hlive' & Hsb & Honly & Hnew & Hold & Hsz).
  exists map', b. split; [done |]. split; [| split; [done |]].
  - intros q Hc. apply (get_live map' q idx _ entry Hinv' Hpos' Hlive').
    destruct Hsb as (_ & _ & -> & _). rewrite Hcmp1. done.
  - intros Hover. rewrite (Hsame Hover) in *.
    pose proof (over_load_unallocated map Hwf Hover) as Hpos.
    destruct b.
    + split; [intros _ | done].
      apply (get_absent map entry Hwf Hpos).
      intros i bk x Hl. destruct (compare map x entry) eqn:Hc; [| done].
      exfalso. apply (Hnew eq_refl).
      rewrite <- (Honly i bk x Hl Hc).
      destruct Hl as (Hb & Hv & _). exists bk. done.
    + split; [done |]. intros Hget. exfalso.
      destruct (Hold eq_refl) as (Hb & x & Hx & Hc).
      assert (Hl : live_at map idx (hash_entry map entry) x).
      { unfold live_at. split; [done |]. split; [| done].
        apply hash_entry_valid. }
      rewrite (get_live map entry idx _ x Hinv Hpos Hl Hc) in Hget. done.
Qed.

(** Two tables that hold the same live records with the key of [q] answer
    a lookup of [q] alike. *)
Lemma get_same_live map map' q :
  map_inv map -> map_inv map' ->
  0 < capacity_mask map -> 0 < capacity_mask map' ->
  compare map' = compare map ->
  (forall i b e, compare map e q = true -> live_at map i b e ->
     exists i' b', live_at map' i' b' e) ->
  (forall i b e, compare map e q = true -> live_at map' i b e ->
     exists i' b', live_at map i' b' e) ->
  ext_map_get map' q = ext_map_get map q.
Proof.
  intros Hinv Hinv' Hpos Hpos' Hcmp Hto Hfrom.
  destruct (get_total map q (proj1 Hinv) Hpos) as [Hn | [x Hx]].
  - rewrite Hn. apply get_absent; [apply Hinv' | done |].
    intros i b e Hl. rewrite Hcmp.
    destruct (compare map e q) eqn:Hc; [| done].
    destruct (Hfrom _ _ _ Hc Hl) as (i' & b' & Hl').
    rewrite (get_missing_inv map q Hinv Hpos Hn _ _ _ Hl') in Hc. done.
  - rewrite Hx.
    destruct (get_found_inv map q x Hinv Hpos Hx) as (i & b & Hl & Hc).
    destruct (Hto _ _ _ Hc Hl) as (i' & b' & Hl').
    eapply get_live; eauto. rewrite Hcmp. done.
Qed.

(** X25. An [ext_map_put(entry)] that does not grow the table leaves the
    lookups of all other keys as they were: for every [q] that [compare]
    does not hold equal to [entry], [ext_map_get(q)] returns after the put
    what it returned before. *)
Theorem put_keeps_other_keys map entry :
  map_inv map -> capacity_mask map < 2 ^ 60 -> size map < SIZE_MAX ->
  over_load map = false ->
  exists map' b,
    ext_map_put junk map entry = Some (map', b) /\
    forall q, compare map entry q = false ->
      ext_map_get map' q = ext_map_get map q.
Proof.
  intros Hinv Hbound Hsize Hover. pose proof Hinv as (Hwf & Hagree & _).
  destruct (ext_map_put_inv map entry Hinv Hbound Hsize)
    as (map1 & idx & map' & b & _ & Hsame & Hcmp1 & Hinv1 & Hpos1 & Hput &
        Hinv' & Hpos' & Hlive' & Hsb & Honly & Hnew & Hold & Hsz).
  rewrite (Hsame Hover) in *. clear Hsame Hcmp1 Hinv1.
  exists map', b. split; [done |]. intros q Hq.
  destruct Hagree as (_ & Hsym & Htrans & _).
  apply get_same_live; [done | done | done | done | apply Hsb | |].
  - intros i bk e Hc Hl. exists i, bk.
    apply (same_but_live map map' idx); [done | | done].
    intros ->. destruct b.
    + apply (Hnew eq_refl). destruct Hl as (Hb & Hv & _). exists bk. done.
    + destruct (Hold eq_refl) as (_ & x & Hx & Hcx).
      destruct Hl as (_ & _ & He).
      assert (x = e) by congruence. subst x.
      rewrite (Htrans entry e q (Hsym _ _ Hcx) Hc) in Hq. done.
  - intros i bk e Hc Hl. exists i, bk.
    apply (same_but_live map map' idx); [done | | done].
    intros ->. destruct Hl as (_ & _ & He). destruct Hlive' as (_ & _ & He').
    assert (e = entry) by congruence. subst e. congruence.
Qed.

(** X26. After [ext_map_erase(entry)] on an allocated table, a lookup with
    any record of the same key returns [NULL].  The erase returns true, and
    takes 1 from [size], exactly when a lookup of [entry] found a record
    before; otherwise it returns false and leaves the table as it was. *)
Theorem erase_then_get map entry :
  map_inv map -> 0 < capacity_mask map ->
  exists map' b,
    ext_map_erase map entry = Some (map', b) /\
    (forall q, compare map entry q = true ->
       ext_map_get map' q = Some None) /\
    (b = true <-> exists x, ext_map_get map entry = Some (Some x)) /\
    (b = true -> size map' = size map - 1) /\
    (b = false -> map' = map).
Proof.
  intros Hinv Hpos. pose proof Hinv as (Hwf & Hagree & _ & _ & Huniq).
  destruct (erase_inv map entry Hinv Hpos)
    as (map' & b & Herase & Hinv' & Hmask' & Hmiss & Hhit).
  destruct Hagree as (_ & Hsym & Htrans & _).
  exists map', b. split; [done |]. split; [| split; [| split]].
  - intros q Hq. apply get_absent; [apply Hinv' | lia |].
    intros i bk e Hl. destruct b.
    + destruct (Hhit eq_refl) as (idx & bx & x & Hlx & Hcx & Htomb & Hsb & _).
      assert (Hcmp : compare map' = compare map) by apply Hsb.
      rewrite Hcmp.
      destruct (compare map e q) eqn:Hc; [| done]. exfalso.
      assert (Hne : i <> idx).
      { intros ->. destruct Hl as (Hb & Hv & _). unfold slot_tomb in Htomb.
        rewrite Htomb in Hb. injection Hb as <-. done. }
      apply (same_but_live map map' idx) in Hl; [| done | done].
      apply Hne. apply (Huniq i idx bk bx e x Hl Hlx).
      apply (Htrans e entry x); [| apply Hsym; done].
      apply (Htrans e q entry); [done | apply Hsym; done].
    + destruct (Hmiss eq_refl) as [-> Hnone].
      destruct (compare map e q) eqn:Hc; [| done]. exfalso.
      pose proof (Hnone i bk e Hl) as Hf.
      rewrite (Htrans e q entry Hc (Hsym _ _ Hq)) in Hf. done.
  - split.
    + intros ->.
      destruct (Hhit eq_refl) as (idx & bx & x & Hlx & Hcx & _).
      exists x. eapply get_live; eauto.
    + intros [x Hx]. destruct b; [done |].
      destruct (Hmiss eq_refl) as [_ Hnone].
      rewrite (get_absent map entry Hwf Hpos Hnone) in Hx. done.
  - intros ->.
    destruct (Hhit eq_refl) as (idx & bx & x & _ & _ & _ & _ & Hsz). done.
  - intros ->. apply (Hmiss eq_refl).
Qed.

(** X27. [ext_map_erase(entry)] leaves the lookups of all other keys as
    they were: for every [q] that [compare] does not hold equal to
    [entry], [ext_map_get(q)] returns after the erase what it returned
    before. *)
Theorem erase_keeps_other_keys map entry :
  map_inv map -> 0 < capacity_mask map ->
  exists map' b,
    ext_map_erase map entry = Some (map', b) /\
    forall q, compare map entry q = false ->
      ext_map_get map' q = ext_map_get map q.
Proof.
  intros Hinv Hpos. pose proof Hinv as (Hwf & Hagree & _ & _ & Huniq).
  destruct (erase_inv map entry Hinv Hpos)
    as (map' & b & Herase & Hinv' & Hmask' & Hmiss & Hhit).
  destruct Hagree as (_ & Hsym & Htrans & _).
  exists map', b. split; [done |]. intros q Hq. destruct b.
  - destruct (Hhit eq_refl) as (idx & bx & x & Hlx & Hcx & Htomb & Hsb & _).
    apply get_same_live; [done | done | done | lia | apply Hsb | |].
    + intros i bk e Hc Hl. exists i, bk.
      apply (same_but_live map map' idx); [done | | done].
      intros ->. destruct Hl as (_ & _ & He). destruct Hlx as (_ & _ & Hx).
      assert (x = e) by congruence. subst x.
      rewrite (Htrans entry e q (Hsym _ _ Hcx) Hc) in Hq. done.
    + intros i bk e Hc Hl. exists i, bk.
      apply (same_but_live map map' idx); [done | | done].
      intros ->. destruct Hl as (Hb & Hv & _). unfold slot_tomb in Htomb.
      rewrite Htomb in Hb. injection Hb as <-. done.
  - destruct (Hmiss eq_refl) as [-> _]. done.
Qed.

(** X28. [map_grow] on a table that satisfies the invariant returns a
    table that satisfies it: the capacity is 8 on the first allocation and
    doubles afterwards, [size] is unchanged, no bucket is a TOMBSTONE and
    [num_entries] counts the live slots of the old table.  Every live slot
    of the new table holds a record of a live slot of the old one, at the
    index [hash & capacity_mask] of its cached hash; a record a lookup
    finds after the rehash is the one the same lookup found before. *)
Theorem map_grow_rehash map :
  map_inv map -> capacity_mask map < 2 ^ 60 ->
  exists map',
    map_grow junk map = Some map' /\ map_inv map' /\
    size map' = size map /\
    capacity_mask map' =
      (if capacity_mask map =? 0 then INITIAL_CAPACITY - 1
       else 2 * capacity_mask map + 1) /\
    num_entries map' = live_slots map /\
    Forall not_tomb (buckets map') /\
    (forall idx b e, live_at map' idx b e ->
       idx = Z.land b (capacity_mask map') /\ exists j, live_at map j b e) /\
    (0 < capacity_mask map ->
     forall q e, ext_map_get map' q = Some (Some e) ->
       ext_map_get map q = Some (Some e)).
Proof.
  intros Hinv Hbound. pose proof Hinv as (Hwf & _).
  destruct (map_grow_spec junk map Hwf Hbound)
    as (map' & Hgrow & Hhash & Hcmp & _ & Hsz & Hmask & Hnum & Htomb & _ &
        Hwf').
  pose proof (map_grow_inv map map' Hinv Hbound Hgrow) as Hinv'.
  pose proof (map_grow_at_home map map' Hgrow) as Hhome.
  exists map'. repeat (split; [done |]).
  intros Hpos q e Hget.
  assert (Hpos' : 0 < capacity_mask map').
  { rewrite Hmask. destruct (capacity_mask map =? 0);
      unfold INITIAL_CAPACITY; lia. }
  destruct (get_found_inv map' q e Hinv' Hpos' Hget) as (idx & b & Hl & Hc).
  destruct (Hhome _ _ _ Hl) as (_ & j & Hold).
  rewrite Hcmp in Hc. eapply get_live; eauto.
Qed.

(** The live slots of a table of which one bucket was rewritten. *)
Lemma live_slots_same_but map map' idx old new :
  same_but map map' idx ->
  load (buckets map) idx = Some old -> load (buckets map') idx = Some new ->
  live_slots map' =
  live_slots map - (if IS_VALID old then 1 else 0)
  + (if IS_VALID new then 1 else 0).
Proof.
  intros (_ & _ & _ & Hs) Hold Hnew.
  apply load_Some in Hold as [Hi Hold]. apply load_Some in Hnew as [_ Hnew].
  assert (Heq : buckets map' = <[Z.to_nat idx := new]> (buckets map)).
  { apply list_eq. intros i.
    destruct (decide (i = Z.to_nat idx)) as [-> | Hne].
    - rewrite list_lookup_insert_eq by (apply lookup_lt_Some in Hold; done).
      done.
    - rewrite list_lookup_insert_ne by done. rewrite <- !load_nat.
      apply Hs. lia. }
  unfold live_slots. rewrite Heq. apply count_slots_insert. done.
Qed.

(** X30. [size] counts the live slots, and so the records an iteration
    visits: on a table that satisfies the invariant and where [size] is the
    number of live slots, it still is after an [ext_map_put] that does not
    grow the table, after [ext_map_erase] and after [ext_map_clear]. *)
Theorem ext_map_size_counts_live map entry :
  map_inv map -> size map = live_slots map ->
  (capacity_mask map < 2 ^ 60 -> size map < SIZE_MAX ->
   over_load map = false ->
   exists map' b,
     ext_map_put junk map entry = Some (map', b) /\
     size map' = live_slots map') /\
  (0 < capacity_mask map ->
   exists map' b,
     ext_map_erase map entry = Some (map', b) /\
     size map' = live_slots map') /\
  (exists map', ext_map_clear map = Some map' /\ size map' = live_slots map').
Proof.
  intros Hinv Hcount. pose proof Hinv as (Hwf & _). split; [| split].
  - intros Hbound Hsize Hover.
    destruct (ext_map_put_inv map entry Hinv Hbound Hsize)
      as (map1 & idx & map' & b & _ & Hsame & _ & _ & Hpos & Hput &
          Hinv' & Hpos' & Hlive' & Hsb & _ & Hnew & Hold & Hsz).
    rewrite (Hsame Hover) in *. clear Hsame.
    exists map', b. split; [done |].
    destruct Hlive' as (Hb' & Hv' & _).
    destruct (wf_allocated map Hwf Hpos) as ((k & Hk & Hmask & Hlb & _) & _).
    destruct (wf_allocated map' (proj1 Hinv') Hpos')
      as ((k' & Hk' & Hmask' & Hlb' & _) & _).
    assert (Hm : capacity_mask map' = capacity_mask map) by apply Hsb.
    pose proof (load_lt _ _ _ Hb') as Hrange.
    destruct (load_in_range (buckets map) idx ltac:(lia)) as [old Hload].
    rewrite (live_slots_same_but map map' idx old _ Hsb Hload Hb').
    rewrite Hv', Hsz. destruct b.
    + destruct (IS_VALID old) eqn:Hvo; [| lia].
      exfalso. apply (Hnew eq_refl). exists old. done.
    + destruct (Hold eq_refl) as (Hbm & _).
      assert (old = hash_entry map entry) by congruence. subst old.
      rewrite Hv'. lia.
  - intros Hpos.
    destruct (erase_inv map entry Hinv Hpos)
      as (map' & b & Herase & _ & _ & Hmiss & Hhit).
    exists map', b. split; [done |]. destruct b.
    + destruct (Hhit eq_refl)
        as (idx & bk & x & (Hb & Hv & _) & _ & Htomb & Hsb & Hsz).
      rewrite (live_slots_same_but map map' idx bk _ Hsb Hb Htomb).
      rewrite Hv, Hsz. change (IS_VALID TOMB_MARK) with false.
      cbv iota. lia.
    + destruct (Hmiss eq_refl) as [-> _]. done.
  - destruct (ext_map_clear_cases map Hwf)
      as (map' & Hclear & _ & _ & _ & _ & _ & Hnop & Hdone).
    exists map'. split; [done |].
    destruct (Z.eq_dec (capacity_mask map) 0) as [Hz | Hnz].
    + rewrite (Hnop Hz). done.
    + assert (Hpos : 0 < capacity_mask map).
      { destruct Hwf as (_ & _ & [(Hm & _) | (k & Hk & Hmask & _)]); [lia |].
        assert (2 ^ 3 <= 2 ^ k) by (apply Z.pow_le_mono_r; lia). lia. }
      destruct (Hdone Hpos) as (Hsz & _ & Hbs).
      unfold live_slots. rewrite Hsz, Hbs, count_slots_replicate. done.
Qed.

(** One call of a sequence of puts. *)
Lemma put_all_step map e l map1 b :
  ext_map_put junk map e = Some (map1, b) ->
  put_all junk map (e :: l) = put_all junk map1 l.
Proof.
  intros Hput.
  change (put_all junk map (e :: l))
    with (ext_map_put junk map e ≫= fun '(map', _) => put_all junk map' l).
  rewrite Hput. done.
Qed.


End facts.

End MapMoreFacts.

(** ** The further properties on the inputs of the examples *)

Module VecMoreExamples.
Import Vec VecFacts VecMore VecMoreFacts VecExample MoreExample.


Lemma ext_vec_erase_elements_witness :
  vec_wf two_of_four /\
  0 <= 0 <= SIZE_MAX /\
  ((0 < ext_vec_size two_of_four ->
    exists vec',
      ext_vec_erase two_of_four (Tight 0) = Some vec' /\ vec_wf vec' /\
      ext_vec_size vec' = ext_vec_size two_of_four - 1 /\
      ext_vec_capacity vec' = ext_vec_capacity two_of_four /\
      elements vec'
      = take (Z.to_nat 0) (elements two_of_four) ++ drop (S (Z.to_nat 0)) (elements two_of_four)) /\
   (ext_vec_size two_of_four <= 0 -> ext_vec_erase two_of_four (Tight 0) = None)).
Proof.
  assert (H1 : vec_wf two_of_four)
    by (unfold vec_wf, two_of_four, SIZE_MAX; simpl; lia).
  assert (H2 : 0 <= 0 <= SIZE_MAX)
    by (vm_compute; repeat constructor; congruence).
  split; [exact H1 |].
  split; [exact H2 |].
  exact (ext_vec_erase_elements two_of_four 0 H1 H2).
Defined.

Lemma insert_erase_round_trip_witness :
  vec_wf two_of_four /\
  ext_vec_capacity two_of_four < 2 ^ 62 /\
  0 <= 1 /\
  ((1 <= ext_vec_size two_of_four ->
    exists vec1 vec2,
      ext_vec_insert 0 two_of_four (Tight 1) 20 = Some vec1 /\
      ext_vec_erase vec1 (Tight 1) = Some vec2 /\
      elements vec2 = elements two_of_four) /\
   (1 < ext_vec_size two_of_four -> ext_vec_at two_of_four 1 = Some 20 ->
    exists vec1 vec2,
      ext_vec_erase two_of_four (Tight 1) = Some vec1 /\
      ext_vec_insert 0 vec1 (Tight 1) 20 = Some vec2 /\
      elements vec2 = elements two_of_four)).
Proof.
  assert (H1 : vec_wf two_of_four)
    by (unfold vec_wf, two_of_four, SIZE_MAX; simpl; lia).
  assert (H2 : ext_vec_capacity two_of_four < 2 ^ 62)
    by (vm_compute; repeat constructor; congruence).
  assert (H3 : 0 <= 1)
    by (vm_compute; repeat constructor; congruence).
  split; [exact H1 |].
  split; [exact H2 |].
  split; [exact H3 |].
  exact (insert_erase_round_trip 0 two_of_four 1 20 H1 H2 H3).
Defined.


Lemma ext_vec_push_back_all_elements_witness :
  vec_wf two_of_four /\
  0 <= 2 <= Z.of_nat (length [30; 40; 50]) /\
  Z.of_nat (length [30; 40; 50]) <= SIZE_MAX /\
  ext_vec_capacity two_of_four < 2 ^ 62 /\
  ext_vec_size two_of_four + 2 < 2 ^ 62 /\
  ((two_of_four = None \/ ext_vec_size two_of_four + 2 <= ext_vec_capacity two_of_four ->
    exists vec',
      ext_vec_push_back_all 0 two_of_four [30; 40; 50] 2 = Some vec' /\ vec_wf vec' /\
      ext_vec_size vec' = ext_vec_size two_of_four + 2 /\
      ext_vec_capacity vec'
      = Z.max (ext_vec_capacity two_of_four) (ext_vec_size two_of_four + 2) /\
      elements vec' = elements two_of_four ++ take (Z.to_nat 2) [30; 40; 50]) /\
   (two_of_four <> None -> ext_vec_capacity two_of_four < ext_vec_size two_of_four + 2 ->
    ext_vec_push_back_all 0 two_of_four [30; 40; 50] 2 = None)).
Proof.
  assert (H1 : vec_wf two_of_four)
    by (unfold vec_wf, two_of_four, SIZE_MAX; simpl; lia).
  assert (H2 : 0 <= 2 <= Z.of_nat (length [30; 40; 50]))
    by (vm_compute; repeat constructor; congruence).
  assert (H3 : Z.of_nat (length [30; 40; 50]) <= SIZE_MAX)
    by (vm_compute; repeat constructor; congruence).
  assert (H4 : ext_vec_capacity two_of_four < 2 ^ 62)
    by (vm_compute; repeat constructor; congruence).
  assert (H5 : ext_vec_size two_of_four + 2 < 2 ^ 62)
    by (vm_compute; repeat constructor; congruence).
  split; [exact H1 |].
  split; [exact H2 |].
  split; [exact H3 |].
  split; [exact H4 |].
  split; [exact H5 |].
  exact (ext_vec_push_back_all_elements 0 two_of_four [30; 40; 50] 2 H1 H2 H3 H4 H5).
Defined.

Lemma push_back_then_pop_back_witness :
  vec_wf two_of_four /\
  ext_vec_capacity two_of_four < 2 ^ 62 /\
  ((exists vec1 vec2,
      ext_vec_push_back 0 two_of_four 30 = Some vec1 /\
      ext_vec_back vec1 = Some 30 /\
      ext_vec_front vec1 = (elements two_of_four ++ [30]) !! O /\
      ext_vec_pop_back vec1 = Some vec2 /\
      elements vec2 = elements two_of_four /\ ext_vec_size vec2 = ext_vec_size two_of_four) /\
   (ext_vec_size two_of_four = 0 ->
    ext_vec_pop_back two_of_four = None /\ ext_vec_back two_of_four = None)).
Proof.
  assert (H1 : vec_wf two_of_four)
    by (unfold vec_wf, two_of_four, SIZE_MAX; simpl; lia).
  assert (H2 : ext_vec_capacity two_of_four < 2 ^ 62)
    by (vm_compute; repeat constructor; congruence).
  split; [exact H1 |].
  split; [exact H2 |].
  exact (push_back_then_pop_back 0 two_of_four 30 H1 H2).
Defined.

Lemma push_back_doubles_capacity_witness :
  [1; 2; 3; 4; 5] <> [] /\
  Z.of_nat (length [1; 2; 3; 4; 5]) < 2 ^ 60 /\
  (exists vec,
     push_all 0 None [1; 2; 3; 4; 5] = Some vec /\ vec_wf vec /\
     elements vec = [1; 2; 3; 4; 5] /\ ext_vec_size vec = Z.of_nat (length [1; 2; 3; 4; 5]) /\
     doubled vec).
Proof.
  assert (H1 : [1; 2; 3; 4; 5] <> [])
    by (vm_compute; repeat constructor; congruence).
  assert (H2 : Z.of_nat (length [1; 2; 3; 4; 5]) < 2 ^ 60)
    by (vm_compute; repeat constructor; congruence).
  split; [exact H1 |].
  split; [exact H2 |].
  exact (push_back_doubles_capacity 0 [1; 2; 3; 4; 5] H1 H2).
Defined.

Lemma ext_vec_foreach_in_order_witness :
  vec_wf two_of_four /\
  (ext_vec_foreach sum_until_20 two_of_four 0
   = Some (run_until_break sum_until_20 (elements two_of_four) 0)).
Proof.
  assert (H1 : vec_wf two_of_four)
    by (unfold vec_wf, two_of_four, SIZE_MAX; simpl; lia).
  split; [exact H1 |].
  exact (ext_vec_foreach_in_order sum_until_20 two_of_four 0 H1).
Defined.

Lemma ext_vec_iterate_elements_witness :
  vec_wf two_of_four /\
  (iterate_all two_of_four = Some (elements two_of_four) /\
   ext_vec_foreach collect two_of_four [] = iterate_all two_of_four /\
   (ext_vec_begin two_of_four = ext_vec_end two_of_four <-> ext_vec_size two_of_four = 0) /\
   (two_of_four = None -> ext_vec_begin two_of_four = None /\ ext_vec_end two_of_four = None)).
Proof.
  assert (H1 : vec_wf two_of_four)
    by (unfold vec_wf, two_of_four, SIZE_MAX; simpl; lia).
  split; [exact H1 |].
  exact (ext_vec_iterate_elements two_of_four H1).
Defined.

(** The index written without parentheses: with the argument [k - 1],
    [k = 2], [ext_vec_erase] shifts [size - 2 - 1 - 1] cells, one instead of
    the three it shifts with the argument [1]: the cell at index 1 takes
    the value of the next one, the cells above stay, and the size drops by
    one.  With the argument [size - 1], [size = 5], the number of cells
    wraps around and the shift leaves the block. *)
Lemma ext_vec_erase_unparenthesised_index :
  elements <$> ext_vec_erase ten_to_fifty (Tight 1) = Some [10; 30; 40; 50] /\
  elements <$> ext_vec_erase ten_to_fifty (Minus (Tight 2) 1)
    = Some [10; 30; 30; 40] /\
  ext_vec_erase ten_to_fifty (Minus (Tight 5) 1) = None.
Proof. vm_compute. done. Qed.

(** The vector of example.c: [ext_vec_push_back_all] on the [NULL] vector,
    and on the vector that results, which has no room left. *)
Lemma ext_vec_push_back_all_twice :
  elements <$> ext_vec_push_back_all 0 None [1; 2; 3; 4; 5] 5
    = Some [1; 2; 3; 4; 5] /\
  ext_vec_push_back_all 0 (Some (mk_header 5 5 [1; 2; 3; 4; 5])) [6] 1 = None.
Proof. vm_compute. done. Qed.

End VecMoreExamples.

Module StrMoreExamples.
Import Str StrFacts StrMore StrMoreFacts StrExample MoreExample.

Lemma ext_str_new_dup_content_witness :
  Z.of_nat (length (c_string "foo")) <= SIZE_MAX /\
  x00 ∈ (c_string "foo") /\
  str_shape abc_foo /\
  ((exists new,
      ext_str_new xaa (c_string "foo") = Some new /\ fresh_token new /\
      content new = c_bytes (c_string "foo") /\ x00 ∉ content new) /\
   (exists dup,
      ext_str_dup xaa abc_foo = Some dup /\ fresh_token dup /\
      content dup = content abc_foo)).
Proof.
  assert (H1 : Z.of_nat (length (c_string "foo")) <= SIZE_MAX)
    by (vm_compute; repeat constructor; congruence).
  assert (H2 : x00 ∈ (c_string "foo"))
    by (vm_compute; repeat constructor; congruence).
  assert (H3 : str_shape abc_foo)
    by (unfold str_shape, abc_foo, SIZE_MAX; simpl; lia).
  split; [exact H1 |].
  split; [exact H2 |].
  split; [exact H3 |].
  exact (ext_str_new_dup_content xaa (c_string "foo") abc_foo H1 H2 H3).
Defined.

Lemma ext_str_substr_content_witness :
  str_shape abc_foo /\
  0 <= 4 /\
  0 <= 7 /\
  ((4 <= 7 <= size abc_foo ->
    exists sub,
      ext_str_substr xaa abc_foo 4 7 = Some sub /\ fresh_token sub /\
      size sub = 7 - 4 /\
      content sub
      = take (Z.to_nat (7 - 4)) (drop (Z.to_nat 4) (content abc_foo))) /\
   (7 < 4 \/ size abc_foo < 7 -> ext_str_substr xaa abc_foo 4 7 = None) /\
   ext_str_substr xaa abc_foo 0 (size abc_foo) = ext_str_dup xaa abc_foo).
Proof.
  assert (H1 : str_shape abc_foo)
    by (unfold str_shape, abc_foo, SIZE_MAX; simpl; lia).
  assert (H2 : 0 <= 4)
    by (vm_compute; repeat constructor; congruence).
  assert (H3 : 0 <= 7)
    by (vm_compute; repeat constructor; congruence).
  split; [exact H1 |].
  split; [exact H2 |].
  split; [exact H3 |].
  exact (ext_str_substr_content xaa abc_foo 4 7 H1 H2 H3).
Defined.

Lemma ext_str_append_content_witness :
  str_shape abc_foo /\
  capacity abc_foo <= 2 ^ 62 /\
  str_shape empty_string /\
  size abc_foo + size empty_string < 2 ^ 62 /\
  x00 ∈ (c_string "foo") /\
  size abc_foo + Z.of_nat (length (c_string "foo")) < 2 ^ 62 /\
  ((exists str',
      ext_str_append_str xaa abc_foo empty_string = Some str' /\ str_wf str' /\
      size str' = size abc_foo + size empty_string /\
      content str' = content abc_foo ++ content empty_string) /\
   (exists str',
      ext_str_append xaa abc_foo (c_string "foo") = Some str' /\ str_wf str' /\
      content str' = content abc_foo ++ c_bytes (c_string "foo"))).
Proof.
  assert (H1 : str_shape abc_foo)
    by (unfold str_shape, abc_foo, SIZE_MAX; simpl; lia).
  assert (H2 : capacity abc_foo <= 2 ^ 62)
    by (vm_compute; repeat constructor; congruence).
  assert (H3 : str_shape empty_string)
    by (unfold str_shape, empty_string, SIZE_MAX; simpl; lia).
  assert (H4 : size abc_foo + size empty_string < 2 ^ 62)
    by (vm_compute; repeat constructor; congruence).
  assert (H5 : x00 ∈ (c_string "foo"))
    by (vm_compute; repeat constructor; congruence).
  assert (H6 : size abc_foo + Z.of_nat (length (c_string "foo")) < 2 ^ 62)
    by (vm_compute; repeat constructor; congruence).
  split; [exact H1 |].
  split; [exact H2 |].
  split; [exact H3 |].
  split; [exact H4 |].
  split; [exact H5 |].
  split; [exact H6 |].
  exact (ext_str_append_content xaa abc_foo empty_string (c_string "foo") H1 H2 H3 H4 H5 H6).
Defined.

Lemma ext_str_reserve_shrink_witness :
  str_wf abc_foo /\
  0 <= 40 < SIZE_MAX /\
  ((str_wf (ext_str_reserve xaa abc_foo 40) /\
    content (ext_str_reserve xaa abc_foo 40) = content abc_foo /\
    capacity (ext_str_reserve xaa abc_foo 40)
    = Z.max (capacity abc_foo) (40 + 1)) /\
   (str_wf (ext_str_shrink_to_fit xaa abc_foo) /\
    content (ext_str_shrink_to_fit xaa abc_foo) = content abc_foo /\
    capacity (ext_str_shrink_to_fit xaa abc_foo) = size abc_foo + 1) /\
   (str_wf (ext_str_shrink_to_fit xaa (ext_str_reserve xaa abc_foo 40)) /\
    content (ext_str_shrink_to_fit xaa (ext_str_reserve xaa abc_foo 40))
    = content abc_foo /\
    capacity (ext_str_shrink_to_fit xaa (ext_str_reserve xaa abc_foo 40))
    = size abc_foo + 1)).
Proof.
  assert (H1 : str_wf abc_foo)
    by (split; [unfold str_shape, abc_foo, SIZE_MAX; simpl; lia | reflexivity]).
  assert (H2 : 0 <= 40 < SIZE_MAX)
    by (vm_compute; repeat constructor; congruence).
  split; [exact H1 |].
  split; [exact H2 |].
  exact (ext_str_reserve_shrink xaa abc_foo 40 H1 H2).
Defined.

Lemma ext_str_vfmt_append_vfmt_content_witness :
  str_shape abc_foo /\
  capacity abc_foo <= 2 ^ 62 /\
  0 <= 2 < 2 ^ 61 /\
  Z.of_nat (length foo) < 2 ^ 31 /\
  size abc_foo + Z.of_nat (length foo) < 2 ^ 61 /\
  ((exists new,
      ext_str_vfmt xaa 2 foo = Some new /\ str_wf new /\
      content new = foo) /\
   (exists str',
      ext_str_append_vfmt xaa abc_foo foo = Some str' /\ str_wf str' /\
      size str' = size abc_foo + Z.of_nat (length foo) /\
      content str' = content abc_foo ++ foo)).
Proof.
  assert (H1 : str_shape abc_foo)
    by (unfold str_shape, abc_foo, SIZE_MAX; simpl; lia).
  assert (H2 : capacity abc_foo <= 2 ^ 62)
    by (vm_compute; repeat constructor; congruence).
  assert (H3 : 0 <= 2 < 2 ^ 61)
    by (vm_compute; repeat constructor; congruence).
  assert (H4 : Z.of_nat (length foo) < 2 ^ 31)
    by (vm_compute; repeat constructor; congruence).
  assert (H5 : size abc_foo + Z.of_nat (length foo) < 2 ^ 61)
    by (vm_compute; repeat constructor; congruence).
  split; [exact H1 |].
  split; [exact H2 |].
  split; [exact H3 |].
  split; [exact H4 |].
  split; [exact H5 |].
  exact (ext_str_vfmt_append_vfmt_content xaa abc_foo 2 foo H1 H2 H3 H4 H5).
Defined.

Lemma ext_str_find_char_first_witness :
  str_shape abc_foo /\
  0 <= 0 /\
  (exists r,
     ext_str_find_char true abc_foo 0 111 = Some r /\
     (r = ext_str_npos \/
      (0 <= r < size abc_foo /\ char_at true abc_foo 111 r /\
       forall j, 0 <= j < r -> ~ char_at true abc_foo 111 j)) /\
     (r = ext_str_npos <->
      ~ exists j, 0 <= j /\ char_at true abc_foo 111 j) /\
     (forall b, 111 = char_to_int true b ->
        ext_str_find_len abc_foo 0 [b] 1 = Some r)).
Proof.
  assert (H1 : str_shape abc_foo)
    by (unfold str_shape, abc_foo, SIZE_MAX; simpl; lia).
  assert (H2 : 0 <= 0)
    by (vm_compute; repeat constructor; congruence).
  split; [exact H1 |].
  split; [exact H2 |].
  exact (ext_str_find_char_first true abc_foo 0 111 H1 H2).
Defined.

Lemma ext_str_rfind_char_last_witness :
  str_shape abc_foo /\
  0 <= 0 /\
  (exists r,
     ext_str_rfind_char true abc_foo 0 111 = Some r /\
     (size abc_foo <= 0 -> r = ext_str_npos) /\
     (r = ext_str_npos \/
      (0 < size abc_foo /\ 0 <= r <= size abc_foo - 0 - 1 /\
       char_at true abc_foo 111 r /\
       forall j, r < j <= size abc_foo - 0 - 1 ->
         ~ char_at true abc_foo 111 j)) /\
     (r = ext_str_npos <->
      ~ (0 < size abc_foo /\
         exists j, j <= size abc_foo - 0 - 1 /\
           char_at true abc_foo 111 j)) /\
     (forall b, 111 = char_to_int true b -> 0 <> 1 ->
        ext_str_rfind_len abc_foo 0 [b] 1 = Some r)).
Proof.
  assert (H1 : str_shape abc_foo)
    by (unfold str_shape, abc_foo, SIZE_MAX; simpl; lia).
  assert (H2 : 0 <= 0)
    by (vm_compute; repeat constructor; congruence).
  split; [exact H1 |].
  split; [exact H2 |].
  exact (ext_str_rfind_char_last true abc_foo 0 111 H1 H2).
Defined.

Lemma ext_str_compare_order_witness :
  str_shape empty_string /\
  str_shape abc_foo /\
  (ext_str_compare empty_string abc_foo = Some (lex_compare (content empty_string) (content abc_foo)) /\
   (ext_str_compare empty_string abc_foo = Some Eq <-> content empty_string = content abc_foo) /\
   ext_str_compare abc_foo empty_string = (CompOpp <$> ext_str_compare empty_string abc_foo) /\
   (forall l, l <> [] -> content abc_foo = content empty_string ++ l ->
      ext_str_compare empty_string abc_foo = Some Lt)).
Proof.
  assert (H1 : str_shape empty_string)
    by (unfold str_shape, empty_string, SIZE_MAX; simpl; lia).
  assert (H2 : str_shape abc_foo)
    by (unfold str_shape, abc_foo, SIZE_MAX; simpl; lia).
  split; [exact H1 |].
  split; [exact H2 |].
  exact (ext_str_compare_order empty_string abc_foo H1 H2).
Defined.

Lemma ext_str_to_lower_upper_content_witness :
  str_wf abc_foo /\
  ((exists lo,
      ext_str_to_lower true c_tolower abc_foo = Some lo /\ str_wf lo /\
      size lo = size abc_foo /\ capacity lo = capacity abc_foo /\
      content lo = case_byte true c_tolower <$> content abc_foo /\
      ((forall b, case_byte true c_tolower
                    (case_byte true c_tolower b)
                  = case_byte true c_tolower b) ->
       exists lo2,
         ext_str_to_lower true c_tolower lo = Some lo2 /\
         content lo2 = content lo)) /\
   (exists up,
      ext_str_to_upper true c_toupper abc_foo = Some up /\ str_wf up /\
      size up = size abc_foo /\ capacity up = capacity abc_foo /\
      content up = case_byte true c_toupper <$> content abc_foo)).
Proof.
  assert (H1 : str_wf abc_foo)
    by (split; [unfold str_shape, abc_foo, SIZE_MAX; simpl; lia | reflexivity]).
  split; [exact H1 |].
  exact (ext_str_to_lower_upper_content true c_tolower c_toupper abc_foo H1).
Defined.

Lemma ext_str_join_content_witness :
  x00 ∈ (c_string ", ") /\
  Forall (fun s => x00 ∈ s) foo_bar /\
  Forall str_shape [abc_foo; empty_string] /\
  Z.of_nat (length foo_bar) < 2 ^ 31 /\
  Z.of_nat (length [abc_foo; empty_string]) < 2 ^ 31 /\
  Z.of_nat (length (joined_bytes (c_bytes (c_string ", ")) (c_bytes <$> foo_bar))) < 2 ^ 59 /\
  Z.of_nat (length (joined_bytes (c_bytes (c_string ", ")) (content <$> [abc_foo; empty_string]))) < 2 ^ 59 /\
  ((exists joined,
      ext_str_join xaa (c_string ", ") foo_bar (Z.of_nat (length foo_bar)) = Some joined /\
      str_wf joined /\
      content joined = joined_bytes (c_bytes (c_string ", ")) (c_bytes <$> foo_bar)) /\
   (exists joined,
      ext_str_join_str xaa (c_string ", ") [abc_foo; empty_string] (Z.of_nat (length [abc_foo; empty_string])) = Some joined /\
      str_wf joined /\
      content joined = joined_bytes (c_bytes (c_string ", ")) (content <$> [abc_foo; empty_string]))).
Proof.
  assert (H1 : x00 ∈ (c_string ", "))
    by (vm_compute; repeat constructor; congruence).
  assert (H2 : Forall (fun s => x00 ∈ s) foo_bar)
    by (vm_compute; repeat constructor; congruence).
  assert (H3 : Forall str_shape [abc_foo; empty_string])
    by (repeat constructor; vm_compute; congruence).
  assert (H4 : Z.of_nat (length foo_bar) < 2 ^ 31)
    by (vm_compute; repeat constructor; congruence).
  assert (H5 : Z.of_nat (length [abc_foo; empty_string]) < 2 ^ 31)
    by (vm_compute; repeat constructor; congruence).
  assert (H6 : Z.of_nat (length (joined_bytes (c_bytes (c_string ", ")) (c_bytes <$> foo_bar))) < 2 ^ 59)
    by (vm_compute; repeat constructor; congruence).
  assert (H7 : Z.of_nat (length (joined_bytes (c_bytes (c_string ", ")) (content <$> [abc_foo; empty_string]))) < 2 ^ 59)
    by (vm_compute; repeat constructor; congruence).
  split; [exact H1 |].
  split; [exact H2 |].
  split; [exact H3 |].
  split; [exact H4 |].
  split; [exact H5 |].
  split; [exact H6 |].
  split; [exact H7 |].
  exact (ext_str_join_content xaa (c_string ", ") foo_bar [abc_foo; empty_string] H1 H2 H3 H4 H5 H6 H7).
Defined.

Lemma split_then_join_str_witness :
  str_shape abc_foo /\
  size abc_foo < 2 ^ 31 - 1 /\
  " "%byte <> x00 /\
  (exists vec joined,
     ext_str_split xaa abc_foo " "%byte = Some vec /\
     1 <= Vec.ext_vec_size vec <= 2 ^ 31 - 1 /\
     ext_str_join_str xaa [" "%byte; x00] (cells vec) (Vec.ext_vec_size vec)
       = Some joined /\
     str_wf joined /\ content joined = content abc_foo).
Proof.
  assert (H1 : str_shape abc_foo)
    by (unfold str_shape, abc_foo, SIZE_MAX; simpl; lia).
  assert (H2 : size abc_foo < 2 ^ 31 - 1)
    by (vm_compute; repeat constructor; congruence).
  assert (H3 : " "%byte <> x00)
    by (vm_compute; repeat constructor; congruence).
  split; [exact H1 |].
  split; [exact H2 |].
  split; [exact H3 |].
  exact (split_then_join_str xaa abc_foo " "%byte H1 H2 H3).
Defined.

End StrMoreExamples.

Module MapMoreExamples.
Import Map MapFacts MapMore MapMoreFacts Example MoreExample.

Lemma example_callbacks_agree : callbacks_agree hash compare.
Proof.
  unfold callbacks_agree, compare, hash. split; [| split; [| split]].
  - intros x. apply String.eqb_refl.
  - intros x y H. rewrite String.eqb_sym. done.
  - intros x y z H1 H2. apply String.eqb_eq in H1, H2.
    apply String.eqb_eq. congruence.
  - intros x y H. apply String.eqb_eq in H. rewrite H. done.
Qed.

(** The invariant holds in the table of two records: it holds after
    [ext_map_init], and each of the two puts keeps it. *)
Lemma two_records_inv : map_inv two_records.
Proof.
  pose proof (ext_map_init_inv 16 hash compare example_callbacks_agree) as H0.
  destruct (ext_map_put_inv junk empty_map (mk_entry "a"%string 1) H0
              ltac:(vm_compute; reflexivity) ltac:(vm_compute; reflexivity))
    as (? & ? & m1 & b1 & _ & _ & _ & _ & _ & Hput1 & H1 & _).
  assert (C1 : (fun r => (capacity_mask (fst r), size (fst r))) <$>
               ext_map_put junk empty_map (mk_entry "a"%string 1) = Some (7, 1))
    by (vm_compute; reflexivity).
  rewrite Hput1 in C1. simpl in C1. injection C1 as Hc1 Hs1.
  destruct (ext_map_put_inv junk m1 (mk_entry "b"%string 2) H1
              ltac:(lia) ltac:(unfold SIZE_MAX; lia))
    as (? & ? & m2 & b2 & _ & _ & _ & _ & _ & Hput2 & H2 & _).
  assert (Heq : two_records = m2).
  { unfold two_records, table_after.
    change (take 2 a_to_h) with [mk_entry "a"%string 1; mk_entry "b"%string 2].
    rewrite (put_all_step junk _ _ _ _ _ Hput1).
    rewrite (put_all_step junk _ _ _ _ _ Hput2). done. }
  rewrite Heq. exact H2.
Qed.

Lemma two_records_wf : map_wf two_records.
Proof.
  apply two_records_inv.
Qed.

Lemma iterate_all_live_records_witness :
  map_wf two_records /\
  0 < entry_sz two_records /\
  (capacity_mask two_records + 1) * entry_sz two_records <= SIZE_MAX /\
  (iterate_all two_records = Some (live_records (buckets two_records) (entries two_records)) /\
   Z.of_nat (length (live_records (buckets two_records) (entries two_records))) =
     live_slots two_records /\
   (entries two_records = [] ->
    ext_map_begin two_records = Some None /\ ext_map_end two_records = None)).
Proof.
  assert (H1 : map_wf two_records)
    by (exact two_records_wf).
  assert (H2 : 0 < entry_sz two_records)
    by (vm_compute; repeat constructor; congruence).
  assert (H3 : (capacity_mask two_records + 1) * entry_sz two_records <= SIZE_MAX)
    by (vm_compute; repeat constructor; congruence).
  split; [exact H1 |].
  split; [exact H2 |].
  split; [exact H3 |].
  exact (iterate_all_live_records two_records H1 H2 H3).
Defined.

Lemma ext_map_clear_empties_witness :
  map_wf two_records /\
  (exists map',
     ext_map_clear two_records = Some map' /\
     ext_map_capacity map' = ext_map_capacity two_records /\
     entries map' = entries two_records /\
     map_wf map' /\
     (capacity_mask two_records = 0 -> map' = two_records) /\
     (0 < capacity_mask two_records ->
      size map' = 0 /\ num_entries map' = 0 /\ ext_map_empty map' = true /\
      buckets map' = replicate (length (buckets two_records)) EMPTY_MARK /\
      live_records (buckets map') (entries map') = [] /\
      forall q, ext_map_get map' q = Some None)).
Proof.
  assert (H1 : map_wf two_records)
    by (exact two_records_wf).
  split; [exact H1 |].
  exact (ext_map_clear_empties two_records H1).
Defined.

Lemma ext_map_get_exact_witness :
  map_inv two_records /\
  0 < capacity_mask two_records /\
  ((forall e, ext_map_get two_records (mk_entry "b"%string 0) = Some (Some e) <->
      exists idx b, live_at two_records idx b e /\ Map.compare two_records e (mk_entry "b"%string 0) = true) /\
   (ext_map_get two_records (mk_entry "b"%string 0) = Some None <->
      forall idx b e, live_at two_records idx b e -> Map.compare two_records e (mk_entry "b"%string 0) = false) /\
   (ext_map_get two_records (mk_entry "b"%string 0) = Some None \/
    exists e, ext_map_get two_records (mk_entry "b"%string 0) = Some (Some e))).
Proof.
  assert (H1 : map_inv two_records)
    by (exact two_records_inv).
  assert (H2 : 0 < capacity_mask two_records)
    by (vm_compute; repeat constructor; congruence).
  split; [exact H1 |].
  split; [exact H2 |].
  exact (ext_map_get_exact two_records (mk_entry "b"%string 0) H1 H2).
Defined.

Lemma put_then_get_witness :
  map_inv two_records /\
  capacity_mask two_records < 2 ^ 60 /\
  size two_records < SIZE_MAX /\
  (exists map' b,
     ext_map_put junk two_records (mk_entry "c"%string 3) = Some (map', b) /\
     (forall q, Map.compare two_records (mk_entry "c"%string 3) q = true ->
        ext_map_get map' q = Some (Some (mk_entry "c"%string 3))) /\
     size map' = (if b then size two_records + 1 else size two_records) /\
     (over_load two_records = false ->
      (b = true <-> ext_map_get two_records (mk_entry "c"%string 3) = Some None))).
Proof.
  assert (H1 : map_inv two_records)
    by (exact two_records_inv).
  assert (H2 : capacity_mask two_records < 2 ^ 60)
    by (vm_compute; repeat constructor; congruence).
  assert (H3 : size two_records < SIZE_MAX)
    by (vm_compute; repeat constructor; congruence).
  split; [exact H1 |].
  split; [exact H2 |].
  split; [exact H3 |].
  exact (put_then_get junk two_records (mk_entry "c"%string 3) H1 H2 H3).
Defined.

Lemma put_keeps_other_keys_witness :
  map_inv two_records /\
  capacity_mask two_records < 2 ^ 60 /\
  size two_records < SIZE_MAX /\
  over_load two_records = false /\
  (exists map' b,
     ext_map_put junk two_records (mk_entry "c"%string 3) = Some (map', b) /\
     forall q, Map.compare two_records (mk_entry "c"%string 3) q = false ->
       ext_map_get map' q = ext_map_get two_records q).
Proof.
  assert (H1 : map_inv two_records)
    by (exact two_records_inv).
  assert (H2 : capacity_mask two_records < 2 ^ 60)
    by (vm_compute; repeat constructor; congruence).
  assert (H3 : size two_records < SIZE_MAX)
    by (vm_compute; repeat constructor; congruence).
  assert (H4 : over_load two_records = false)
    by (vm_compute; repeat constructor; congruence).
  split; [exact H1 |].
  split; [exact H2 |].
  split; [exact H3 |].
  split; [exact H4 |].
  exact (put_keeps_other_keys junk two_records (mk_entry "c"%string 3) H1 H2 H3 H4).
Defined.

Lemma erase_then_get_witness :
  map_inv two_records /\
  0 < capacity_mask two_records /\
  (exists map' b,
     ext_map_erase two_records (mk_entry "a"%string 0) = Some (map', b) /\
     (forall q, Map.compare two_records (mk_entry "a"%string 0) q = true ->
        ext_map_get map' q = Some None) /\
     (b = true <-> exists x, ext_map_get two_records (mk_entry "a"%string 0) = Some (Some x)) /\
     (b = true -> size map' = size two_records - 1) /\
     (b = false -> map' = two_records)).
Proof.
  assert (H1 : map_inv two_records)
    by (exact two_records_inv).
  assert (H2 : 0 < capacity_mask two_records)
    by (vm_compute; repeat constructor; congruence).
  split; [exact H1 |].
  split; [exact H2 |].
  exact (erase_then_get two_records (mk_entry "a"%string 0) H1 H2).
Defined.

Lemma erase_keeps_other_keys_witness :
  map_inv two_records /\
  0 < capacity_mask two_records /\
  (exists map' b,
     ext_map_erase two_records (mk_entry "a"%string 0) = Some (map', b) /\
     forall q, Map.compare two_records (mk_entry "a"%string 0) q = false ->
       ext_map_get map' q = ext_map_get two_records q).
Proof.
  assert (H1 : map_inv two_records)
    by (exact two_records_inv).
  assert (H2 : 0 < capacity_mask two_records)
    by (vm_compute; repeat constructor; congruence).
  split; [exact H1 |].
  split; [exact H2 |].
  exact (erase_keeps_other_keys two_records (mk_entry "a"%string 0) H1 H2).
Defined.

Lemma map_grow_rehash_witness :
  map_inv two_records /\
  capacity_mask two_records < 2 ^ 60 /\
  (exists map',
     map_grow junk two_records = Some map' /\ map_inv map' /\
     size map' = size two_records /\
     capacity_mask map' =
       (if capacity_mask two_records =? 0 then INITIAL_CAPACITY - 1
        else 2 * capacity_mask two_records + 1) /\
     num_entries map' = live_slots two_records /\
     Forall not_tomb (buckets map') /\
     (forall idx b e, live_at map' idx b e ->
        idx = Z.land b (capacity_mask map') /\ exists j, live_at two_records j b e) /\
     (0 < capacity_mask two_records ->
      forall q e, ext_map_get map' q = Some (Some e) ->
        ext_map_get two_records q = Some (Some e))).
Proof.
  assert (H1 : map_inv two_records)
    by (exact two_records_inv).
  assert (H2 : capacity_mask two_records < 2 ^ 60)
    by (vm_compute; repeat constructor; congruence).
  split; [exact H1 |].
  split; [exact H2 |].
  exact (map_grow_rehash junk two_records H1 H2).
Defined.

Lemma ext_map_size_counts_live_witness :
  map_inv two_records /\
  size two_records = live_slots two_records /\
  ((capacity_mask two_records < 2 ^ 60 -> size two_records < SIZE_MAX ->
    over_load two_records = false ->
    exists map' b,
      ext_map_put junk two_records (mk_entry "c"%string 3) = Some (map', b) /\
      size map' = live_slots map') /\
   (0 < capacity_mask two_records ->
    exists map' b,
      ext_map_erase two_records (mk_entry "c"%string 3) = Some (map', b) /\
      size map' = live_slots map') /\
   (exists map', ext_map_clear two_records = Some map' /\ size map' = live_slots map')).
Proof.
  assert (H1 : map_inv two_records)
    by (exact two_records_inv).
  assert (H2 : size two_records = live_slots two_records)
    by (vm_compute; repeat constructor; congruence).
  split; [exact H1 |].
  split; [exact H2 |].
  exact (ext_map_size_counts_live junk two_records (mk_entry "c"%string 3) H1 H2).
Defined.

Lemma map_inv_kept_witness :
  callbacks_agree hash compare /\
  map_inv two_records /\
  capacity_mask two_records < 2 ^ 60 /\
  size two_records < SIZE_MAX /\
  0 < capacity_mask two_records /\
  map_inv (ext_map_init 16 hash compare) /\
  (exists map' b,
     ext_map_put junk two_records (mk_entry "c"%string 3) = Some (map', b) /\
     map_inv map') /\
  (exists map' b,
     ext_map_erase two_records (mk_entry "c"%string 3) = Some (map', b) /\
     map_inv map') /\
  (exists map', ext_map_clear two_records = Some map' /\ map_inv map').
Proof.
  assert (H1 : callbacks_agree hash compare) by exact example_callbacks_agree.
  assert (H2 : map_inv two_records) by exact two_records_inv.
  assert (H3 : capacity_mask two_records < 2 ^ 60)
    by (vm_compute; reflexivity).
  assert (H4 : size two_records < SIZE_MAX) by (vm_compute; reflexivity).
  assert (H5 : 0 < capacity_mask two_records) by (vm_compute; reflexivity).
  destruct (map_inv_kept junk 16 hash compare two_records (mk_entry "c"%string 3))
    as [Hinit Hkept].
  destruct (Hkept H2) as (Hput & Herase & Hclear).
  split; [exact H1 |]. split; [exact H2 |]. split; [exact H3 |].
  split; [exact H4 |]. split; [exact H5 |].
  split; [exact (Hinit H1) |]. split; [exact (Hput H3 H4) |].
  split; [exact (Herase H5) |]. exact Hclear.
Defined.

End MapMoreExamples.
